(** * betterbrowse: outline builder, reducer pipeline, differ, action guards

    A shallow embedding of the pure core of the repository
    (browser.js: axTreeToSnapshot and the reference-addressed actions;
    snapshot-optimizer.js, with the baseline and the analysis;
    snapshot-differ.js; agent.js: the observation sent after an action)
    together with the properties the specification states about it and
    further properties read off the code.

    Text.  A JavaScript string is modelled as a [string]: one [ascii] per
    character.  Text outside ASCII travels in its UTF-8 encoding (the arrow
    that compressFlightName and the differ print is the three bytes of
    U+2192).  The character classes of the source's regular expressions
    ([\s], [\w], [\d], [.]) are those of ECMAScript on the ASCII range;
    a byte above 127 belongs to none of [\s], [\w], [\d].  ECMAScript
    counts some characters outside ASCII as white space or as line
    terminators ([WIDE_SPACES]): the properties that depend on [\s] or [.]
    are stated for text that holds none of them ([asciiSpaces]).  Lengths,
    slices and [toLowerCase] are those of the [string]; on ASCII text
    ([asciiText]) they are those of JavaScript. *)

From stdpp Require Import base option gmap.
From Stdlib Require Import String Ascii List Bool Arith ZArith QArith Lia.
From Stdlib Require Import DecimalString.
From Stdlib Require Import DecimalNat.
Import ListNotations.

Local Open Scope string_scope.
Local Open Scope nat_scope.

#[local] Arguments String.append : simpl nomatch.

(** ** Characters *)

Definition DQ : ascii := ascii_of_nat 34.
Definition LF : ascii := ascii_of_nat 10.
Definition CR : ascii := ascii_of_nat 13.
Definition BSL : ascii := ascii_of_nat 92.

(** The one-character string holding a double quote. *)
Definition Quote : string := String DQ EmptyString.
Definition NL : string := String LF EmptyString.

Definition between (lo hi : nat) (c : ascii) : bool :=
  (lo <=? nat_of_ascii c) && (nat_of_ascii c <=? hi).

(** [\s]: TAB, LF, VT, FF, CR, SPACE. *)
Definition is_space (c : ascii) : bool :=
  between 9 13 c || Ascii.eqb c " ".

Definition is_digit (c : ascii) : bool := between 48 57 c.
Definition is_upper (c : ascii) : bool := between 65 90 c.
Definition is_lower (c : ascii) : bool := between 97 122 c.

(** [\w]: letters, digits, underscore. *)
Definition is_word (c : ascii) : bool :=
  is_upper c || is_lower c || is_digit c || Ascii.eqb c "_".

(** Line terminators, which [.] refuses. *)
Definition is_line_terminator (c : ascii) : bool :=
  Ascii.eqb c LF || Ascii.eqb c CR.

Definition lower_char (c : ascii) : ascii :=
  if is_upper c then ascii_of_nat (nat_of_ascii c + 32) else c.
Definition upper_char (c : ascii) : ascii :=
  if is_lower c then ascii_of_nat (nat_of_ascii c - 32) else c.

(** Equality of characters under the [i] flag. *)
Definition eqb_ci (a b : ascii) : bool :=
  Ascii.eqb (lower_char a) (lower_char b).

(** ** String methods *)

Fixpoint map_string (f : ascii -> ascii) (s : string) : string :=
  match s with
  | EmptyString => EmptyString
  | String c s' => String (f c) (map_string f s')
  end.

Definition toLowerCase : string -> string := map_string lower_char.
Definition toUpperCase : string -> string := map_string upper_char.

Fixpoint all_chars (p : ascii -> bool) (s : string) : bool :=
  match s with
  | EmptyString => true
  | String c s' => p c && all_chars p s'
  end.

(** [s.split('\n')], with [cur] the piece being read. *)
Fixpoint split_go (cur : string) (s : string) : list string :=
  match s with
  | EmptyString => [cur]
  | String c s' =>
      if Ascii.eqb c LF then cur :: split_go EmptyString s'
      else split_go (cur ++ String c EmptyString) s'
  end.
Definition split_lines (s : string) : list string := split_go EmptyString s.

(** [parts.join(sep)]. *)
Definition join (sep : string) (parts : list string) : string :=
  String.concat sep parts.
Definition join_lines (ls : list string) : string := join NL ls.

Fixpoint trimStart (s : string) : string :=
  match s with
  | String c s' => if is_space c then trimStart s' else s
  | EmptyString => EmptyString
  end.

(** [trimEnd] keeps a character when something other than white space
    follows it. *)
Fixpoint trimEnd (s : string) : string :=
  match s with
  | EmptyString => EmptyString
  | String c s' =>
      match trimEnd s' with
      | EmptyString => if is_space c then EmptyString else String c EmptyString
      | t => String c t
      end
  end.

Definition trim (s : string) : string := trimEnd (trimStart s).

(** [s.slice(0, n)]. *)
Definition slice0 (n : nat) (s : string) : string := String.substring 0 n s.

(** [s.slice(i)]. *)
Fixpoint drop_string (n : nat) (s : string) : string :=
  match n, s with
  | S n', String _ s' => drop_string n' s'
  | _, _ => s
  end.

(** [s.slice(1, -1)]. *)
Definition slice_1_m1 (s : string) : string :=
  String.substring 1 (String.length s - 2) s.

Fixpoint starts_with (p s : string) : bool :=
  match p, s with
  | EmptyString, _ => true
  | String a p', String b s' => Ascii.eqb a b && starts_with p' s'
  | String _ _, EmptyString => false
  end.

(** [s.includes(sub)]. *)
Fixpoint includes (sub s : string) : bool :=
  starts_with sub s ||
  match s with
  | EmptyString => false
  | String _ s' => includes sub s'
  end.

(** [s.endsWith(suf)]. *)
Fixpoint ends_with (suf s : string) : bool :=
  String.eqb suf s ||
  match s with
  | EmptyString => false
  | String _ s' => ends_with suf s'
  end.

(** [' '.repeat(n)]. *)
Fixpoint repeat_string (s : string) (n : nat) : string :=
  match n with
  | 0 => EmptyString
  | S n' => s ++ repeat_string s n'
  end.

(** A number inside a template literal. *)
Definition show_nat (n : nat) : string :=
  NilZero.string_of_uint (Nat.to_uint n).

(** [name.split] on runs of white space: the pieces between maximal runs. *)
Fixpoint split_ws_go (cur : string) (in_ws : bool) (s : string) : list string :=
  match s with
  | EmptyString => [cur]
  | String c s' =>
      if is_space c then
        if in_ws then split_ws_go cur true s'
        else cur :: split_ws_go EmptyString true s'
      else split_ws_go (cur ++ String c EmptyString) false s'
  end.
Definition split_ws (s : string) : list string := split_ws_go EmptyString false s.

(** ** Regular expressions

    The source leans on ECMAScript regular expressions.  They are run here
    by a backtracking matcher in continuation-passing style that tries the
    alternatives in the order the language prescribes: the left branch of
    [|] first, one more iteration first for a greedy quantifier, stopping
    first for a lazy one.  An iteration of a quantifier has to consume
    input; every quantified atom of the source does. *)

Inductive regex : Type :=
| Eps
| Chr (p : ascii -> bool)
| Seq (r1 r2 : regex)
| Alt (r1 r2 : regex)
| Rep (greedy : bool) (lo : nat) (hi : option nat) (r : regex)
| Group (n : nat) (r : regex)
| Bol
| Eol
| WordB.

Record cursor := Cursor { c_pos : nat; c_prev : option ascii; c_rest : string }.

(** Captures: group number to captured text, the latest first. *)
Definition captures := list (nat * string).

Definition cont := cursor -> captures -> option (cursor * captures).

Definition is_word_opt (o : option ascii) : bool :=
  match o with Some c => is_word c | None => false end.

Definition next_char (s : string) : option ascii :=
  match s with String c _ => Some c | EmptyString => None end.

Definition below (hi : option nat) (cnt : nat) : bool :=
  match hi with Some h => cnt <? h | None => true end.

Definition step := cursor -> captures -> cont -> option (cursor * captures).

(** The iterations of a quantifier whose atom is run by [body]: [cnt]
    iterations are done, [k] is what follows the quantifier.  [fuel]
    bounds the iterations, each of which consumes input. *)
Fixpoint rep_loop (body : step) (greedy : bool) (lo : nat) (hi : option nat) (k : cont)
    (fuel cnt : nat) (x : cursor) (c : captures) {struct fuel}
  : option (cursor * captures) :=
  match fuel with
  | 0 => None
  | S fuel' =>
      let more (_ : unit) :=
        if below hi cnt then
          body x c (fun x' c' =>
            if c_pos x <? c_pos x'
            then rep_loop body greedy lo hi k fuel' (S cnt) x' c'
            else None)
        else None in
      let stop (_ : unit) := if lo <=? cnt then k x c else None in
      if greedy then
        match more tt with
        | Some m => Some m
        | None => stop tt
        end
      else
        match stop tt with
        | Some m => Some m
        | None => more tt
        end
  end.

Fixpoint run (r : regex) (x : cursor) (c : captures) (k : cont) {struct r}
  : option (cursor * captures) :=
  match r with
  | Eps => k x c
  | Chr p =>
      match c_rest x with
      | String a s' => if p a then k (Cursor (S (c_pos x)) (Some a) s') c else None
      | EmptyString => None
      end
  | Seq r1 r2 => run r1 x c (fun x' c' => run r2 x' c' k)
  | Alt r1 r2 =>
      match run r1 x c k with
      | Some m => Some m
      | None => run r2 x c k
      end
  | Group n r1 =>
      run r1 x c (fun x' c' =>
        k x' ((n, String.substring 0 (c_pos x' - c_pos x) (c_rest x)) :: c'))
  | Bol => if c_pos x =? 0 then k x c else None
  | Eol => match c_rest x with EmptyString => k x c | _ => None end
  | WordB =>
      if xorb (is_word_opt (c_prev x)) (is_word_opt (next_char (c_rest x)))
      then k x c else None
  | Rep g lo hi r1 =>
      rep_loop (run r1) g lo hi k (S (String.length (c_rest x))) 0 x c
  end.

Record rmatch := RMatch { m_text : string; m_end : cursor; m_caps : captures }.

(** The continuation at the end of the expression. *)
Definition final : cont := fun x c => Some (x, c).

Definition match_at (r : regex) (x : cursor) : option rmatch :=
  match run r x [] final with
  | Some (x', c') =>
      Some (RMatch (String.substring 0 (c_pos x' - c_pos x) (c_rest x)) x' c')
  | None => None
  end.

(** The leftmost match at or after the cursor, with the text before it. *)
Fixpoint search_from (r : regex) (before : string) (pos : nat) (prev : option ascii)
    (s : string) : option (string * rmatch) :=
  match match_at r (Cursor pos prev s) with
  | Some m => Some (before, m)
  | None =>
      match s with
      | String a s' =>
          search_from r (before ++ String a EmptyString) (S pos) (Some a) s'
      | EmptyString => None
      end
  end.

(** [s.match(re)] for a regular expression without the [g] flag. *)
Definition exec (r : regex) (s : string) : option rmatch :=
  match search_from r EmptyString 0 None s with
  | Some (_, m) => Some m
  | None => None
  end.

(** [re.test(s)]. *)
Definition test (r : regex) (s : string) : bool :=
  match exec r s with Some _ => true | None => false end.

Fixpoint lookup_cap (n : nat) (c : captures) : option string :=
  match c with
  | [] => None
  | (k, t) :: c' => if k =? n then Some t else lookup_cap n c'
  end.

(** The text of group [n], [None] when the group took no part (undefined). *)
Definition group (m : rmatch) (n : nat) : option string := lookup_cap n (m_caps m).

Definition group_or_empty (m : rmatch) (n : nat) : string :=
  match group m n with Some t => t | None => EmptyString end.

(** [s.replace(re, f)] with the [g] flag: every match from left to right,
    the search resuming where the previous match ended (one character
    further after an empty match).  [f] receives the ordinal of the match
    and the match. *)
Fixpoint replace_go (fuel : nat) (r : regex) (f : nat -> rmatch -> string)
    (i : nat) (pos : nat) (prev : option ascii) (s : string) : string :=
  match fuel with
  | 0 => s
  | S fuel' =>
      match match_at r (Cursor pos prev s) with
      | Some m =>
          let x' := m_end m in
          if pos <? c_pos x' then
            f i m ++ replace_go fuel' r f (S i) (c_pos x') (c_prev x') (c_rest x')
          else
            match s with
            | String a s' =>
                f i m ++ String a (replace_go fuel' r f (S i) (S pos) (Some a) s')
            | EmptyString => f i m
            end
      | None =>
          match s with
          | String a s' => String a (replace_go fuel' r f i (S pos) (Some a) s')
          | EmptyString => EmptyString
          end
      end
  end.

Definition replace_all_idx (r : regex) (f : nat -> rmatch -> string) (s : string) : string :=
  replace_go (S (String.length s)) r f 0 0 None s.

Definition replace_all (r : regex) (f : rmatch -> string) (s : string) : string :=
  replace_all_idx r (fun _ => f) s.

(** [s.matchAll(re)] / [s.match(re)] with the [g] flag. *)
Fixpoint matchAll_go (fuel : nat) (r : regex) (pos : nat) (prev : option ascii)
    (s : string) : list rmatch :=
  match fuel with
  | 0 => []
  | S fuel' =>
      match match_at r (Cursor pos prev s) with
      | Some m =>
          let x' := m_end m in
          if pos <? c_pos x' then
            m :: matchAll_go fuel' r (c_pos x') (c_prev x') (c_rest x')
          else
            match s with
            | String a s' => m :: matchAll_go fuel' r (S pos) (Some a) s'
            | EmptyString => [m]
            end
      | None =>
          match s with
          | String a s' => matchAll_go fuel' r (S pos) (Some a) s'
          | EmptyString => []
          end
      end
  end.

Definition matchAll (r : regex) (s : string) : list rmatch :=
  matchAll_go (S (String.length s)) r 0 None s.

(** [s.replace(re, f)] without the [g] flag: the leftmost match only. *)
Definition replace_first (r : regex) (f : rmatch -> string) (s : string) : string :=
  match search_from r EmptyString 0 None s with
  | Some (before, m) => before ++ f m ++ c_rest (m_end m)
  | None => s
  end.

(** *** What a match consumes and records

    [sem r t e]: the expression [r] can consume the text [t], recording
    the captures [e] (latest first).  The assertions consume and record
    nothing; whether they hold at a position is not part of this reading. *)

Fixpoint texts (ps : list (string * captures)) : string :=
  match ps with
  | [] => EmptyString
  | (t, _) :: ps' => t ++ texts ps'
  end.

Fixpoint caps (ps : list (string * captures)) : captures :=
  match ps with
  | [] => []
  | (_, e) :: ps' => (caps ps' ++ e)%list
  end.

Definition within (hi : option nat) (n : nat) : Prop :=
  match hi with Some h => n <= h | None => True end.

Fixpoint sem (r : regex) (t : string) (e : captures) : Prop :=
  match r with
  | Eps | Bol | Eol | WordB => t = EmptyString /\ e = []
  | Chr p => exists a, p a = true /\ t = String a EmptyString /\ e = []
  | Seq r1 r2 =>
      exists t1 t2 e1 e2,
        sem r1 t1 e1 /\ sem r2 t2 e2 /\ t = t1 ++ t2 /\ e = (e2 ++ e1)%list
  | Alt r1 r2 => sem r1 t e \/ sem r2 t e
  | Group n r1 => exists e1, sem r1 t e1 /\ e = (n, t) :: e1
  | Rep _ lo hi r1 =>
      exists ps,
        Forall (fun p => sem r1 (fst p) (snd p)) ps
        /\ t = texts ps /\ e = caps ps
        /\ lo <= List.length ps /\ within hi (List.length ps)
  end.

(** The cursor [x'] is [x] moved over the text [t]. *)
Definition moved (x : cursor) (t : string) (x' : cursor) : Prop :=
  c_rest x = t ++ c_rest x' /\ c_pos x' = c_pos x + String.length t.

(** The number of leading characters that satisfy [p]. *)
Fixpoint span_len (p : ascii -> bool) (s : string) : nat :=
  match s with
  | String a s' => if p a then S (span_len p s') else 0
  | EmptyString => 0
  end.

(** The last character of [t], or [prev] when [t] is empty. *)
Fixpoint last_char (prev : option ascii) (t : string) : option ascii :=
  match t with
  | String a t' => last_char (Some a) t'
  | EmptyString => prev
  end.

(** The cursor after the first [n] characters. *)
Definition skip_chars (n : nat) (x : cursor) : cursor :=
  Cursor (c_pos x + n) (last_char (c_prev x) (String.substring 0 n (c_rest x)))
         (drop_string n (c_rest x)).

(** The cursor that stood at [pos], after [prev] and before [t ++ s], once
    it has moved over [t]. *)
Definition after (t : string) (pos : nat) (prev : option ascii) (s : string) : cursor :=
  Cursor (pos + String.length t) (last_char prev t) s.

(** What a successful run of an atom tells. *)
Definition sound_step (body : step) (r : regex) : Prop :=
  forall x c k res,
    body x c k = Some res ->
    exists t e x', sem r t e /\ moved x t x' /\ k x' (e ++ c)%list = Some res.

(** A continuation that fails wherever a character of the class comes
    next: the greedy class before it never gives a character back. *)
Definition commits (p : ascii -> bool) (k : cont) : Prop :=
  forall pos prev a s c, p a = true -> k (Cursor pos prev (String a s)) c = None.

(** The literal is not empty and does not begin with white space. *)
Definition p_first_not_space (l : string) : Prop :=
  match l with
  | String b _ => is_space b = false
  | EmptyString => False
  end.

(** *** Building blocks *)

Fixpoint seqs (rs : list regex) : regex :=
  match rs with
  | [] => Eps
  | [r] => r
  | r :: rs' => Seq r (seqs rs')
  end.

Fixpoint alts (rs : list regex) : regex :=
  match rs with
  | [] => Chr (fun _ => false)
  | [r] => r
  | r :: rs' => Alt r (alts rs')
  end.

Fixpoint lit (s : string) : regex :=
  match s with
  | EmptyString => Eps
  | String c s' => Seq (Chr (Ascii.eqb c)) (lit s')
  end.

(** A literal under the [i] flag. *)
Fixpoint liti (s : string) : regex :=
  match s with
  | EmptyString => Eps
  | String c s' => Seq (Chr (eqb_ci c)) (liti s')
  end.

Definition star (r : regex) : regex := Rep true 0 None r.
Definition plus (r : regex) : regex := Rep true 1 None r.
Definition opt (r : regex) : regex := Rep true 0 (Some 1) r.
Definition plus_lazy (r : regex) : regex := Rep false 1 None r.
Definition at_least (n : nat) (r : regex) : regex := Rep true n None r.

Definition sp : regex := Chr is_space.
Definition nonsp : regex := Chr (fun c => negb (is_space c)).
Definition digit : regex := Chr is_digit.
Definition word : regex := Chr is_word.
Definition dot : regex := Chr (fun c => negb (is_line_terminator c)).
Definition not_char (a : ascii) : regex := Chr (fun c => negb (Ascii.eqb c a)).

(* ====================================================================== *)
(** * snapshot-optimizer.js *)
(* ====================================================================== *)

Module Optimizer.

(** ** Role sets *)

Definition INTERACTIVE_ROLES : list string :=
  ["button"; "link"; "textbox"; "checkbox"; "radio"; "combobox"; "listbox";
   "menuitem"; "menuitemcheckbox"; "menuitemradio"; "option"; "searchbox";
   "slider"; "spinbutton"; "switch"; "tab"; "treeitem"].

(** [set.has(x)]. *)
Definition has (set : list string) (x : string) : bool :=
  existsb (String.eqb x) set.

(** Truthiness of a possibly-null string: neither null nor empty. *)
Definition truthy (o : option string) : bool :=
  match o with
  | Some (String _ _) => true
  | _ => false
  end.

(** ** Helpers *)

(** REF_PATTERN, [/\[ref=(e\d+)\]/]. *)
Definition REF_PATTERN : regex :=
  seqs [lit "[ref="; Group 1 (Seq (lit "e") (plus digit)); lit "]"].

Fixpoint leading_ws (s : string) : nat :=
  match s with
  | String c s' => if is_space c then S (leading_ws s') else 0
  | EmptyString => 0
  end.

(** The match of the leading white space always succeeds; the level is
    half its length, rounded down. *)
Definition indentLevel (line : string) : nat := leading_ws line / 2.

Record parsed := Parsed {
  prefix : string;
  role : string;
  name : option string;
  suffix : string;
  ref : option string;
  raw : string
}.

(** The pattern of parseLine, written with DQ for the double quote and
    spaces between its parts:
    [^ ( \s* - \s* ) ( \w+ ) (?: \s+ DQ ( [^DQ]* ) DQ )? ( .* ) $] *)
Definition LINE_RE : regex :=
  seqs [Bol;
        Group 1 (seqs [star sp; lit "-"; star sp]);
        Group 2 (plus word);
        opt (seqs [plus sp; lit Quote; Group 3 (star (not_char DQ)); lit Quote]);
        Group 4 (star dot);
        Eol].

Definition first_ref (s : string) : option string :=
  match exec REF_PATTERN s with
  | Some m => group m 1
  | None => None
  end.

Definition parseLine (line : string) : option parsed :=
  match exec LINE_RE line with
  | None => None
  | Some m =>
      let suffix := group_or_empty m 4 in
      Some (Parsed (group_or_empty m 1)
                   (toLowerCase (group_or_empty m 2))
                   (group m 3)
                   suffix
                   (first_ref suffix)
                   line)
  end.

(** The lines of the subtree below the first line of a suffix of the
    outline: getSubtreeEnd(lines, i) - (i + 1) is their number. *)
Fixpoint subtree_lines (startIndent : nat) (rest : list string) : list string :=
  match rest with
  | l :: rest' =>
      if startIndent <? indentLevel l then l :: subtree_lines startIndent rest'
      else []
  | [] => []
  end.

(** Extract all refs from a set of lines. *)
Definition collectRefs (lines : list string) : list string :=
  flat_map (fun line => map (fun m => group_or_empty m 1) (matchAll REF_PATTERN line)) lines.

(** Rebuild a line with role, name, and preserved ref+suffix. *)
Definition buildLine (prefix role : string) (name : option string) (suffix : string) : string :=
  prefix ++ role ++
  match name with Some n => " " ++ Quote ++ n ++ Quote | None => EmptyString end ++
  suffix.

(** ** 2a. Chrome stripping *)

Definition CHROME_NAME_RE : regex :=
  alts [liti "skip to"; liti "cookie"; liti "privacy"; liti "terms of service"].

Definition AD_NAME_RE : regex :=
  alts [Seq Bol (liti "Advertisement"); Seq Bol (liti "Promoted");
        Seq Bol (liti "Sponsored")].

Definition name_test (re : regex) (n : option string) : bool :=
  match n with
  | Some s => truthy n && test re s
  | None => false
  end.

(** isChromeLine(parsed, lines, idx); [line] is lines[idx]. *)
Definition isChromeLine (p : parsed) (line : string) : bool :=
  if String.eqb (role p) "banner" || String.eqb (role p) "contentinfo" then true
  else if String.eqb (role p) "navigation" && (indentLevel line <=? 1) then true
  else if name_test CHROME_NAME_RE (name p) && (indentLevel line <=? 1) then true
  else name_test AD_NAME_RE (name p).

Record chromeRef := ChromeRef {
  cr_ref : string;
  cr_role : string;
  cr_name : option string
}.

(** The entry pushed on chromeRefs for a stripped line, if any. *)
Definition rescued (op : option parsed) : list chromeRef :=
  match op with
  | Some p =>
      match ref p with
      | Some r =>
          if has INTERACTIVE_ROLES (role p) then [ChromeRef r (role p) (name p)]
          else []
      | None => []
      end
  | None => []
  end.

(** The loop of stripChrome over the remaining lines.  [skip] is
    skipUntilIndent ([None] for -1); the result pairs the lines pushed on
    [result] with the entries pushed on [chromeRefs]. *)
Fixpoint stripChrome_loop (skip : option nat) (lines : list string)
  : list string * list chromeRef :=
  match lines with
  | [] => ([], [])
  | line :: rest =>
      let indent := indentLevel line in
      if match skip with Some k => k <? indent | None => false end then
        let '(res, refs) := stripChrome_loop skip rest in
        (res, (rescued (parseLine line) ++ refs)%list)
      else
        match parseLine line with
        | Some p =>
            if isChromeLine p line then
              let '(res, refs) := stripChrome_loop (Some indent) rest in
              (res, (rescued (Some p) ++ refs)%list)
            else
              let '(res, refs) := stripChrome_loop None rest in
              (line :: res, refs)
        | None =>
            let '(res, refs) := stripChrome_loop None rest in
            (line :: res, refs)
        end
  end.

Definition chromeActionLine (r : chromeRef) : string :=
  "  - " ++ cr_role r ++
  (if truthy (cr_name r)
   then " " ++ Quote ++ match cr_name r with Some n => n | None => EmptyString end ++ Quote
   else EmptyString) ++
  " [ref=" ++ cr_ref r ++ "]".

Definition chromeActionsHeader : string := "- group " ++ Quote ++ "chrome-actions" ++ Quote.

Definition stripChrome_lines (lines : list string) : list string :=
  let '(res, refs) := stripChrome_loop None lines in
  match refs with
  | [] => res
  | _ => (res ++ chromeActionsHeader :: map chromeActionLine refs)%list
  end.

Definition stripChrome (snapshot : string) : string :=
  join_lines (stripChrome_lines (split_lines snapshot)).

(** ** 2a2. Dedup repeated link names within articles *)

(** A scope of the scope stack: the article's indent and the names seen. *)
Definition scope := (nat * list string)%type.

(** [while (stack.length > 0 && indent <= top.indent) stack.pop()] *)
Fixpoint pop_scopes (indent : nat) (stack : list scope) : list scope :=
  match stack with
  | (k, seen) :: stack' =>
      if indent <=? k then pop_scopes indent stack' else stack
  | [] => []
  end.

(** The loop of dedupLinks.  [skip] counts the lines the assignment
    [i = end - 1] jumps over; [stack] has its top first. *)
Fixpoint dedupLinks_loop (skip : nat) (stack : list scope) (lines : list string)
  : list string :=
  match lines with
  | [] => []
  | line :: rest =>
      match skip with
      | S skip' => dedupLinks_loop skip' stack rest
      | 0 =>
          let indent := indentLevel line in
          let p := parseLine line in
          let stack := pop_scopes indent stack in
          let is_role r := match p with Some q => String.eqb (role q) r | None => false end in
          let pname := match p with Some q => name q | None => None end in
          if is_role "article" then
            line :: dedupLinks_loop 0 ((indent, []) :: stack) rest
          else
            let img_or_keep stack :=
              if is_role "img" && negb (truthy pname)
              then dedupLinks_loop 0 stack rest
              else line :: dedupLinks_loop 0 stack rest in
            if is_role "link" && truthy pname then
              match stack, pname with
              | (k, seen) :: stack', Some n =>
                  if has seen n then
                    dedupLinks_loop (List.length (subtree_lines indent rest)) stack rest
                  else img_or_keep ((k, (seen ++ [n])%list) :: stack')
              | _, _ => img_or_keep stack
              end
            else img_or_keep stack
      end
  end.

Definition dedupLinks_lines (lines : list string) : list string :=
  dedupLinks_loop 0 [] lines.

Definition dedupLinks (snapshot : string) : string :=
  join_lines (dedupLinks_lines (split_lines snapshot)).

(** ** 2b. Attribute pruning *)

(** A line of the form [- /url: ...] after optional white space. *)
Definition URL_LINE_RE : regex := seqs [Bol; star sp; lit "- /url:"].

(** A quoted name that is an http or https URL, with the space before it. *)
Definition NAME_URL_RE : regex :=
  seqs [lit " "; lit Quote;
        Group 1 (seqs [lit "http"; opt (lit "s"); lit "://"; plus (not_char DQ)]);
        lit Quote].

Definition URL_ATTR_RE : regex :=
  seqs [star sp; lit "[url="; star (not_char "]"); lit "]"].
Definition DESCRIPTION_ATTR_RE : regex :=
  seqs [star sp; lit ("[description=" ++ Quote ++ Quote ++ "]")].
Definition FOCUSED_ATTR_RE : regex := seqs [star sp; lit "[focused]"].
Definition DISABLED_ATTR_RE : regex := seqs [star sp; lit "[disabled=false]"].
Definition LEVEL_ATTR_RE : regex := seqs [star sp; lit "[level="; plus digit; lit "]"].
Definition PLACEHOLDER_RE : regex := seqs [lit "__REF_"; Group 1 (plus digit); lit "__"].

Definition erase (_ : rmatch) : string := EmptyString.

(** [Number(idx)] for a string of decimal digits. *)
Fixpoint number_go (acc : N) (s : string) : N :=
  match s with
  | String c s' => number_go (10 * acc + N.of_nat (nat_of_ascii c - 48))%N s'
  | EmptyString => acc
  end.
Definition Number (s : string) : N := number_go 0%N s.

(** [refs[idx]] inside a replacement: an index past the end is undefined,
    which the replacement prints as such. *)
Definition refs_at (refs : list string) (idx : N) : string :=
  if (idx <? N.of_nat (List.length refs))%N
  then nth (N.to_nat idx) refs EmptyString
  else "undefined".

Section WithURL.

(** [new URL(url)]: the hostname followed by the pathname, or [None] when
    the constructor throws.  URL parsing belongs to the platform. *)
Variable urlHostPath : string -> option string.

Definition pruneAttributes_line (line : string) : string :=
  let refs := map m_text (matchAll REF_PATTERN line) in
  let cleaned :=
    replace_all_idx REF_PATTERN (fun i _ => "__REF_" ++ show_nat i ++ "__") line in
  let cleaned :=
    replace_all NAME_URL_RE
      (fun m => match urlHostPath (group_or_empty m 1) with
                | Some hp => " " ++ Quote ++ hp ++ Quote
                | None => m_text m
                end) cleaned in
  let cleaned := replace_all URL_ATTR_RE erase cleaned in
  let cleaned := replace_all DESCRIPTION_ATTR_RE erase cleaned in
  let cleaned := replace_all FOCUSED_ATTR_RE erase cleaned in
  let cleaned := replace_all DISABLED_ATTR_RE erase cleaned in
  let cleaned := replace_all LEVEL_ATTR_RE erase cleaned in
  replace_all PLACEHOLDER_RE
    (fun m => refs_at refs (Number (group_or_empty m 1))) cleaned.

Definition pruneAttributes_lines (lines : list string) : list string :=
  map pruneAttributes_line (filter (fun line => negb (test URL_LINE_RE line)) lines).

Definition pruneAttributes (snapshot : string) : string :=
  join_lines (pruneAttributes_lines (split_lines snapshot)).

End WithURL.

(** ** 2c. Semantic compression *)

Definition AIRPORT_MAP : list (string * string) :=
  [("san francisco international", "SFO"); ("san francisco", "SFO");
   ("john f. kennedy international", "JFK"); ("john f kennedy international", "JFK");
   ("jfk", "JFK"); ("kennedy", "JFK");
   ("los angeles international", "LAX"); ("los angeles", "LAX");
   ("newark liberty international", "EWR"); ("newark", "EWR");
   ("o'hare international", "ORD"); ("ohare", "ORD");
   ("laguardia", "LGA");
   ("seattle-tacoma international", "SEA"); ("seattle", "SEA");
   ("logan international", "BOS"); ("boston", "BOS");
   ("hartsfield-jackson atlanta international", "ATL");
   ("dallas/fort worth international", "DFW");
   ("denver international", "DEN");
   ("miami international", "MIA")].

Fixpoint airport_lookup (lower : string) (entries : list (string * string))
  : option string :=
  match entries with
  | (key, code) :: entries' =>
      if includes key lower then Some code else airport_lookup lower entries'
  | [] => None
  end.

Definition airportCode (fullName : string) : string :=
  let lower := trim (replace_all (liti "airport") erase (toLowerCase fullName)) in
  match airport_lookup lower AIRPORT_MAP with
  | Some code => code
  | None => toUpperCase (slice0 3 fullName)
  end.

Definition opt_s : regex := opt (liti "s").
Definition LEAVES : regex := Alt (liti "Leaves") (liti "Departs").
Definition CLOCK : regex :=
  seqs [plus digit; lit ":"; plus digit; star sp;
        Chr (fun c => eqb_ci c "A" || eqb_ci c "P"); liti "M"].

Definition PRICE_RE : regex :=
  seqs [opt (seqs [liti "From"; plus sp]); Group 1 (plus digit); star sp;
        liti "US"; star sp; liti "dollar"; opt_s].
Definition AIRLINE_RE : regex :=
  seqs [liti "dollar"; opt_s; opt (lit "."); star sp;
        opt (seqs [liti "round"; star sp; liti "trip"; opt (lit "."); star sp]);
        Group 1 (plus_lazy (Chr (fun c => is_word c || is_space c)));
        opt (lit "."); star sp; LEAVES].
Definition DEP_RE : regex :=
  seqs [LEAVES; plus sp; Group 1 (plus_lazy dot); plus sp; liti "at"; plus sp;
        Group 2 CLOCK].
Definition ARR_RE : regex :=
  seqs [liti "Arrive"; opt_s; plus sp; Group 1 (plus_lazy dot); plus sp;
        liti "at"; plus sp; Group 2 CLOCK].
Definition DUR_RE : regex :=
  seqs [opt (seqs [liti "Total"; plus sp]); liti "duration"; plus sp;
        Group 1 (plus digit); star sp; liti "h"; opt (liti "r"); star sp;
        opt (Group 2 (plus digit)); star sp; liti "min"].
Definition STOPS_RE : regex :=
  Group 1 (Alt (liti "Nonstop") (seqs [plus digit; star sp; liti "stop"; opt_s])).

Definition squeeze (s : string) : string :=
  trim (replace_all (plus sp) (fun _ => " ") s).

Definition ARROW : string := "→".

Definition compressFlightName (name : string) : string :=
  match exec PRICE_RE name, exec DEP_RE name, exec ARR_RE name with
  | Some priceMatch, Some depMatch, Some arrMatch =>
      let price := "$" ++ group_or_empty priceMatch 1 in
      let airline :=
        match exec AIRLINE_RE name with
        | Some airlineMatch => trim (group_or_empty airlineMatch 1)
        | None => EmptyString
        end in
      let depCode := airportCode (group_or_empty depMatch 1) in
      let depTime := replace_all sp erase (group_or_empty depMatch 2) in
      let arrCode := airportCode (group_or_empty arrMatch 1) in
      let arrTime := replace_all sp erase (group_or_empty arrMatch 2) in
      let dur :=
        match exec DUR_RE name with
        | Some durMatch =>
            group_or_empty durMatch 1 ++ "h" ++ group_or_empty durMatch 2
        | None => EmptyString
        end in
      let stops :=
        match exec STOPS_RE name with
        | Some stopsMatch => toLowerCase (group_or_empty stopsMatch 1)
        | None => EmptyString
        end in
      squeeze (airline ++ " " ++ depCode ++ " " ++ depTime ++ ARROW ++ arrCode ++ " "
               ++ arrTime ++ " " ++ dur ++ " " ++ stops ++ " " ++ price)
  | _, _, _ => name
  end.

Definition FROM_DOLLARS_RE : regex :=
  seqs [liti "From "; Group 1 (plus digit); liti " US dollar"; opt_s].
Definition DOLLARS_RE : regex :=
  seqs [Group 1 (plus digit); liti " US dollar"; opt_s].
Definition dollar (m : rmatch) : string := "$" ++ group_or_empty m 1.

Definition bounded (r : regex) : regex := seqs [WordB; r; WordB].

(** The replacements semanticCompress applies to a name that is not a
    flight itinerary. *)
Definition normalizeName (name : string) : string :=
  let name := replace_all FROM_DOLLARS_RE dollar name in
  let name := replace_all DOLLARS_RE dollar name in
  let name := trim (replace_all (at_least 2 sp) (fun _ => " ") name) in
  let name := replace_all (bounded (liti "Nonstop")) (fun _ => "nonstop") name in
  let name := replace_all (bounded (liti "Round trip")) (fun _ => "RT") name in
  let name := replace_all (bounded (liti "one stop")) (fun _ => "1-stop") name in
  replace_all (bounded (Seq (liti "two stop") opt_s)) (fun _ => "2-stop") name.

Definition semanticCompress_line (line : string) : string :=
  match parseLine line with
  | None => line
  | Some p =>
      match name p with
      | Some (String _ _ as n) =>
          let compressed := compressFlightName n in
          if negb (String.eqb compressed n) then
            buildLine (prefix p) (role p) (Some compressed) (suffix p)
          else
            let n' := normalizeName n in
            if negb (String.eqb n' n) then
              buildLine (prefix p) (role p) (Some n') (suffix p)
            else line
      | _ => line
      end
  end.

Definition semanticCompress_lines (lines : list string) : list string :=
  map semanticCompress_line lines.

Definition semanticCompress (snapshot : string) : string :=
  join_lines (semanticCompress_lines (split_lines snapshot)).

(** ** 2d. Smart truncation *)

(** listTracker: the key [`${indent}:${role}`] is kept as a pair. *)
Definition tracker := list ((nat * string) * nat).

Definition key_eqb (a b : nat * string) : bool :=
  (fst a =? fst b) && String.eqb (snd a) (snd b).

Fixpoint tracker_count (key : nat * string) (t : tracker) : nat :=
  match t with
  | (k, n) :: t' => if key_eqb k key then n else tracker_count key t'
  | [] => 0
  end.

Fixpoint tracker_set (key : nat * string) (n : nat) (t : tracker) : tracker :=
  match t with
  | (k, m) :: t' =>
      if key_eqb k key then (k, n) :: t' else (k, m) :: tracker_set key n t'
  | [] => [(key, n)]
  end.

(** countSiblings(lines, i, role) on the suffix lines[i..]. *)
Fixpoint countSiblings (indent : nat) (r : string) (lines : list string) : nat :=
  match lines with
  | l :: rest =>
      let lvl := indentLevel l in
      if lvl <? indent then 0
      else if lvl =? indent then
        match parseLine l with
        | Some p =>
            if String.eqb (role p) r then S (countSiblings indent r rest)
            else countSiblings indent r rest
        | None => countSiblings indent r rest
        end
      else countSiblings indent r rest
  | [] => 0
  end.

(** lines.slice(i, findSiblingGroupEnd(lines, i, role)) on the suffix
    lines[i..]. *)
Fixpoint siblingGroup (indent : nat) (lines : list string) : list string :=
  match lines with
  | l :: rest =>
      if indentLevel l <? indent then [] else l :: siblingGroup indent rest
  | [] => []
  end.

Definition refNote (droppedRefs : list string) : string :=
  match droppedRefs with
  | [] => EmptyString
  | _ =>
      " (" ++ show_nat (List.length droppedRefs) ++ " refs hidden: " ++
      join "," (firstn 3 droppedRefs) ++ "...)"
  end.

Definition summaryLine (indent remaining : nat) (r : string) (note : string) : string :=
  repeat_string " " (indent * 2) ++ "- text " ++ Quote ++ "... and " ++
  show_nat remaining ++ " more " ++ r ++ "s" ++ note ++ Quote.

Definition tracked (r : string) : bool :=
  String.eqb r "listitem" || String.eqb r "row" || String.eqb r "article".

(** The loop of smartTruncate; [skip] counts the lines the assignment
    [i = subtreeEnd - 1] jumps over. *)
Fixpoint smartTruncate_loop (maxItems : nat) (skip : nat) (t : tracker)
    (lines : list string) : list string :=
  match lines with
  | [] => []
  | line :: rest =>
      match skip with
      | S skip' => smartTruncate_loop maxItems skip' t rest
      | 0 =>
          match parseLine line with
          | None => line :: smartTruncate_loop maxItems 0 t rest
          | Some p =>
              if tracked (role p) then
                let indent := indentLevel line in
                let key := (indent, role p) in
                let count := S (tracker_count key t) in
                let t' := tracker_set key count t in
                if count <=? maxItems then
                  line :: smartTruncate_loop maxItems 0 t' rest
                else
                  let below := List.length (subtree_lines indent rest) in
                  if count =? maxItems + 1 then
                    let remaining := countSiblings indent (role p) lines in
                    let droppedRefs := collectRefs (siblingGroup indent lines) in
                    summaryLine indent remaining (role p) (refNote droppedRefs)
                      :: smartTruncate_loop maxItems below t' rest
                  else smartTruncate_loop maxItems below t' rest
              else line :: smartTruncate_loop maxItems 0 t rest
          end
      end
  end.

Definition smartTruncate_lines (maxItems : nat) (lines : list string) : list string :=
  smartTruncate_loop maxItems 0 [] lines.

Definition smartTruncate (snapshot : string) (maxItems : nat) : string :=
  join_lines (smartTruncate_lines maxItems (split_lines snapshot)).

(** ** 2e. Viewport-only filter *)

Definition visible (visibleRefs : list string) (line : string) : bool :=
  match first_ref line with
  | Some r => has visibleRefs r
  | None => false
  end.

Fixpoint viewportOnly_lines (visibleRefs : list string) (lines : list string)
  : list string :=
  match lines with
  | [] => []
  | line :: rest =>
      let keep :=
        match first_ref line with
        | Some r => has visibleRefs r
        | None =>
            existsb (visible visibleRefs) (subtree_lines (indentLevel line) rest)
        end in
      if keep then line :: viewportOnly_lines visibleRefs rest
      else viewportOnly_lines visibleRefs rest
  end.

Definition viewportOnly (snapshot : string) (visibleRefs : option (list string)) : string :=
  match visibleRefs with
  | None | Some [] => snapshot
  | Some refs => join_lines (viewportOnly_lines refs (split_lines snapshot))
  end.

(** ** Interactive-only filter *)

Fixpoint interactiveOnly_lines (lines : list string) : list string :=
  match lines with
  | [] => []
  | line :: rest =>
      let keep :=
        test REF_PATTERN line ||
        match parseLine line with
        | Some _ => existsb (test REF_PATTERN) (subtree_lines (indentLevel line) rest)
        | None => false
        end in
      if keep then line :: interactiveOnly_lines rest
      else interactiveOnly_lines rest
  end.

Definition interactiveOnly (snapshot : string) : string :=
  join_lines (interactiveOnly_lines (split_lines snapshot)).

(** ** 2f. Collapse redundant children *)

(** The test on one child's name: fewer than 60% of its words longer than
    three characters occur in the parent's name.  [contained.length <
    childWords.length * 0.6] is decided on the integers; the product in
    double precision is the exact integer whenever 0.6 times the length is
    one. *)
Definition notContained (parentNameLower childName : string) : bool :=
  let childWords :=
    filter (fun w => 3 <? String.length w) (split_ws (toLowerCase childName)) in
  let contained := filter (fun w => includes w parentNameLower) childWords in
  10 * List.length contained <? 6 * List.length childWords.

(** The scan over the lines of the subtree that computes allRedundant. *)
Fixpoint allRedundant (parentNameLower : string) (children : list string) : bool :=
  match children with
  | [] => true
  | c :: cs =>
      match parseLine c with
      | None => false
      | Some child =>
          if match ref child with Some _ => true | None => false end
             && has INTERACTIVE_ROLES (role child)
          then false
          else
            match name child with
            | Some (String _ _ as n) =>
                if notContained parentNameLower n then false
                else allRedundant parentNameLower cs
            | _ => allRedundant parentNameLower cs
            end
      end
  end.

(** The number of lines the loop jumps over after pushing [line]. *)
Definition collapsible (line : string) (rest : list string) : nat :=
  match parseLine line with
  | Some p =>
      match name p with
      | Some n =>
          if (40 <? String.length n)
             && (String.eqb (role p) "link" || String.eqb (role p) "button")
          then
            let below := subtree_lines (indentLevel line) rest in
            if allRedundant (toLowerCase n) below then List.length below else 0
          else 0
      | None => 0
      end
  | None => 0
  end.

Fixpoint collapse_loop (skip : nat) (lines : list string) : list string :=
  match lines with
  | [] => []
  | line :: rest =>
      match skip with
      | S skip' => collapse_loop skip' rest
      | 0 => line :: collapse_loop (collapsible line rest) rest
      end
  end.

Definition collapseRedundantChildren_lines (lines : list string) : list string :=
  collapse_loop 0 lines.

Definition collapseRedundantChildren (snapshot : string) : string :=
  join_lines (collapseRedundantChildren_lines (split_lines snapshot)).

(** ** 2g. Truncate very long names *)

(** A white-space character followed by characters that are not, up to the
    end: the last white-space character and what follows it. *)
Definition LAST_WORD_RE : regex := seqs [sp; star nonsp; Eol].

Definition truncateName (maxNameLength : nat) (n : string) : string :=
  replace_first LAST_WORD_RE erase (slice0 maxNameLength n) ++ "...".

Definition truncateLongNames_line (maxNameLength : nat) (line : string) : string :=
  match parseLine line with
  | Some p =>
      match name p with
      | Some n =>
          if maxNameLength <? String.length n
          then buildLine (prefix p) (role p) (Some (truncateName maxNameLength n)) (suffix p)
          else line
      | None => line
      end
  | None => line
  end.

Definition truncateLongNames_lines (maxNameLength : nat) (lines : list string)
  : list string :=
  map (truncateLongNames_line maxNameLength) lines.

Definition truncateLongNames (snapshot : string) (maxNameLength : nat) : string :=
  join_lines (truncateLongNames_lines maxNameLength (split_lines snapshot)).

(** ** 2h. Remove noise lines *)

(** [- /placeholder:] after optional white space. *)
Definition PLACEHOLDER_LINE_RE : regex := seqs [Bol; star sp; lit "- /placeholder:"].
(** [- text:] after optional white space, followed by white space only. *)
Definition EMPTY_TEXT_RE : regex := seqs [Bol; star sp; lit "- text:"; star sp; Eol].
(** [- text: ] and a quoted run of white space, ending the line. *)
Definition BLANK_TEXT_RE : regex :=
  seqs [Bol; star sp; lit ("- text: " ++ Quote); star sp; lit Quote; Eol].

Definition isNoise (line : string) : bool :=
  test PLACEHOLDER_LINE_RE line || test EMPTY_TEXT_RE line || test BLANK_TEXT_RE line.

Definition removeNoise_lines (lines : list string) : list string :=
  filter (fun line => negb (isNoise line)) lines.

Definition removeNoise (snapshot : string) : string :=
  join_lines (removeNoise_lines (split_lines snapshot)).

(** ** Composition *)

Record options := Options {
  maxNameLength : option nat;
  maxItems : option nat;
  visibleRefs : option (list string);
  opt_interactiveOnly : bool
}.

Definition defaults : options := Options None None None false.

(** Three or more line feeds in a row. *)
Definition BLANK_RUN_RE : regex := at_least 3 (Chr (Ascii.eqb LF)).

Definition cleanup (s : string) : string :=
  trim (replace_all BLANK_RUN_RE (fun _ => NL ++ NL) s).

Section Composition.

Variable urlHostPath : string -> option string.

Definition optimizeAll (snapshot : string) (o : options) : string :=
  let result := stripChrome snapshot in
  let result := pruneAttributes urlHostPath result in
  let result := removeNoise result in
  let result := dedupLinks result in
  let result := collapseRedundantChildren result in
  let result := semanticCompress result in
  let result := truncateLongNames result (default 120 (maxNameLength o)) in
  let result := smartTruncate result (default 5 (maxItems o)) in
  let result :=
    match visibleRefs o with
    | Some refs => viewportOnly result (Some refs)
    | None => result
    end in
  let result := if opt_interactiveOnly o then interactiveOnly result else result in
  cleanup result.

End Composition.

(** ** 1. Baseline *)

Definition CONTENT_ROLES : list string :=
  ["heading"; "cell"; "gridcell"; "columnheader"; "rowheader";
   "listitem"; "article"; "region"; "main"; "navigation"].

Definition STRUCTURAL_ROLES : list string :=
  ["generic"; "group"; "list"; "table"; "row"; "rowgroup"; "grid";
   "treegrid"; "menu"; "menubar"; "toolbar"; "tablist"; "tree";
   "directory"; "document"; "application"; "presentation"; "none"].

(** The inner loop of compactTree: whether a line with a ref comes before
    the first line that is not deeper than [currentIndent]. *)
Fixpoint hasRefChildren (currentIndent : nat) (rest : list string) : bool :=
  match rest with
  | l :: rest' =>
      if indentLevel l <=? currentIndent then false
      else if test REF_PATTERN l then true
      else hasRefChildren currentIndent rest'
  | [] => false
  end.

Fixpoint compactTree_lines (lines : list string) : list string :=
  match lines with
  | [] => []
  | line :: rest =>
      if test REF_PATTERN line then line :: compactTree_lines rest
      else if includes ":" line && negb (ends_with ":" (trimEnd line))
      then line :: compactTree_lines rest
      else if hasRefChildren (indentLevel line) rest then line :: compactTree_lines rest
      else compactTree_lines rest
  end.

Definition compactTree (tree : string) : string :=
  join_lines (compactTree_lines (split_lines tree)).

(** Whether openclawBaseline gives the parsed line a ref. *)
Definition baselineRef (p : parsed) : bool :=
  has INTERACTIVE_ROLES (role p) || (has CONTENT_ROLES (role p) && truthy (name p)).

(** The loop of openclawBaseline; [counter] is the number of refs given
    so far. *)
Fixpoint openclawBaseline_loop (counter : nat) (lines : list string) : list string :=
  match lines with
  | [] => []
  | line :: rest =>
      match parseLine line with
      | None => line :: openclawBaseline_loop counter rest
      | Some p =>
          if has STRUCTURAL_ROLES (role p) && negb (truthy (name p))
          then openclawBaseline_loop counter rest
          else if baselineRef p then
            buildLine (prefix p) (role p) (name p)
                      (" [ref=e" ++ show_nat (S counter) ++ "]" ++ suffix p)
            :: openclawBaseline_loop (S counter) rest
          else line :: openclawBaseline_loop counter rest
      end
  end.

Definition openclawBaseline (snapshot : string) : string :=
  compactTree (join_lines (openclawBaseline_loop 0 (split_lines snapshot))).

(** ** Analysis *)

Record bucket := Bucket { b_lines : nat; b_chars : nat }.

Record buckets := Buckets {
  chrome : bucket;
  structural : bucket;
  interactive : bucket;
  content : bucket;
  other : bucket
}.

(** One more line of [chars] characters in a bucket. *)
Definition count (chars : nat) (b : bucket) : bucket :=
  Bucket (S (b_lines b)) (b_chars b + chars).

(** The loop of analyzeWaste; [skip] counts the lines of a chrome subtree
    still to be put in the chrome bucket. *)
Fixpoint analyzeWaste_loop (skip : nat) (bs : buckets) (lines : list string) : buckets :=
  match lines with
  | [] => bs
  | line :: rest =>
      let chars := String.length line + 1 in
      let in_chrome :=
        Buckets (count chars (chrome bs)) (structural bs) (interactive bs)
                (content bs) (other bs) in
      let in_other :=
        Buckets (chrome bs) (structural bs) (interactive bs) (content bs)
                (count chars (other bs)) in
      match skip with
      | S skip' => analyzeWaste_loop skip' in_chrome rest
      | 0 =>
          match parseLine line with
          | None => analyzeWaste_loop 0 in_other rest
          | Some p =>
              if isChromeLine p line then
                analyzeWaste_loop (List.length (subtree_lines (indentLevel line) rest))
                                  in_chrome rest
              else if has STRUCTURAL_ROLES (role p) && negb (truthy (name p)) then
                analyzeWaste_loop 0
                  (Buckets (chrome bs) (count chars (structural bs)) (interactive bs)
                           (content bs) (other bs)) rest
              else if has INTERACTIVE_ROLES (role p) then
                analyzeWaste_loop 0
                  (Buckets (chrome bs) (structural bs) (count chars (interactive bs))
                           (content bs) (other bs)) rest
              else if has CONTENT_ROLES (role p) then
                analyzeWaste_loop 0
                  (Buckets (chrome bs) (structural bs) (interactive bs)
                           (count chars (content bs)) (other bs)) rest
              else analyzeWaste_loop 0 in_other rest
          end
      end
  end.

(** The report of analyzeWaste: the five buckets and the total.  The
    source adds to each bucket its share of the total as a percentage
    printed with one decimal, derived from the counts kept here. *)
Record report := Report {
  r_buckets : buckets;
  r_total : bucket
}.

Definition analyzeWaste (snapshot : string) : report :=
  let lines := split_lines snapshot in
  let zero := Bucket 0 0 in
  Report (analyzeWaste_loop 0 (Buckets zero zero zero zero zero) lines)
         (Bucket (List.length lines) (String.length (join_lines lines))).

(** ** Stats helper *)

Definition countRefsInSnapshot (snapshot : string) : nat :=
  List.length (matchAll REF_PATTERN snapshot).

End Optimizer.

(* ====================================================================== *)
(** * browser.js: the outline builder and the action guards *)
(* ====================================================================== *)

Module Browser.

Definition INTERACTIVE_ROLES : list string := Optimizer.INTERACTIVE_ROLES.

Definition SKIP_ROLES : list string :=
  ["none"; "presentation"; "InlineTextBox"; "LineBreak";
   "StaticText"; "RootWebArea"; "ignored"].

Definition has := Optimizer.has.

(** An accessibility node as axTreeToSnapshot reads it: [role] and [name]
    are [node.role?.value || ''] and [node.name?.value || '']; a missing
    parentId or backendDOMNodeId is [None]. *)
Record AXNode := Node {
  nodeId : string;
  parentId : option string;
  role : string;
  name : string;
  backendDOMNodeId : option Z;
  ignored : bool
}.

(** The table of mapRole, in the order of the source. *)
Definition ROLE_MAP : list (string * string) :=
  [("button", "button"); ("link", "link"); ("textbox", "textbox");
   ("TextField", "textbox"); ("checkbox", "checkbox"); ("radio", "radio");
   ("combobox", "combobox"); ("listbox", "listbox"); ("menuitem", "menuitem");
   ("option", "option"); ("searchbox", "searchbox"); ("slider", "slider");
   ("spinbutton", "spinbutton"); ("switch", "switch"); ("tab", "tab");
   ("treeitem", "treeitem"); ("heading", "heading"); ("cell", "cell");
   ("gridcell", "gridcell"); ("columnheader", "columnheader");
   ("rowheader", "rowheader"); ("listitem", "listitem"); ("article", "article");
   ("region", "region"); ("main", "main"); ("navigation", "navigation");
   ("dialog", "dialog"); ("document", "document"); ("group", "group");
   ("list", "list"); ("table", "table"); ("row", "row"); ("generic", "generic");
   ("text", "text"); ("strong", "strong"); ("emphasis", "emphasis");
   ("paragraph", "text"); ("Section", "region"); ("WebArea", "document");
   ("banner", "banner"); ("contentinfo", "contentinfo");
   ("complementary", "region"); ("form", "group"); ("search", "searchbox");
   ("img", "img"); ("image", "img"); ("figure", "figure"); ("menu", "menu");
   ("menubar", "menubar"); ("toolbar", "toolbar"); ("tablist", "tablist");
   ("tree", "tree"); ("grid", "grid"); ("rowgroup", "rowgroup");
   ("status", "status"); ("alert", "alert"); ("separator", "separator");
   ("progressbar", "progressbar")].

Fixpoint assoc (k : string) (l : list (string * string)) : option string :=
  match l with
  | (k', v) :: l' => if String.eqb k' k then Some v else assoc k l'
  | [] => None
  end.

(** mapRole(cdpRole): the table entry, or null.  The table of the source
    is an object literal, which answers for the names of the properties
    every object inherits (constructor, toString, ...) with a function or
    an object of the engine; here such a name is absent from the table.
    The properties that depend on the lookup are stated for nodes whose
    role is none of these names ([tableRoles]). *)
Definition mapRole (cdpRole : string) : option string := assoc cdpRole ROLE_MAP.

(** The handle map, a JavaScript Map from ref to backendDOMNodeId: the
    entries in insertion order. *)
Definition RefMap := list (string * Z).

Fixpoint refMap_get (ref : string) (m : RefMap) : option Z :=
  match m with
  | (k, v) :: m' => if String.eqb k ref then Some v else refMap_get ref m'
  | [] => None
  end.

(** [m.set(ref, v)]: an existing key keeps its place. *)
Fixpoint refMap_set (ref : string) (v : Z) (m : RefMap) : RefMap :=
  match m with
  | (k, w) :: m' =>
      if String.eqb k ref then (k, v) :: m' else (k, w) :: refMap_set ref v m'
  | [] => [(ref, v)]
  end.

Definition refMap_keys (m : RefMap) : list string := map fst m.

(** A line of the outline before it is printed. *)
Record OutLine := Line {
  ol_depth : nat;
  ol_role : string;
  ol_name : string;
  ol_ref : option string
}.

Definition render (l : OutLine) : string :=
  repeat_string "  " (ol_depth l) ++ "- " ++ ol_role l ++
  match ol_name l with
  | EmptyString => EmptyString
  | n => " " ++ Quote ++ n ++ Quote
  end ++
  match ol_ref l with
  | Some r => " [ref=" ++ r ++ "]"
  | None => EmptyString
  end.

(** The variables renderNode closes over. *)
Record state := State {
  refMap : RefMap;
  refCounter : nat;
  lines : list OutLine
}.

(** The two indexes built from the node list. *)
Definition indexes := (gmap string (list string) * gmap string AXNode)%type.

Definition index_node (ix : indexes) (node : AXNode) : indexes :=
  let '(childMap, nodeMap) := ix in
  (match parentId node with
   | Some p => <[p := (default [] (childMap !! p) ++ [nodeId node])%list]> childMap
   | None => childMap
   end,
   <[nodeId node := node]> nodeMap).

Definition index_nodes (nodes : list AXNode) : indexes :=
  fold_left index_node nodes (∅, ∅).

Definition handle (node : AXNode) : option Z :=
  match backendDOMNodeId node with
  | Some z => if (z =? 0)%Z then None else Some z
  | None => None
  end.

(** Whether renderNode gives the node a ref. *)
Definition gets_ref (mappedRole nm : string) : bool :=
  has INTERACTIVE_ROLES mappedRole ||
  (negb (String.eqb nm EmptyString) && negb (String.eqb mappedRole "generic")
   && negb (String.eqb mappedRole "text")).

(** The part of renderNode that assigns the ref and pushes the line. *)
Definition emit (node : AXNode) (mappedRole : string) (depth : nat) (s : state) : state :=
  if gets_ref mappedRole (name node) then
    let refCounter := S (refCounter s) in
    let refId := "e" ++ show_nat refCounter in
    State (match handle node with
           | Some h => refMap_set refId h (refMap s)
           | None => refMap s
           end)
          refCounter
          (lines s ++ [Line depth mappedRole (name node) (Some refId)])%list
  else
    State (refMap s) (refCounter s)
          (lines s ++ [Line depth mappedRole (name node) None])%list.

(** renderNode(nodeId, depth).  The recursion follows parent links that
    the input need not make a tree, so it is bounded by [fuel]; [None]
    stands for a recursion that does not come back. *)
Fixpoint renderNode (fuel : nat) (ix : indexes) (id : string) (depth : nat)
    (s : state) {struct fuel} : option state :=
  match fuel with
  | 0 => None
  | S fuel' =>
      let renderAll :=
        fix renderAll (children : list string) (depth : nat) (s : state)
            {struct children} : option state :=
          match children with
          | [] => Some s
          | cid :: rest =>
              match renderNode fuel' ix cid depth s with
              | Some s' => renderAll rest depth s'
              | None => None
              end
          end in
      match snd ix !! id with
      | None => Some s
      | Some node =>
          let children := default [] (fst ix !! id) in
          if String.eqb (role node) "InlineTextBox" || String.eqb (role node) "LineBreak"
          then Some s
          else if has SKIP_ROLES (role node) || String.eqb (role node) "none"
          then renderAll children depth s
          else
            match mapRole (role node) with
            | None => renderAll children depth s
            | Some mappedRole =>
                if ignored node && match children with [] => true | _ => false end
                then Some s
                else renderAll children (S depth) (emit node mappedRole depth s)
            end
      end
  end.

Fixpoint renderAll (fuel : nat) (ix : indexes) (children : list string) (depth : nat)
    (s : state) : option state :=
  match children with
  | [] => Some s
  | cid :: rest =>
      match renderNode fuel ix cid depth s with
      | Some s' => renderAll fuel ix rest depth s'
      | None => None
      end
  end.

(** [nodes.find(n => n.parentId == null) || nodes[0]] *)
Definition find_root (nodes : list AXNode) : option AXNode :=
  match find (fun n => match parentId n with None => true | Some _ => false end) nodes with
  | Some n => Some n
  | None => head nodes
  end.

Definition axTree (fuel : nat) (nodes : list AXNode) : option state :=
  match nodes with
  | [] => Some (State [] 0 [])
  | _ =>
      let ix := index_nodes nodes in
      match find_root nodes with
      | Some root =>
          renderAll fuel ix (default [] (fst ix !! nodeId root)) 0 (State [] 0 [])
      | None => Some (State [] 0 [])
      end
  end.

(** axTreeToSnapshot(nodes): the outline and the handle map. *)
Definition axTreeToSnapshot (fuel : nat) (nodes : list AXNode) : option (string * RefMap) :=
  match axTree fuel nodes with
  | Some s => Some (join_lines (map render (lines s)), refMap s)
  | None => None
  end.

(** ** Reference-addressed actions

    Each action starts by looking its ref up in this._refMap and throws
    when the handle is missing; what follows the guard is a dialogue with
    the browser and is not modelled.  [Throw msg] is the thrown Error,
    [Resolved h] the handle the action goes on with. *)

Inductive guard := Throw (message : string) | Resolved (backendNodeId : Z).

Definition truthy_handle (o : option Z) : option Z :=
  match o with
  | Some z => if (z =? 0)%Z then None else Some z
  | None => None
  end.

Definition clickRef (m : RefMap) (ref : string) : guard :=
  match truthy_handle (refMap_get ref m) with
  | Some h => Resolved h
  | None =>
      Throw ("Unknown ref: " ++ ref ++ ". Available refs: " ++
             join ", " (firstn 10 (refMap_keys m)) ++ "...")
  end.

Definition fillRef (m : RefMap) (ref : string) (text : string) : guard :=
  match truthy_handle (refMap_get ref m) with
  | Some h => Resolved h
  | None => Throw ("Unknown ref: " ++ ref)
  end.

Definition hover (m : RefMap) (ref : string) : guard :=
  match truthy_handle (refMap_get ref m) with
  | Some h => Resolved h
  | None => Throw ("Unknown ref: " ++ ref)
  end.

Definition selectOption (m : RefMap) (ref : string) (value : string) : guard :=
  match truthy_handle (refMap_get ref m) with
  | Some h => Resolved h
  | None => Throw ("Unknown ref: " ++ ref)
  end.

End Browser.

(* ====================================================================== *)
(** * snapshot-differ.js *)
(* ====================================================================== *)

Module Differ.

(** The roles ELEMENT_RE accepts, in the order of its alternation. *)
Definition ELEMENT_ROLES : list string :=
  ["button"; "link"; "textbox"; "checkbox"; "radio"; "combobox"; "listbox";
   "menuitem"; "menuitemcheckbox"; "menuitemradio"; "option"; "searchbox";
   "slider"; "spinbutton"; "switch"; "tab"; "treeitem"; "heading"; "cell";
   "gridcell"; "columnheader"; "rowheader"; "listitem"; "article"; "region";
   "main"; "navigation"; "dialog"; "document"; "group"; "list"; "table"; "row";
   "generic"; "text"; "strong"; "emphasis"; "mark"].

(** A quoted name: a double quote, then characters other than the double
    quote and the backslash or a backslash followed by any character, then
    a double quote. *)
Definition QUOTED : regex :=
  seqs [lit Quote;
        star (Alt (Chr (fun c => negb (Ascii.eqb c DQ || Ascii.eqb c BSL)))
                  (Seq (Chr (Ascii.eqb BSL)) dot));
        lit Quote].

(** ELEMENT_RE: indent (group 1), a dash, a role of the alternation
    (group 2), an optional quoted name (group 3) and an optional
    [[ref=e<digits>]] (group 4), each after optional white space.  The
    pattern is not anchored at its end. *)
Definition ELEMENT_RE : regex :=
  seqs [Bol; Group 1 (star sp); lit "-"; star sp;
        Group 2 (alts (map lit ELEMENT_ROLES)); star sp;
        opt (Group 3 QUOTED); star sp;
        opt (seqs [lit "[ref="; Group 4 (Seq (lit "e") (plus digit)); lit "]"])].

Record element := Element {
  role : string;
  name : string;
  ref : option string;
  display : string;
  indent : nat
}.

(** A dash and the white space after it, at the start. *)
Definition DASH_RE : regex := seqs [Bol; lit "-"; star sp].

Definition parseElement (line : string) : option element :=
  match exec ELEMENT_RE line with
  | None => None
  | Some m =>
      Some (Element (group_or_empty m 2)
                    (match group m 3 with
                     | Some nameQuoted => slice_1_m1 nameQuoted
                     | None => EmptyString
                     end)
                    (group m 4)
                    (replace_first DASH_RE (fun _ => EmptyString) (trimStart line))
                    (String.length (group_or_empty m 1)))
  end.

Fixpoint omap_list {A B} (f : A -> option B) (l : list A) : list B :=
  match l with
  | [] => []
  | a :: l' =>
      match f a with
      | Some b => b :: omap_list f l'
      | None => omap_list f l'
      end
  end.

(** Parse a snapshot string into a flat list of elements. *)
Definition parseElements (snapshot : string) : list element :=
  match snapshot with
  | EmptyString => []
  | _ => omap_list parseElement (split_lines snapshot)
  end.

(** A heading with a quoted name, at the start of the trimmed line. *)
Definition HEADING_RE : regex :=
  seqs [Bol; lit "-"; star sp; lit "heading"; plus sp; lit Quote;
        Group 1 (star (not_char DQ)); lit Quote].

(** extractContext(snapshot).title: the name of the first heading; an
    empty title counts as none and is overwritten by a later heading. *)
Fixpoint first_title (title : option string) (lines : list string) : option string :=
  match lines with
  | [] => title
  | line :: rest =>
      if Optimizer.truthy title then title
      else
        match exec HEADING_RE (trimStart line) with
        | Some m => first_title (Some (group_or_empty m 1)) rest
        | None => first_title title rest
        end
  end.

Definition extractTitle (snapshot : string) : option string :=
  first_title None (split_lines snapshot).

(** The key [`${el.role}::${el.name}`]. *)
Definition roleName (el : element) : string := role el ++ "::" ++ name el.

(** prevByRef: a later element with the same ref replaces the earlier. *)
Definition byRef (els : list element) : gmap string element :=
  fold_left (fun m el => match ref el with Some r => <[r := el]> m | None => m end)
            els ∅.

(** prevByRoleName: the first element with a key stays. *)
Definition byRoleName (els : list element) : gmap string element :=
  fold_left (fun m el =>
               match m !! roleName el with
               | Some _ => m
               | None => <[roleName el := el]> m
               end)
            els ∅.

(** The previous element a current element is matched with, and the match
    key recorded for it. *)
Definition matchPrev (prevByRef prevByRoleName : gmap string element) (el : element)
  : option (element * string) :=
  match (match ref el with
         | Some r =>
             match prevByRef !! r with
             | Some prevEl => Some (prevEl, "ref:" ++ r)
             | None => None
             end
         | None => None
         end) with
  | Some found => Some found
  | None =>
      match prevByRoleName !! roleName el with
      | Some prevEl => Some (prevEl, "rn:" ++ roleName el)
      | None => None
      end
  end.

Definition opt_eqb (a b : option string) : bool :=
  match a, b with
  | Some x, Some y => String.eqb x y
  | None, None => true
  | _, _ => false
  end.

(** [el.ref && prevEl.ref === el.ref && el.name !== prevEl.name] *)
Definition isChanged (el prevEl : element) : bool :=
  match ref el with
  | Some _ => opt_eqb (ref prevEl) (ref el) && negb (String.eqb (name el) (name prevEl))
  | None => false
  end.

(** What the matching loop accumulates. *)
Record matching := Matching {
  added : list element;
  changed : list (element * element);
  unchanged : nat;
  matchedPrevKeys : gset string
}.

Definition match_step (prevByRef prevByRoleName : gmap string element)
    (acc : matching) (el : element) : matching :=
  match matchPrev prevByRef prevByRoleName el with
  | Some (prevEl, matchKey) =>
      let keys := {[ matchKey ]} ∪ matchedPrevKeys acc in
      if isChanged el prevEl then
        Matching (added acc) (changed acc ++ [(el, prevEl)])%list (unchanged acc) keys
      else
        Matching (added acc) (changed acc) (S (unchanged acc)) keys
  | None =>
      Matching (added acc ++ [el])%list (changed acc) (unchanged acc)
               (matchedPrevKeys acc)
  end.

Definition match_all (prev curr : list element) : matching :=
  fold_left (match_step (byRef prev) (byRoleName prev)) curr (Matching [] [] 0 ∅).

Definition in_keys (k : string) (keys : gset string) : bool :=
  bool_decide (k ∈ keys).

(** Whether a previous element counts as matched. *)
Definition isMatched (keys : gset string) (el : element) : bool :=
  match ref el with
  | Some r => in_keys ("ref:" ++ r) keys
  | None => false
  end
  || in_keys ("rn:" ++ roleName el) keys.

Definition NOISE_ROLES : list string :=
  ["generic"; "group"; "list"; "table"; "row"; "document"; "text"; "strong";
   "emphasis"; "mark"].

Definition filterNoise (el : element) : bool :=
  negb (Optimizer.has NOISE_ROLES (role el)).

Record stats := Stats {
  st_added : nat;
  st_removed : nat;
  st_changed : nat;
  st_unchanged : nat;
  st_total : nat;
  st_diffRatio : Q
}.

Record diffResult := DiffResult {
  diff : string;
  diff_stats : stats;
  isLargeDiff : bool;
  isEmpty : bool
}.

Definition refStr (el : element) : string :=
  match ref el with Some r => " [ref=" ++ r ++ "]" | None => EmptyString end.
Definition nameStr (el : element) : string :=
  match name el with EmptyString => EmptyString | n => " " ++ Quote ++ n ++ Quote end.

Definition nonempty (s : string) : bool :=
  match s with EmptyString => false | _ => true end.

Definition addedLine (el : element) : string :=
  "+ " ++ role el ++ nameStr el ++ refStr el.
Definition removedLine (el : element) : string :=
  "- " ++ role el ++ nameStr el ++ refStr el.
Definition changedLine (c : element * element) : string :=
  let '(el, prevEl) := c in
  "~ " ++ role el ++ refStr el ++ ": " ++ Quote ++ name prevEl ++ Quote ++
  " → " ++ Quote ++ name el ++ Quote.

Definition urlLines (prevUrl currUrl : string) : list string :=
  ("URL: " ++ currUrl) ::
  (if nonempty prevUrl && negb (String.eqb currUrl prevUrl)
   then ["CHANGED from " ++ prevUrl] else []).

Definition titleLines (title : option string) : list string :=
  match title with
  | Some (String _ _ as t) => ["Title: " ++ t]
  | _ => []
  end.

Definition unchangedLines (unchanged : nat) : list string :=
  if 0 <? unchanged
  then ["= " ++ show_nat unchanged ++ " unchanged elements (not shown)"]
  else [].

(** The lines of the rendered diff. *)
Definition diffLines (prevUrl currUrl : string) (title : option string)
    (filteredAdded filteredRemoved : list element)
    (changed : list (element * element)) (unchanged : nat) : list string :=
  (urlLines prevUrl currUrl
   ++ titleLines title
   ++ [EmptyString]
   ++ map addedLine filteredAdded
   ++ map removedLine filteredRemoved
   ++ map changedLine changed
   ++ unchangedLines unchanged)%list.

(** computeDiff(prevSnapshot, currSnapshot, prevUrl, currUrl).  The ratio
    is kept as a rational: numerator and denominator are array lengths,
    for which the quotient in double precision exceeds the double nearest
    to 0.7 exactly when the rational exceeds 7/10. *)
Definition computeDiff (prevSnapshot currSnapshot prevUrl currUrl : string) : diffResult :=
  let prev := parseElements prevSnapshot in
  let curr := parseElements currSnapshot in
  let m := match_all prev curr in
  let removed := filter (fun el => negb (isMatched (matchedPrevKeys m) el)) prev in
  let filteredAdded := filter filterNoise (added m) in
  let filteredRemoved := filter filterNoise removed in
  let diffText :=
    join_lines (diffLines prevUrl currUrl (extractTitle currSnapshot)
                          filteredAdded filteredRemoved (changed m) (unchanged m)) in
  let totalElements := List.length curr in
  let changedElements :=
    List.length filteredAdded + List.length filteredRemoved + List.length (changed m) in
  let diffRatio :=
    if 0 <? totalElements
    then Z.of_nat changedElements # Pos.of_nat totalElements
    else 1%Q in
  DiffResult diffText
             (Stats (List.length filteredAdded) (List.length filteredRemoved)
                    (List.length (changed m)) (unchanged m) totalElements diffRatio)
             (negb (Qle_bool diffRatio (7 # 10)))
             (changedElements =? 0).

End Differ.

(* ====================================================================== *)
(** * agent.js: what the agent is shown after an action *)
(* ====================================================================== *)

Module Agent.

(** The observation message of browseWeb, built from the result of the
    action as the template prints it, the diff, and the new URL and
    snapshot. *)
Definition observation (result : string) (d : Differ.diffResult)
    (currentUrl snapshot : string) : string :=
  if Differ.isEmpty d then
    "Action: " ++ result ++ NL ++ "No visible changes on the page."
  else if Differ.isLargeDiff d then
    "Action: " ++ result ++ NL ++ "URL: " ++ currentUrl ++ NL ++ NL ++
    "New page snapshot:" ++ NL ++ snapshot
  else
    "Action: " ++ result ++ NL ++ NL ++ "Changes:" ++ NL ++ Differ.diff d.

(** The observation after an action that led from [prevSnapshot] at
    [prevUrl] to [snapshot] at [currentUrl]. *)
Definition observe (result prevSnapshot snapshot prevUrl currentUrl : string) : string :=
  observation result (Differ.computeDiff prevSnapshot snapshot prevUrl currentUrl)
              currentUrl snapshot.

End Agent.

(* ====================================================================== *)
(** * Vocabulary of the statements *)
(* ====================================================================== *)

(** ** Outlines used as examples *)

Definition oneButton : string := "- button " ++ Quote ++ "Go" ++ Quote ++ " [ref=e1]".

(** Two buttons that share the ref e1 under different names. *)
Definition twoNames : string :=
  "- button " ++ Quote ++ "A" ++ Quote ++ " [ref=e1]" ++ NL ++
  "- button " ++ Quote ++ "B" ++ Quote ++ " [ref=e1]".

(** ** Predicates on the differ's input *)

(** Elements that carry the same ref carry the same name. *)
Definition refsAgree (els : list Differ.element) : bool :=
  forallb (fun a =>
    forallb (fun b =>
      negb (Differ.opt_eqb (Differ.ref a) (Differ.ref b)) ||
      match Differ.ref a with
      | Some _ => String.eqb (Differ.name a) (Differ.name b)
      | None => true
      end) els) els.

(** The refs of the elements, in order. *)
Definition refsOf (els : list Differ.element) : list string :=
  flat_map (fun el => match Differ.ref el with Some r => [r] | None => [] end) els.

(** Every ref occurs on one element only. *)
Definition refsOnce (els : list Differ.element) : Prop := NoDup (refsOf els).

(** Every element has a role the noise filter discards. *)
Definition allNoise (els : list Differ.element) : bool :=
  forallb (fun el => negb (Differ.filterNoise el)) els.

(** The comparison [(added + removed + changed) / total > 0.7] of the
    specification, with the division of JavaScript: a positive count over
    zero is Infinity, which exceeds 0.7; zero over zero is NaN, which
    exceeds nothing. *)
Definition ratioExceeds (changedElements total : nat) : bool :=
  match total with
  | 0 => negb (changedElements =? 0)
  | _ => negb (Qle_bool (Z.of_nat changedElements # Pos.of_nat total) (7 # 10))
  end.

(** ** The shapes removeNoise drops *)

(** After optional white space the line begins with [- /placeholder:]. *)
Definition placeholderShape (line : string) : bool :=
  starts_with "- /placeholder:" (trimStart line).

(** After optional white space the line is [- text:] followed by white
    space only. *)
Definition emptyTextShape (line : string) : bool :=
  starts_with "- text:" (trimStart line)
  && all_chars is_space (drop_string 7 (trimStart line)).

(** After optional white space the line is [- text: ] followed by a quoted
    run of white space. *)
Definition blankTextShape (line : string) : bool :=
  starts_with ("- text: " ++ Quote) (trimStart line)
  && String.eqb (trimStart (drop_string 9 (trimStart line))) Quote.

Definition noiseShape (line : string) : bool :=
  placeholderShape line || emptyTextShape line || blankTextShape line.

(** A text line as the outline grammar writes it: a quoted name, no colon. *)
Definition grammarText (indent name : string) : string :=
  indent ++ "- text " ++ Quote ++ name ++ Quote.

(** The three colon forms around a text line of the grammar. *)
Definition noisyOutline : string :=
  "  - /placeholder: Search" ++ NL ++ "- text:  " ++ NL ++
  grammarText "  " " " ++ NL ++ "- text: " ++ Quote ++ " " ++ Quote.

(** ** Ref tags on lines *)

Definition tag (r : string) : string := "[ref=" ++ r ++ "]".

(** The text holds the tag of [r]. *)
Definition hasTag (r text : string) : bool := includes (tag r) text.

(** The text holds no opening bracket. *)
Definition bracket_free (s : string) : bool :=
  all_chars (fun c => negb (Ascii.eqb c "[")) s.








Definition linkLine (name r : string) : string :=
  "  - link " ++ Quote ++ name ++ Quote ++ " " ++ tag r.


(** A banner over a link. *)
Definition bannerOutline : string := "- banner" ++ NL ++ linkLine "Sign in" "e1".





Definition longHeading : string :=
  "- heading " ++ Quote ++ repeat_string "x" 118 ++ " " ++ repeat_string "y" 20 ++ Quote.

(** No three line feeds in a row. *)
Fixpoint noBlankRun (s : string) : bool :=
  match s with
  | EmptyString => true
  | String _ s' => (span_len (Ascii.eqb LF) s <? 3) && noBlankRun s'
  end.

(** ** Lines that parse *)

(** The parts of a line that parseLine accepts. *)
Record lineParts := LineParts {
  lp_indent : string;   (* white space before the dash *)
  lp_gap : string;      (* white space after the dash *)
  lp_role : string;     (* the role as written *)
  lp_name : option (string * string)   (* white space before the name, the name *)
}.

Definition nameText (o : option (string * string)) : string :=
  match o with
  | Some (w, n) => w ++ Quote ++ n ++ Quote
  | None => EmptyString
  end.

(** The line feed as a class. *)
Abbreviation isLF := (Ascii.eqb LF).

(** ** Sibling groups for smartTruncate *)

(** A sibling with the lines of its subtree. *)
Definition block := (string * list string)%type.

Definition flatten (bs : list block) : list string :=
  flat_map (fun b => fst b :: snd b) bs.

(** The line parses to a listitem at indent level [d]. *)
Definition isItem (d : nat) (line : string) : bool :=
  match Optimizer.parseLine line with
  | Some p => String.eqb (Optimizer.role p) "listitem" && (Optimizer.indentLevel line =? d)
  | None => false
  end.

(** The line is none of the roles smartTruncate counts. *)
Definition untracked (line : string) : bool :=
  match Optimizer.parseLine line with
  | Some p => negb (Optimizer.tracked (Optimizer.role p))
  | None => true
  end.

Definition deeper (d : nat) (line : string) : bool := d <? Optimizer.indentLevel line.

(** A listitem at level [d] over a subtree of deeper lines. *)
Definition itemBlock (d : nat) (b : block) : bool :=
  isItem d (fst b) && forallb (deeper d) (snd b).

(** An item block whose subtree holds no listitem, row or article. *)
Definition plainBlock (d : nat) (b : block) : bool :=
  itemBlock d b && forallb untracked (snd b).

(** What follows the siblings: nothing, or lines that start above level
    [d] and hold no listitem, row or article. *)
Definition afterGroup (d : nat) (post : list string) : bool :=
  match post with
  | [] => true
  | l :: _ => Optimizer.indentLevel l <? d
  end && forallb untracked post.

Definition noLF (line : string) : bool :=
  all_chars (fun c => negb (Ascii.eqb c LF)) line.

(** A ref token: the letter e and at least one digit. *)
Definition refToken (r : string) : Prop :=
  exists ds, r = "e" ++ ds /\ ds <> EmptyString /\ all_chars is_digit ds = true.

(** The note of the summary line as scenario S6 writes it: nothing, or a
    count and up to three ref tokens separated by commas. *)
Definition noteShape (note : string) : Prop :=
  note = EmptyString
  \/ exists count refs,
       count <> EmptyString /\ all_chars is_digit count = true
       /\ refs <> [] /\ List.length refs <= 3 /\ Forall refToken refs
       /\ note = " (" ++ count ++ " refs hidden: " ++ join "," refs ++ "...)".

(** The refs after the first, each behind its comma. *)
Definition tailRefs (rs : list string) : string :=
  String.concat EmptyString (map (fun r => "," ++ r) rs).

(** The pattern of scenario S6 for the summary line:
    white space, [- text], and in quotes [... and 15 more listitems],
    optionally followed by the note. *)
Definition REF_TOKEN_RE : regex := Seq (lit "e") (plus digit).
Definition SUMMARY_RE : regex :=
  seqs [Bol; star sp; lit ("- text " ++ Quote ++ "... and 15 more listitems");
        opt (seqs [lit " ("; plus digit; lit " refs hidden: "; REF_TOKEN_RE;
                   Rep true 0 (Some 2) (Seq (lit ",") REF_TOKEN_RE); lit "...)"]);
        lit Quote; Eol].

(** Twenty listitems under a list, as in scenario S6. *)
Definition itemLine (i : nat) : string :=
  "  - listitem " ++ Quote ++ "Item " ++ show_nat i ++ Quote ++
  " [ref=e" ++ show_nat i ++ "]".
Definition itemBlocks (from n : nat) : list block :=
  map (fun i => (itemLine i, ["    - text " ++ Quote ++ "detail" ++ Quote])) (seq from n).

(** Two lists of three items each. *)
Definition plainItem (n : string) : string := "  - listitem " ++ Quote ++ n ++ Quote.
Definition twoLists : list string :=
  ["- list"; plainItem "a1"; plainItem "a2"; plainItem "a3";
   "- list"; plainItem "b1"; plainItem "b2"; plainItem "b3"].

(** What starts the rest of a sibling group is not deeper than the
    siblings. *)
Definition notDeeper (d : nat) (rest : list string) : Prop :=
  match rest with [] => True | l :: _ => Optimizer.indentLevel l <= d end.

Definition nextButton : string := "- button " ++ Quote ++ "Next" ++ Quote.

Definition summaryS6 : string :=
  "  - text " ++ Quote ++ "... and 15 more listitems (15 refs hidden: e6,e7,e8...)"
  ++ Quote.

Definition inputS6 : list string :=
  (["- list"] ++ flatten (itemBlocks 1 5) ++ flatten (itemBlocks 6 15) ++ [nextButton])%list.

Definition outputS6 : list string :=
  (["- list"] ++ flatten (itemBlocks 1 5) ++ [summaryS6; nextButton])%list.

(** ** Predicates and examples for the outline builder *)

(** Every node of the list has a backend-DOM handle. *)
Definition allHandles (nodes : list Browser.AXNode) : bool :=
  forallb (fun n => match Browser.handle n with Some _ => true | None => false end) nodes.

(** Every ref printed on a line is a key of the handle map. *)
Definition closed (s : Browser.state) : Prop :=
  forall l r, In l (Browser.lines s) -> Browser.ol_ref l = Some r ->
              In r (Browser.refMap_keys (Browser.refMap s)).

(** No node name holds an opening bracket. *)
Definition plainNames (nodes : list Browser.AXNode) : bool :=
  forallb (fun n => bracket_free (Browser.name n)) nodes.

(** A line whose role and name hold no opening bracket and whose ref, if
    any, is the letter e and a counter. *)
Definition plainLine (l : Browser.OutLine) : Prop :=
  bracket_free (Browser.ol_role l) = true /\ bracket_free (Browser.ol_name l) = true
  /\ match Browser.ol_ref l with
     | Some r => exists k, r = "e" ++ show_nat k
     | None => True
     end.

Definition plain (s : Browser.state) : Prop := Forall plainLine (Browser.lines s).

(** [h] ranks every node below [bound] and below its parent: the parent
    links form a forest. *)
Definition ranked (h : string -> nat) (bound : nat) (nodes : list Browser.AXNode) : Prop :=
  forall n, In n nodes ->
    h (Browser.nodeId n) < bound
    /\ forall p, Browser.parentId n = Some p -> h (Browser.nodeId n) < h p.

(** A root with one button below it, with and without a handle. *)
Definition rootNode : Browser.AXNode :=
  Browser.Node "1" None "RootWebArea" EmptyString (Some 1%Z) false.
Definition buttonNode (backend : option Z) : Browser.AXNode :=
  Browser.Node "2" (Some "1") "button" "Go" backend false.

(** The rank of the two nodes above. *)
Definition rootRank (id : string) : nat := if String.eqb id "1" then 1 else 0.

(** Two buttons, the second with a name that closes its quote and goes on
    with the tag of the first. *)
Definition quotedButtons : list Browser.AXNode :=
  [rootNode;
   Browser.Node "2" (Some "1") "button" "A" (Some 5%Z) false;
   Browser.Node "3" (Some "1") "button" ("B" ++ Quote ++ " " ++ tag "e1") (Some 7%Z) false].

Definition quotedOutline : string :=
  "- button " ++ Quote ++ "A" ++ Quote ++ " [ref=e1]" ++ NL ++
  "- button " ++ Quote ++ "B" ++ Quote ++ " [ref=e1]" ++ Quote ++ " [ref=e2]".

(** A button whose accessible name holds the text of a ref tag. *)
Definition forgedButton : Browser.AXNode :=
  Browser.Node "2" (Some "1") "button" ("x " ++ tag "e9") (Some 7%Z) false.

(** ** The itinerary of scenario S7 *)

Definition FLIGHT : string :=
  "From 320 US dollars round trip. United. Leaves San Francisco International at 7:15 AM. Arrives John F. Kennedy International at 3:40 PM. Total duration 5 hr 25 min. Nonstop".

Definition FLIGHT_COMPRESSED : string :=
  "United SFO 7:15AM→JFK 3:40PM 5h25 nonstop $320".

Definition flightLine (name : string) : string :=
  "  - link " ++ Quote ++ name ++ Quote ++ " [ref=e5]".

(** ** A handle map for the action guards *)

Definition twoRefs : Browser.RefMap := [("e1", 4%Z); ("e2", 5%Z)].

(** ** Lines the reducers single out *)

(** An img line without a name, the one line dedupLinks drops wherever it
    stands. *)
Definition unnamedImg (line : string) : bool :=
  match Optimizer.parseLine line with
  | Some p => String.eqb (Optimizer.role p) "img" && negb (Optimizer.truthy (Optimizer.name p))
  | None => false
  end.

Definition isArticle (line : string) : bool :=
  match Optimizer.parseLine line with
  | Some p => String.eqb (Optimizer.role p) "article"
  | None => false
  end.

(** The line is not one stripChrome starts to strip at. *)
Definition chromeFree (line : string) : bool :=
  match Optimizer.parseLine line with
  | Some p => negb (Optimizer.isChromeLine p line)
  | None => true
  end.

(** Nothing, or a line above level [d], comes first. *)
Definition startsAbove (d : nat) (ls : list string) : bool :=
  match ls with
  | l :: _ => Optimizer.indentLevel l <? d
  | [] => false
  end.

(** Outlines for the reducers. *)
Definition plainOutline : string :=
  "- heading " ++ Quote ++ "News" ++ Quote ++ " [ref=e1]" ++ NL ++
  "  - img" ++ NL ++
  "  - link " ++ Quote ++ "More" ++ Quote ++ " [ref=e2]".

(** ** Lines that parseLine reads back *)

(** The text does not go on with a character of the class. *)
Definition stops (p : ascii -> bool) (s : string) : bool :=
  match s with
  | String a _ => negb (p a)
  | EmptyString => true
  end.

(** The text does not begin with white space followed by a double quote:
    what parseLine would take for the start of a name. *)
Definition unquoted (s : string) : bool :=
  (Optimizer.leading_ws s =? 0) || negb (starts_with Quote (trimStart s)).

(** ** The builder's refs *)

(** The refs on the lines, in the order of the lines. *)
Definition printedRefs (ls : list Browser.OutLine) : list string :=
  flat_map (fun l => match Browser.ol_ref l with Some r => [r] | None => [] end) ls.

Definition refId (k : nat) : string := "e" ++ show_nat k.

(** e1, e2, ..., e<n>. *)
Definition refIds (n : nat) : list string := map refId (seq 1 n).

(** What the builder keeps true of its three variables: the refs on the
    lines are counted up from e1; the keys of the handle map are among
    them, each once; and a handle in the map is the non-zero handle of a
    node whose line carries the key. *)
Record built (nodes : list Browser.AXNode) (s : Browser.state) : Prop := Built {
  built_refs : printedRefs (Browser.lines s) = refIds (Browser.refCounter s);
  built_keys :
    forall r, In r (Browser.refMap_keys (Browser.refMap s)) ->
              In r (refIds (Browser.refCounter s));
  built_nodup : NoDup (Browser.refMap_keys (Browser.refMap s));
  built_handle :
    forall r h, Browser.refMap_get r (Browser.refMap s) = Some h ->
      h <> 0%Z /\
      exists node mapped depth,
        In node nodes /\ Browser.backendDOMNodeId node = Some h
        /\ Browser.mapRole (Browser.role node) = Some mapped
        /\ In (Browser.Line depth mapped (Browser.name node) (Some r)) (Browser.lines s)
}.

Definition quoteFree (s : string) : bool := all_chars (fun c => negb (Ascii.eqb c DQ)) s.

(** No node name holds a double quote. *)
Definition quoteFreeNames (nodes : list Browser.AXNode) : bool :=
  forallb (fun n => quoteFree (Browser.name n)) nodes.

(** The ref and the name of a line as parseLine returns them. *)
Definition refText (o : option string) : string :=
  match o with
  | Some r => " [ref=" ++ r ++ "]"
  | None => EmptyString
  end.
Definition nameOf (n : string) : option string :=
  match n with
  | EmptyString => None
  | _ => Some n
  end.

(** A line with a role of the table of mapRole, a name without a double
    quote and a counted ref, if any. *)
Definition readable (l : Browser.OutLine) : Prop :=
  (exists cdpRole, Browser.mapRole cdpRole = Some (Browser.ol_role l))
  /\ quoteFree (Browser.ol_name l) = true
  /\ match Browser.ol_ref l with
     | Some r => exists k, r = refId k
     | None => True
     end.

(** The state the builder reaches on the root and the button Go. *)
Definition goState : Browser.state :=
  Browser.State [("e1", 7%Z)] 1 [Browser.Line 0 "button" "Go" (Some "e1")].

(** ** The differ's expression and maps *)

(** Whether group [n] occurs in the expression. *)
Fixpoint has_group (n : nat) (r : regex) : bool :=
  match r with
  | Seq r1 r2 | Alt r1 r2 => has_group n r1 || has_group n r2
  | Rep _ _ _ r1 => has_group n r1
  | Group m r1 => (m =? n) || has_group n r1
  | _ => false
  end.

(** What follows the role in ELEMENT_RE: the optional name and the
    optional ref, each after optional white space. *)
Definition ELEMENT_TAIL : regex :=
  seqs [star sp; opt (Group 3 Differ.QUOTED); star sp;
        opt (seqs [lit "[ref="; Group 4 (Seq (lit "e") (plus digit)); lit "]"])].

(** No previous element has the ref, or the role and name, of [el]. *)
Definition unseen (prev : list Differ.element) (el : Differ.element) : bool :=
  forallb (fun p => negb (Differ.opt_eqb (Differ.ref p) (Differ.ref el))
                    && negb (String.eqb (Differ.roleName p) (Differ.roleName el))) prev.

(** A checkbox item of a menu, as the builder of another tool may print
    it. *)
Definition checkboxItem : string :=
  "  - menuitemcheckbox " ++ Quote ++ "Bold" ++ Quote ++ " [ref=e4]".

(** ** Reducers that only drop lines *)

(** The output is the input with some of its lines left out. *)
Definition onlyDrops (f : string -> string) : Prop :=
  forall snapshot, exists out,
    sublist out (split_lines snapshot) /\ f snapshot = join_lines out.

(** ** Sums over the buckets of analyzeWaste *)

Definition bucketLines (bs : Optimizer.buckets) : nat :=
  Optimizer.b_lines (Optimizer.chrome bs) + Optimizer.b_lines (Optimizer.structural bs)
  + Optimizer.b_lines (Optimizer.interactive bs) + Optimizer.b_lines (Optimizer.content bs)
  + Optimizer.b_lines (Optimizer.other bs).

Definition bucketChars (bs : Optimizer.buckets) : nat :=
  Optimizer.b_chars (Optimizer.chrome bs) + Optimizer.b_chars (Optimizer.structural bs)
  + Optimizer.b_chars (Optimizer.interactive bs) + Optimizer.b_chars (Optimizer.content bs)
  + Optimizer.b_chars (Optimizer.other bs).

(** The characters of the lines, one more for each line. *)
Definition lineChars (ls : list string) : nat :=
  fold_right (fun l n => String.length l + 1 + n) 0 ls.

(** ** The baseline *)

(** The line is neither skipped by openclawBaseline nor left without a
    ref. *)
Definition baselineLine (line : string) : bool :=
  match Optimizer.parseLine line with
  | Some p =>
      negb (Optimizer.has Optimizer.STRUCTURAL_ROLES (Optimizer.role p)
            && negb (Optimizer.truthy (Optimizer.name p)))
      && Optimizer.baselineRef p
  | None => false
  end.

(** A raw outline: a named heading, a list without a name, a button. *)
Definition rawOutline : string :=
  "- heading " ++ Quote ++ "News" ++ Quote ++ NL ++
  "- list" ++ NL ++
  "  - button " ++ Quote ++ "Go" ++ Quote.

(** ** What the differ looks at *)

(** The role, name and ref of an element. *)
Definition key (el : Differ.element) : string * string * option string :=
  (Differ.role el, Differ.name el, Differ.ref el).

(** The element without its display text and indent. *)
Definition norm (el : Differ.element) : Differ.element :=
  Differ.Element (Differ.role el) (Differ.name el) (Differ.ref el) EmptyString 0.

Definition norm2 (c : Differ.element * Differ.element) : Differ.element * Differ.element :=
  (norm (fst c), norm (snd c)).

(** The four counts of computeDiff on two lists of elements: added and
    removed after the noise filter, changed, unchanged. *)
Definition counts (prev curr : list Differ.element) : nat * nat * nat * nat :=
  let m := Differ.match_all prev curr in
  (List.length (filter Differ.filterNoise (Differ.added m)),
   List.length (filter Differ.filterNoise
                  (filter (fun el => negb (Differ.isMatched (Differ.matchedPrevKeys m) el))
                          prev)),
   List.length (Differ.changed m), Differ.unchanged m).

(** A checkbox before and after it is checked. *)
Definition uncheckedBox : string := "- checkbox " ++ Quote ++ "Accept" ++ Quote ++ " [ref=e3]".
Definition checkedBox : string := uncheckedBox ++ " [checked]".

(** ** Lines and the nodes they are printed for *)

(** The line carries the mapped role and the name of a node of the list,
    and a ref exactly when renderNode gives one to that role and name. *)
Definition printedFor (nodes : list Browser.AXNode) (l : Browser.OutLine) : Prop :=
  (exists node, In node nodes
                /\ Browser.mapRole (Browser.role node) = Some (Browser.ol_role l)
                /\ Browser.ol_name l = Browser.name node)
  /\ (match Browser.ol_ref l with Some _ => true | None => false end
      = Browser.gets_ref (Browser.ol_role l) (Browser.ol_name l)).

(** ** Lines as the differ reads them *)

(** No double quote and no backslash. *)
Definition slashFree (s : string) : bool :=
  all_chars (fun c => negb (Ascii.eqb c DQ || Ascii.eqb c BSL)) s.

(** No node name holds a double quote or a backslash. *)
Definition slashFreeNames (nodes : list Browser.AXNode) : bool :=
  forallb (fun n => slashFree (Browser.name n)) nodes.

(** The roles of ELEMENT_RE that no earlier role of its alternation is a
    prefix of. *)
Definition readRoles : list string :=
  filter (fun r => negb (Optimizer.has ["table"; "menuitemcheckbox"; "menuitemradio"] r))
         Differ.ELEMENT_ROLES.

(** Roles of the table of mapRole that begin with no role of ELEMENT_RE. *)
Definition unreadRoles : list string :=
  ["banner"; "contentinfo"; "img"; "figure"; "menu"; "menubar"; "toolbar"; "tree";
   "grid"; "status"; "alert"; "separator"; "progressbar"].

(** The name of a line as render prints it. *)
Definition namePart (n : string) : string :=
  match n with
  | EmptyString => EmptyString
  | _ => " " ++ Quote ++ n ++ Quote
  end.

(** A line without its indent and dash. *)
Definition shown (l : Browser.OutLine) : string :=
  Browser.ol_role l ++ namePart (Browser.ol_name l) ++ refText (Browser.ol_ref l).

(** What groups 3 and 4 of ELEMENT_RE record on such a line. *)
Definition nameCaps (n : string) : captures :=
  match n with
  | EmptyString => []
  | _ => [(3, Quote ++ n ++ Quote)]
  end.

Definition refCaps (o : option string) : captures :=
  match o with
  | Some r => [(4, r)]
  | None => []
  end.

(** The two optional parts of ELEMENT_RE. *)
Definition NAME_PART : regex := opt (Group 3 Differ.QUOTED).
Definition REF_PART : regex :=
  opt (seqs [lit "[ref="; Group 4 (Seq (lit "e") (plus digit)); lit "]"]).

(** The ref, if any, is a counted one. *)
Definition counted (o : option string) : Prop :=
  match o with
  | Some r => exists k, r = refId k
  | None => True
  end.

(** An alert, one level deep. *)
Definition alertLine : Browser.OutLine := Browser.Line 1 "alert" "Saved" None.

(** ** Where the text model is the code *)

(** A text from the codes of its characters. *)
Definition bytes (codes : list nat) : string :=
  fold_right (fun n s => String (ascii_of_nat n) s) EmptyString codes.

(** The characters outside ASCII that ECMAScript counts as white space or
    as line terminators, in UTF-8: U+00A0, U+1680, U+180E (white space
    for engines before Unicode 6.3), U+2000 to U+200A, U+2028, U+2029,
    U+202F, U+205F, U+3000 and U+FEFF.  [\s], [trim] and [trimStart] take
    all of them; [.] refuses U+2028 and U+2029. *)
Definition WIDE_SPACES : list string :=
  map bytes
      [[194; 160]; [225; 154; 128]; [225; 160; 142];
       [226; 128; 128]; [226; 128; 129]; [226; 128; 130]; [226; 128; 131];
       [226; 128; 132]; [226; 128; 133]; [226; 128; 134]; [226; 128; 135];
       [226; 128; 136]; [226; 128; 137]; [226; 128; 138];
       [226; 128; 168]; [226; 128; 169]; [226; 128; 175];
       [226; 129; 159]; [227; 128; 128]; [239; 187; 191]].

(** The text holds none of them.  On such a text the classes [\s] and [.]
    of the source are [is_space] and the complement of
    [is_line_terminator]. *)
Definition asciiSpaces (s : string) : bool :=
  forallb (fun w => negb (includes w s)) WIDE_SPACES.

(** Every character of the text is ASCII.  [length], [slice] and
    [toLowerCase] of the source are then those of the model. *)
Definition asciiText (s : string) : bool :=
  all_chars (fun c => nat_of_ascii c <? 128) s.

(** The property names every object inherits from Object.prototype. *)
Definition OBJECT_PROTOTYPE_KEYS : list string :=
  ["constructor"; "hasOwnProperty"; "isPrototypeOf"; "propertyIsEnumerable";
   "toLocaleString"; "toString"; "valueOf"; "__proto__";
   "__defineGetter__"; "__defineSetter__"; "__lookupGetter__"; "__lookupSetter__"].

(** No node has one of them for its role.  mapRole looks the role up in
    an object literal, which answers for these names with a function or an
    object of the engine; for every other role the lookup is that of the
    table. *)
Definition tableRoles (nodes : list Browser.AXNode) : bool :=
  forallb (fun n => negb (Optimizer.has OBJECT_PROTOTYPE_KEYS (Browser.role n))) nodes.

(** A heading whose name is cut at the last space of its first eight
    characters. *)
Definition headingToCut : string := "- heading " ++ Quote ++ "aaaa bbbb cccc" ++ Quote.

(** ** Counts, tags and dropped lines *)

Section Outlines.

Import Optimizer.

(** The key smartTruncate counts the line under, if it counts it. *)
Definition lineKey (line : string) : option (nat * string) :=
  match parseLine line with
  | Some p => if tracked (role p) then Some (indentLevel line, role p) else None
  | None => None
  end.

(** How many lines are counted under the key. *)
Definition keyCount (k : nat * string) (ls : list string) : nat :=
  List.length (filter (fun l => bool_decide (lineKey l = Some k)) ls).

(** No key is counted more than [mx] times. *)
Definition withinLimit (mx : nat) (ls : list string) : bool :=
  forallb (fun l => match lineKey l with
                    | Some k => keyCount k ls <=? mx
                    | None => true
                    end) ls.

(** What follows the items is not below the last of them. *)
Definition blockEnds (d : nat) (post : list string) : bool :=
  match post with
  | [] => true
  | l :: _ => indentLevel l <=? d
  end.

(** A listitem before a list of twenty at the same level. *)
Definition earlierItem : list string :=
  (["- list"; plainItem "x"; "- list"] ++ flatten (itemBlocks 1 20))%list.

Definition summary16 : string :=
  "  - text " ++ Quote ++ "... and 16 more listitems (16 refs hidden: e5,e6,e7...)"
  ++ Quote.

(** A list of six below the first of twenty listitems. *)
Definition innerItem (i : nat) : string :=
  "      - listitem " ++ Quote ++ "Inner " ++ show_nat i ++ Quote.
Definition nestedItems : list string :=
  (["- list"; itemLine 1; "    - list"] ++ map innerItem (seq 1 6)
   ++ flatten (itemBlocks 2 19))%list.
Definition innerSummary : string :=
  "      - text " ++ Quote ++ "... and 1 more listitems" ++ Quote.
Definition nestedOutput : list string :=
  (["- list"; itemLine 1; "    - list"] ++ map innerItem (seq 1 5)
   ++ [innerSummary]
   ++ flatten (itemBlocks 2 4) ++ [summaryS6])%list.

(** The start of a summary line. *)
Definition SUMMARY_START_RE : regex :=
  seqs [Bol; star sp; lit ("- text " ++ Quote ++ "... and ")].











(** ** Calm outlines *)









(** The lines that are neither url lines, nor noise, nor images without a
    name. *)
Definition kept (lines : list string) : list string :=
  filter (fun l => negb (unnamedImg l))
    (filter (fun l => negb (isNoise l))
       (filter (fun l => negb (test URL_LINE_RE l)) lines)).









End Outlines.

(* ====================================================================== *)
(** * Properties *)
(* ====================================================================== *)

(** ** Strings *)

Lemma append_assoc (a b c : string) : (a ++ b) ++ c = a ++ b ++ c.
Proof. induction a as [|x a IH]; simpl; [reflexivity | rewrite IH; reflexivity]. Qed.

Lemma append_empty_r (a : string) : a ++ EmptyString = a.
Proof. induction a as [|x a IH]; simpl; [reflexivity | rewrite IH; reflexivity]. Qed.

Lemma length_append (a b : string) :
  String.length (a ++ b) = String.length a + String.length b.
Proof. induction a as [|x a IH]; simpl; [reflexivity | rewrite IH; reflexivity]. Qed.

Lemma substring_append (a b : string) :
  String.substring 0 (String.length a) (a ++ b) = a.
Proof.
  induction a as [|x a IH]; simpl.
  - destruct b; reflexivity.
  - rewrite IH. reflexivity.
Qed.

Lemma append_inv_head (a b c : string) : a ++ b = a ++ c -> b = c.
Proof. induction a as [|x a IH]; simpl; intros H; [exact H | injection H; exact IH]. Qed.

Lemma split_go_noLF a cur s :
  all_chars (fun c => negb (Ascii.eqb c LF)) a = true ->
  split_go cur (a ++ s) = split_go (cur ++ a) s.
Proof.
  revert cur. induction a as [|c a IH]; intros cur H; simpl.
  - rewrite append_empty_r. reflexivity.
  - simpl in H. apply andb_true_iff in H as [Hc Ha]. apply negb_true_iff in Hc.
    rewrite Hc, (IH _ Ha), append_assoc. reflexivity.
Qed.

(** Splitting what join put together gives the lines back. *)
Lemma split_join_lines ls :
  ls <> [] ->
  forallb (all_chars (fun c => negb (Ascii.eqb c LF))) ls = true ->
  split_lines (join_lines ls) = ls.
Proof.
  intros Hne H. destruct ls as [|l ls]; [congruence|]. clear Hne.
  revert l H. unfold split_lines, join_lines, join.
  induction ls as [|l2 ls IH]; intros l H; simpl in H;
    apply andb_true_iff in H as [Hl Hls].
  - simpl. rewrite <- (append_empty_r l) at 1.
    rewrite (split_go_noLF l _ _ Hl). reflexivity.
  - change (String.concat NL (l :: l2 :: ls))
      with (l ++ String LF (String.concat NL (l2 :: ls))).
    rewrite (split_go_noLF l _ _ Hl). cbn [split_go String.append].
    rewrite Ascii.eqb_refl. f_equal. exact (IH l2 Hls).
Qed.

Lemma all_chars_app p a b : all_chars p (a ++ b) = all_chars p a && all_chars p b.
Proof.
  induction a as [|x a IH]; simpl; [reflexivity|].
  rewrite IH. apply andb_assoc.
Qed.

Lemma all_chars_weaken (p q : ascii -> bool) s :
  (forall c, p c = true -> q c = true) -> all_chars p s = true -> all_chars q s = true.
Proof.
  intros Hpq. induction s as [|c s IH]; simpl; [reflexivity|].
  intros H. apply andb_true_iff in H as [Hc Hs]. rewrite (Hpq c Hc), (IH Hs). reflexivity.
Qed.

Lemma string_of_uint_digits d :
  all_chars is_digit (NilEmpty.string_of_uint d) = true.
Proof. induction d; simpl; try reflexivity; exact IHd. Qed.

Lemma show_nat_digits n :
  show_nat n <> EmptyString /\ all_chars is_digit (show_nat n) = true.
Proof.
  unfold show_nat, NilZero.string_of_uint.
  destruct (Nat.to_uint n);
    (split; [simpl; discriminate | first [reflexivity | apply string_of_uint_digits]]).
Qed.

(** *** Where a text can occur *)

(** A text that begins with [c] does not begin inside a stretch free of
    [c]. *)
Lemma includes_skip c t a b :
  all_chars (fun x => negb (Ascii.eqb x c)) a = true ->
  includes (String c t) (a ++ b) = includes (String c t) b.
Proof.
  induction a as [|x a IH]; intros H; [reflexivity|].
  simpl in H. apply andb_true_iff in H as [Hx Ha].
  change (String x a ++ b) with (String x (a ++ b)).
  cbn [includes starts_with]. rewrite (IH Ha).
  rewrite Ascii.eqb_sym. apply negb_true_iff in Hx. rewrite Hx. reflexivity.
Qed.

Lemma includes_absent c t a :
  all_chars (fun x => negb (Ascii.eqb x c)) a = true ->
  includes (String c t) a = false.
Proof.
  induction a as [|x a IH]; intros H; [reflexivity|].
  simpl in H. apply andb_true_iff in H as [Hx Ha].
  cbn [includes starts_with]. rewrite (IH Ha).
  rewrite Ascii.eqb_sym. apply negb_true_iff in Hx. rewrite Hx. reflexivity.
Qed.

(** Two texts closed by the same bracket, of which one begins the other,
    are the same text. *)
Lemma starts_with_close r r0 :
  all_chars (fun x => negb (Ascii.eqb x "]")) r0 = true ->
  starts_with (r ++ "]") (r0 ++ "]") = true -> r = r0.
Proof.
  revert r. induction r0 as [|a r0 IH]; intros r H0 H.
  - destruct r as [|c r]; [reflexivity|].
    change (starts_with (String c (r ++ "]")) "]" = true) in H.
    cbn [starts_with] in H. apply andb_true_iff in H as [_ H].
    destruct r; discriminate.
  - simpl in H0. apply andb_true_iff in H0 as [Ha H0].
    destruct r as [|c r].
    + change (starts_with "]" (String a (r0 ++ "]")) = true) in H.
      cbn [starts_with] in H. apply andb_true_iff in H as [H _].
      apply Ascii.eqb_eq in H. subst a. discriminate.
    + change (starts_with (String c (r ++ "]")) (String a (r0 ++ "]")) = true) in H.
      cbn [starts_with] in H. apply andb_true_iff in H as [Hc H].
      apply Ascii.eqb_eq in Hc. subst c. f_equal. apply IH; assumption.
Qed.

Lemma starts_with_stop z t u b :
  all_chars (fun x => negb (Ascii.eqb x z)) t = true ->
  starts_with t (u ++ String z b) = true -> starts_with t u = true.
Proof.
  revert u. induction t as [|c t IH]; intros u Ht H; [destruct u; reflexivity|].
  simpl in Ht. apply andb_true_iff in Ht as [Hc Ht].
  destruct u as [|x u].
  - change (starts_with (String c t) (String z b) = true) in H.
    cbn [starts_with] in H. apply andb_true_iff in H as [H _].
    apply Ascii.eqb_eq in H. subst c. rewrite Ascii.eqb_refl in Hc. discriminate.
  - change (starts_with (String c t) (String x (u ++ String z b)) = true) in H.
    cbn [starts_with] in H |- *. apply andb_true_iff in H as [Hx H].
    rewrite Hx. exact (IH u Ht H).
Qed.



Lemma starts_with_line t u b :
  noLF t = true -> starts_with t (u ++ String LF b) = true -> starts_with t u = true.
Proof. exact (starts_with_stop LF t u b). Qed.

Lemma includes_line t a b :
  noLF t = true -> t <> EmptyString ->
  includes t (a ++ String LF b) = true -> includes t a = true \/ includes t b = true.
Proof.
  intros Ht Hne. induction a as [|x a IH]; intros H.
  - change (includes t (String LF b) = true) in H. cbn [includes] in H.
    apply orb_true_iff in H as [H|H]; [|right; exact H].
    destruct t as [|c t]; [congruence|].
    cbn [starts_with] in H. apply andb_true_iff in H as [H _].
    unfold noLF in Ht. simpl in Ht. apply andb_true_iff in Ht as [Hc _].
    apply Ascii.eqb_eq in H. subst c. discriminate.
  - change (includes t (String x (a ++ String LF b)) = true) in H.
    cbn [includes] in H. apply orb_true_iff in H as [H|H].
    + left. cbn [includes]. apply orb_true_iff. left.
      exact (starts_with_line t (String x a) b Ht H).
    + apply IH in H as [H|H]; [left|right; exact H].
      cbn [includes]. rewrite H. apply orb_true_r.
Qed.

(** A text without a line feed that occurs in the joined lines occurs in
    one of them. *)
Lemma includes_join_lines t ls :
  noLF t = true -> t <> EmptyString ->
  includes t (join_lines ls) = true -> exists l, In l ls /\ includes t l = true.
Proof.
  intros Ht Hne. unfold join_lines, join.
  induction ls as [|l ls IH]; intros H.
  - destruct t; [congruence | discriminate].
  - destruct ls as [|l2 ls].
    + exists l. split; [left; reflexivity | exact H].
    + change (includes t (l ++ String LF (String.concat NL (l2 :: ls))) = true) in H.
      apply includes_line in H as [H|H]; [| |assumption|assumption].
      * exists l. split; [left; reflexivity | exact H].
      * destruct (IH H) as (l' & Hin & Hl'). exists l'. split; [right; exact Hin | exact Hl'].
Qed.

Lemma starts_with_app_l t a b :
  starts_with t a = true -> starts_with t (a ++ b) = true.
Proof.
  revert a. induction t as [|c t IH]; intros a H; [destruct (a ++ b); reflexivity|].
  destruct a as [|x a]; [discriminate|].
  change (String x a ++ b) with (String x (a ++ b)).
  cbn [starts_with] in H |- *. apply andb_true_iff in H as [Hx H].
  rewrite Hx. exact (IH a H).
Qed.

Lemma includes_app_l t a b : includes t a = true -> includes t (a ++ b) = true.
Proof.
  induction a as [|x a IH]; intros H.
  - destruct t; [destruct b; reflexivity | discriminate].
  - change (String x a ++ b) with (String x (a ++ b)).
    cbn [includes] in H |- *. apply orb_true_iff in H as [H|H]; apply orb_true_iff.
    + left. exact (starts_with_app_l t (String x a) b H).
    + right. exact (IH H).
Qed.

Lemma includes_app_r t a b : includes t b = true -> includes t (a ++ b) = true.
Proof.
  intros H. induction a as [|x a IH]; simpl; [exact H|].
  rewrite IH. apply orb_true_r.
Qed.

(** A text that occurs in a line occurs in the joined lines. *)
Lemma includes_in_join t l ls :
  In l ls -> includes t l = true -> includes t (join_lines ls) = true.
Proof.
  intros Hin Hl. unfold join_lines, join.
  induction ls as [|l1 ls IH]; [destruct Hin|].
  destruct ls as [|l2 ls].
  - destruct Hin as [->|[]]. exact Hl.
  - change (String.concat NL (l1 :: l2 :: ls))
      with (l1 ++ String LF (String.concat NL (l2 :: ls))).
    destruct Hin as [->|Hin]; [apply includes_app_l; exact Hl|].
    apply includes_app_r. cbn [includes]. rewrite (IH Hin). apply orb_true_r.
Qed.

(** ** The matcher *)

Section MatcherFacts.

Lemma moved_refl x : moved x EmptyString x.
Proof. split; [reflexivity | simpl; lia]. Qed.

Lemma moved_trans x t1 x1 t2 x2 :
  moved x t1 x1 -> moved x1 t2 x2 -> moved x (t1 ++ t2) x2.
Proof.
  intros [H1 P1] [H2 P2]. split.
  - rewrite H1, H2, append_assoc. reflexivity.
  - rewrite P2, P1, length_append. lia.
Qed.

Lemma moved_capture x t x' :
  moved x t x' -> String.substring 0 (c_pos x' - c_pos x) (c_rest x) = t.
Proof.
  intros [H P]. rewrite H, P.
  replace (c_pos x + String.length t - c_pos x) with (String.length t) by lia.
  apply substring_append.
Qed.

Lemma rep_loop_sound body r1 g lo hi k :
  sound_step body r1 ->
  forall fuel cnt x c res,
    rep_loop body g lo hi k fuel cnt x c = Some res ->
    exists ps x',
      Forall (fun p => sem r1 (fst p) (snd p)) ps
      /\ moved x (texts ps) x'
      /\ k x' (caps ps ++ c)%list = Some res
      /\ lo <= cnt + List.length ps
      /\ (ps = [] \/ within hi (cnt + List.length ps)).
Proof.
  intros Hbody. induction fuel as [|fuel IH]; intros cnt x c res H; [discriminate|].
  assert (Hstop : (if lo <=? cnt then k x c else None) = Some res ->
                  exists ps x',
                    Forall (fun p => sem r1 (fst p) (snd p)) ps
                    /\ moved x (texts ps) x'
                    /\ k x' (caps ps ++ c)%list = Some res
                    /\ lo <= cnt + List.length ps
                    /\ (ps = [] \/ within hi (cnt + List.length ps))).
  { intros Hs. destruct (lo <=? cnt) eqn:Hlo; [|discriminate].
    apply Nat.leb_le in Hlo. exists [], x. simpl.
    split; [constructor|]. split; [apply moved_refl|]. split; [exact Hs|].
    split; [lia | left; reflexivity]. }
  assert (Hmore : (if below hi cnt then
                     body x c (fun x' c' =>
                       if c_pos x <? c_pos x'
                       then rep_loop body g lo hi k fuel (S cnt) x' c'
                       else None)
                   else None) = Some res ->
                  exists ps x',
                    Forall (fun p => sem r1 (fst p) (snd p)) ps
                    /\ moved x (texts ps) x'
                    /\ k x' (caps ps ++ c)%list = Some res
                    /\ lo <= cnt + List.length ps
                    /\ (ps = [] \/ within hi (cnt + List.length ps))).
  { intros Hm. destruct (below hi cnt) eqn:Hb; [|discriminate].
    apply Hbody in Hm as (t & e & x1 & Hsem & Hmv & Hk).
    destruct (c_pos x <? c_pos x1); [|discriminate].
    apply IH in Hk as (ps & x' & Hps & Hmv' & Hk' & Hlo & Hhi).
    exists ((t, e) :: ps), x'. simpl.
    split; [constructor; [exact Hsem | exact Hps]|].
    split; [exact (moved_trans _ _ _ _ _ Hmv Hmv')|].
    split; [rewrite <- app_assoc; exact Hk'|].
    split; [lia|]. right.
    destruct Hhi as [->|Hhi].
    - unfold below in Hb. unfold within. destruct hi as [h|]; [|exact I].
      apply Nat.ltb_lt in Hb. simpl. lia.
    - unfold within in *. destruct hi as [h|]; [|exact I]. lia. }
  simpl in H. destruct g.
  - destruct (if below hi cnt then _ else None) as [m|] eqn:E.
    + apply Hmore. exact H.
    + apply Hstop. exact H.
  - destruct (if lo <=? cnt then k x c else None) as [m|] eqn:E.
    + apply Hstop. exact H.
    + apply Hmore. exact H.
Qed.

(** Soundness of the matcher: a successful run consumed a text and
    recorded captures that the expression reads, and went on with what
    follows from there. *)
Lemma run_sound r : sound_step (run r) r.
Proof.
  induction r as [|p|r1 IH1 r2 IH2|r1 IH1 r2 IH2|g lo hi r1 IH1|n r1 IH1| | |];
    intros x c k res H; cbn [run] in H.
  - exists EmptyString, [], x. split; [split; reflexivity|].
    split; [apply moved_refl | exact H].
  - destruct (c_rest x) as [|a s'] eqn:Hr; [discriminate|].
    destruct (p a) eqn:Hp; [|discriminate].
    exists (String a EmptyString), [], (Cursor (S (c_pos x)) (Some a) s').
    split; [exists a; auto|]. split; [split; simpl; [exact Hr | lia] | exact H].
  - apply IH1 in H as (t1 & e1 & x1 & Hs1 & Hm1 & H).
    apply IH2 in H as (t2 & e2 & x2 & Hs2 & Hm2 & H).
    exists (t1 ++ t2), (e2 ++ e1)%list, x2.
    split; [exists t1, t2, e1, e2; auto|].
    split; [exact (moved_trans _ _ _ _ _ Hm1 Hm2)|].
    rewrite <- app_assoc. exact H.
  - destruct (run r1 x c k) as [m|] eqn:E.
    + rewrite <- H in *. apply IH1 in E as (t & e & x' & Hs & Hm & Hk).
      exists t, e, x'. split; [left; exact Hs | auto].
    + apply IH2 in H as (t & e & x' & Hs & Hm & Hk).
      exists t, e, x'. split; [right; exact Hs | auto].
  - apply (rep_loop_sound _ r1 g lo hi k IH1) in H as (ps & x' & Hps & Hm & Hk & Hlo & Hhi).
    exists (texts ps), (caps ps), x'.
    split; [|auto]. exists ps. split; [exact Hps|]. split; [reflexivity|].
    split; [reflexivity|]. split; [lia|].
    destruct Hhi as [->|Hhi]; [|exact Hhi].
    unfold within. destruct hi; [simpl; lia | exact I].
  - apply IH1 in H as (t & e & x' & Hs & Hm & Hk).
    rewrite (moved_capture _ _ _ Hm) in Hk.
    exists t, ((n, t) :: e), x'. split; [exists e; auto | auto].
  - destruct (c_pos x =? 0); [|discriminate].
    exists EmptyString, [], x. split; [split; reflexivity|].
    split; [apply moved_refl | exact H].
  - destruct (c_rest x) eqn:Hr; [|discriminate].
    exists EmptyString, [], x. split; [split; reflexivity|].
    split; [apply moved_refl | exact H].
  - destruct (xorb _ _); [|discriminate].
    exists EmptyString, [], x. split; [split; reflexivity|].
    split; [apply moved_refl | exact H].
Qed.

Lemma match_at_sound r x m :
  match_at r x = Some m ->
  sem r (m_text m) (m_caps m) /\ moved x (m_text m) (m_end m).
Proof.
  unfold match_at. intros H.
  destruct (run r x [] _) as [[x' c']|] eqn:E; [|discriminate].
  apply run_sound in E as (t & e & x1 & Hs & Hm & Hk).
  injection Hk as <- <-. injection H as <-. simpl.
  rewrite (moved_capture _ _ _ Hm), app_nil_r. auto.
Qed.

(** A successful search found its match after the text it returns. *)
Lemma search_from_sound r before pos prev s b m :
  search_from r before pos prev s = Some (b, m) ->
  exists mid x,
    b = before ++ mid /\ s = mid ++ c_rest x /\ match_at r x = Some m.
Proof.
  revert before pos prev. induction s as [|a s IH]; intros before pos prev H; simpl in H.
  - destruct (match_at r (Cursor pos prev EmptyString)) as [m'|] eqn:E; [|discriminate].
    injection H as <- <-. exists EmptyString, (Cursor pos prev EmptyString).
    rewrite append_empty_r. auto.
  - destruct (match_at r (Cursor pos prev (String a s))) as [m'|] eqn:E.
    + injection H as <- <-. exists EmptyString, (Cursor pos prev (String a s)).
      rewrite append_empty_r. auto.
    + apply IH in H as (mid & x & -> & -> & Hm).
      exists (String a mid), x. rewrite append_assoc. auto.
Qed.


(** *** Literals and greedy classes, computed *)

Lemma skip_chars_0 x : skip_chars 0 x = x.
Proof.
  destruct x as [pos prev rest]. unfold skip_chars. simpl.
  rewrite Nat.add_0_r. destruct rest; reflexivity.
Qed.

Lemma skip_chars_S n pos prev a rest :
  skip_chars (S n) (Cursor pos prev (String a rest))
  = skip_chars n (Cursor (S pos) (Some a) rest).
Proof. unfold skip_chars. simpl. f_equal. lia. Qed.

Lemma run_lit l x c k :
  run (lit l) x c k
  = if starts_with l (c_rest x) then k (skip_chars (String.length l) x) c else None.
Proof.
  revert x. induction l as [|a l IH]; intros x.
  - simpl. rewrite skip_chars_0. reflexivity.
  - destruct x as [pos prev rest]. cbn [lit run c_rest c_pos].
    destruct rest as [|b rest]; [reflexivity|].
    cbn [starts_with String.length]. destruct (Ascii.eqb a b) eqn:E; [|reflexivity].
    rewrite IH. cbn [c_rest andb]. rewrite skip_chars_S.
    apply Ascii.eqb_eq in E. subst b. reflexivity.
Qed.

Lemma rep_chr_commit p lo k :
  commits p k ->
  forall s fuel cnt pos prev c,
    String.length s < fuel ->
    rep_loop (run (Chr p)) true lo None k fuel cnt (Cursor pos prev s) c
    = if lo <=? cnt + span_len p s
      then k (skip_chars (span_len p s) (Cursor pos prev s)) c
      else None.
Proof.
  intros Hk. induction s as [|a s IH]; intros fuel cnt pos prev c Hf;
    (destruct fuel as [|fuel]; [simpl in Hf; lia|]).
  - cbn. rewrite Nat.add_0_r, skip_chars_0. reflexivity.
  - cbn [rep_loop below run c_rest c_pos span_len].
    destruct (p a) eqn:Hp.
    + assert (Hlt : (pos <? S pos) = true) by (apply Nat.ltb_lt; lia).
      rewrite Hlt, IH by (simpl in Hf; lia).
      rewrite skip_chars_S.
      replace (cnt + S (span_len p s)) with (S cnt + span_len p s) by lia.
      destruct (lo <=? S cnt + span_len p s).
      * destruct (k _ c) as [m|] eqn:E; [reflexivity|].
        rewrite (Hk pos prev a s c Hp). destruct (lo <=? cnt); reflexivity.
      * rewrite (Hk pos prev a s c Hp). destruct (lo <=? cnt); reflexivity.
    + rewrite Nat.add_0_r, skip_chars_0. reflexivity.
Qed.

Lemma run_rep_commit p lo k x c :
  commits p k ->
  run (Rep true lo None (Chr p)) x c k
  = if lo <=? span_len p (c_rest x)
    then k (skip_chars (span_len p (c_rest x)) x) c
    else None.
Proof.
  intros Hk. destruct x as [pos prev rest]. cbn [run c_rest].
  rewrite (rep_chr_commit p lo k Hk) by lia. reflexivity.
Qed.

(** Before a continuation that never fails, the greedy class takes all it
    can. *)
Lemma rep_chr_total p lo k :
  (forall x c, k x c <> None) ->
  forall s fuel cnt pos prev c,
    String.length s < fuel ->
    rep_loop (run (Chr p)) true lo None k fuel cnt (Cursor pos prev s) c
    = if lo <=? cnt + span_len p s
      then k (skip_chars (span_len p s) (Cursor pos prev s)) c
      else None.
Proof.
  intros Hk. induction s as [|a s IH]; intros fuel cnt pos prev c Hf;
    (destruct fuel as [|fuel]; [simpl in Hf; lia|]).
  - cbn. rewrite Nat.add_0_r, skip_chars_0. reflexivity.
  - cbn [rep_loop below run c_rest c_pos span_len].
    destruct (p a) eqn:Hp.
    + assert (Hlt : (pos <? S pos) = true) by (apply Nat.ltb_lt; lia).
      rewrite Hlt, IH by (simpl in Hf; lia).
      rewrite skip_chars_S.
      replace (cnt + S (span_len p s)) with (S cnt + span_len p s) by lia.
      destruct (lo <=? S cnt + span_len p s) eqn:Hlo.
      * destruct (k _ c) as [m|] eqn:E; [reflexivity|]. exfalso. exact (Hk _ _ E).
      * apply Nat.leb_gt in Hlo.
        assert (Hc : (lo <=? cnt) = false) by (apply Nat.leb_gt; lia).
        rewrite Hc. reflexivity.
    + rewrite Nat.add_0_r, skip_chars_0. reflexivity.
Qed.

(** *** Enough to match

    A run returns a match as soon as one way through the expression leads
    to a continuation that returns one: whichever alternative is tried
    first, the other is tried when the first fails. *)

Lemma rep_more body g lo hi k fuel cnt x c :
  below hi cnt = true ->
  body x c (fun x' c' =>
              if c_pos x <? c_pos x'
              then rep_loop body g lo hi k fuel (S cnt) x' c'
              else None) <> None ->
  rep_loop body g lo hi k (S fuel) cnt x c <> None.
Proof.
  intros Hb H. cbn [rep_loop]. rewrite Hb.
  destruct g.
  - destruct (body x c _); [discriminate | congruence].
  - destruct (if lo <=? cnt then k x c else None); [discriminate | exact H].
Qed.

Lemma rep_stop body g lo hi k fuel cnt x c :
  lo <= cnt -> k x c <> None ->
  rep_loop body g lo hi k (S fuel) cnt x c <> None.
Proof.
  intros Hlo H. cbn [rep_loop]. apply Nat.leb_le in Hlo. rewrite Hlo.
  destruct g.
  - destruct (if below hi cnt then _ else None); [discriminate | exact H].
  - destruct (k x c); [discriminate | congruence].
Qed.

Lemma rep_stop_pos body g lo hi k fuel cnt x c :
  0 < fuel -> lo <= cnt -> k x c <> None ->
  rep_loop body g lo hi k fuel cnt x c <> None.
Proof. destruct fuel; [lia|]. intros _. apply rep_stop. Qed.

Lemma rep_matches r g lo hi k pos prev s c :
  rep_loop (run r) g lo hi k (S (String.length s)) 0 (Cursor pos prev s) c <> None ->
  run (Rep g lo hi r) (Cursor pos prev s) c k <> None.
Proof. intros H. exact H. Qed.

Lemma seq_matches a b x c k :
  run a x c (fun x' c' => run b x' c' k) <> None -> run (Seq a b) x c k <> None.
Proof. intros H. exact H. Qed.

Lemma group_matches n r x c k :
  run r x c (fun x' c' =>
               k x' ((n, String.substring 0 (c_pos x' - c_pos x) (c_rest x)) :: c'))
  <> None ->
  run (Group n r) x c k <> None.
Proof. intros H. exact H. Qed.

Lemma after_app t1 t2 pos prev s :
  after t2 (pos + String.length t1) (last_char prev t1) s = after (t1 ++ t2) pos prev s.
Proof.
  unfold after. rewrite length_append, Nat.add_assoc. f_equal.
  revert prev. induction t1 as [|a t1 IH]; intros prev; [reflexivity|].
  simpl. apply IH.
Qed.

Lemma lit_matches l pos prev s c k :
  k (after l pos prev s) c <> None ->
  run (lit l) (Cursor pos prev (l ++ s)) c k <> None.
Proof.
  revert pos prev. induction l as [|a l IH]; intros pos prev H.
  - unfold after in H. simpl in H. rewrite Nat.add_0_r in H. exact H.
  - change (String a l ++ s) with (String a (l ++ s)).
    cbn [lit run c_rest c_pos]. rewrite Ascii.eqb_refl. apply IH.
    unfold after in *. cbn [String.length last_char] in H.
    replace (S pos + String.length l) with (pos + S (String.length l)) by lia.
    exact H.
Qed.

Lemma class_loop_matches p lo k s t :
  forall fuel cnt pos prev c,
    all_chars p t = true ->
    lo <= cnt + String.length t ->
    String.length t < fuel ->
    k (after t pos prev s) c <> None ->
    rep_loop (run (Chr p)) true lo None k fuel cnt (Cursor pos prev (t ++ s)) c <> None.
Proof.
  induction t as [|a t IH]; intros fuel cnt pos prev c Hp Hlo Hf H;
    (destruct fuel as [|fuel]; [simpl in Hf; lia|]).
  - apply rep_stop; [simpl in Hlo; lia|].
    unfold after in H. simpl in H. rewrite Nat.add_0_r in H. exact H.
  - simpl in Hp. apply andb_true_iff in Hp as [Ha Hp].
    apply rep_more; [reflexivity|].
    change (String a t ++ s) with (String a (t ++ s)).
    cbn [run c_rest c_pos]. rewrite Ha.
    assert (Hlt : (pos <? S pos) = true) by (apply Nat.ltb_lt; lia).
    rewrite Hlt. apply IH; [exact Hp | simpl in Hlo; lia | simpl in Hf; lia |].
    unfold after in *. cbn [String.length last_char] in H.
    replace (S pos + String.length t) with (pos + S (String.length t)) by lia.
    exact H.
Qed.

(** A greedy class matches over a stretch of its characters when what
    follows the class matches behind the stretch. *)
Lemma class_matches p lo k s t pos prev c :
  all_chars p t = true ->
  lo <= String.length t ->
  k (after t pos prev s) c <> None ->
  run (Rep true lo None (Chr p)) (Cursor pos prev (t ++ s)) c k <> None.
Proof.
  intros Hp Hlo H. cbn [run c_rest].
  apply class_loop_matches; [exact Hp | lia | rewrite length_append; lia | exact H].
Qed.

(** *** Replacing where nothing matches *)




Lemma matchAll_go_prefix r q P :
  (forall a pos prev s, q a = true -> match_at r (Cursor pos prev (String a s)) = None) ->
  all_chars q P = true ->
  forall fuel pos prev s,
    matchAll_go (String.length P + fuel) r pos prev (P ++ s)
    = matchAll_go fuel r (pos + String.length P) (last_char prev P) s.
Proof.
  intros Hno. induction P as [|a P IH]; intros HP fuel pos prev s.
  - simpl. rewrite Nat.add_0_r. reflexivity.
  - simpl in HP. apply andb_true_iff in HP as [Ha HP].
    change (String a P ++ s) with (String a (P ++ s)).
    cbn [String.length Nat.add matchAll_go]. rewrite (Hno a pos prev _ Ha).
    rewrite (IH HP). cbn [last_char].
    replace (S pos + String.length P) with (pos + S (String.length P)) by lia.
    reflexivity.
Qed.

(** An expression that begins with a literal character matches neither
    before another character nor at the end. *)
Lemma match_at_first c l r a pos prev s :
  Ascii.eqb c a = false ->
  match_at (Seq (lit (String c l)) r) (Cursor pos prev (String a s)) = None.
Proof.
  intros H. unfold match_at.
  change (run (Seq (lit (String c l)) r) (Cursor pos prev (String a s)) [] final)
    with (run (lit (String c l)) (Cursor pos prev (String a s)) []
              (fun x' c' => run r x' c' final)).
  rewrite run_lit. cbn [c_rest starts_with]. rewrite H. reflexivity.
Qed.

Lemma replace_go_empty c l r f fuel i pos prev :
  replace_go fuel (Seq (lit (String c l)) r) f i pos prev EmptyString = EmptyString.
Proof. destruct fuel; reflexivity. Qed.

Lemma matchAll_go_empty c l r fuel pos prev :
  matchAll_go fuel (Seq (lit (String c l)) r) pos prev EmptyString = [].
Proof. destruct fuel; reflexivity. Qed.

Lemma search_bol_later r s before pos prev :
  search_from (Seq Bol r) before (S pos) prev s = None.
Proof.
  revert before pos prev. induction s as [|a s IH]; intros before pos prev; simpl.
  - reflexivity.
  - apply IH.
Qed.

(** An expression anchored at the start is tried at the start only. *)
Lemma test_bol r s :
  test (Seq Bol r) s
  = match run r (Cursor 0 None s) [] final with Some _ => true | None => false end.
Proof.
  unfold test, exec.
  destruct s as [|a s]; simpl; unfold match_at; cbn [run c_pos Nat.eqb].
  - destruct (run r _ [] final) as [[x' c']|]; reflexivity.
  - destruct (run r _ [] final) as [[x' c']|]; [reflexivity|].
    rewrite search_bol_later. reflexivity.
Qed.

Lemma drop_span_trimStart s : drop_string (span_len is_space s) s = trimStart s.
Proof.
  induction s as [|a s IH]; simpl; [reflexivity|].
  destruct (is_space a); [exact IH | reflexivity].
Qed.

Lemma skip_chars_rest n x : c_rest (skip_chars n x) = drop_string n (c_rest x).
Proof. reflexivity. Qed.

Lemma drop_span_empty p s :
  match drop_string (span_len p s) s with EmptyString => true | _ => false end
  = all_chars p s.
Proof.
  induction s as [|a s IH]; simpl; [reflexivity|].
  destruct (p a); [exact IH | reflexivity].
Qed.

Lemma starts_with_not_space l a s :
  p_first_not_space l -> is_space a = true -> starts_with l (String a s) = false.
Proof.
  destruct l as [|b l]; simpl; [intros []|].
  intros Hb Ha. destruct (Ascii.eqb b a) eqn:E; [|reflexivity].
  apply Ascii.eqb_eq in E. subst b. rewrite Ha in Hb. discriminate.
Qed.

End MatcherFacts.

(** ** The differ *)

Section DifferFacts.

Import Differ.

Implicit Types (el prevEl : element) (prev curr : list element).

Lemma find_app_l {A} (f : A -> bool) (l1 l2 : list A) :
  find f (l1 ++ l2)%list =
  match find f l1 with Some a => Some a | None => find f l2 end.
Proof.
  induction l1 as [|a l1 IH]; simpl; [reflexivity|].
  destruct (f a); [reflexivity | exact IH].
Qed.

Lemma byRef_fold_spec prev (m0 : gmap string element) r :
  fold_left (fun m el => match ref el with Some r => <[r := el]> m | None => m end)
            prev m0 !! r
  = match find (fun el => opt_eqb (ref el) (Some r)) (rev prev) with
    | Some el => Some el
    | None => m0 !! r
    end.
Proof.
  revert m0. induction prev as [|el prev IH]; intros m0; simpl; [reflexivity|].
  rewrite IH, find_app_l.
  destruct (find _ (rev prev)) as [e|]; [reflexivity|]. simpl.
  destruct (ref el) as [r'|] eqn:Hr; simpl; [|reflexivity].
  destruct (String.eqb_spec r' r) as [->|Hne].
  - apply lookup_insert_eq.
  - apply lookup_insert_ne. exact Hne.
Qed.

(** The entry of prevByRef for a ref some previous element carries is a
    previous element carrying that ref. *)
Lemma byRef_hit prev el r :
  In el prev -> ref el = Some r ->
  exists prevEl, byRef prev !! r = Some prevEl /\ In prevEl prev /\ ref prevEl = Some r.
Proof.
  intros Hin Hr. unfold byRef. rewrite byRef_fold_spec.
  destruct (find _ (rev prev)) as [e|] eqn:Hf.
  - apply find_some in Hf as [Hin' Heq]. exists e. split; [reflexivity|].
    split; [apply in_rev; exact Hin'|].
    unfold opt_eqb in Heq. destruct (ref e) as [r'|]; [|discriminate].
    apply String.eqb_eq in Heq. congruence.
  - exfalso. apply in_rev in Hin. pose proof (find_none _ _ Hf el Hin) as Hn.
    simpl in Hn. rewrite Hr in Hn. simpl in Hn. rewrite String.eqb_refl in Hn.
    discriminate.
Qed.

Lemma byRoleName_fold_hit prev (m0 : gmap string element) k :
  is_Some (m0 !! k) \/ (exists el, In el prev /\ roleName el = k) ->
  is_Some (fold_left (fun m el =>
                        match m !! roleName el with
                        | Some _ => m
                        | None => <[roleName el := el]> m
                        end) prev m0 !! k).
Proof.
  revert m0. induction prev as [|el prev IH]; intros m0 H; simpl.
  - destruct H as [H|[e [[] _]]]. exact H.
  - apply IH. destruct H as [H|[e [[->|Hin] Hk]]].
    + left. destruct (m0 !! roleName el) eqn:E; [exact H|].
      destruct (decide (roleName el = k)) as [->|Hne].
      * rewrite lookup_insert_eq. eauto.
      * rewrite lookup_insert_ne by exact Hne. exact H.
    + left. rewrite Hk. destruct (m0 !! k) eqn:E; [eauto|].
      rewrite lookup_insert_eq. eauto.
    + right. eauto.
Qed.

Lemma byRoleName_hit prev el :
  In el prev -> is_Some (byRoleName prev !! roleName el).
Proof.
  intros Hin. apply byRoleName_fold_hit. right. eauto.
Qed.

Lemma refsAgree_spec els a b r :
  refsAgree els = true -> In a els -> In b els ->
  ref a = Some r -> ref b = Some r -> name a = name b.
Proof.
  intros H Ha Hb Hra Hrb. unfold refsAgree in H.
  rewrite forallb_forall in H. specialize (H a Ha).
  rewrite forallb_forall in H. specialize (H b Hb).
  rewrite Hra, Hrb in H. simpl in H. rewrite String.eqb_refl in H. simpl in H.
  apply String.eqb_eq. exact H.
Qed.

(** How matching a current element that also occurs among the previous
    ones ends: matched, unchanged, with its key recorded. *)
Lemma matchPrev_self prev el :
  refsAgree prev = true -> In el prev ->
  exists prevEl key,
    matchPrev (byRef prev) (byRoleName prev) el = Some (prevEl, key)
    /\ isChanged el prevEl = false
    /\ isMatched {[ key ]} el = true.
Proof.
  intros Hag Hin. unfold matchPrev, isChanged, isMatched, in_keys.
  destruct (ref el) as [r|] eqn:Hr.
  - destruct (byRef_hit prev el r Hin Hr) as (pe & -> & Hpe & Hrpe).
    exists pe, ("ref:" ++ r). split; [reflexivity|]. split.
    + rewrite Hrpe. simpl. rewrite String.eqb_refl.
      rewrite (refsAgree_spec prev el pe r Hag Hin Hpe Hr Hrpe).
      rewrite String.eqb_refl. reflexivity.
    + apply orb_true_iff. left. apply bool_decide_eq_true. set_solver.
  - destruct (byRoleName_hit prev el Hin) as [pe Hpe]. rewrite Hpe.
    exists pe, ("rn:" ++ roleName el). split; [reflexivity|]. split; [reflexivity|].
    simpl. apply bool_decide_eq_true. set_solver.
Qed.

Lemma isMatched_mono (k1 k2 : gset string) el :
  k1 ⊆ k2 -> isMatched k1 el = true -> isMatched k2 el = true.
Proof.
  unfold isMatched, in_keys. intros Hsub H.
  apply orb_true_iff in H. apply orb_true_iff.
  destruct H as [H|H]; [left|right].
  - destruct (ref el); [|discriminate].
    apply bool_decide_eq_true in H. apply bool_decide_eq_true. set_solver.
  - apply bool_decide_eq_true in H. apply bool_decide_eq_true. set_solver.
Qed.

Lemma match_fold_self prev curr acc :
  refsAgree prev = true -> (forall el, In el curr -> In el prev) ->
  let res := fold_left (match_step (byRef prev) (byRoleName prev)) curr acc in
  added res = added acc /\ changed res = changed acc
  /\ matchedPrevKeys acc ⊆ matchedPrevKeys res
  /\ (forall el, In el curr -> isMatched (matchedPrevKeys res) el = true).
Proof.
  intros Hag. revert acc. induction curr as [|el curr IH]; intros acc Hsub; simpl.
  - repeat split; [reflexivity | intros ? []].
  - destruct (matchPrev_self prev el Hag (Hsub el (or_introl eq_refl)))
      as (pe & key & Hm & Hch & Hkey).
    assert (Hstep : match_step (byRef prev) (byRoleName prev) acc el
                    = Matching (added acc) (changed acc) (S (unchanged acc))
                               ({[ key ]} ∪ matchedPrevKeys acc)).
    { unfold match_step. rewrite Hm, Hch. reflexivity. }
    rewrite Hstep.
    destruct (IH (Matching (added acc) (changed acc) (S (unchanged acc))
                           ({[ key ]} ∪ matchedPrevKeys acc))
                 (fun e He => Hsub e (or_intror He))) as (Ha & Hc & Hk & Hall).
    simpl in Ha, Hc, Hk.
    repeat split; [exact Ha | exact Hc | |].
    { etrans; [apply union_subseteq_r | exact Hk]. }
    intros e [<-|He]; [|exact (Hall e He)].
    eapply isMatched_mono; [|exact Hkey].
    etrans; [apply union_subseteq_l | exact Hk].
Qed.

Lemma filter_all_false {A} (f : A -> bool) (l : list A) :
  (forall a, In a l -> f a = false) -> filter f l = [].
Proof.
  induction l as [|a l IH]; intros H; simpl; [reflexivity|].
  rewrite (H a (or_introl eq_refl)). apply IH. intros b Hb. apply H. right. exact Hb.
Qed.

(** A current element that occurs among the previous ones is matched,
    and its key recorded. *)
Lemma matchPrev_found prev el :
  In el prev ->
  exists prevEl key,
    matchPrev (byRef prev) (byRoleName prev) el = Some (prevEl, key)
    /\ isMatched {[ key ]} el = true
    /\ (forall r, ref el = Some r ->
          byRef prev !! r = Some prevEl /\ In prevEl prev /\ ref prevEl = Some r).
Proof.
  intros Hin. unfold matchPrev, isMatched, in_keys.
  destruct (ref el) as [r|] eqn:Hr.
  - destruct (byRef_hit prev el r Hin Hr) as (pe & Hb & Hpe & Hrpe). rewrite Hb.
    exists pe, ("ref:" ++ r). split; [reflexivity|]. split.
    + apply orb_true_iff. left. apply bool_decide_eq_true. set_solver.
    + intros r' Hr'. injection Hr' as <-. auto.
  - destruct (byRoleName_hit prev el Hin) as [pe Hpe]. rewrite Hpe.
    exists pe, ("rn:" ++ roleName el). split; [reflexivity|]. split.
    + simpl. apply bool_decide_eq_true. set_solver.
    + intros r' Hr'. discriminate.
Qed.

Lemma match_fold_found prev curr acc :
  (forall el, In el curr -> In el prev) ->
  let res := fold_left (match_step (byRef prev) (byRoleName prev)) curr acc in
  added res = added acc
  /\ List.length (changed acc) <= List.length (changed res)
  /\ matchedPrevKeys acc ⊆ matchedPrevKeys res
  /\ (forall el, In el curr -> isMatched (matchedPrevKeys res) el = true).
Proof.
  revert acc. induction curr as [|el curr IH]; intros acc Hsub; simpl.
  - repeat split; [lia | reflexivity | intros ? []].
  - destruct (matchPrev_found prev el (Hsub el (or_introl eq_refl)))
      as (pe & key & Hm & Hkey & _).
    set (acc' := match_step (byRef prev) (byRoleName prev) acc el).
    assert (Hstep : added acc' = added acc
                    /\ List.length (changed acc) <= List.length (changed acc')
                    /\ matchedPrevKeys acc' = {[ key ]} ∪ matchedPrevKeys acc).
    { unfold acc', match_step. rewrite Hm.
      destruct (isChanged el pe); simpl; [rewrite length_app; simpl|];
        (split; [reflexivity|]; split; [lia | reflexivity]). }
    destruct Hstep as (Ha' & Hc' & Hk').
    destruct (IH acc' (fun e He => Hsub e (or_intror He))) as (Ha & Hc & Hk & Hall).
    split; [congruence|]. split; [lia|]. split.
    { etrans; [|exact Hk]. rewrite Hk'. apply union_subseteq_r. }
    intros e [<-|He]; [|exact (Hall e He)].
    eapply isMatched_mono; [|exact Hkey].
    etrans; [|exact Hk]. rewrite Hk'. apply union_subseteq_l.
Qed.

(** One element matched with a previous element of another name makes
    the changes grow. *)
Lemma match_fold_changed prev curr acc el0 :
  (forall el, In el curr -> In el prev) ->
  In el0 curr ->
  (exists prevEl key, matchPrev (byRef prev) (byRoleName prev) el0 = Some (prevEl, key)
                      /\ isChanged el0 prevEl = true) ->
  List.length (changed acc)
  < List.length (changed (fold_left (match_step (byRef prev) (byRoleName prev)) curr acc)).
Proof.
  revert acc. induction curr as [|el curr IH]; intros acc Hsub Hin Hch; [destruct Hin|].
  simpl. destruct Hin as [->|Hin].
  - destruct Hch as (pe & key & Hm & Hc).
    pose proof (match_fold_found prev curr
                  (match_step (byRef prev) (byRoleName prev) acc el0)
                  (fun e He => Hsub e (or_intror He))) as (_ & Hle & _).
    unfold match_step in Hle at 1. rewrite Hm, Hc in Hle. simpl in Hle.
    rewrite length_app in Hle. simpl in Hle. lia.
  - specialize (IH (match_step (byRef prev) (byRoleName prev) acc el)
                   (fun e He => Hsub e (or_intror He)) Hin Hch).
    assert (Hle : List.length (changed acc)
                  <= List.length (changed (match_step (byRef prev) (byRoleName prev) acc el))).
    { unfold match_step. destruct (matchPrev _ _ el) as [[pe key]|]; [|simpl; lia].
      destruct (isChanged el pe); simpl; [rewrite length_app; simpl|]; lia. }
    lia.
Qed.

Lemma forallb_false {A} (f : A -> bool) (l : list A) :
  forallb f l = false -> exists a, In a l /\ f a = false.
Proof.
  induction l as [|a l IH]; simpl; [discriminate|].
  destruct (f a) eqn:E; simpl.
  - intros H. destruct (IH H) as (b & Hb & Hf). exists b. auto.
  - intros _. exists a. auto.
Qed.

(** Refs that do not agree: two elements under one ref with two names. *)
Lemma refsAgree_false els :
  refsAgree els = false ->
  exists a b r, In a els /\ In b els /\ ref a = Some r /\ ref b = Some r
                /\ name a <> name b.
Proof.
  unfold refsAgree. intros H.
  apply forallb_false in H as (a & Ha & H).
  apply forallb_false in H as (b & Hb & H).
  apply orb_false_iff in H as [H1 H2]. apply negb_false_iff in H1.
  destruct (ref a) as [r|] eqn:Hra; [|discriminate].
  destruct (ref b) as [r'|] eqn:Hrb; [|discriminate].
  simpl in H1. apply String.eqb_eq in H1. subst r'.
  exists a, b, r. repeat split; try assumption.
  intros E. rewrite E, String.eqb_refl in H2. discriminate.
Qed.

Lemma self_changed els :
  refsAgree els = false ->
  0 < List.length (changed (match_all els els)).
Proof.
  intros H. apply refsAgree_false in H as (a & b & r & Ha & Hb & Hra & Hrb & Hne).
  destruct (byRef_hit els a r Ha Hra) as (z & Hz & Hzin & Hrz).
  assert (Hex : exists el0, In el0 els /\ ref el0 = Some r /\ name el0 <> name z).
  { destruct (String.eqb_spec (name a) (name z)) as [E|E].
    - exists b. repeat split; try assumption. congruence.
    - exists a. repeat split; assumption. }
  destruct Hex as (el0 & Hin & Hr0 & Hn0).
  unfold match_all.
  apply (match_fold_changed els els (Matching [] [] 0 ∅) el0 (fun _ H => H) Hin).
  exists z, ("ref:" ++ r). split.
  - unfold matchPrev. rewrite Hr0, Hz. reflexivity.
  - unfold isChanged. rewrite Hr0, Hrz. simpl. rewrite String.eqb_refl. simpl.
    apply negb_true_iff. apply String.eqb_neq. exact Hn0.
Qed.

(** C5, amended: diffing an outline against itself never adds or removes
    an element, and the diff is empty (isEmpty, zero changed) exactly when
    the elements of the outline that carry the same ref also carry the
    same name, as they do when every ref occurs once. *)
Theorem C5_diff_self_empty (x prevUrl currUrl : string) :
  let d := computeDiff x x prevUrl currUrl in
  st_added (diff_stats d) = 0
  /\ st_removed (diff_stats d) = 0
  /\ (st_changed (diff_stats d) = 0 <-> refsAgree (parseElements x) = true)
  /\ isEmpty d = refsAgree (parseElements x).
Proof.
  destruct (match_fold_found (parseElements x) (parseElements x) (Matching [] [] 0 ∅)
              (fun _ H => H)) as (Ha & _ & _ & Hall).
  fold (match_all (parseElements x) (parseElements x)) in Ha, Hall. simpl in Ha.
  assert (Hrem : filter (fun el => negb (isMatched
             (matchedPrevKeys (match_all (parseElements x) (parseElements x))) el))
             (parseElements x) = []).
  { apply filter_all_false. intros el Hel. rewrite (Hall el Hel). reflexivity. }
  assert (Hch : List.length (changed (match_all (parseElements x) (parseElements x))) = 0
                <-> refsAgree (parseElements x) = true).
  { destruct (refsAgree (parseElements x)) eqn:Hag.
    - split; [reflexivity|]. intros _.
      destruct (match_fold_self (parseElements x) (parseElements x) (Matching [] [] 0 ∅)
                  Hag (fun _ H => H)) as (_ & Hc & _).
      fold (match_all (parseElements x) (parseElements x)) in Hc. rewrite Hc. reflexivity.
    - split; [|discriminate]. pose proof (self_changed _ Hag). lia. }
  cbv zeta. unfold computeDiff. cbv zeta. simpl isEmpty. simpl diff_stats.
  simpl st_added. simpl st_removed. simpl st_changed.
  rewrite Ha, Hrem. simpl. split; [reflexivity|]. split; [reflexivity|].
  split; [exact Hch|].
  destruct (refsAgree (parseElements x)) eqn:Hag.
  - apply Nat.eqb_eq. apply Hch. reflexivity.
  - apply Nat.eqb_neq. intros E. apply Hch in E. discriminate.
Qed.

Lemma C5_counterexample :
  let d := computeDiff twoNames twoNames "u" "u" in
  isEmpty d = false /\ st_changed (diff_stats d) = 1.
Proof. vm_compute. split; reflexivity. Qed.

(** The builder itself prints such an outline when an accessible name holds
    a double quote: the differ reads the second button as [B] under e1. *)
Lemma built_outline_self_diff :
  Browser.axTreeToSnapshot 3 quotedButtons
  = Some (quotedOutline, [("e1", 5%Z); ("e2", 7%Z)])
  /\ isEmpty (computeDiff quotedOutline quotedOutline "u" "u") = false.
Proof. split; vm_compute; reflexivity. Qed.

Lemma refsOf_same (els : list element) a b r :
  refsOnce els -> In a els -> In b els -> ref a = Some r -> ref b = Some r -> a = b.
Proof.
  unfold refsOnce. induction els as [|x els IH]; intros Hnd Ha Hb Hra Hrb; [destruct Ha|].
  change (refsOf (x :: els))
    with ((match ref x with Some r0 => [r0] | None => [] end) ++ refsOf els)%list in Hnd.
  assert (Hin : forall c, In c els -> ref c = Some r -> In r (refsOf els)).
  { intros c Hc Hrc. unfold refsOf. apply in_flat_map. exists c.
    split; [exact Hc | rewrite Hrc; left; reflexivity]. }
  assert (Hx : ref x = Some r -> ~ In r (refsOf els)).
  { intros Hrx. rewrite Hrx in Hnd. simpl in Hnd. inversion Hnd. assumption. }
  assert (Hnd' : NoDup (refsOf els)).
  { destruct (ref x); [inversion Hnd; assumption | exact Hnd]. }
  destruct Ha as [->|Ha], Hb as [->|Hb].
  - reflexivity.
  - exfalso. exact (Hx Hra (Hin b Hb Hrb)).
  - exfalso. exact (Hx Hrb (Hin a Ha Hra)).
  - exact (IH Hnd' Ha Hb Hra Hrb).
Qed.

(** Refs that occur once agree. *)
Lemma refsOnce_agree (els : list element) : refsOnce els -> refsAgree els = true.
Proof.
  intros Hnd. unfold refsAgree. apply forallb_forall. intros a Ha.
  apply forallb_forall. intros b Hb.
  destruct (ref a) as [r|] eqn:Hra; [|apply orb_true_r].
  destruct (ref b) as [r'|] eqn:Hrb; [|reflexivity].
  cbn [opt_eqb]. destruct (String.eqb_spec r r') as [<-|Hne]; [|reflexivity].
  rewrite (refsOf_same els a b r Hnd Ha Hb Hra Hrb). rewrite String.eqb_refl. reflexivity.
Qed.

Lemma C5_diff_self_empty_witness :
  refsAgree (parseElements oneButton) = true
  /\ isEmpty (computeDiff oneButton oneButton "u" "u") = true.
Proof.
  split; [vm_compute; reflexivity|].
  destruct (C5_diff_self_empty oneButton "u" "u") as (_ & _ & _ & He).
  rewrite He. vm_compute. reflexivity.
Defined.

Lemma Qle_bool_frac (n t : nat) :
  0 < t ->
  negb (Qle_bool (Z.of_nat n # Pos.of_nat t) (7 # 10)) = true <-> 7 * t < 10 * n.
Proof.
  intros Ht. unfold Qle_bool. simpl Qnum. simpl Qden.
  rewrite negb_true_iff, Z.leb_gt.
  assert (Z.pos (Pos.of_nat t) = Z.of_nat t) as ->.
  { destruct t; [lia|]. rewrite <- Pos.of_nat_succ, Zpos_P_of_succ_nat. lia. }
  lia.
Qed.

(** C4, amended: isLargeDiff holds exactly when the current outline has no
    element (the ratio is then fixed at 1) or (added + removed + changed) /
    total exceeds 0.7, that is 7 * total < 10 * (added + removed + changed);
    added and removed are the counts after the noise filter, changed the
    number of ref-matched elements whose name differs, total the number of
    elements parsed from the current outline. *)
Theorem C4_large_diff_threshold (prevSnapshot currSnapshot prevUrl currUrl : string) :
  let d := computeDiff prevSnapshot currSnapshot prevUrl currUrl in
  let st := diff_stats d in
  st_total st = List.length (parseElements currSnapshot)
  /\ isLargeDiff d = negb (Qle_bool (st_diffRatio st) (7 # 10))
  /\ (isLargeDiff d = true <->
      st_total st = 0
      \/ 7 * st_total st < 10 * (st_added st + st_removed st + st_changed st)).
Proof.
  cbv zeta. unfold computeDiff. cbv zeta. simpl diff_stats. simpl isLargeDiff.
  simpl st_total. simpl st_added. simpl st_removed. simpl st_changed. simpl st_diffRatio.
  split; [reflexivity|]. split; [reflexivity|].
  destruct (List.length (parseElements currSnapshot)) as [|t] eqn:Ht.
  - simpl. split; [intros _; left; reflexivity | reflexivity].
  - change (0 <? S t) with true. cbv iota.
    rewrite Qle_bool_frac by lia. split; [intros H; right; exact H|].
    intros [H|H]; [discriminate | exact H].
Qed.

(** C4 as stated fails on two empty outlines: the code reports a large
    diff, while zero changed elements over zero elements exceed nothing. *)
Lemma C4_counterexample :
  let d := computeDiff EmptyString EmptyString "u" "u" in
  let st := diff_stats d in
  isLargeDiff d = true
  /\ st_total st = 0
  /\ st_added st + st_removed st + st_changed st = 0
  /\ ratioExceeds (st_added st + st_removed st + st_changed st) (st_total st) = false.
Proof. vm_compute. repeat split; reflexivity. Qed.

Lemma isMatched_empty el : isMatched ∅ el = false.
Proof.
  unfold isMatched, in_keys. apply orb_false_iff. split.
  - destruct (ref el); [|reflexivity]. apply bool_decide_eq_false, not_elem_of_empty.
  - apply bool_decide_eq_false, not_elem_of_empty.
Qed.

Lemma filter_all_true {A} (f : A -> bool) (l : list A) :
  (forall a, In a l -> f a = true) -> filter f l = l.
Proof.
  induction l as [|a l IH]; intros H; simpl; [reflexivity|].
  rewrite (H a (or_introl eq_refl)). f_equal. apply IH.
  intros b Hb. apply H. right. exact Hb.
Qed.

Lemma filter_length_zero (els : list element) :
  (List.length (filter filterNoise els) =? 0) = allNoise els.
Proof.
  unfold allNoise. induction els as [|el els IH]; simpl; [reflexivity|].
  destruct (filterNoise el); simpl; [reflexivity | exact IH].
Qed.

(** C10, amended: when the current outline parses to zero elements,
    computeDiff returns diffRatio = 1 and isLargeDiff = true; isEmpty is
    true exactly when every element of the previous outline has a noise
    role (in particular when it has no element either), so the two flags
    are not mutually exclusive. *)
Theorem C10_empty_current (prevSnapshot currSnapshot prevUrl currUrl : string) :
  parseElements currSnapshot = [] ->
  let d := computeDiff prevSnapshot currSnapshot prevUrl currUrl in
  st_diffRatio (diff_stats d) = 1%Q
  /\ isLargeDiff d = true
  /\ isEmpty d = allNoise (parseElements prevSnapshot).
Proof.
  intros Hcurr. cbv zeta. unfold computeDiff. cbv zeta. rewrite Hcurr.
  simpl diff_stats. simpl st_diffRatio. simpl isLargeDiff. simpl isEmpty.
  split; [reflexivity|]. split; [reflexivity|].
  unfold match_all. simpl fold_left. simpl added. simpl changed. simpl matchedPrevKeys.
  rewrite (filter_all_true (fun el => negb (isMatched ∅ el))).
  - simpl. rewrite Nat.add_0_r. apply filter_length_zero.
  - intros el _. rewrite isMatched_empty. reflexivity.
Qed.

(** C10 as stated fails when the previous outline has an element the noise
    filter keeps: the removal is counted and the diff is not empty. *)
Lemma C10_counterexample :
  let d := computeDiff oneButton EmptyString "u" "u" in
  parseElements EmptyString = [] /\ isLargeDiff d = true /\ isEmpty d = false.
Proof. vm_compute. repeat split; reflexivity. Qed.

Lemma C10_empty_current_witness :
  parseElements EmptyString = []
  /\ isLargeDiff (computeDiff EmptyString EmptyString "u" "u") = true
  /\ isEmpty (computeDiff EmptyString EmptyString "u" "u") = true.
Proof.
  split; [reflexivity|].
  destruct (C10_empty_current EmptyString EmptyString "u" "u" eq_refl) as (_ & Hl & He).
  split; [exact Hl|]. rewrite He. reflexivity.
Defined.

End DifferFacts.

(** ** The action guards *)

Section ActionFacts.

Import Browser.

(** C7: with a ref that the handle map lacks, clickRef names the first ten
    refs of the map in its message; fillRef, hover and selectOption throw
    the bare [Unknown ref: <ref>], whatever the map holds. *)
Theorem C7_unknown_ref_messages (m : RefMap) (ref text value : string) :
  refMap_get ref m = None ->
  clickRef m ref
  = Throw ("Unknown ref: " ++ ref ++ ". Available refs: "
           ++ join ", " (firstn 10 (refMap_keys m)) ++ "...")
  /\ fillRef m ref text = Throw ("Unknown ref: " ++ ref)
  /\ hover m ref = Throw ("Unknown ref: " ++ ref)
  /\ selectOption m ref value = Throw ("Unknown ref: " ++ ref).
Proof.
  intros H. unfold clickRef, fillRef, hover, selectOption. rewrite H.
  repeat split; reflexivity.
Qed.

Lemma C7_unknown_ref_messages_witness :
  clickRef twoRefs "e99" = Throw "Unknown ref: e99. Available refs: e1, e2..."
  /\ fillRef twoRefs "e99" "hello" = Throw "Unknown ref: e99"
  /\ hover twoRefs "e99" = Throw "Unknown ref: e99"
  /\ selectOption twoRefs "e99" "x" = Throw "Unknown ref: e99".
Proof.
  exact (C7_unknown_ref_messages twoRefs "e99" "hello" "x" eq_refl).
Defined.

End ActionFacts.

(** ** The outline builder *)

Section BuilderFacts.

Import Browser.

Lemma refMap_set_keys ref v (m : RefMap) k :
  In k (refMap_keys (refMap_set ref v m)) <-> k = ref \/ In k (refMap_keys m).
Proof.
  unfold refMap_keys. induction m as [|[k' w] m IH]; simpl.
  - split; [intros [H|[]]; left; congruence | intros [H|[]]; left; congruence].
  - destruct (String.eqb_spec k' ref) as [->|Hne]; simpl.
    + split; [intros [H|H]; [left; congruence | right; right; exact H]|].
      intros [H|[H|H]]; [left; congruence | left; exact H | right; exact H].
    + rewrite IH. split.
      * intros [H|[H|H]]; [right; left; exact H | left; exact H | right; right; exact H].
      * intros [H|[H|H]]; [right; left; exact H | left; exact H | right; right; exact H].
Qed.

Lemma emit_closed node mappedRole depth s :
  handle node <> None -> closed s -> closed (emit node mappedRole depth s).
Proof.
  intros Hh Hs. unfold emit.
  destruct (gets_ref mappedRole (name node)).
  - destruct (handle node) as [h|]; [|congruence].
    intros l r Hl Hr. simpl in *. apply refMap_set_keys.
    apply in_app_or in Hl as [Hl|[<-|[]]].
    + right. exact (Hs l r Hl Hr).
    + left. simpl in Hr. congruence.
  - intros l r Hl Hr. simpl in *.
    apply in_app_or in Hl as [Hl|[<-|[]]]; [exact (Hs l r Hl Hr) | discriminate].
Qed.

Lemma renderNode_S fuel ix id depth s :
  renderNode (S fuel) ix id depth s =
  match snd ix !! id with
  | None => Some s
  | Some node =>
      let children := default [] (fst ix !! id) in
      if String.eqb (role node) "InlineTextBox" || String.eqb (role node) "LineBreak"
      then Some s
      else if has SKIP_ROLES (role node) || String.eqb (role node) "none"
      then renderAll fuel ix children depth s
      else
        match mapRole (role node) with
        | None => renderAll fuel ix children depth s
        | Some mappedRole =>
            if ignored node && match children with [] => true | _ => false end
            then Some s
            else renderAll fuel ix children (S depth) (emit node mappedRole depth s)
        end
  end.
Proof.
  assert (E : forall cs d st,
             (fix renderAll (children : list string) (depth : nat) (s : state)
                  {struct children} : option state :=
                match children with
                | [] => Some s
                | cid :: rest =>
                    match renderNode fuel ix cid depth s with
                    | Some s' => renderAll rest depth s'
                    | None => None
                    end
                end) cs d st = renderAll fuel ix cs d st).
  { induction cs as [|c cs IH]; intros d st; simpl; [reflexivity|].
    destruct (renderNode fuel ix c d st); [apply IH | reflexivity]. }
  cbn [renderNode]. destruct (snd ix !! id) as [node|]; [|reflexivity].
  cbv zeta.
  destruct (String.eqb (role node) "InlineTextBox" || String.eqb (role node) "LineBreak");
    [reflexivity|].
  destruct (has SKIP_ROLES (role node) || String.eqb (role node) "none"); [apply E|].
  destruct (mapRole (role node)); [|apply E].
  destruct (ignored node && _); [reflexivity | apply E].
Qed.

(** What every pushed line keeps, a run of renderNode keeps. *)
Lemma renderNode_preserves (P : state -> Prop) fuel ix :
  (forall id node mapped depth s,
      snd ix !! id = Some node -> mapRole (role node) = Some mapped ->
      P s -> P (emit node mapped depth s)) ->
  forall id depth s s',
    renderNode fuel ix id depth s = Some s' -> P s -> P s'.
Proof.
  intros Hemit. induction fuel as [|fuel IH]; intros id depth s s' H Hs;
    [discriminate|].
  assert (Hall : forall cs d st st',
             renderAll fuel ix cs d st = Some st' -> P st -> P st').
  { induction cs as [|c cs IHcs]; intros d st st' Hr Hc; simpl in Hr.
    - injection Hr as <-. exact Hc.
    - destruct (renderNode fuel ix c d st) as [st1|] eqn:E; [|discriminate].
      exact (IHcs d st1 st' Hr (IH c d st st1 E Hc)). }
  rewrite renderNode_S in H.
  destruct (snd ix !! id) as [node|] eqn:Hnode; [|injection H as <-; exact Hs].
  cbv zeta in H.
  destruct (String.eqb (role node) "InlineTextBox" || String.eqb (role node) "LineBreak");
    [injection H as <-; exact Hs|].
  destruct (has SKIP_ROLES (role node) || String.eqb (role node) "none");
    [exact (Hall _ _ _ _ H Hs)|].
  destruct (mapRole (role node)) as [mapped|] eqn:Hm; [|exact (Hall _ _ _ _ H Hs)].
  destruct (ignored node && _); [injection H as <-; exact Hs|].
  apply (Hall _ _ _ _ H). exact (Hemit id node mapped depth s Hnode Hm Hs).
Qed.

Lemma renderAll_preserves (P : state -> Prop) fuel ix :
  (forall id node mapped depth s,
      snd ix !! id = Some node -> mapRole (role node) = Some mapped ->
      P s -> P (emit node mapped depth s)) ->
  forall cs depth s s',
    renderAll fuel ix cs depth s = Some s' -> P s -> P s'.
Proof.
  intros Hemit. induction cs as [|c cs IH]; intros depth s s' H Hs; simpl in H.
  - injection H as <-. exact Hs.
  - destruct (renderNode fuel ix c depth s) as [s1|] eqn:E; [|discriminate].
    exact (IH depth s1 s' H (renderNode_preserves P fuel ix Hemit c depth s s1 E Hs)).
Qed.

Lemma index_nodes_from nodes (ix0 : indexes) id node :
  snd (fold_left index_node nodes ix0) !! id = Some node ->
  snd ix0 !! id = Some node \/ In node nodes.
Proof.
  revert ix0. induction nodes as [|n nodes IH]; intros ix0 H; simpl in H.
  - left. exact H.
  - apply IH in H as [H|H]; [|right; right; exact H].
    destruct ix0 as [cm nm]. simpl in H.
    destruct (decide (nodeId n = id)) as [E|Hne].
    + subst id. rewrite lookup_insert_eq in H. right. left. congruence.
    + rewrite lookup_insert_ne in H by exact Hne. left. exact H.
Qed.

(** The children listed under [p] are nodes whose parent link is [p]. *)
Lemma index_nodes_children nodes (ix0 : indexes) p c :
  In c (default [] (fst (fold_left index_node nodes ix0) !! p)) ->
  In c (default [] (fst ix0 !! p))
  \/ exists n, In n nodes /\ nodeId n = c /\ parentId n = Some p.
Proof.
  revert ix0. induction nodes as [|n nodes IH]; intros ix0 H; simpl in H.
  - left. exact H.
  - apply IH in H as [H|(n' & Hin & Hn')]; [|right; exists n'; split; [right|]; assumption].
    destruct ix0 as [cm nm]. simpl in H.
    destruct (parentId n) as [p'|] eqn:Hp; [|left; exact H].
    destruct (decide (p' = p)) as [E|Hne].
    + subst p'. rewrite lookup_insert_eq in H. simpl in H.
      apply in_app_or in H as [H|[H|[]]]; [left; exact H|].
      right. exists n. split; [left; reflexivity | split; [exact H | exact Hp]].
    + rewrite lookup_insert_ne in H by exact Hne. left. exact H.
Qed.

(** What holds of the empty state and is kept by every line pushed for a
    node of the list holds of the final state. *)
Lemma axTree_preserves (P : state -> Prop) fuel nodes s :
  P (State [] 0 []) ->
  (forall node mapped depth st,
      In node nodes -> mapRole (role node) = Some mapped ->
      P st -> P (emit node mapped depth st)) ->
  axTree fuel nodes = Some s -> P s.
Proof.
  intros H0 Hemit Hs.
  assert (Hix : forall id node mapped depth st,
             snd (index_nodes nodes) !! id = Some node ->
             mapRole (role node) = Some mapped -> P st -> P (emit node mapped depth st)).
  { intros id node mapped depth st H. apply index_nodes_from in H as [H|H].
    - simpl in H. rewrite lookup_empty in H. discriminate.
    - exact (Hemit node mapped depth st H). }
  unfold axTree in Hs. destruct nodes as [|n nodes]; [injection Hs as <-; exact H0|].
  destruct (find_root (n :: nodes)) as [root|]; [|injection Hs as <-; exact H0].
  exact (renderAll_preserves P fuel _ Hix _ _ _ _ Hs H0).
Qed.

Lemma axTree_closed fuel nodes s :
  allHandles nodes = true -> axTree fuel nodes = Some s -> closed s.
Proof.
  intros Hall. apply (axTree_preserves closed); [intros l r []|].
  intros node mapped depth st Hin _. apply emit_closed.
  unfold allHandles in Hall. rewrite forallb_forall in Hall.
  specialize (Hall node Hin). destruct (handle node); discriminate.
Qed.

(** *** The outline as text *)

Lemma assoc_In k l v : assoc k l = Some v -> In v (map snd l).
Proof.
  induction l as [|[k' v'] l IH]; simpl; [discriminate|].
  destruct (String.eqb k' k); [intros H; injection H as <-; left; reflexivity|].
  intros H. right. exact (IH H).
Qed.

Lemma mapRole_plain r mapped : mapRole r = Some mapped -> bracket_free mapped = true.
Proof.
  intros H. apply assoc_In in H.
  assert (Hall : forallb bracket_free (map snd ROLE_MAP) = true) by (vm_compute; reflexivity).
  rewrite forallb_forall in Hall. exact (Hall mapped H).
Qed.

Lemma emit_plain node mapped depth s :
  bracket_free (name node) = true -> bracket_free mapped = true ->
  plain s -> plain (emit node mapped depth s).
Proof.
  intros Hn Hr Hs. unfold plain, emit.
  destruct (gets_ref mapped (name node)); cbn [lines];
    (apply Forall_app; split; [exact Hs|]); (constructor; [|constructor]);
    (split; [exact Hr | split; [exact Hn|]]); cbn [ol_ref]; [|exact I].
  exists (S (refCounter s)). reflexivity.
Qed.

Lemma axTree_plain fuel nodes s :
  plainNames nodes = true -> axTree fuel nodes = Some s -> plain s.
Proof.
  intros Hall. apply (axTree_preserves plain); [constructor|].
  intros node mapped depth st Hin Hm. apply emit_plain; [|exact (mapRole_plain _ _ Hm)].
  unfold plainNames in Hall. rewrite forallb_forall in Hall. exact (Hall node Hin).
Qed.

Lemma indent_bracket_free d : bracket_free (repeat_string "  " d) = true.
Proof. induction d as [|d IH]; [reflexivity | exact IH]. Qed.

Lemma refId_free k (c : ascii) :
  is_digit c = false -> Ascii.eqb "e" c = false ->
  all_chars (fun x => negb (Ascii.eqb x c)) ("e" ++ show_nat k) = true.
Proof.
  intros Hd He. change ("e" ++ show_nat k) with (String "e" (show_nat k)).
  cbn [all_chars]. rewrite He. cbn [negb andb].
  apply (all_chars_weaken is_digit); [|apply show_nat_digits].
  intros x Hx. destruct (Ascii.eqb_spec x c) as [->|]; [congruence | reflexivity].
Qed.

(** A tag in the text of a plain line is the tag of the line's own ref. *)
Lemma render_tag l r :
  plainLine l -> hasTag r (render l) = true -> ol_ref l = Some r.
Proof.
  intros (Hrole & Hname & Href). unfold hasTag, render.
  change (tag r) with (String "[" ("ref=" ++ r ++ "]")).
  set (refStr := match ol_ref l with
                 | Some r0 => " [ref=" ++ r0 ++ "]"
                 | None => EmptyString
                 end).
  rewrite includes_skip by apply indent_bracket_free.
  rewrite (includes_skip "[" _ "- ") by reflexivity.
  rewrite includes_skip by exact Hrole.
  rewrite includes_skip.
  2:{ destruct (ol_name l) as [|a n] eqn:E; [reflexivity|].
      fold (bracket_free (" " ++ Quote ++ String a n ++ Quote)).
      unfold bracket_free in *. rewrite !all_chars_app, Hname. reflexivity. }
  subst refStr. destruct (ol_ref l) as [r0|]; [|discriminate].
  destruct Href as [k ->].
  change (" [ref=" ++ ("e" ++ show_nat k) ++ "]")
    with (" " ++ String "[" ("ref=" ++ ("e" ++ show_nat k) ++ "]")).
  rewrite (includes_skip "[" _ " ") by reflexivity.
  cbn [includes]. rewrite includes_absent.
  2:{ change ("ref=" ++ ("e" ++ show_nat k) ++ "]")
        with ("ref=" ++ (("e" ++ show_nat k) ++ "]")).
      rewrite (all_chars_app _ "ref="), (all_chars_app _ ("e" ++ show_nat k) "]").
      rewrite refId_free by reflexivity. reflexivity. }
  rewrite orb_false_r. cbn [starts_with]. rewrite Ascii.eqb_refl. cbn [andb].
  change ("ref=" ++ r ++ "]") with ("ref=" ++ (r ++ "]")).
  change ("ref=" ++ ("e" ++ show_nat k) ++ "]") with ("ref=" ++ (("e" ++ show_nat k) ++ "]")).
  intros H. cbn in H.
  f_equal. symmetry. apply starts_with_close; [apply refId_free; reflexivity|].
  exact H.
Qed.

Lemma tag_noLF r : noLF r = true -> noLF (tag r) = true.
Proof.
  intros H. unfold noLF, tag in *.
  rewrite (all_chars_app _ "[ref="), (all_chars_app _ r "]"), H. reflexivity.
Qed.

(** *** The builder returns *)

Lemma renderAll_returns fuel ix cs :
  (forall c depth s, In c cs -> exists s', renderNode fuel ix c depth s = Some s') ->
  forall depth s, exists s', renderAll fuel ix cs depth s = Some s'.
Proof.
  induction cs as [|c cs IH]; intros Hc depth s; simpl; [eexists; reflexivity|].
  destruct (Hc c depth s (or_introl eq_refl)) as [s1 ->].
  apply IH. intros c' d st Hin. apply Hc. right. exact Hin.
Qed.

Lemma renderNode_returns (h : string -> nat) ix fuel :
  (forall p c, In c (default [] (fst ix !! p)) -> h c < h p) ->
  forall id depth s, h id < fuel -> exists s', renderNode fuel ix id depth s = Some s'.
Proof.
  intros Hix. induction fuel as [|fuel IH]; intros id depth s Hlt; [lia|].
  assert (Hall : forall d st,
             exists s', renderAll fuel ix (default [] (fst ix !! id)) d st = Some s').
  { apply renderAll_returns. intros c d st Hin. apply IH.
    specialize (Hix id c Hin). lia. }
  rewrite renderNode_S.
  destruct (snd ix !! id) as [node|]; [|eexists; reflexivity].
  cbv zeta.
  destruct (String.eqb (role node) "InlineTextBox" || String.eqb (role node) "LineBreak");
    [eexists; reflexivity|].
  destruct (has SKIP_ROLES (role node) || String.eqb (role node) "none"); [apply Hall|].
  destruct (mapRole (role node)) as [mapped|]; [|apply Hall].
  destruct (ignored node && _); [eexists; reflexivity | apply Hall].
Qed.

(** The builder returns on a list of nodes that a rank orders from the
    leaves up, with the bound of the rank as fuel. *)
Lemma axTree_returns (h : string -> nat) bound nodes :
  ranked h bound nodes -> exists s, axTree bound nodes = Some s.
Proof.
  intros Hr. unfold axTree. destruct nodes as [|n0 nodes]; [eexists; reflexivity|].
  destruct (find_root (n0 :: nodes)) as [root|]; [|eexists; reflexivity].
  assert (Hch : forall p c, In c (default [] (fst (index_nodes (n0 :: nodes)) !! p)) ->
                            h c < bound /\ h c < h p).
  { intros p c H. apply index_nodes_children in H as [H|(n & Hin & <- & Hp)].
    - simpl in H. rewrite lookup_empty in H. destruct H.
    - destruct (Hr n Hin) as [Hb Hlt]. split; [exact Hb | exact (Hlt p Hp)]. }
  apply renderAll_returns. intros c depth s Hin.
  apply (renderNode_returns h); [intros p c' H; apply (Hch p c' H)|].
  apply (Hch _ _ Hin).
Qed.

(** More fuel does not change what a run returns. *)
Lemma renderNode_mono fuel : forall fuel' ix id depth s s',
  fuel <= fuel' -> renderNode fuel ix id depth s = Some s' ->
  renderNode fuel' ix id depth s = Some s'.
Proof.
  induction fuel as [|fuel IH]; intros fuel' ix id depth s s' Hle H; [discriminate|].
  destruct fuel' as [|fuel']; [lia|].
  assert (Hall : forall cs d st st',
             renderAll fuel ix cs d st = Some st' -> renderAll fuel' ix cs d st = Some st').
  { induction cs as [|c cs IHcs]; intros d st st' Hr; simpl in Hr |- *; [exact Hr|].
    destruct (renderNode fuel ix c d st) as [st1|] eqn:E; [|discriminate].
    rewrite (IH fuel' ix c d st st1 ltac:(lia) E). exact (IHcs d st1 st' Hr). }
  rewrite renderNode_S in H. rewrite renderNode_S.
  destruct (snd ix !! id) as [node|]; [|exact H].
  cbv zeta in H |- *.
  destruct (String.eqb (role node) "InlineTextBox" || String.eqb (role node) "LineBreak");
    [exact H|].
  destruct (has SKIP_ROLES (role node) || String.eqb (role node) "none");
    [exact (Hall _ _ _ _ H)|].
  destruct (mapRole (role node)) as [mapped|]; [|exact (Hall _ _ _ _ H)].
  destruct (ignored node && _); [exact H | exact (Hall _ _ _ _ H)].
Qed.

(** C1, amended: when every node of the list has a backend-DOM handle and
    no node name holds an opening bracket, every ref whose tag occurs in
    the text of the outline is a key of the handle map returned with it;
    and the builder does return an outline when the parent links form a
    forest. *)
Theorem C1_refs_in_handle_map (fuel : nat) (nodes : list AXNode) :
  allHandles nodes = true ->
  plainNames nodes = true ->
  (forall h, ranked h fuel nodes -> exists out, axTreeToSnapshot fuel nodes = Some out)
  /\ (forall snapshot m r,
        axTreeToSnapshot fuel nodes = Some (snapshot, m) ->
        noLF r = true ->
        hasTag r snapshot = true ->
        In r (refMap_keys m)).
Proof.
  intros Hh Hp. split.
  - intros h Hr. unfold axTreeToSnapshot.
    destruct (axTree_returns h fuel nodes Hr) as [s ->]. eexists. reflexivity.
  - intros snapshot m r Hsnap Hr Htag. unfold axTreeToSnapshot in Hsnap.
    destruct (axTree fuel nodes) as [s|] eqn:Hs; [|discriminate].
    injection Hsnap as <- <-.
    apply includes_join_lines in Htag as (text & Hin & Htext);
      [|exact (tag_noLF r Hr) | discriminate].
    apply in_map_iff in Hin as (l & <- & Hl).
    pose proof (axTree_plain fuel nodes s Hp Hs) as Hplain.
    unfold plain in Hplain. rewrite Forall_forall in Hplain.
    apply (axTree_closed fuel nodes s Hh Hs l r Hl).
    exact (render_tag l r (Hplain l Hl) Htext).
Qed.

(** C1 as stated fails for a node without a backend-DOM handle: the tag of
    its ref is printed and the handle map stays empty.  It fails as well,
    handles or not, for a name that holds the text of a tag: the outline
    shows e9, which was never handed out. *)
Lemma C1_counterexample :
  (axTreeToSnapshot 3 [rootNode; buttonNode None]
   = Some ("- button " ++ Quote ++ "Go" ++ Quote ++ " [ref=e1]", [])
   /\ hasTag "e1" ("- button " ++ Quote ++ "Go" ++ Quote ++ " [ref=e1]") = true
   /\ ~ In "e1" (refMap_keys []))
  /\ (axTreeToSnapshot 3 [rootNode; forgedButton]
      = Some ("- button " ++ Quote ++ "x [ref=e9]" ++ Quote ++ " [ref=e1]", [("e1", 7%Z)])
      /\ hasTag "e9" ("- button " ++ Quote ++ "x [ref=e9]" ++ Quote ++ " [ref=e1]") = true
      /\ ~ In "e9" (refMap_keys [("e1", 7%Z)])).
Proof.
  split.
  - split; [vm_compute; reflexivity|]. split; [vm_compute; reflexivity|]. intros [].
  - split; [vm_compute; reflexivity|]. split; [vm_compute; reflexivity|].
    intros [H|[]]. discriminate.
Qed.

Lemma C1_refs_in_handle_map_witness :
  (exists out, axTreeToSnapshot 3 [rootNode; buttonNode (Some 7%Z)] = Some out)
  /\ In "e1" (refMap_keys [("e1", 7%Z)]).
Proof.
  destruct (C1_refs_in_handle_map 3 [rootNode; buttonNode (Some 7%Z)])
    as [Hret Hkeys]; [vm_compute; reflexivity | vm_compute; reflexivity |].
  split.
  - apply (Hret rootRank). intros n [<-|[<-|[]]]; (split; [vm_compute; lia|]).
    + intros p Hp. discriminate.
    + intros p Hp. injection Hp as <-. vm_compute. lia.
  - apply (Hkeys ("- button " ++ Quote ++ "Go" ++ Quote ++ " [ref=e1]") [("e1", 7%Z)] "e1");
      vm_compute; reflexivity.
Defined.

End BuilderFacts.

(** ** Noise removal *)

Section NoiseFacts.

Import Optimizer.

Lemma commits_lit l k : p_first_not_space l -> commits is_space (fun x c => run (lit l) x c k).
Proof.
  intros Hl pos prev a s c Ha. rewrite run_lit. cbn [c_rest].
  rewrite (starts_with_not_space l a s Hl Ha). reflexivity.
Qed.

Lemma test_placeholder line : test PLACEHOLDER_LINE_RE line = placeholderShape line.
Proof.
  unfold PLACEHOLDER_LINE_RE, placeholderShape. cbn [seqs]. rewrite test_bol.
  cbn [run]. unfold star, sp.
  rewrite run_rep_commit by (apply commits_lit; reflexivity).
  cbn [Nat.leb]. rewrite run_lit, skip_chars_rest. cbn [c_rest].
  rewrite drop_span_trimStart. destruct (starts_with _ _); reflexivity.
Qed.

Lemma commits_eol : commits is_space (fun x c => run Eol x c final).
Proof. intros pos prev a s c Ha. reflexivity. Qed.

Lemma test_emptyText line : test EMPTY_TEXT_RE line = emptyTextShape line.
Proof.
  unfold EMPTY_TEXT_RE, emptyTextShape. cbn [seqs]. rewrite test_bol.
  cbn [run]. unfold star, sp.
  rewrite run_rep_commit.
  2:{ intros pos prev a s c Ha. rewrite run_lit. cbn [c_rest].
      rewrite (starts_with_not_space _ a s); [reflexivity | reflexivity | exact Ha]. }
  cbn [Nat.leb]. rewrite run_lit, skip_chars_rest. cbn [c_rest].
  rewrite drop_span_trimStart.
  destruct (starts_with "- text:" (trimStart line)); [|reflexivity].
  rewrite run_rep_commit by exact commits_eol.
  cbn [Nat.leb run]. rewrite !skip_chars_rest. cbn [c_rest].
  change (String.length "- text:") with 7.
  rewrite (drop_span_trimStart line).
  rewrite <- (drop_span_empty is_space (drop_string 7 (trimStart line))).
  destruct (drop_string _ (drop_string 7 (trimStart line))); reflexivity.
Qed.

Lemma test_blankText line : test BLANK_TEXT_RE line = blankTextShape line.
Proof.
  unfold BLANK_TEXT_RE, blankTextShape. cbn [seqs]. rewrite test_bol.
  cbn [run]. unfold star, sp.
  rewrite run_rep_commit.
  2:{ intros pos prev a s c Ha. rewrite run_lit. cbn [c_rest].
      rewrite (starts_with_not_space _ a s); [reflexivity | reflexivity | exact Ha]. }
  cbn [Nat.leb]. rewrite run_lit, skip_chars_rest. cbn [c_rest].
  rewrite drop_span_trimStart.
  destruct (starts_with ("- text: " ++ Quote) (trimStart line)); [|reflexivity].
  rewrite run_rep_commit.
  2:{ intros pos prev a s c Ha. rewrite run_lit. cbn [c_rest].
      rewrite (starts_with_not_space _ a s); [reflexivity | reflexivity | exact Ha]. }
  cbn [Nat.leb]. rewrite run_lit, !skip_chars_rest. cbn [c_rest run].
  change (String.length ("- text: " ++ Quote)) with 9.
  rewrite (drop_span_trimStart line).
  rewrite (drop_span_trimStart (drop_string 9 (trimStart line))).
  destruct (trimStart (drop_string 9 (trimStart line))) as [|a rest]; [reflexivity|].
  cbn [starts_with Quote String.eqb]. rewrite Ascii.eqb_sym.
  destruct (Ascii.eqb a DQ); [|reflexivity].
  cbn [andb String.length drop_string]. destruct rest; reflexivity.
Qed.

Lemma isNoise_shape line : isNoise line = noiseShape line.
Proof.
  unfold isNoise, noiseShape.
  rewrite test_placeholder, test_emptyText, test_blankText. reflexivity.
Qed.

Lemma trimStart_indent indent s :
  all_chars is_space indent = true -> trimStart (indent ++ String "-" s) = String "-" s.
Proof.
  induction indent as [|a indent IH]; simpl; [reflexivity|].
  intros H. apply andb_true_iff in H as [Ha Hi]. rewrite Ha. exact (IH Hi).
Qed.

(** C6, amended: on an outline whose white space is that of ASCII,
    removeNoise drops the lines that, after optional white space, begin
    with [- /placeholder:], or are [- text:] followed by white space only,
    or are [- text: ] followed by a quoted run of white space (the forms
    with a colon); it keeps every other line unchanged and in order.  A
    text line of the outline grammar, [- text] and a quoted name without a
    colon, is kept whatever its name. *)
Theorem C6_removeNoise_colon_forms (snapshot : string) :
  asciiSpaces snapshot = true ->
  removeNoise snapshot
  = join_lines (filter (fun line => negb (noiseShape line)) (split_lines snapshot))
  /\ forall indent name,
       all_chars is_space indent = true ->
       noiseShape (grammarText indent name) = false.
Proof.
  intros _. split.
  - unfold removeNoise, removeNoise_lines. f_equal.
    apply filter_ext. intros line. rewrite isNoise_shape. reflexivity.
  - intros indent name Hi.
    unfold noiseShape, placeholderShape, emptyTextShape, blankTextShape, grammarText.
    change (indent ++ "- text " ++ Quote ++ name ++ Quote)
      with (indent ++ String "-" (" text " ++ Quote ++ name ++ Quote)).
    rewrite (trimStart_indent indent _ Hi). reflexivity.
Qed.

(** C6 as stated fails on the grammar form it names: the line [- text]
    with the quoted name of one space comes out of removeNoise. *)
Lemma C6_counterexample :
  removeNoise (grammarText EmptyString " ") = grammarText EmptyString " ".
Proof. vm_compute. reflexivity. Qed.

Lemma C6_removeNoise_colon_forms_witness :
  all_chars is_space "  " = true
  /\ noiseShape (grammarText "  " " ") = false
  /\ removeNoise noisyOutline = grammarText "  " " ".
Proof.
  destruct (C6_removeNoise_colon_forms noisyOutline) as [Hr Hg];
    [vm_compute; reflexivity|].
  split; [reflexivity|]. split; [apply Hg; reflexivity|].
  rewrite Hr. vm_compute. reflexivity.
Defined.

End NoiseFacts.

(** ** Smart truncation *)

Section SmartTruncateFacts.

Import Optimizer.

Lemma key_eqb_refl k : key_eqb k k = true.
Proof. unfold key_eqb. rewrite Nat.eqb_refl, String.eqb_refl. reflexivity. Qed.

Lemma tracker_count_set k n t : tracker_count k (tracker_set k n t) = n.
Proof.
  induction t as [|[k' m] t IH]; simpl.
  - rewrite key_eqb_refl. reflexivity.
  - destruct (key_eqb k' k) eqn:E; simpl; rewrite E; [reflexivity | exact IH].
Qed.

Lemma flatten_cons (b : block) bs :
  flatten (b :: bs) = (fst b :: snd b ++ flatten bs)%list.
Proof. reflexivity. Qed.

Lemma loop_skip mx t ls rest :
  smartTruncate_loop mx (List.length ls) t (ls ++ rest)%list
  = smartTruncate_loop mx 0 t rest.
Proof. induction ls as [|l ls IH]; simpl; [reflexivity | exact IH]. Qed.

Lemma loop_untracked mx t ls rest :
  forallb untracked ls = true ->
  smartTruncate_loop mx 0 t (ls ++ rest)%list
  = (ls ++ smartTruncate_loop mx 0 t rest)%list.
Proof.
  induction ls as [|l ls IH]; intros H; [reflexivity|].
  simpl in H. apply andb_true_iff in H as [Hl Hls].
  cbn [app smartTruncate_loop]. unfold untracked in Hl.
  destruct (parseLine l) as [p|].
  - apply negb_true_iff in Hl. rewrite Hl, (IH Hls). reflexivity.
  - rewrite (IH Hls). reflexivity.
Qed.

(** The lines below an item are its subtree when what follows is not
    deeper. *)
Lemma subtree_lines_block d below rest :
  forallb (deeper d) below = true ->
  match rest with [] => True | l :: _ => indentLevel l <= d end ->
  subtree_lines d (below ++ rest)%list = below.
Proof.
  induction below as [|l below IH]; intros Hb Hr; simpl.
  - destruct rest as [|l rest]; [reflexivity|].
    simpl. assert ((d <? indentLevel l) = false) as -> by (apply Nat.ltb_ge; exact Hr).
    reflexivity.
  - simpl in Hb. apply andb_true_iff in Hb as [Hl Hb]. unfold deeper in Hl.
    rewrite Hl, (IH Hb Hr). reflexivity.
Qed.

Lemma isItem_inv d l :
  isItem d l = true ->
  exists p, parseLine l = Some p /\ role p = "listitem" /\ indentLevel l = d.
Proof.
  unfold isItem. destruct (parseLine l) as [p|]; [|discriminate].
  intros H. apply andb_true_iff in H as [Hr Hd].
  apply String.eqb_eq in Hr. apply Nat.eqb_eq in Hd. eauto.
Qed.

Lemma notDeeper_flatten d bs post :
  forallb (itemBlock d) bs = true -> afterGroup d post = true ->
  notDeeper d (flatten bs ++ post)%list.
Proof.
  intros Hbs Hpost. destruct bs as [|[l below] bs]; simpl.
  - unfold afterGroup in Hpost. apply andb_true_iff in Hpost as [Hp _].
    destruct post as [|l post]; simpl; [exact I|].
    apply Nat.ltb_lt in Hp. lia.
  - simpl in Hbs. apply andb_true_iff in Hbs as [Hb _].
    unfold itemBlock in Hb. apply andb_true_iff in Hb as [Hi _]. simpl in Hi.
    apply isItem_inv in Hi as (p & _ & _ & Hd). lia.
Qed.

(** Items up to the limit come out with their subtrees. *)
Lemma loop_kept mx d kept rest t :
  forallb (plainBlock d) kept = true ->
  tracker_count (d, "listitem") t + List.length kept <= mx ->
  exists t',
    tracker_count (d, "listitem") t' = tracker_count (d, "listitem") t + List.length kept
    /\ smartTruncate_loop mx 0 t (flatten kept ++ rest)%list
       = (flatten kept ++ smartTruncate_loop mx 0 t' rest)%list.
Proof.
  revert t. induction kept as [|[l below] kept IH]; intros t Hk Hc.
  - exists t. split; [simpl; lia | reflexivity].
  - simpl in Hk. apply andb_true_iff in Hk as [Hb Hk].
    unfold plainBlock in Hb. apply andb_true_iff in Hb as [Hb Hu].
    unfold itemBlock in Hb. apply andb_true_iff in Hb as [Hi _]. simpl in Hi, Hu.
    apply isItem_inv in Hi as (p & Hp & Hr & Hd).
    simpl in Hc.
    destruct (IH (tracker_set (d, "listitem") (S (tracker_count (d, "listitem") t)) t) Hk)
      as (t' & Ht' & Hloop).
    { rewrite tracker_count_set. lia. }
    exists t'. split; [rewrite Ht', tracker_count_set; simpl; lia|].
    rewrite flatten_cons. cbn [fst snd app]. cbn [smartTruncate_loop].
    rewrite Hp, Hr, Hd. cbn [tracked String.eqb Ascii.eqb Bool.eqb orb].
    assert ((S (tracker_count (d, "listitem") t) <=? mx) = true) as ->
      by (apply Nat.leb_le; lia).
    f_equal. rewrite <- !app_assoc. rewrite (loop_untracked _ _ _ _ Hu).
    f_equal. exact Hloop.
Qed.

(** Items past the summary go, subtrees included, without a trace. *)
Lemma loop_dropped mx d dropped post t :
  forallb (itemBlock d) dropped = true ->
  afterGroup d post = true ->
  mx + 1 <= tracker_count (d, "listitem") t ->
  exists t',
    smartTruncate_loop mx 0 t (flatten dropped ++ post)%list
    = smartTruncate_loop mx 0 t' post.
Proof.
  revert t. induction dropped as [|[l below] dropped IH]; intros t Hd Hpost Hc.
  - exists t. reflexivity.
  - pose proof (notDeeper_flatten d dropped post) as Hnd.
    simpl in Hd. apply andb_true_iff in Hd as [Hb Hd].
    specialize (Hnd Hd Hpost).
    unfold itemBlock in Hb. apply andb_true_iff in Hb as [Hi Hbelow]. simpl in Hi, Hbelow.
    apply isItem_inv in Hi as (p & Hp & Hr & Hl).
    destruct (IH (tracker_set (d, "listitem") (S (tracker_count (d, "listitem") t)) t)
                 Hd Hpost) as (t' & Hloop).
    { rewrite tracker_count_set. lia. }
    exists t'.
    rewrite flatten_cons. cbn [fst snd app]. cbn [smartTruncate_loop].
    rewrite Hp, Hr, Hl. cbn [tracked String.eqb Ascii.eqb Bool.eqb orb].
    assert ((S (tracker_count (d, "listitem") t) <=? mx) = false) as ->
      by (apply Nat.leb_gt; lia).
    assert ((S (tracker_count (d, "listitem") t) =? mx + 1) = false) as ->
      by (apply Nat.eqb_neq; lia).
    rewrite <- !app_assoc.
    rewrite (subtree_lines_block d below _ Hbelow Hnd), loop_skip.
    exact Hloop.
Qed.

Lemma siblingGroup_flatten d bs post :
  forallb (itemBlock d) bs = true -> afterGroup d post = true ->
  siblingGroup d (flatten bs ++ post)%list = flatten bs.
Proof.
  intros Hbs Hpost. induction bs as [|[l below] bs IH].
  - simpl. unfold afterGroup in Hpost. apply andb_true_iff in Hpost as [Hp _].
    destruct post as [|l post]; [reflexivity|]. simpl. rewrite Hp. reflexivity.
  - simpl in Hbs. apply andb_true_iff in Hbs as [Hb Hbs].
    unfold itemBlock in Hb. apply andb_true_iff in Hb as [Hi Hbelow]. simpl in Hi, Hbelow.
    apply isItem_inv in Hi as (p & _ & _ & Hl).
    rewrite flatten_cons. cbn [fst snd app siblingGroup].
    assert ((indentLevel l <? d) = false) as -> by (apply Nat.ltb_ge; lia).
    f_equal. rewrite <- app_assoc. clear Hl.
    induction below as [|b below IHb]; [exact (IH Hbs)|].
    simpl in Hbelow. apply andb_true_iff in Hbelow as [Hb' Hbelow]. unfold deeper in Hb'.
    apply Nat.ltb_lt in Hb'. cbn [app siblingGroup].
    assert ((indentLevel b <? d) = false) as -> by (apply Nat.ltb_ge; lia).
    f_equal. exact (IHb Hbelow).
Qed.

Lemma countSiblings_flatten d bs post :
  forallb (itemBlock d) bs = true -> afterGroup d post = true ->
  countSiblings d "listitem" (flatten bs ++ post)%list = List.length bs.
Proof.
  intros Hbs Hpost. induction bs as [|[l below] bs IH].
  - simpl. unfold afterGroup in Hpost. apply andb_true_iff in Hpost as [Hp _].
    destruct post as [|l post]; [reflexivity|]. simpl. rewrite Hp. reflexivity.
  - simpl in Hbs. apply andb_true_iff in Hbs as [Hb Hbs].
    unfold itemBlock in Hb. apply andb_true_iff in Hb as [Hi Hbelow]. simpl in Hi, Hbelow.
    apply isItem_inv in Hi as (p & Hp & Hr & Hl).
    rewrite flatten_cons. cbn [fst snd app countSiblings List.length].
    rewrite Hl, Nat.ltb_irrefl, Nat.eqb_refl, Hp, Hr. cbn [String.eqb Ascii.eqb Bool.eqb].
    f_equal. rewrite <- app_assoc.
    induction below as [|b below IHb]; [exact (IH Hbs)|].
    simpl in Hbelow. apply andb_true_iff in Hbelow as [Hb' Hbelow]. unfold deeper in Hb'.
    apply Nat.ltb_lt in Hb'. cbn [app countSiblings].
    assert ((indentLevel b <? d) = false) as -> by (apply Nat.ltb_ge; lia).
    assert ((indentLevel b =? d) = false) as -> by (apply Nat.eqb_neq; lia).
    exact (IHb Hbelow).
Qed.

(** *** The refs of the note *)

Lemma sem_lit l t e : sem (lit l) t e -> t = l /\ e = [].
Proof.
  revert t e. induction l as [|a l IH]; intros t e H; simpl in H.
  - exact H.
  - destruct H as (t1 & t2 & e1 & e2 & (b & Hb & -> & ->) & H2 & -> & ->).
    apply IH in H2 as [-> ->]. apply Ascii.eqb_eq in Hb. subst b. auto.
Qed.

Lemma sem_chr_pieces p ps :
  Forall (fun q => sem (Chr p) (fst q) (snd q)) ps ->
  all_chars p (texts ps) = true /\ String.length (texts ps) = List.length ps
  /\ caps ps = [].
Proof.
  induction 1 as [|[t e] ps (a & Ha & Ht & He) _ IH]; [auto|].
  simpl in Ht, He. subst t e. destruct IH as (IH1 & IH2 & IH3).
  simpl. rewrite Ha, IH1, IH2, IH3. auto.
Qed.

Lemma sem_rep_chr g lo hi p t e :
  sem (Rep g lo hi (Chr p)) t e ->
  all_chars p t = true /\ lo <= String.length t /\ e = [].
Proof.
  intros (ps & Hps & -> & -> & Hlo & _).
  apply sem_chr_pieces in Hps as (H1 & H2 & H3). rewrite H2. auto.
Qed.

Lemma sem_ref_token t e : sem REF_TOKEN_RE t e -> refToken t /\ e = [].
Proof.
  intros (t1 & t2 & e1 & e2 & H1 & H2 & -> & ->).
  apply (sem_lit "e") in H1 as [-> ->].
  apply sem_rep_chr in H2 as (Hd & Hlen & ->).
  split; [|reflexivity]. exists t2. split; [reflexivity|]. split; [|exact Hd].
  intros ->. simpl in Hlen. lia.
Qed.

(** What a match of REF_PATTERN is made of. *)
Lemma sem_REF_PATTERN t e :
  sem REF_PATTERN t e ->
  exists r, refToken r /\ t = "[ref=" ++ r ++ "]" /\ e = [(1, r)].
Proof.
  unfold REF_PATTERN. cbn [seqs].
  intros (t1 & t2 & e1 & e2 & H1 & (ta & tb & ea & eb & (ei & Ha & ->) & Hb & -> & ->)
          & -> & ->).
  apply sem_lit in H1 as [-> ->]. apply sem_lit in Hb as [-> ->].
  apply sem_ref_token in Ha as [Ha ->].
  exists ta. auto.
Qed.

Lemma match_at_REF x m :
  match_at REF_PATTERN x = Some m ->
  exists r, refToken r /\ group m 1 = Some r /\ m_text m = "[ref=" ++ r ++ "]".
Proof.
  intros H. apply match_at_sound in H as [Hs _].
  apply sem_REF_PATTERN in Hs as (r & Hr & Ht & He).
  exists r. unfold group. rewrite He. auto.
Qed.

Lemma matchAll_go_from r fuel pos prev s m :
  In m (matchAll_go fuel r pos prev s) -> exists x, match_at r x = Some m.
Proof.
  revert pos prev s. induction fuel as [|fuel IH]; intros pos prev s H; simpl in H;
    [destruct H|].
  destruct (match_at r (Cursor pos prev s)) as [m'|] eqn:E.
  - destruct (pos <? c_pos (m_end m')).
    + destruct H as [<-|H]; [eauto | exact (IH _ _ _ H)].
    + destruct s as [|a s]; (destruct H as [<-|H]; [eauto|]);
        [destruct H | exact (IH _ _ _ H)].
  - destruct s as [|a s]; [destruct H | exact (IH _ _ _ H)].
Qed.

(** Every ref collectRefs returns is a ref token. *)
Lemma collectRefs_tokens ls : Forall refToken (collectRefs ls).
Proof.
  apply Forall_forall. intros r Hr. unfold collectRefs in Hr.
  apply in_flat_map in Hr as (line & _ & Hr).
  apply in_map_iff in Hr as (m & <- & Hm).
  apply matchAll_go_from in Hm as [x Hx].
  apply match_at_REF in Hx as (r & Htok & Hg & _).
  unfold group_or_empty. rewrite Hg. exact Htok.
Qed.

Lemma refNote_shape refs : Forall refToken refs -> noteShape (refNote refs).
Proof.
  intros H. destruct refs as [|a refs]; [left; reflexivity|]. right.
  exists (show_nat (List.length (a :: refs))), (firstn 3 (a :: refs)).
  destruct (show_nat_digits (List.length (a :: refs))) as [Hn Hd].
  split; [exact Hn|]. split; [exact Hd|]. split; [discriminate|].
  split; [apply firstn_le_length|]. split; [|reflexivity].
  apply Forall_forall. intros r Hr. rewrite Forall_forall in H. apply H.
  rewrite <- (firstn_skipn 3 (a :: refs)). apply in_or_app. left. exact Hr.
Qed.

(** The count of smartTruncate runs per indent level and role over the
    whole outline, which is why the theorem below asks for no listitem, row
    or article before the group: items of a second list at the level of a
    first one count on from it. *)
Lemma smartTruncate_counts_across_parents :
  smartTruncate_lines 5 twoLists
  = ["- list"; plainItem "a1"; plainItem "a2"; plainItem "a3";
     "- list"; plainItem "b1"; plainItem "b2";
     "  - text " ++ Quote ++ "... and 1 more listitems" ++ Quote].
Proof. vm_compute. reflexivity. Qed.

(** *** The summary line matches the pattern of the scenario *)

Lemma token_matches r pos prev s c k :
  refToken r ->
  k (after r pos prev s) c <> None ->
  run REF_TOKEN_RE (Cursor pos prev (r ++ s)) c k <> None.
Proof.
  intros (ds & -> & Hne & Hd) H. unfold REF_TOKEN_RE. apply seq_matches.
  rewrite append_assoc. apply lit_matches. unfold after at 1.
  apply class_matches; [exact Hd | destruct ds; [congruence | simpl; lia] |].
  unfold after in *. rewrite length_append in H.
  replace (pos + String.length "e" + String.length ds)
    with (pos + (String.length "e" + String.length ds)) by lia.
  replace (last_char (last_char prev "e") ds) with (last_char prev ("e" ++ ds))
    by reflexivity.
  exact H.
Qed.

Lemma concat_empty_cons (a : string) (l : list string) :
  String.concat EmptyString (a :: l) = a ++ String.concat EmptyString l.
Proof. destruct l; simpl; [rewrite append_empty_r|]; reflexivity. Qed.

Lemma tailRefs_cons r rs : tailRefs (r :: rs) = "," ++ r ++ tailRefs rs.
Proof.
  unfold tailRefs. cbn [map]. rewrite concat_empty_cons, append_assoc. reflexivity.
Qed.

Lemma join_tail r rs : join "," (r :: rs) = r ++ tailRefs rs.
Proof.
  unfold join. revert r. induction rs as [|r2 rs IH]; intros r.
  - simpl. rewrite append_empty_r. reflexivity.
  - change (String.concat "," (r :: r2 :: rs))
      with (r ++ "," ++ String.concat "," (r2 :: rs)).
    rewrite IH, tailRefs_cons. reflexivity.
Qed.

(** Up to two further refs, each behind its comma. *)
Lemma tail_matches k s rs :
  forall fuel cnt pos prev c,
    Forall refToken rs ->
    cnt + List.length rs <= 2 ->
    String.length (tailRefs rs) < fuel ->
    k (after (tailRefs rs) pos prev s) c <> None ->
    rep_loop (run (Seq (lit ",") REF_TOKEN_RE)) true 0 (Some 2) k fuel cnt
             (Cursor pos prev (tailRefs rs ++ s)) c <> None.
Proof.
  induction rs as [|r rs IH]; intros fuel cnt pos prev c Hrs Hcnt Hf H;
    (destruct fuel as [|fuel]; [simpl in Hf; lia|]).
  - apply rep_stop; [lia|]. unfold after in H. simpl in H.
    rewrite Nat.add_0_r in H. exact H.
  - inversion Hrs as [|r' rs' Hr Hrs']. subst r' rs'.
    rewrite tailRefs_cons in *. simpl in Hcnt.
    apply rep_more; [cbn [below]; apply Nat.ltb_lt; lia|].
    apply seq_matches. rewrite !append_assoc. apply lit_matches. unfold after at 1.
    apply token_matches; [exact Hr|]. unfold after at 1. cbn [c_pos].
    assert (Hlt : (pos <? pos + String.length "," + String.length r) = true)
      by (apply Nat.ltb_lt; simpl; lia).
    rewrite Hlt. apply IH; [exact Hrs' | lia | |].
    + rewrite !length_append in Hf. simpl in Hf. lia.
    + rewrite !after_app. exact H.
Qed.

Lemma spaces_all n : all_chars is_space (repeat_string " " n) = true.
Proof. induction n as [|n IH]; [reflexivity | exact IH]. Qed.

Lemma quote_end_matches pos prev c :
  run (Seq (lit Quote) Eol) (Cursor pos prev Quote) c final <> None.
Proof. cbn. discriminate. Qed.

(** The summary line of fifteen more listitems matches the pattern,
    whatever the indent and the refs of the note. *)
Lemma summary_matches d refs :
  Forall refToken refs ->
  test SUMMARY_RE (summaryLine d 15 "listitem" (refNote refs)) = true.
Proof.
  intros Hrefs. unfold SUMMARY_RE. cbn [seqs]. rewrite test_bol.
  match goal with |- match ?r with _ => _ end = true =>
    assert (H : r <> None); [|destruct r; [reflexivity | congruence]] end.
  change (summaryLine d 15 "listitem" (refNote refs))
    with (repeat_string " " (d * 2)
          ++ ("- text " ++ Quote ++ "... and 15 more listitems") ++ refNote refs ++ Quote).
  apply seq_matches. apply class_matches; [apply spaces_all | lia|].
  unfold after at 1. apply seq_matches. apply lit_matches.
  unfold after at 1. apply seq_matches. unfold opt. apply rep_matches.
  destruct refs as [|a refs].
  - apply rep_stop; [lia|]. apply quote_end_matches.
  - inversion Hrefs as [|a' refs' Ha Hrest]. subst a' refs'.
    unfold refNote. cbn [firstn]. rewrite join_tail.
    set (count := show_nat (List.length (a :: refs))).
    set (rs := firstn 2 refs).
    assert (Hrs : Forall refToken rs).
    { apply Forall_forall. intros r Hr. rewrite Forall_forall in Hrest. apply Hrest.
      rewrite <- (firstn_skipn 2 refs). apply in_or_app. left. exact Hr. }
    assert (Hlen : List.length rs <= 2) by apply firstn_le_length.
    destruct (show_nat_digits (List.length (a :: refs))) as [Hne Hd].
    fold count in Hne, Hd. clearbody count rs. rewrite !append_assoc.
    apply rep_more; [reflexivity|].
    apply seq_matches. apply lit_matches.
    unfold after at 1. apply seq_matches. unfold plus, digit.
    apply class_matches; [exact Hd | destruct count; [congruence | simpl; lia] |].
    unfold after at 1. apply seq_matches. apply lit_matches.
    unfold after at 1. apply seq_matches. apply token_matches; [exact Ha|].
    unfold after at 1. apply seq_matches. apply rep_matches.
    apply tail_matches; [exact Hrs | simpl; lia | rewrite length_append; lia |].
    unfold after at 1. apply lit_matches.
    unfold after at 1. lazy beta iota delta [c_pos]. fold Nat.add.
    match goal with |- (if ?b then _ else _) <> None =>
      assert (Hlt : b = true) by (apply Nat.ltb_lt; simpl String.length; lia);
      rewrite Hlt end.
    apply rep_stop_pos; [simpl; lia | lia |]. apply quote_end_matches.
Qed.

End SmartTruncateFacts.

(** ** Lines that parse *)

Section ParseFacts.

Import Optimizer.

Lemma run_seq_sound a b x c k res :
  run (Seq a b) x c k = Some res ->
  exists t e x1, sem a t e /\ moved x t x1 /\ run b x1 (e ++ c)%list k = Some res.
Proof.
  intros H. change (run a x c (fun x' c' => run b x' c' k) = Some res) in H.
  apply run_sound in H. exact H.
Qed.

Lemma exec_bol_inv r s m :
  exec (Seq Bol r) s = Some m ->
  exists x' c', run r (Cursor 0 None s) [] final = Some (x', c')
                /\ m_caps m = c' /\ m_end m = x'.
Proof.
  unfold exec. intros H.
  assert (E : search_from (Seq Bol r) EmptyString 0 None s
              = match match_at (Seq Bol r) (Cursor 0 None s) with
                | Some m => Some (EmptyString, m)
                | None => None
                end).
  { destruct s as [|a s]; simpl.
    - reflexivity.
    - destruct (match_at _ _); [reflexivity | apply search_bol_later]. }
  rewrite E in H. unfold match_at in H. cbn [run c_pos Nat.eqb] in H.
  destruct (run r (Cursor 0 None s) [] final) as [[x' c']|]; [|discriminate].
  injection H as <-. eauto.
Qed.

Lemma run_eol_inv x c res :
  run Eol x c final = Some res -> c_rest x = EmptyString /\ res = (x, c).
Proof.
  cbn [run]. destruct (c_rest x); [|discriminate].
  unfold final. intros H. injection H as <-. auto.
Qed.

Lemma sem_dash t e :
  sem (seqs [star sp; lit "-"; star sp]) t e ->
  exists w1 w2, t = w1 ++ "-" ++ w2 /\ all_chars is_space w1 = true
                /\ all_chars is_space w2 = true /\ e = [].
Proof.
  cbn [seqs]. intros (t1 & t2 & e1 & e2 & H1 & (ta & tb & ea & eb & Ha & Hb & -> & ->)
                      & -> & ->).
  apply sem_rep_chr in H1 as (H1 & _ & ->). apply sem_lit in Ha as [-> ->].
  apply sem_rep_chr in Hb as (Hb & _ & ->). exists t1, tb. auto.
Qed.

Lemma sem_quoted_name t e :
  sem (seqs [plus sp; lit Quote; Group 3 (star (not_char DQ)); lit Quote]) t e ->
  exists w n, t = w ++ Quote ++ n ++ Quote /\ all_chars is_space w = true
              /\ w <> EmptyString
              /\ all_chars (fun c => negb (Ascii.eqb c DQ)) n = true
              /\ e = [(3, n)].
Proof.
  cbn [seqs].
  intros (t1 & t2 & e1 & e2 & H1
          & (ta & tb & ea & eb & Ha
             & (tc & td & ec & ed & (ei & Hc & ->) & Hd & -> & ->) & -> & ->)
          & -> & ->).
  apply sem_rep_chr in H1 as (H1 & Hlen & ->). apply sem_lit in Ha as [-> ->].
  apply sem_rep_chr in Hc as (Hc & _ & ->). apply sem_lit in Hd as [-> ->].
  exists t1, tc. repeat split; auto.
  intros ->. simpl in Hlen. lia.
Qed.

(** parseLine, read backwards: a line it accepts is the prefix, the role,
    the quoted name if any, and the suffix, one after the other. *)
Lemma parseLine_inv line p :
  parseLine line = Some p ->
  exists parts,
    line = prefix p ++ lp_role parts ++ nameText (lp_name parts) ++ suffix p
    /\ prefix p = lp_indent parts ++ "-" ++ lp_gap parts
    /\ all_chars is_space (lp_indent parts) = true
    /\ all_chars is_space (lp_gap parts) = true
    /\ role p = toLowerCase (lp_role parts)
    /\ all_chars is_word (lp_role parts) = true
    /\ lp_role parts <> EmptyString
    /\ name p = option_map snd (lp_name parts)
    /\ (forall w n, lp_name parts = Some (w, n) ->
          all_chars is_space w = true /\ w <> EmptyString
          /\ all_chars (fun c => negb (Ascii.eqb c DQ)) n = true)
    /\ all_chars (fun c => negb (is_line_terminator c)) (suffix p) = true
    /\ ref p = first_ref (suffix p)
    /\ raw p = line.
Proof.
  unfold parseLine. destruct (exec LINE_RE line) as [m|] eqn:E; [|discriminate].
  intros H. injection H as <-. cbn [prefix role name suffix ref raw].
  unfold LINE_RE in E. cbn [seqs] in E.
  apply exec_bol_inv in E as (x' & c' & H & Hc & _).
  unfold group_or_empty, group. rewrite Hc. clear Hc m.
  apply run_seq_sound in H as (t1 & e1 & x1 & (ea & Hs1 & ->) & Hm1 & H).
  apply sem_dash in Hs1 as (w1 & w2 & -> & Hw1 & Hw2 & ->).
  apply run_seq_sound in H as (t2 & e2 & x2 & (eb & Hs2 & ->) & Hm2 & H).
  apply sem_rep_chr in Hs2 as (Hword & Hlen & ->).
  apply run_seq_sound in H as (t3 & e3 & x3 & Hs3 & Hm3 & H).
  apply run_seq_sound in H as (t4 & e4 & x4 & (ed & Hs4 & ->) & Hm4 & H).
  apply sem_rep_chr in Hs4 as (Hdot & _ & ->).
  apply run_eol_inv in H as [Hend H]. injection H as _ ->.
  destruct Hm1 as [R1 _], Hm2 as [R2 _], Hm3 as [R3 _], Hm4 as [R4 _].
  cbn [c_rest] in R1. rewrite Hend, append_empty_r in R4.
  assert (Hline : line = (w1 ++ "-" ++ w2) ++ t2 ++ t3 ++ t4)
    by (rewrite R1, R2, R3, R4; reflexivity).
  assert (Hne : t2 <> EmptyString) by (intros ->; simpl in Hlen; lia).
  destruct Hs3 as (ps & Hps & -> & -> & _ & Hhi). unfold within in Hhi.
  destruct ps as [|[t e] [|q ps]]; [| |simpl in Hhi; lia].
  - exists (LineParts w1 w2 t2 None). cbn.
    repeat split; try assumption; try reflexivity; discriminate.
  - apply Forall_inv in Hps. cbn [fst snd] in Hps.
    apply sem_quoted_name in Hps as (w & n & -> & Hw & Hwne & Hn & ->).
    exists (LineParts w1 w2 t2 (Some (w, n))). cbn.
    cbn [texts] in Hline. rewrite append_empty_r in Hline.
    repeat split; try assumption; try reflexivity;
      match goal with Hwn : Some _ = Some _ |- _ => injection Hwn as <- <- end;
      assumption.
Qed.

Lemma starts_with_app t c : starts_with t (t ++ c) = true.
Proof.
  induction t as [|a t IH]; simpl; [destruct c; reflexivity|].
  rewrite Ascii.eqb_refl. exact IH.
Qed.

Lemma includes_mid t a c : includes t (a ++ t ++ c) = true.
Proof.
  apply includes_app_r. destruct (t ++ c) eqn:E; simpl;
    rewrite <- E, starts_with_app; reflexivity.
Qed.


End ParseFacts.

(** ** Semantic compression *)

Section CompressFacts.

Import Optimizer.

Lemma compress_FLIGHT : compressFlightName FLIGHT = FLIGHT_COMPRESSED.
Proof. vm_compute. reflexivity. Qed.

Lemma semanticCompress_line_FLIGHT line p :
  parseLine line = Some p ->
  name p = Some FLIGHT ->
  semanticCompress_line line
  = buildLine (prefix p) (role p) (Some FLIGHT_COMPRESSED) (suffix p).
Proof.
  intros Hp Hn. unfold semanticCompress_line. rewrite Hp, Hn.
  change (Some FLIGHT) with (Some (String "F" (drop_string 1 FLIGHT))).
  cbv iota beta.
  change (String "F" (drop_string 1 FLIGHT)) with FLIGHT.
  rewrite compress_FLIGHT.
  replace (String.eqb FLIGHT_COMPRESSED FLIGHT) with false by (vm_compute; reflexivity).
  reflexivity.
Qed.

(** C8: on a line whose name is the itinerary of scenario S7, semantic
    compression puts [United SFO 7:15AM→JFK 3:40PM 5h25 nonstop $320] in
    the place of the name.  The line is the prefix, the role as written,
    white space, the quoted name and the suffix; the output is the same
    prefix, the role (in lower case), one space, the quoted compressed
    name and the same suffix, ref tag included. *)
Theorem C8_flight_compression (line : string) (p : parsed) :
  parseLine line = Some p ->
  name p = Some FLIGHT ->
  exists written gap,
    line = prefix p ++ written ++ gap ++ Quote ++ FLIGHT ++ Quote ++ suffix p
    /\ role p = toLowerCase written
    /\ all_chars is_space gap = true
    /\ ref p = first_ref (suffix p)
    /\ semanticCompress_line line
       = prefix p ++ role p ++ " " ++ Quote ++ FLIGHT_COMPRESSED ++ Quote ++ suffix p.
Proof.
  intros Hp Hn.
  destruct (parseLine_inv line p Hp)
    as (parts & Hline & _ & _ & _ & Hrole & _ & _ & Hname & Hgap & _ & Href & _).
  rewrite Hn in Hname. destruct (lp_name parts) as [[w n]|] eqn:E; [|discriminate].
  simpl in Hname. injection Hname as <-.
  exists (lp_role parts), w. split; [|split; [|split; [|split]]].
  - rewrite Hline at 1. unfold nameText. rewrite !append_assoc. reflexivity.
  - exact Hrole.
  - exact (proj1 (Hgap w FLIGHT eq_refl)).
  - exact Href.
  - rewrite (semanticCompress_line_FLIGHT line p Hp Hn). unfold buildLine.
    rewrite !append_assoc. reflexivity.
Qed.

Lemma C8_flight_compression_witness :
  semanticCompress (flightLine FLIGHT) = flightLine FLIGHT_COMPRESSED.
Proof.
  assert (Hl : split_lines (flightLine FLIGHT) = [flightLine FLIGHT])
    by (vm_compute; reflexivity).
  unfold semanticCompress, semanticCompress_lines. rewrite Hl. simpl map.
  destruct (C8_flight_compression (flightLine FLIGHT)
              (Parsed "  - " "link" (Some FLIGHT) " [ref=e5]" (Some "e5")
                      (flightLine FLIGHT)))
    as (written & gap & _ & _ & _ & _ & Hout).
  - vm_compute. reflexivity.
  - reflexivity.
  - rewrite Hout. reflexivity.
Defined.

End CompressFacts.

(** ** Refs through the reducers *)

Section RefFacts.

Import Optimizer.






(** *** Noise lines carry no ref *)









(** *** Chrome stripping *)




(** *** Collapsing children *)





(** *** Attribute pruning *)





Lemma refToken_no_close r :
  refToken r -> all_chars (fun x => negb (Ascii.eqb x "]")) r = true.
Proof.
  intros (ds & -> & _ & Hd). change ("e" ++ ds) with (String "e" ds).
  cbn [all_chars]. cbn [Ascii.eqb Bool.eqb negb andb].
  apply (all_chars_weaken is_digit); [|exact Hd].
  intros x Hx. destruct (Ascii.eqb_spec x "]") as [->|]; [discriminate | reflexivity].
Qed.

Lemma tag_inv r r' rest :
  refToken r -> tag r = tag r' ++ rest -> r' = r /\ rest = EmptyString.
Proof.
  intros Hr H. unfold tag in H. rewrite !append_assoc in H.
  apply append_inv_head in H.
  assert (Hs : starts_with (r' ++ "]") (r ++ "]") = true).
  { rewrite H. rewrite <- append_assoc. apply starts_with_app. }
  apply starts_with_close in Hs; [|exact (refToken_no_close r Hr)].
  subst r'. split; [reflexivity|].
  apply append_inv_head in H. destruct rest; [reflexivity | discriminate].
Qed.

(** REF_PATTERN matches a tag, all of it. *)
Lemma match_at_tag r pos prev :
  refToken r ->
  exists m, match_at REF_PATTERN (Cursor pos prev (tag r)) = Some m
            /\ m_text m = tag r
            /\ c_rest (m_end m) = EmptyString
            /\ c_pos (m_end m) = pos + String.length (tag r).
Proof.
  intros Hr.
  assert (Hex : run REF_PATTERN (Cursor pos prev (tag r)) [] final <> None).
  { unfold REF_PATTERN, tag. cbn [seqs]. apply seq_matches. apply lit_matches.
    unfold after at 1. apply seq_matches. apply group_matches.
    apply (token_matches r _ _ "]"); [exact Hr|].
    unfold after at 1.
    apply (lit_matches "]" _ _ EmptyString). discriminate. }
  destruct (match_at REF_PATTERN (Cursor pos prev (tag r))) as [m|] eqn:E.
  - exists m. split; [reflexivity|].
    pose proof (match_at_sound _ _ _ E) as [Hs [Hrest Hpos]].
    apply sem_REF_PATTERN in Hs as (r' & _ & Ht & _).
    cbn [c_rest c_pos] in Hrest, Hpos. rewrite Ht in Hrest.
    destruct (tag_inv r r' _ Hr Hrest) as [-> Hnil].
    rewrite Hpos, Ht. split; [reflexivity|]. split; [exact Hnil | reflexivity].
  - unfold match_at in E. destruct (run REF_PATTERN _ [] final) as [[x' c']|];
      [discriminate | congruence].
Qed.

Lemma REF_not_before_bracket a pos prev s :
  negb (Ascii.eqb a "[") = true ->
  match_at REF_PATTERN (Cursor pos prev (String a s)) = None.
Proof.
  intros H. unfold REF_PATTERN. cbn [seqs]. apply match_at_first.
  rewrite Ascii.eqb_sym. apply negb_true_iff. exact H.
Qed.


















End RefFacts.

(** ** The composed pipeline *)

Section PipelineFacts.

Import Optimizer.

Lemma match_at_blank_run pos prev s :
  match_at BLANK_RUN_RE (Cursor pos prev s)
  = if 3 <=? span_len isLF s
    then Some (RMatch (String.substring 0 (pos + span_len isLF s - pos) s)
                      (skip_chars (span_len isLF s) (Cursor pos prev s)) [])
    else None.
Proof.
  unfold match_at, BLANK_RUN_RE, at_least. cbn [run c_rest].
  rewrite (rep_chr_total isLF 3 final) by (try discriminate; lia).
  cbn [Nat.add]. destruct (3 <=? span_len isLF s); reflexivity.
Qed.

(** On text without three line feeds in a row the replacement of blank
    runs changes nothing. *)
Lemma replace_blank_id f s :
  noBlankRun s = true ->
  forall fuel i pos prev, String.length s < fuel ->
    replace_go fuel BLANK_RUN_RE f i pos prev s = s.
Proof.
  induction s as [|a s IH]; intros H fuel i pos prev Hf;
    (destruct fuel as [|fuel]; [simpl in Hf; lia|]);
    cbn [replace_go]; rewrite match_at_blank_run.
  - reflexivity.
  - cbn [noBlankRun] in H. apply andb_true_iff in H as [Hrun Hs].
    apply Nat.ltb_lt in Hrun.
    assert ((3 <=? span_len isLF (String a s)) = false) as ->
      by (apply Nat.leb_gt; exact Hrun).
    rewrite (IH Hs) by (simpl in Hf; lia). reflexivity.
Qed.

Lemma span_drop p s : span_len p (drop_string (span_len p s) s) = 0.
Proof.
  induction s as [|a s IH]; [reflexivity|]. cbn [span_len].
  destruct (p a) eqn:E; cbn [drop_string]; [exact IH|].
  cbn [span_len]. rewrite E. reflexivity.
Qed.

Lemma length_drop n s : String.length (drop_string n s) <= String.length s.
Proof.
  revert s. induction n as [|n IH]; intros s; [destruct s; simpl; lia|].
  destruct s as [|a s]; [simpl; lia|]. cbn [drop_string String.length].
  specialize (IH s). lia.
Qed.

(** The replacement of blank runs leaves none, and a text that does not
    begin with a line feed goes on not to. *)
Lemma replace_blank_spec fuel :
  forall s i pos prev, String.length s < fuel ->
    let out := replace_go fuel BLANK_RUN_RE (fun _ _ => NL ++ NL) i pos prev s in
    noBlankRun out = true /\ span_len isLF out = Nat.min (span_len isLF s) 2.
Proof.
  induction fuel as [|fuel IH]; intros s i pos prev Hf; [lia|].
  cbn zeta. cbn [replace_go]. rewrite match_at_blank_run.
  destruct (3 <=? span_len isLF s) eqn:Hrun.
  - apply Nat.leb_le in Hrun. cbn [m_end skip_chars c_pos c_rest c_prev].
    assert ((pos <? pos + span_len isLF s) = true) as -> by (apply Nat.ltb_lt; lia).
    assert (Hlen : String.length (drop_string (span_len isLF s) s) < fuel).
    { destruct s as [|a s]; [simpl in Hrun; lia|].
      pose proof (length_drop (span_len isLF (String a s)) (String a s)) as Hd.
      destruct (span_len isLF (String a s)) as [|n] eqn:E; [lia|].
      cbn [drop_string] in *. pose proof (length_drop n s). simpl in Hf. lia. }
    destruct (IH (drop_string (span_len isLF s) s) (S i) (pos + span_len isLF s)
                 (last_char prev (String.substring 0 (span_len isLF s) s)) Hlen)
      as [Hno Hsp].
    rewrite span_drop in Hsp. cbn [Nat.min] in Hsp.
    set (out := replace_go fuel _ _ _ _ _ _) in *.
    change ((NL ++ NL) ++ out) with (String LF (String LF out)).
    cbn [noBlankRun span_len]. rewrite Ascii.eqb_refl, Hsp, Hno.
    split; [reflexivity|]. rewrite Nat.min_r by lia. reflexivity.
  - apply Nat.leb_gt in Hrun. destruct s as [|a s]; [split; reflexivity|].
    destruct (IH s i (S pos) (Some a)) as [Hno Hsp]; [simpl in Hf; lia|].
    set (out := replace_go fuel _ _ _ _ _ _) in *.
    cbn [noBlankRun span_len] in *. rewrite Hno.
    destruct (isLF a) eqn:Ea.
    + rewrite Hsp. split.
      * rewrite andb_true_r. apply Nat.ltb_lt. lia.
      * lia.
    + split; [reflexivity|]. reflexivity.
Qed.

Lemma noBlankRun_trimStart s : noBlankRun s = true -> noBlankRun (trimStart s) = true.
Proof.
  induction s as [|a s IH]; intros H; [reflexivity|].
  cbn [trimStart]. destruct (is_space a); [|exact H].
  cbn [noBlankRun] in H. apply andb_true_iff in H as [_ H]. exact (IH H).
Qed.

Lemma span_trimEnd s : span_len isLF (trimEnd s) <= span_len isLF s.
Proof.
  induction s as [|a s IH]; [reflexivity|]. cbn [trimEnd span_len].
  destruct (isLF a) eqn:Ea.
  - destruct (trimEnd s) as [|b t] eqn:Et.
    + destruct (is_space a); cbn [span_len]; [lia | rewrite Ea; lia].
    + cbn [span_len] in *. rewrite Ea. lia.
  - destruct (trimEnd s) as [|b t].
    + destruct (is_space a); cbn [span_len]; [lia | rewrite Ea; lia].
    + cbn [span_len]. rewrite Ea. lia.
Qed.

Lemma noBlankRun_trimEnd s : noBlankRun s = true -> noBlankRun (trimEnd s) = true.
Proof.
  induction s as [|a s IH]; intros H; [reflexivity|].
  cbn [noBlankRun] in H. apply andb_true_iff in H as [Hrun H].
  apply Nat.ltb_lt in Hrun. specialize (IH H).
  pose proof (span_trimEnd (String a s)) as Hsp.
  cbn [trimEnd] in *. destruct (trimEnd s) as [|b t].
  - destruct (is_space a); [reflexivity|]. cbn [noBlankRun] in *.
    rewrite andb_true_r. apply Nat.ltb_lt. lia.
  - cbn [noBlankRun] in *. rewrite IH, andb_true_r. apply Nat.ltb_lt. lia.
Qed.

Lemma trimEnd_idem s : trimEnd (trimEnd s) = trimEnd s.
Proof.
  induction s as [|a s IH]; [reflexivity|]. cbn [trimEnd].
  destruct (trimEnd s) as [|b t] eqn:Et.
  - destruct (is_space a) eqn:Ea; [reflexivity|]. cbn [trimEnd]. rewrite Ea. reflexivity.
  - cbn [trimEnd]. cbn [trimEnd] in IH. rewrite IH. reflexivity.
Qed.

(** What begins without white space stays so when its end is trimmed. *)
Lemma trimStart_trimEnd s : trimStart s = s -> trimStart (trimEnd s) = trimEnd s.
Proof.
  destruct s as [|a s]; [reflexivity|]. intros H. cbn [trimStart] in H.
  destruct (is_space a) eqn:Ea.
  - exfalso. assert (Hl : String.length (trimStart s) <= String.length s).
    { clear. induction s as [|b s IH]; [simpl; lia|]. cbn [trimStart].
      destruct (is_space b); simpl in *; lia. }
    rewrite H in Hl. simpl in Hl. lia.
  - cbn [trimEnd]. destruct (trimEnd s); [rewrite Ea|]; cbn [trimStart]; rewrite Ea;
      reflexivity.
Qed.

Lemma trimStart_idem s : trimStart (trimStart s) = trimStart s.
Proof.
  induction s as [|a s IH]; [reflexivity|]. cbn [trimStart].
  destruct (is_space a) eqn:Ea; [exact IH|]. cbn [trimStart]. rewrite Ea. reflexivity.
Qed.

Lemma trim_idem s : trim (trim s) = trim s.
Proof.
  unfold trim. rewrite (trimStart_trimEnd (trimStart s)) by apply trimStart_idem.
  apply trimEnd_idem.
Qed.

(** The final step of optimizeAll does nothing to its own output. *)
Lemma cleanup_idem s : cleanup (cleanup s) = cleanup s.
Proof.
  unfold cleanup, replace_all, replace_all_idx.
  set (f := fun (_ : nat) (_ : rmatch) => NL ++ NL).
  destruct (replace_blank_spec (S (String.length s)) s 0 0 None (Nat.lt_succ_diag_r _))
    as [Hno _].
  fold f in Hno. set (out := replace_go _ _ f 0 0 None s) in *.
  assert (Ht : noBlankRun (trim out) = true)
    by (apply noBlankRun_trimEnd, noBlankRun_trimStart; exact Hno).
  rewrite (replace_blank_id f (trim out) Ht) by lia.
  apply trim_idem.
Qed.


(** The same failure by truncation: the ellipsis put after a name cut at
    its last space makes the name too long again, and the second pass cuts
    and marks it once more. *)
Lemma truncation_not_idempotent (urlHostPath : string -> option string) :
  truncateLongNames (truncateLongNames longHeading 120) 120
  <> truncateLongNames longHeading 120
  /\ optimizeAll urlHostPath (optimizeAll urlHostPath longHeading defaults) defaults
     <> optimizeAll urlHostPath longHeading defaults.
Proof. split; vm_compute; discriminate. Qed.

End PipelineFacts.

(* ====================================================================== *)
(** * Further properties of the reducers *)
(* ====================================================================== *)

Section LineFacts.

(** ** Outlines as lines *)

Lemma split_go_nonempty cur s : split_go cur s <> [].
Proof. revert cur. induction s as [|a s IH]; intros cur; cbn [split_go]; [discriminate|].
  destruct (Ascii.eqb a LF); [discriminate | apply IH]. Qed.

Lemma join_lines_cons l ls : ls <> [] -> join_lines (l :: ls) = l ++ NL ++ join_lines ls.
Proof. destruct ls; [congruence|]. reflexivity. Qed.

Lemma join_split_go cur s : join_lines (split_go cur s) = cur ++ s.
Proof.
  revert cur. induction s as [|a s IH]; intros cur; cbn [split_go].
  - unfold join_lines, join. cbn. rewrite append_empty_r. reflexivity.
  - destruct (Ascii.eqb a LF) eqn:E.
    + apply Ascii.eqb_eq in E. subst a.
      rewrite join_lines_cons by apply split_go_nonempty. rewrite IH. reflexivity.
    + rewrite IH, append_assoc. reflexivity.
Qed.

Lemma join_split_lines s : join_lines (split_lines s) = s.
Proof. apply (join_split_go EmptyString s). Qed.

Lemma split_go_lines_noLF s : forall cur, noLF cur = true -> forallb noLF (split_go cur s) = true.
Proof.
  induction s as [|a s IH]; intros cur H; cbn [split_go].
  - cbn. rewrite H. reflexivity.
  - destruct (Ascii.eqb a LF) eqn:E.
    + cbn [forallb]. rewrite H. apply IH. reflexivity.
    + apply IH. unfold noLF in *. rewrite all_chars_app, H. cbn [all_chars]. rewrite E. reflexivity.
Qed.

Lemma split_lines_noLF s : forallb noLF (split_lines s) = true.
Proof. apply split_go_lines_noLF. reflexivity. Qed.

(** A reducer that only drops lines: its output read back as lines. *)
Lemma split_join_sub (out : list string) s :
  (forall l, In l out -> In l (split_lines s)) ->
  split_lines (join_lines out) = match out with [] => [EmptyString] | _ => out end.
Proof.
  intros Hsub. destruct out as [|l out]; [reflexivity|].
  apply split_join_lines; [discriminate|].
  apply forallb_forall. intros x Hx.
  exact (proj1 (forallb_forall _ _) (split_lines_noLF s) x (Hsub x Hx)).
Qed.

End LineFacts.

Section ReducerFacts.

Import Optimizer.

(** ** The pipeline's output *)

(** X1: whatever the input and the options, the output of optimizeAll holds
    no run of three or more line feeds, neither begins nor ends with white
    space, and is left as it is by the final cleanup step. *)
Theorem X1_optimizeAll_output_clean (urlHostPath : string -> option string)
    (x : string) (o : options) :
  noBlankRun (optimizeAll urlHostPath x o) = true
  /\ trim (optimizeAll urlHostPath x o) = optimizeAll urlHostPath x o
  /\ cleanup (optimizeAll urlHostPath x o) = optimizeAll urlHostPath x o.
Proof.
  unfold optimizeAll.
  match goal with |- context [cleanup ?z] => generalize z end. intros s.
  split; [|split; [|apply cleanup_idem]].
  - unfold cleanup, replace_all, replace_all_idx.
    destruct (replace_blank_spec (S (String.length s)) s 0 0 None (Nat.lt_succ_diag_r _))
      as [Hno _].
    apply noBlankRun_trimEnd, noBlankRun_trimStart. exact Hno.
  - unfold cleanup. apply trim_idem.
Qed.

(** ** removeNoise *)

(** X2: removeNoise is idempotent: a second pass over its own output
    changes nothing. *)
Theorem X2_removeNoise_idempotent (snapshot : string) :
  removeNoise (removeNoise snapshot) = removeNoise snapshot.
Proof.
  unfold removeNoise.
  rewrite (split_join_sub (removeNoise_lines (split_lines snapshot)) snapshot).
  - destruct (removeNoise_lines (split_lines snapshot)) as [|l out] eqn:E; [reflexivity|].
    rewrite <- E. clear E. unfold removeNoise_lines.
    f_equal. induction (split_lines snapshot) as [|x ls IH]; [reflexivity|].
    cbn [filter]. destruct (negb (isNoise x)) eqn:Ex; [|exact IH].
    cbn [filter]. rewrite Ex, IH. reflexivity.
  - intros l Hl. apply filter_In in Hl. tauto.
Qed.

(** ** interactiveOnly *)

Lemma search_none_matchAll r s : forall before pos prev fuel,
  search_from r before pos prev s = None -> matchAll_go fuel r pos prev s = [].
Proof.
  induction s as [|a s IH]; intros before pos prev fuel H;
    (destruct fuel as [|fuel]; [reflexivity|]); cbn [search_from matchAll_go] in *;
    destruct (match_at r (Cursor pos prev _)); try discriminate; [reflexivity|].
  exact (IH _ _ _ _ H).
Qed.

(** A text the expression does not match anywhere has no matches to list. *)
Lemma test_false_matchAll r s : test r s = false -> matchAll r s = [].
Proof.
  unfold test, exec, matchAll. intros H.
  destruct (search_from r EmptyString 0 None s) as [[b m]|] eqn:E; [discriminate|].
  exact (search_none_matchAll r s _ _ _ _ E).
Qed.

Lemma collectRefs_cons l ls :
  collectRefs (l :: ls) = (collectRefs [l] ++ collectRefs ls)%list.
Proof. unfold collectRefs. cbn [flat_map]. rewrite app_nil_r. reflexivity. Qed.

Lemma collectRefs_no_tag l : test REF_PATTERN l = false -> collectRefs [l] = [].
Proof.
  intros H. unfold collectRefs. cbn [flat_map].
  rewrite (test_false_matchAll _ _ H). reflexivity.
Qed.

Lemma interactiveOnly_lines_refs ls :
  collectRefs (interactiveOnly_lines ls) = collectRefs ls.
Proof.
  induction ls as [|l ls IH]; [reflexivity|]. cbn [interactiveOnly_lines].
  rewrite (collectRefs_cons l ls).
  destruct (test REF_PATTERN l) eqn:Et; cbn [orb].
  - rewrite collectRefs_cons, IH. reflexivity.
  - rewrite (collectRefs_no_tag l Et). cbn [app].
    destruct (match parseLine l with Some _ => _ | None => false end); [|exact IH].
    rewrite collectRefs_cons, (collectRefs_no_tag l Et), IH. reflexivity.
Qed.

Lemma interactiveOnly_lines_sub ls l : In l (interactiveOnly_lines ls) -> In l ls.
Proof.
  induction ls as [|x ls IH]; [tauto|]. cbn [interactiveOnly_lines].
  destruct (_ || _); cbn [In]; tauto.
Qed.

(** X3: interactiveOnly loses no ref: the refs collected from its output
    are those collected from its input, in the same order and as often. *)
Theorem X3_interactiveOnly_keeps_refs (snapshot : string) :
  collectRefs (split_lines (interactiveOnly snapshot))
  = collectRefs (split_lines snapshot).
Proof.
  unfold interactiveOnly.
  rewrite (split_join_sub _ snapshot) by apply interactiveOnly_lines_sub.
  rewrite <- (interactiveOnly_lines_refs (split_lines snapshot)).
  destruct (interactiveOnly_lines (split_lines snapshot)); reflexivity.
Qed.

(** ** viewportOnly *)

Lemma viewportOnly_lines_sub refs ls l : In l (viewportOnly_lines refs ls) -> In l ls.
Proof.
  induction ls as [|x ls IH]; [tauto|]. cbn [viewportOnly_lines].
  destruct (match first_ref x with Some _ => _ | None => _ end); cbn [In]; tauto.
Qed.

Lemma viewportOnly_lines_spec refs ls line r :
  first_ref line = Some r ->
  In line (viewportOnly_lines refs ls) <-> In line ls /\ has refs r = true.
Proof.
  intros Hr. induction ls as [|x ls IH]; [cbn; tauto|].
  cbn [viewportOnly_lines].
  destruct (match first_ref x with Some _ => _ | None => _ end) eqn:Ek; cbn [In].
  - rewrite IH. split.
    + intros [->|[H1 H2]]; [|tauto]. rewrite Hr in Ek. tauto.
    + intros [[->|H1] H2]; tauto.
  - rewrite IH. split; [tauto|]. intros [[->|H1] H2]; [|tauto].
    rewrite Hr in Ek. congruence.
Qed.

(** X4: with a non-empty set of visible refs, a line that carries a ref is
    a line of viewportOnly's output exactly when it is a line of the input
    and its first ref is in the set; with no set, or an empty one, the
    outline is returned as it is. *)
Theorem X4_viewportOnly_visible_refs (snapshot : string) (refs : list string)
    (line r : string) :
  refs <> [] -> first_ref line = Some r ->
  (In line (split_lines (viewportOnly snapshot (Some refs)))
   <-> In line (split_lines snapshot) /\ has refs r = true)
  /\ viewportOnly snapshot None = snapshot
  /\ viewportOnly snapshot (Some []) = snapshot.
Proof.
  intros Hne Hr. split; [|split; reflexivity].
  unfold viewportOnly. destruct refs as [|r0 refs]; [congruence|].
  rewrite (split_join_sub _ snapshot) by apply viewportOnly_lines_sub.
  rewrite <- (viewportOnly_lines_spec (r0 :: refs) (split_lines snapshot) line r Hr).
  destruct (viewportOnly_lines (r0 :: refs) (split_lines snapshot)); [|tauto].
  cbn [In]. split; [|tauto]. intros [<-|[]]. vm_compute in Hr. discriminate.
Qed.

Lemma X4_viewportOnly_visible_refs_witness :
  In ("  - link " ++ Quote ++ "More" ++ Quote ++ " [ref=e2]")
     (split_lines (viewportOnly plainOutline (Some ["e2"])))
  <-> In ("  - link " ++ Quote ++ "More" ++ Quote ++ " [ref=e2]") (split_lines plainOutline)
      /\ has ["e2"] "e2" = true.
Proof.
  apply (X4_viewportOnly_visible_refs plainOutline ["e2"]
           ("  - link " ++ Quote ++ "More" ++ Quote ++ " [ref=e2]") "e2");
    [discriminate | vm_compute; reflexivity].
Defined.

(** ** stripChrome *)

Lemma stripChrome_loop_free ls :
  forallb chromeFree ls = true -> stripChrome_loop None ls = (ls, []).
Proof.
  induction ls as [|l ls IH]; intros H; [reflexivity|].
  cbn [forallb] in H. apply andb_true_iff in H as [Hl Hls].
  cbn [stripChrome_loop]. unfold chromeFree in Hl.
  destruct (parseLine l) as [p|].
  - apply negb_true_iff in Hl. rewrite Hl, (IH Hls). reflexivity.
  - rewrite (IH Hls). reflexivity.
Qed.

(** X5: stripChrome returns unchanged, without a chrome-actions group, an
    outline none of whose lines is a chrome line (banner, contentinfo,
    navigation or a cookie/privacy/terms/skip-to name at the top two
    levels, an advertisement name). *)
Theorem X5_stripChrome_without_chrome (snapshot : string) :
  forallb chromeFree (split_lines snapshot) = true -> stripChrome snapshot = snapshot.
Proof.
  intros H. unfold stripChrome, stripChrome_lines.
  rewrite (stripChrome_loop_free _ H). apply join_split_lines.
Qed.

Lemma X5_stripChrome_without_chrome_witness : stripChrome plainOutline = plainOutline.
Proof. apply X5_stripChrome_without_chrome. vm_compute. reflexivity. Defined.

(** ** dedupLinks *)

Lemma dedupLinks_loop_free ls :
  forallb (fun l => negb (isArticle l)) ls = true ->
  dedupLinks_loop 0 [] ls = filter (fun l => negb (unnamedImg l)) ls.
Proof.
  induction ls as [|l ls IH]; intros H; [reflexivity|].
  cbn [forallb] in H. apply andb_true_iff in H as [Hl Hls].
  cbn [dedupLinks_loop pop_scopes filter]. unfold isArticle in Hl. unfold unnamedImg.
  destruct (parseLine l) as [p|].
  - apply negb_true_iff in Hl. rewrite Hl.
    destruct (String.eqb (role p) "link" && truthy (name p));
      destruct (String.eqb (role p) "img" && negb (truthy (name p)));
      cbn [negb]; rewrite (IH Hls); reflexivity.
  - cbn [andb negb]. rewrite (IH Hls). reflexivity.
Qed.

(** X6: on an outline without an article line, dedupLinks drops the img
    lines that have no name and nothing else: no link is deduplicated
    outside an article. *)
Theorem X6_dedupLinks_outside_articles (snapshot : string) :
  forallb (fun l => negb (isArticle l)) (split_lines snapshot) = true ->
  dedupLinks snapshot
  = join_lines (filter (fun l => negb (unnamedImg l)) (split_lines snapshot)).
Proof.
  intros H. unfold dedupLinks, dedupLinks_lines. rewrite (dedupLinks_loop_free _ H).
  reflexivity.
Qed.

Lemma X6_dedupLinks_outside_articles_witness :
  dedupLinks plainOutline
  = join_lines (filter (fun l => negb (unnamedImg l)) (split_lines plainOutline)).
Proof. apply X6_dedupLinks_outside_articles. vm_compute. reflexivity. Defined.

(** ** smartTruncate *)

(** X7: smartTruncate returns unchanged, for every limit, an outline that
    holds no listitem, row or article line. *)
Theorem X7_smartTruncate_without_items (snapshot : string) (maxItems : nat) :
  forallb untracked (split_lines snapshot) = true ->
  smartTruncate snapshot maxItems = snapshot.
Proof.
  intros H. unfold smartTruncate, smartTruncate_lines.
  rewrite <- (app_nil_r (split_lines snapshot)) at 1.
  rewrite (loop_untracked _ _ _ _ H). cbn [smartTruncate_loop].
  rewrite app_nil_r. apply join_split_lines.
Qed.

Lemma X7_smartTruncate_without_items_witness : smartTruncate plainOutline 5 = plainOutline.
Proof. apply X7_smartTruncate_without_items. vm_compute. reflexivity. Defined.

Lemma siblingGroup_above d bs rest :
  forallb (itemBlock d) bs = true -> startsAbove d rest = true ->
  siblingGroup d (flatten bs ++ rest)%list = flatten bs.
Proof.
  intros Hbs Hr. induction bs as [|[l below] bs IH].
  - destruct rest as [|l rest]; [discriminate|]. cbn in Hr |- *. rewrite Hr. reflexivity.
  - cbn [forallb] in Hbs. apply andb_true_iff in Hbs as [Hb Hbs].
    unfold itemBlock in Hb. apply andb_true_iff in Hb as [Hi Hbelow]. cbn [fst snd] in Hi, Hbelow.
    apply isItem_inv in Hi as (p & _ & _ & Hl).
    rewrite flatten_cons. cbn [fst snd app siblingGroup].
    assert ((indentLevel l <? d) = false) as -> by (apply Nat.ltb_ge; lia).
    f_equal. rewrite <- app_assoc. clear Hl.
    induction below as [|b below IHb]; [exact (IH Hbs)|].
    cbn [forallb] in Hbelow. apply andb_true_iff in Hbelow as [Hb' Hbelow]. unfold deeper in Hb'.
    apply Nat.ltb_lt in Hb'. cbn [app siblingGroup].
    assert ((indentLevel b <? d) = false) as -> by (apply Nat.ltb_ge; lia).
    f_equal. exact (IHb Hbelow).
Qed.

Lemma countSiblings_above d bs rest :
  forallb (itemBlock d) bs = true -> startsAbove d rest = true ->
  countSiblings d "listitem" (flatten bs ++ rest)%list = List.length bs.
Proof.
  intros Hbs Hr. induction bs as [|[l below] bs IH].
  - destruct rest as [|l rest]; [discriminate|]. cbn in Hr |- *. rewrite Hr. reflexivity.
  - cbn [forallb] in Hbs. apply andb_true_iff in Hbs as [Hb Hbs].
    unfold itemBlock in Hb. apply andb_true_iff in Hb as [Hi Hbelow]. cbn [fst snd] in Hi, Hbelow.
    apply isItem_inv in Hi as (p & Hp & Hrl & Hl).
    rewrite flatten_cons. cbn [fst snd app countSiblings List.length].
    rewrite Hl, Nat.ltb_irrefl, Nat.eqb_refl, Hp, Hrl. cbn [String.eqb Ascii.eqb Bool.eqb].
    f_equal. rewrite <- app_assoc.
    induction below as [|b below IHb]; [exact (IH Hbs)|].
    cbn [forallb] in Hbelow. apply andb_true_iff in Hbelow as [Hb' Hbelow]. unfold deeper in Hb'.
    apply Nat.ltb_lt in Hb'. cbn [app countSiblings].
    assert ((indentLevel b <? d) = false) as -> by (apply Nat.ltb_ge; lia).
    assert ((indentLevel b =? d) = false) as -> by (apply Nat.eqb_neq; lia).
    exact (IHb Hbelow).
Qed.

Lemma notDeeper_above d bs rest :
  forallb (itemBlock d) bs = true -> startsAbove d rest = true ->
  notDeeper d (flatten bs ++ rest)%list.
Proof.
  intros Hbs Hr. destruct bs as [|[l below] bs]; simpl.
  - destruct rest as [|l rest]; [discriminate|]. simpl in Hr |- *.
    apply Nat.ltb_lt in Hr. lia.
  - cbn [forallb] in Hbs. apply andb_true_iff in Hbs as [Hb _].
    unfold itemBlock in Hb. apply andb_true_iff in Hb as [Hi _]. cbn [fst] in Hi.
    apply isItem_inv in Hi as (p & _ & _ & Hd). lia.
Qed.

(** Items past the limit go whatever follows their group, and the count
    stays past the limit. *)
Lemma loop_dropped_above mx d dropped rest t :
  forallb (itemBlock d) dropped = true ->
  startsAbove d rest = true ->
  mx + 1 <= tracker_count (d, "listitem") t ->
  exists t',
    mx + 1 <= tracker_count (d, "listitem") t'
    /\ smartTruncate_loop mx 0 t (flatten dropped ++ rest)%list
       = smartTruncate_loop mx 0 t' rest.
Proof.
  revert t. induction dropped as [|[l below] dropped IH]; intros t Hd Hrest Hc.
  - exists t. split; [exact Hc | reflexivity].
  - pose proof (notDeeper_above d dropped rest) as Hnd.
    cbn [forallb] in Hd. apply andb_true_iff in Hd as [Hb Hd].
    specialize (Hnd Hd Hrest).
    unfold itemBlock in Hb. apply andb_true_iff in Hb as [Hi Hbelow]. cbn [fst snd] in Hi, Hbelow.
    apply isItem_inv in Hi as (p & Hp & Hr & Hl).
    destruct (IH (tracker_set (d, "listitem") (S (tracker_count (d, "listitem") t)) t)
                 Hd Hrest) as (t' & Hc' & Hloop).
    { rewrite tracker_count_set. lia. }
    exists t'. split; [exact Hc'|].
    rewrite flatten_cons. cbn [fst snd app]. cbn [smartTruncate_loop].
    rewrite Hp, Hr, Hl. cbn [tracked String.eqb Ascii.eqb Bool.eqb orb].
    assert ((S (tracker_count (d, "listitem") t) <=? mx) = false) as ->
      by (apply Nat.leb_gt; lia).
    assert ((S (tracker_count (d, "listitem") t) =? mx + 1) = false) as ->
      by (apply Nat.eqb_neq; lia).
    rewrite <- !app_assoc.
    rewrite (subtree_lines_block d below _ Hbelow Hnd), loop_skip.
    exact Hloop.
Qed.

Lemma smartTruncate_later_lines mx d header kept dropped mid later post :
  forallb untracked header = true ->
  forallb (plainBlock d) kept = true -> List.length kept = mx ->
  forallb (itemBlock d) dropped = true -> dropped <> [] ->
  forallb untracked mid = true -> startsAbove d mid = true ->
  forallb (itemBlock d) later = true ->
  afterGroup d post = true ->
  smartTruncate_lines mx
    (header ++ flatten kept ++ flatten dropped ++ mid ++ flatten later ++ post)%list
  = (header ++ flatten kept
     ++ summaryLine d (List.length dropped) "listitem"
          (refNote (collectRefs (flatten dropped)))
     :: mid ++ post)%list.
Proof.
  intros Hh Hk Hlen Hd Hne Hmid Hab Hlater Hpost. unfold smartTruncate_lines.
  set (rest := (mid ++ flatten later ++ post)%list).
  assert (Hrest : startsAbove d rest = true)
    by (subst rest; destruct mid; [discriminate | exact Hab]).
  rewrite (loop_untracked _ _ _ _ Hh). f_equal.
  destruct (loop_kept mx d kept (flatten dropped ++ rest)%list [] Hk) as (t & Ht & ->).
  { cbn. lia. }
  f_equal. cbn [tracker_count] in Ht.
  destruct dropped as [|[l below] dropped]; [congruence|].
  pose proof (siblingGroup_above d _ rest Hd Hrest) as Hsg.
  pose proof (countSiblings_above d _ rest Hd Hrest) as Hcs.
  pose proof (notDeeper_above d dropped rest) as Hnd.
  cbn [forallb] in Hd. apply andb_true_iff in Hd as [Hb Hd]. specialize (Hnd Hd Hrest).
  unfold itemBlock in Hb. apply andb_true_iff in Hb as [Hi Hbelow]. cbn [fst snd] in Hi, Hbelow.
  apply isItem_inv in Hi as (p & Hp & Hr & Hl).
  destruct (loop_dropped_above mx d dropped rest
              (tracker_set (d, "listitem") (S (tracker_count (d, "listitem") t)) t)
              Hd Hrest) as (t' & Hc' & Hloop).
  { rewrite tracker_count_set. lia. }
  rewrite flatten_cons in *. cbn [fst snd app] in *.
  cbn [smartTruncate_loop].
  rewrite Hp, Hr, Hl. cbn [tracked String.eqb Ascii.eqb Bool.eqb orb].
  assert ((S (tracker_count (d, "listitem") t) <=? mx) = false) as ->
    by (apply Nat.leb_gt; lia).
  assert ((S (tracker_count (d, "listitem") t) =? mx + 1) = true) as ->
    by (apply Nat.eqb_eq; lia).
  rewrite Hsg, Hcs.
  f_equal. rewrite <- !app_assoc.
  rewrite (subtree_lines_block d below _ Hbelow Hnd), loop_skip, Hloop.
  subst rest. rewrite (loop_untracked _ _ _ _ Hmid). f_equal.
  destruct (loop_dropped mx d later post t' Hlater Hpost Hc') as (t'' & ->).
  unfold afterGroup in Hpost. apply andb_true_iff in Hpost as [_ Hpu].
  rewrite <- (app_nil_r post) at 1. rewrite (loop_untracked _ _ _ _ Hpu).
  cbn. apply app_nil_r.
Qed.

(** X8: the count of smartTruncate is kept per indent level and role for
    the whole outline, not per parent.  After a group of listitems longer
    than the limit has been cut and summarised, the listitems of a later
    group at the same level, under another parent, are dropped with their
    subtrees and no summary line stands in for them. *)
Theorem X8_smartTruncate_later_group_vanishes (maxItems d : nat)
    (header : list string) (kept dropped : list block) (mid : list string)
    (later : list block) (post : list string) :
  forallb untracked header = true ->
  forallb (plainBlock d) kept = true -> List.length kept = maxItems ->
  forallb (itemBlock d) dropped = true -> dropped <> [] ->
  forallb untracked mid = true -> startsAbove d mid = true ->
  forallb (itemBlock d) later = true ->
  afterGroup d post = true ->
  forallb noLF
    (header ++ flatten kept ++ flatten dropped ++ mid ++ flatten later ++ post)%list
  = true ->
  smartTruncate
    (join_lines
       (header ++ flatten kept ++ flatten dropped ++ mid ++ flatten later ++ post)%list)
    maxItems
  = join_lines
      (header ++ flatten kept
       ++ summaryLine d (List.length dropped) "listitem"
            (refNote (collectRefs (flatten dropped)))
       :: mid ++ post)%list.
Proof.
  intros Hh Hk Hlen Hd Hne Hmid Hab Hlater Hpost Hlf.
  unfold smartTruncate. rewrite split_join_lines.
  - rewrite (smartTruncate_later_lines maxItems d header kept dropped mid later post);
      auto.
  - destruct mid; [discriminate|]. intros E.
    apply app_eq_nil in E as [_ E]. apply app_eq_nil in E as [_ E].
    apply app_eq_nil in E as [_ E]. discriminate.
  - exact Hlf.
Qed.

Lemma X8_smartTruncate_later_group_vanishes_witness :
  smartTruncate
    (join_lines ["- list"; plainItem "a1"; plainItem "a2"; plainItem "a3";
                 "- list"; plainItem "b1"; plainItem "b2"])
    2
  = join_lines ["- list"; plainItem "a1"; plainItem "a2";
                "  - text " ++ Quote ++ "... and 1 more listitems" ++ Quote;
                "- list"].
Proof.
  assert (H1 : forallb untracked ["- list"] = true) by (vm_compute; reflexivity).
  assert (H2 : forallb (plainBlock 1) [(plainItem "a1", []); (plainItem "a2", [])] = true)
    by (vm_compute; reflexivity).
  assert (H4 : forallb (itemBlock 1) [(plainItem "a3", [])] = true)
    by (vm_compute; reflexivity).
  assert (H5 : [(plainItem "a3", @nil string)] <> []) by discriminate.
  assert (H7 : startsAbove 1 ["- list"] = true) by (vm_compute; reflexivity).
  assert (H8 : forallb (itemBlock 1) [(plainItem "b1", []); (plainItem "b2", [])] = true)
    by (vm_compute; reflexivity).
  assert (H9 : afterGroup 1 [] = true) by (vm_compute; reflexivity).
  assert (H10 : forallb noLF ["- list"; plainItem "a1"; plainItem "a2"; plainItem "a3";
                              "- list"; plainItem "b1"; plainItem "b2"] = true)
    by (vm_compute; reflexivity).
  exact (X8_smartTruncate_later_group_vanishes 2 1 ["- list"]
           [(plainItem "a1", []); (plainItem "a2", [])] [(plainItem "a3", [])]
           ["- list"] [(plainItem "b1", []); (plainItem "b2", [])] []
           H1 H2 eq_refl H4 H5 H1 H7 H8 H9 H10).
Defined.

(** ** truncateLongNames *)

Lemma substring_prefix n s :
  exists rest, s = String.substring 0 n s ++ rest /\ String.length (String.substring 0 n s) <= n.
Proof.
  revert s. induction n as [|n IH]; intros s.
  - exists s. destruct s; cbn; split; auto.
  - destruct s as [|a s]; [exists EmptyString; cbn; split; [reflexivity | lia]|].
    destruct (IH s) as (rest & Hr & Hl). exists rest. cbn [String.substring String.length].
    split; [cbn; rewrite <- Hr; reflexivity | lia].
Qed.

Lemma last_word_found s : forall before pos prev,
  all_chars (fun c => negb (is_space c)) s = false ->
  search_from LAST_WORD_RE before pos prev s <> None.
Proof.
  induction s as [|a s IH]; intros before pos prev H; [discriminate|].
  cbn [search_from].
  destruct (match_at LAST_WORD_RE (Cursor pos prev (String a s))) eqn:E; [discriminate|].
  cbn [all_chars] in H.
  destruct (all_chars (fun c => negb (is_space c)) s) eqn:Hs; [|apply IH; reflexivity].
  exfalso. rewrite andb_true_r in H. apply negb_false_iff in H.
  unfold match_at in E.
  destruct (run LAST_WORD_RE (Cursor pos prev (String a s)) [] final) as [[x' c']|] eqn:Er;
    [discriminate|].
  revert Er. unfold LAST_WORD_RE. cbn [seqs]. cbn [run sp c_rest c_pos]. rewrite H.
  rewrite <- (append_empty_r s) at 1.
  apply (class_matches _ 0 _ EmptyString s); [exact Hs | lia|].
  cbn. discriminate.
Qed.

(** X9: on a line of ASCII characters, truncateLongNames leaves the line
    alone when its name is no longer than the limit.  A longer name is
    replaced by a prefix of its first maxNameLength characters followed by
    three dots: the prefix ends before the last white-space character of
    those characters, or is all of them when they hold no white space; the
    line is rebuilt around the new name with its prefix, role and suffix. *)
Theorem X9_truncateLongNames_cut (maxNameLength : nat) (line : string) (p : parsed)
    (n : string) :
  asciiText line = true ->
  parseLine line = Some p -> name p = Some n ->
  (String.length n <= maxNameLength -> truncateLongNames_line maxNameLength line = line)
  /\ (maxNameLength < String.length n ->
      exists kept cut,
        slice0 maxNameLength n = kept ++ cut
        /\ String.length kept <= maxNameLength
        /\ ((cut = EmptyString
             /\ all_chars (fun c => negb (is_space c)) (slice0 maxNameLength n) = true)
            \/ exists w tail,
                 cut = String w tail /\ is_space w = true
                 /\ all_chars (fun c => negb (is_space c)) tail = true)
        /\ truncateLongNames_line maxNameLength line
           = buildLine (prefix p) (role p) (Some (kept ++ "...")) (suffix p)).
Proof.
  intros _ Hp Hn. unfold truncateLongNames_line. rewrite Hp, Hn. split.
  - intros Hle. apply Nat.ltb_ge in Hle. rewrite Hle. reflexivity.
  - intros Hlt. pose proof Hlt as Hlt'. apply Nat.ltb_lt in Hlt'. rewrite Hlt'.
    destruct (substring_prefix maxNameLength n) as (rest & _ & Hlen).
    unfold truncateName, replace_first. fold (slice0 maxNameLength n) in Hlen.
    destruct (search_from LAST_WORD_RE EmptyString 0 None (slice0 maxNameLength n))
      as [[before m]|] eqn:E.
    + apply search_from_sound in E as (mid & x & -> & Hs & Hm).
      unfold match_at in Hm.
      destruct (run LAST_WORD_RE x [] final) as [[x' c']|] eqn:Er; [|discriminate].
      injection Hm as <-. cbn [m_end m_text] in *.
      unfold LAST_WORD_RE in Er. cbn [seqs] in Er.
      apply run_seq_sound in Er as (t1 & e1 & x1 & (w & Hw & -> & ->) & [R1 _] & Er).
      apply run_seq_sound in Er as (t2 & e2 & x2 & Hs2 & [R2 _] & Er).
      apply sem_rep_chr in Hs2 as (Ht2 & _ & ->).
      apply run_eol_inv in Er as [Hend Er]. injection Er as <- _.
      rewrite Hend, append_empty_r in R2.
      assert (Hsl : slice0 maxNameLength n = mid ++ String w t2)
        by (rewrite Hs, R1, R2; reflexivity).
      exists mid, (String w t2). split; [exact Hsl|]. split.
      * rewrite Hsl, length_append in Hlen. lia.
      * split; [right; exists w, t2; auto|].
        unfold erase. rewrite Hend. cbn [String.append]. rewrite append_empty_r.
        reflexivity.
    + exists (slice0 maxNameLength n), EmptyString. rewrite append_empty_r.
      split; [reflexivity|]. split; [exact Hlen|]. split; [|reflexivity].
      left. split; [reflexivity|].
      destruct (all_chars (fun c => negb (is_space c)) (slice0 maxNameLength n)) eqn:Ea;
        [reflexivity|].
      exfalso. exact (last_word_found _ EmptyString 0 None Ea E).
Qed.

Lemma X9_truncateLongNames_cut_witness :
  exists kept cut,
    slice0 8 "aaaa bbbb cccc" = kept ++ cut
    /\ String.length kept <= 8
    /\ ((cut = EmptyString
         /\ all_chars (fun c => negb (is_space c)) (slice0 8 "aaaa bbbb cccc") = true)
        \/ exists w tail,
             cut = String w tail /\ is_space w = true
             /\ all_chars (fun c => negb (is_space c)) tail = true)
    /\ truncateLongNames_line 8 headingToCut
       = buildLine "- " "heading" (Some (kept ++ "...")) EmptyString.
Proof.
  refine (proj2 (X9_truncateLongNames_cut 8 headingToCut
                   (Parsed "- " "heading" (Some "aaaa bbbb cccc") EmptyString None
                           headingToCut)
                   "aaaa bbbb cccc" _ _ _) _);
    [vm_compute; reflexivity | vm_compute; reflexivity | reflexivity | vm_compute; lia].
Defined.

End ReducerFacts.

(* ====================================================================== *)
(** * Round trips *)
(* ====================================================================== *)

Section MatcherFirst.

(** ** The first way through an expression

    A run returns what its first way through the expression returns: a
    greedy class takes every character it can when what follows matches
    behind them. *)

Lemma after_step a t pos prev s :
  after t (S pos) (Some a) s = after (String a t) pos prev s.
Proof. unfold after. cbn [String.length last_char]. f_equal. lia. Qed.

Lemma after_nil pos prev s : after EmptyString pos prev s = Cursor pos prev s.
Proof. unfold after. cbn. rewrite Nat.add_0_r. reflexivity. Qed.

Lemma lit_first l t0 p0 v0 s c k res :
  k (after (t0 ++ l) p0 v0 s) c = Some res ->
  run (lit l) (after t0 p0 v0 (l ++ s)) c k = Some res.
Proof.
  intros H. rewrite run_lit. unfold after at 1. cbn [c_rest].
  rewrite starts_with_app. rewrite <- H. f_equal.
  rewrite <- after_app. unfold skip_chars, after. cbn [c_pos c_prev c_rest].
  rewrite substring_append. f_equal.
  clear. induction l as [|a l IH]; [reflexivity | exact IH].
Qed.

Lemma class_loop_first p lo k s t res :
  forall fuel cnt pos prev c,
    all_chars p t = true -> stops p s = true ->
    lo <= cnt + String.length t ->
    String.length t < fuel ->
    k (after t pos prev s) c = Some res ->
    rep_loop (run (Chr p)) true lo None k fuel cnt (Cursor pos prev (t ++ s)) c = Some res.
Proof.
  induction t as [|a t IH]; intros fuel cnt pos prev c Hp Hs Hlo Hf H;
    (destruct fuel as [|fuel]; [simpl in Hf; lia|]).
  - rewrite after_nil in H. cbn [String.append rep_loop below run c_rest].
    assert (Hlo' : (lo <=? cnt) = true) by (apply Nat.leb_le; simpl in Hlo; lia).
    rewrite Hlo'. destruct s as [|b s]; [exact H|].
    cbn [stops] in Hs. apply negb_true_iff in Hs. rewrite Hs. exact H.
  - simpl in Hp. apply andb_true_iff in Hp as [Ha Hp].
    change (String a t ++ s) with (String a (t ++ s)).
    cbn [rep_loop below run c_rest c_pos]. rewrite Ha.
    assert (Hlt : (pos <? S pos) = true) by (apply Nat.ltb_lt; lia).
    rewrite Hlt.
    rewrite IH with (1 := Hp) (2 := Hs); [reflexivity | | |].
    + simpl in Hlo. lia.
    + simpl in Hf. lia.
    + rewrite (after_step a t pos prev). exact H.
Qed.

Lemma class_first p lo t t0 p0 v0 s c k res :
  all_chars p t = true -> stops p s = true -> lo <= String.length t ->
  k (after (t0 ++ t) p0 v0 s) c = Some res ->
  run (Rep true lo None (Chr p)) (after t0 p0 v0 (t ++ s)) c k = Some res.
Proof.
  intros Hp Hs Hlo H. unfold after at 1. cbn [run c_rest].
  apply class_loop_first; [exact Hp | exact Hs | lia | rewrite length_append; lia|].
  rewrite after_app. exact H.
Qed.

Lemma seq_first a b x c k res :
  run a x c (fun x' c' => run b x' c' k) = Some res -> run (Seq a b) x c k = Some res.
Proof. intros H. exact H. Qed.

Lemma group_first n r x c k res :
  run r x c (fun x' c' =>
               k x' ((n, String.substring 0 (c_pos x' - c_pos x) (c_rest x)) :: c'))
  = Some res ->
  run (Group n r) x c k = Some res.
Proof. intros H. exact H. Qed.

Lemma bol_first v s c k res :
  k (after EmptyString 0 v s) c = Some res ->
  run Bol (after EmptyString 0 v s) c k = Some res.
Proof. intros H. exact H. Qed.

Lemma eol_first t0 p0 v0 c k res :
  k (after t0 p0 v0 EmptyString) c = Some res ->
  run Eol (after t0 p0 v0 EmptyString) c k = Some res.
Proof. intros H. exact H. Qed.

(** The optional part is taken when it matches and what follows matches
    behind it. *)
Lemma opt_taken r x c k res :
  c_rest x <> EmptyString ->
  run r x c (fun x' c' => if c_pos x <? c_pos x' then k x' c' else None) = Some res ->
  run (opt r) x c k = Some res.
Proof.
  intros Hne H. unfold opt. cbn [run]. destruct (c_rest x) as [|a s]; [congruence|].
  cbn [String.length rep_loop below Nat.ltb Nat.leb]. cbv iota.
  match goal with
  | |- match ?R with Some _ => _ | None => _ end = _ =>
      change R with (run r x c (fun x' c' =>
                                  if c_pos x <? c_pos x' then k x' c' else None))
  end.
  rewrite H. reflexivity.
Qed.

(** The optional part is passed over when it cannot match. *)
Lemma opt_skipped r x c k :
  (forall k', run r x c k' = None) -> run (opt r) x c k = k x c.
Proof.
  intros H. unfold opt. cbn [run]. cbn [rep_loop below]. change (0 <? 1) with true.
  cbv iota. rewrite H. reflexivity.
Qed.

Lemma capture_after T T0 t S s p0 v0 v1 s1 :
  T = T0 ++ t -> S = t ++ s ->
  String.substring 0 (c_pos (after T p0 v0 s) - c_pos (after T0 p0 v1 s1)) S = t.
Proof.
  intros -> ->. unfold after. cbn [c_pos]. rewrite length_append.
  replace (p0 + (String.length T0 + String.length t) - (p0 + String.length T0))
    with (String.length t) by lia.
  apply substring_append.
Qed.

Lemma word_not_space a : is_word a = true -> is_space a = false.
Proof. destruct a as [[] [] [] [] [] [] [] []]; vm_compute; congruence. Qed.

End MatcherFirst.

Section RoundTripFacts.

Import Optimizer.

Lemma run_LINE_named i g w n suf :
  all_chars is_space i = true -> all_chars is_space g = true ->
  all_chars is_word w = true -> w <> EmptyString ->
  all_chars (fun c => negb (Ascii.eqb c DQ)) n = true ->
  all_chars (fun c => negb (is_line_terminator c)) suf = true ->
  exists xe,
    run LINE_RE
        (Cursor 0 None (i ++ "-" ++ g ++ w ++ " " ++ Quote ++ n ++ Quote ++ suf ++ ""))
        [] final
    = Some (xe, [(4, suf); (3, n); (2, w); (1, i ++ "-" ++ g)]).
Proof.
  intros Hi Hg Hw Hne Hn Hsuf.
  assert (Hws : stops is_space (w ++ " " ++ Quote ++ n ++ Quote ++ suf ++ "") = true).
  { destruct w as [|a w]; [congruence|]. cbn in Hw |- *.
    apply andb_true_iff in Hw as [Ha _]. rewrite (word_not_space a Ha). reflexivity. }
  eexists.
  change (Cursor 0 None ?s) with (after EmptyString 0 None s).
  unfold LINE_RE. cbn [seqs]. unfold star, plus, sp, word, dot, not_char.
  apply seq_first, bol_first. lazy beta.
  apply seq_first, group_first, seq_first.
  apply class_first; [exact Hi | reflexivity | lia|]. lazy beta.
  apply seq_first, lit_first. lazy beta.
  apply class_first; [exact Hg | exact Hws | lia|]. lazy beta.
  apply seq_first, group_first.
  apply class_first; [exact Hw | reflexivity | destruct w; [congruence | simpl; lia] |].
  lazy beta.
  apply seq_first, opt_taken; [discriminate|].
  apply seq_first.
  apply (class_first is_space 1 " "); [reflexivity | reflexivity | simpl; lia|]. lazy beta.
  apply seq_first, lit_first. lazy beta.
  apply seq_first, group_first.
  apply class_first; [exact Hn | reflexivity | lia|]. lazy beta.
  apply lit_first. lazy beta.
  match goal with
  | |- (if ?b then _ else _) = _ => assert (Hb : b = true)
  end.
  { apply Nat.ltb_lt. unfold after. cbn [c_pos]. rewrite !length_append. simpl. lia. }
  rewrite Hb. clear Hb.
  apply seq_first, group_first.
  apply class_first; [exact Hsuf | reflexivity | lia|]. lazy beta.
  apply eol_first. unfold final. f_equal. f_equal.
  repeat match goal with
  | |- _ :: _ = _ :: _ => f_equal
  | |- (_, _) = (_, _) => f_equal
  end.
  all: try (apply capture_after; rewrite ?append_assoc; reflexivity).
Qed.

Lemma trimStart_ws w a s :
  all_chars is_space w = true -> is_space a = false ->
  trimStart (w ++ String a s) = String a s.
Proof.
  induction w as [|b w IH]; intros Hw Ha; cbn [String.append trimStart].
  - rewrite Ha. reflexivity.
  - cbn [all_chars] in Hw. apply andb_true_iff in Hw as [Hb Hw]. rewrite Hb.
    exact (IH Hw Ha).
Qed.

Lemma quoted_name_fails x c k :
  unquoted (c_rest x) = true ->
  run (seqs [plus sp; lit Quote; Group 3 (star (not_char DQ)); lit Quote]) x c k = None.
Proof.
  intros Hu.
  destruct (run _ x c k) as [res|] eqn:E; [exfalso | reflexivity].
  apply run_sound in E as (t & e & x' & Hs & [Hr _] & _).
  apply sem_quoted_name in Hs as (w & n & -> & Hw & Hne & _ & _).
  unfold unquoted in Hu. rewrite Hr in Hu.
  rewrite !append_assoc in Hu. change (Quote ++ ?r) with (String DQ r) in Hu.
  rewrite (trimStart_ws w DQ _ Hw) in Hu by reflexivity.
  change (starts_with Quote (String DQ ?r)) with true in Hu. cbn [negb] in Hu.
  rewrite orb_false_r in Hu. apply Nat.eqb_eq in Hu.
  destruct w as [|b w]; [congruence|]. cbn in Hw, Hu.
  apply andb_true_iff in Hw as [Hb _]. rewrite Hb in Hu. discriminate.
Qed.

Lemma run_LINE_unnamed i g w suf :
  all_chars is_space i = true -> all_chars is_space g = true ->
  all_chars is_word w = true -> w <> EmptyString ->
  all_chars (fun c => negb (is_line_terminator c)) suf = true ->
  stops is_word suf = true -> unquoted suf = true ->
  exists xe,
    run LINE_RE (Cursor 0 None (i ++ "-" ++ g ++ w ++ suf ++ "")) [] final
    = Some (xe, [(4, suf); (2, w); (1, i ++ "-" ++ g)]).
Proof.
  intros Hi Hg Hw Hne Hsuf Hst Hun.
  assert (Hws : stops is_space (w ++ suf ++ "") = true).
  { destruct w as [|a w]; [congruence|]. cbn in Hw |- *.
    apply andb_true_iff in Hw as [Ha _]. rewrite (word_not_space a Ha). reflexivity. }
  eexists.
  change (Cursor 0 None ?s) with (after EmptyString 0 None s).
  unfold LINE_RE. cbn [seqs]. unfold star, plus, sp, word, dot, not_char.
  apply seq_first, bol_first. lazy beta.
  apply seq_first, group_first, seq_first.
  apply class_first; [exact Hi | reflexivity | lia|]. lazy beta.
  apply seq_first, lit_first. lazy beta.
  apply class_first; [exact Hg | exact Hws | lia|]. lazy beta.
  apply seq_first, group_first.
  apply class_first;
    [exact Hw | rewrite append_empty_r; exact Hst
     | destruct w; [congruence | simpl; lia] |].
  lazy beta.
  apply seq_first. rewrite opt_skipped.
  2:{ intros k'. apply (quoted_name_fails _ _ k'). unfold after. cbn [c_rest].
      rewrite append_empty_r. exact Hun. }
  apply seq_first, group_first.
  apply class_first; [exact Hsuf | reflexivity | lia|]. lazy beta.
  apply eol_first. unfold final. f_equal. f_equal.
  repeat match goal with
  | |- _ :: _ = _ :: _ => f_equal
  | |- (_, _) = (_, _) => f_equal
  end.
  all: try (apply capture_after; rewrite ?append_assoc; reflexivity).
Qed.

Lemma exec_at_start r s x' c' :
  run r (Cursor 0 None s) [] final = Some (x', c') ->
  exists m, exec r s = Some m /\ m_caps m = c'.
Proof.
  intros H. unfold exec. destruct s as [|a s]; cbn [search_from]; unfold match_at;
    rewrite H; eexists; split; reflexivity.
Qed.

(** A line built with a name parses to its parts. *)
Lemma parseLine_named indent gap written n suffix :
  all_chars is_space indent = true -> all_chars is_space gap = true ->
  all_chars is_word written = true -> written <> EmptyString ->
  all_chars (fun c => negb (is_line_terminator c)) suffix = true ->
  all_chars (fun c => negb (Ascii.eqb c DQ)) n = true ->
  parseLine (buildLine (indent ++ "-" ++ gap) written (Some n) suffix)
  = Some (Parsed (indent ++ "-" ++ gap) (toLowerCase written) (Some n) suffix
                 (first_ref suffix)
                 (buildLine (indent ++ "-" ++ gap) written (Some n) suffix)).
Proof.
  intros Hi Hg Hw Hne Hsuf Hn. unfold parseLine.
  destruct (run_LINE_named indent gap written n suffix Hi Hg Hw Hne Hn Hsuf)
    as [xe Hrun].
  assert (Hline : buildLine (indent ++ "-" ++ gap) written (Some n) suffix
                  = indent ++ "-" ++ gap ++ written ++ " " ++ Quote ++ n ++ Quote
                    ++ suffix ++ "").
  { unfold buildLine. rewrite !append_assoc, append_empty_r. reflexivity. }
  rewrite <- Hline in Hrun.
  apply exec_at_start in Hrun as (m & -> & Hc).
  unfold group_or_empty, group. rewrite Hc. reflexivity.
Qed.

(** A line built without a name parses to its parts when its suffix
    cannot be taken for more of the role or for a name. *)
Lemma parseLine_unnamed indent gap written suffix :
  all_chars is_space indent = true -> all_chars is_space gap = true ->
  all_chars is_word written = true -> written <> EmptyString ->
  all_chars (fun c => negb (is_line_terminator c)) suffix = true ->
  stops is_word suffix = true -> unquoted suffix = true ->
  parseLine (buildLine (indent ++ "-" ++ gap) written None suffix)
  = Some (Parsed (indent ++ "-" ++ gap) (toLowerCase written) None suffix
                 (first_ref suffix)
                 (buildLine (indent ++ "-" ++ gap) written None suffix)).
Proof.
  intros Hi Hg Hw Hne Hsuf Hst Hun. unfold parseLine.
  destruct (run_LINE_unnamed indent gap written suffix Hi Hg Hw Hne Hsuf Hst Hun)
    as [xe Hrun].
  assert (Hline : buildLine (indent ++ "-" ++ gap) written None suffix
                  = indent ++ "-" ++ gap ++ written ++ suffix ++ "").
  { unfold buildLine. rewrite !append_assoc, append_empty_r. reflexivity. }
  rewrite <- Hline in Hrun.
  apply exec_at_start in Hrun as (m & -> & Hc).
  unfold group_or_empty, group. rewrite Hc. reflexivity.
Qed.

(** X10: parseLine reads back what buildLine wrote.  For a prefix made of
    white space, a dash and white space, a non-empty role of word
    characters, a name without a double quote (or no name, before a suffix
    that begins neither with a word character nor with white space and a
    double quote) and a suffix without a line terminator and with no white
    space outside ASCII, the built line parses to that prefix, the role in
    lower case, that name, that suffix and the first ref of the suffix. *)
Theorem X10_parseLine_reads_buildLine (indent gap written : string)
    (nm : option string) (suffix : string) :
  all_chars is_space indent = true -> all_chars is_space gap = true ->
  all_chars is_word written = true -> written <> EmptyString ->
  asciiSpaces suffix = true ->
  all_chars (fun c => negb (is_line_terminator c)) suffix = true ->
  match nm with
  | Some n => all_chars (fun c => negb (Ascii.eqb c DQ)) n = true
  | None => stops is_word suffix = true /\ unquoted suffix = true
  end ->
  parseLine (buildLine (indent ++ "-" ++ gap) written nm suffix)
  = Some (Parsed (indent ++ "-" ++ gap) (toLowerCase written) nm suffix
                 (first_ref suffix)
                 (buildLine (indent ++ "-" ++ gap) written nm suffix)).
Proof.
  intros Hi Hg Hw Hne _ Hsuf Hnm. destruct nm as [n|].
  - apply parseLine_named; assumption.
  - destruct Hnm as [Hst Hun]. apply parseLine_unnamed; assumption.
Qed.

Lemma X10_parseLine_reads_buildLine_witness :
  parseLine (buildLine ("  " ++ "-" ++ " ") "Button" (Some "Go") " [ref=e1]")
  = Some (Parsed ("  " ++ "-" ++ " ") "button" (Some "Go") " [ref=e1]"
                 (first_ref " [ref=e1]")
                 (buildLine ("  " ++ "-" ++ " ") "Button" (Some "Go") " [ref=e1]")).
Proof.
  apply (X10_parseLine_reads_buildLine "  " " " "Button" (Some "Go") " [ref=e1]");
    try reflexivity; try (vm_compute; reflexivity). discriminate.
Defined.

End RoundTripFacts.

(* ====================================================================== *)
(** * The outline builder and its readers *)
(* ====================================================================== *)

Section BuilderNumbering.

Import Browser.

(** ** Counted refs *)

Lemma revapp_nonnil d acc : acc <> Decimal.Nil -> Decimal.revapp d acc <> Decimal.Nil.
Proof.
  revert acc. induction d; intros acc H; cbn [Decimal.revapp]; try exact H;
    apply IHd; discriminate.
Qed.

Lemma to_little_nonnil n acc : acc <> Decimal.Nil -> Nat.to_little_uint n acc <> Decimal.Nil.
Proof.
  revert acc. induction n as [|n IH]; intros acc H; cbn [Nat.to_little_uint]; [exact H|].
  apply IH. destruct acc; cbn; discriminate.
Qed.

Lemma to_uint_nonnil n : Nat.to_uint n <> Decimal.Nil.
Proof.
  unfold Nat.to_uint, Decimal.rev.
  pose proof (to_little_nonnil n Decimal.zero ltac:(discriminate)) as H.
  destruct (Nat.to_little_uint n Decimal.zero); try congruence;
    cbn [Decimal.revapp]; apply revapp_nonnil; discriminate.
Qed.

Lemma show_nat_inj a b : show_nat a = show_nat b -> a = b.
Proof.
  unfold show_nat. intros H. apply Unsigned.to_uint_inj.
  pose proof (NilZero.usu _ (to_uint_nonnil a)) as Ha.
  pose proof (NilZero.usu _ (to_uint_nonnil b)) as Hb.
  rewrite H in Ha. congruence.
Qed.

Lemma refId_inj a b : refId a = refId b -> a = b.
Proof. intros H. unfold refId in H. apply show_nat_inj. exact (append_inv_head _ _ _ H). Qed.

Lemma refIds_S n : refIds (S n) = (refIds n ++ [refId (S n)])%list.
Proof. unfold refIds. rewrite seq_S, map_app. reflexivity. Qed.

Lemma refIds_In r n : In r (refIds n) <-> exists k, 1 <= k <= n /\ r = refId k.
Proof.
  unfold refIds. rewrite in_map_iff. split.
  - intros (k & <- & Hk). apply in_seq in Hk. exists k. split; [lia | reflexivity].
  - intros (k & Hk & ->). exists k. split; [reflexivity|]. apply in_seq. lia.
Qed.

Lemma printedRefs_app a b : printedRefs (a ++ b) = (printedRefs a ++ printedRefs b)%list.
Proof. unfold printedRefs. apply flat_map_app. Qed.

Lemma refMap_get_set r k v (m : RefMap) :
  refMap_get r (refMap_set k v m) = if String.eqb k r then Some v else refMap_get r m.
Proof.
  induction m as [|[k' w] m IH]; cbn [refMap_set refMap_get]; [reflexivity|].
  destruct (String.eqb_spec k' k) as [->|Hne]; cbn [refMap_get].
  - destruct (String.eqb k r); reflexivity.
  - rewrite IH. destruct (String.eqb_spec k' r) as [->|]; [|reflexivity].
    destruct (String.eqb_spec k r) as [->|]; [congruence | reflexivity].
Qed.

Lemma refMap_get_keys r (m : RefMap) : In r (refMap_keys m) <-> refMap_get r m <> None.
Proof.
  unfold refMap_keys. induction m as [|[k v] m IH]; cbn [map fst In refMap_get].
  - split; [tauto | congruence].
  - destruct (String.eqb_spec k r) as [->|Hne].
    + split; [discriminate | auto].
    + rewrite <- IH. split; [intros [H|H]; [congruence | exact H] | auto].
Qed.

Lemma refMap_set_NoDup k v (m : RefMap) :
  NoDup (refMap_keys m) -> NoDup (refMap_keys (refMap_set k v m)).
Proof.
  unfold refMap_keys. induction m as [|[k' w] m IH]; intros H; cbn [refMap_set map fst].
  - constructor; [tauto | constructor].
  - destruct (String.eqb_spec k' k) as [->|Hne]; cbn [map fst]; [exact H|].
    inversion H as [|? ? Hnin Hnd]; subst. constructor; [|exact (IH Hnd)].
    intros Hin. apply (refMap_set_keys k v m k') in Hin as [Hin|Hin]; [congruence | tauto].
Qed.

Lemma refIds_NoDup n : NoDup (refIds n).
Proof.
  unfold refIds. generalize 1 as a. induction n as [|n IH]; intros a; cbn [seq map].
  - constructor.
  - constructor; [|apply IH]. intros Hin. apply in_map_iff in Hin as (k & E & Hk).
    apply refId_inj in E. apply in_seq in Hk. lia.
Qed.

Lemma built_emit nodes node mapped depth s :
  In node nodes -> mapRole (role node) = Some mapped ->
  built nodes s -> built nodes (emit node mapped depth s).
Proof.
  intros Hin Hm [Hrefs Hkeys Hnd Hh]. unfold emit.
  destruct (gets_ref mapped (name node)).
  - assert (Hfresh : forall r, In r (refMap_keys (refMap s)) ->
                               String.eqb (refId (S (refCounter s))) r = false).
    { intros r Hr. apply String.eqb_neq. intros <-. apply Hkeys, refIds_In in Hr
        as (k & Hk & E). apply refId_inj in E. lia. }
    fold (refId (S (refCounter s))).
    constructor; cbn [lines refCounter refMap].
    + rewrite printedRefs_app, Hrefs, refIds_S. reflexivity.
    + intros r Hr. rewrite refIds_S. apply in_or_app.
      destruct (handle node) as [h|].
      * apply refMap_set_keys in Hr as [->|Hr]; [right; left; reflexivity|].
        left. exact (Hkeys r Hr).
      * left. exact (Hkeys r Hr).
    + destruct (handle node); [apply refMap_set_NoDup|]; exact Hnd.
    + intros r h Hg.
      assert (Hold : refMap_get r (refMap s) = Some h ->
                h <> 0%Z /\
                exists node0 mapped0 depth0,
                  In node0 nodes /\ backendDOMNodeId node0 = Some h
                  /\ mapRole (role node0) = Some mapped0
                  /\ In (Line depth0 mapped0 (name node0) (Some r))
                       (lines s ++ [Line depth mapped (name node)
                                       (Some (refId (S (refCounter s))))])).
      { intros Hg'. destruct (Hh r h Hg') as (Hz & n0 & m0 & d0 & H1 & H2 & H3 & H4).
        split; [exact Hz|]. exists n0, m0, d0. repeat split; auto.
        apply in_or_app. left. exact H4. }
      destruct (handle node) as [h0|] eqn:Eh; [|exact (Hold Hg)].
      rewrite refMap_get_set in Hg.
      destruct (String.eqb_spec (refId (S (refCounter s))) r) as [<-|Hne];
        [|exact (Hold Hg)].
      injection Hg as <-. unfold handle in Eh.
      destruct (backendDOMNodeId node) as [z|] eqn:Ez; [|discriminate].
      destruct (Z.eqb_spec z 0); [discriminate|]. injection Eh as <-.
      split; [assumption|]. exists node, mapped, depth. repeat split; auto.
      apply in_or_app. right. left. reflexivity.
  - constructor; cbn [lines refCounter refMap].
    + rewrite printedRefs_app, Hrefs. cbn. apply app_nil_r.
    + exact Hkeys.
    + exact Hnd.
    + intros r h Hg. destruct (Hh r h Hg) as (Hz & n0 & m0 & d0 & H1 & H2 & H3 & H4).
      split; [exact Hz|]. exists n0, m0, d0. repeat split; auto.
      apply in_or_app. left. exact H4.
Qed.

Lemma axTree_built fuel nodes s : axTree fuel nodes = Some s -> built nodes s.
Proof.
  apply (axTree_preserves (built nodes)).
  - constructor; cbn; try tauto; try constructor; try discriminate.
  - intros node mapped depth st Hin Hm. apply built_emit; assumption.
Qed.

(** X11: the refs the builder prints are e1, e2, ... up to its counter, in
    the order of the lines: every ref stands on one line only. *)
Theorem X11_builder_refs_counted (fuel : nat) (nodes : list AXNode) (s : state) :
  axTree fuel nodes = Some s ->
  printedRefs (lines s) = refIds (refCounter s) /\ NoDup (printedRefs (lines s)).
Proof.
  intros H. apply axTree_built in H as [Hrefs _ _ _]. split; [exact Hrefs|].
  rewrite Hrefs. apply refIds_NoDup.
Qed.

Lemma X11_builder_refs_counted_witness :
  printedRefs (lines goState) = refIds (refCounter goState)
  /\ NoDup (printedRefs (lines goState)).
Proof.
  apply (X11_builder_refs_counted 3 [rootNode; buttonNode (Some 7%Z)] goState).
  vm_compute. reflexivity.
Defined.

(** X12: a handle the builder stored under a ref is not zero and is the
    backend-DOM handle of a node of the input whose line, with the mapped
    role and the name of that node, carries the ref; no key occurs twice
    in the handle map. *)
Theorem X12_builder_handle_of_line (fuel : nat) (nodes : list AXNode) (s : state)
    (r : string) (h : Z) :
  axTree fuel nodes = Some s -> refMap_get r (refMap s) = Some h ->
  h <> 0%Z
  /\ (exists node mapped depth,
        In node nodes /\ backendDOMNodeId node = Some h
        /\ mapRole (role node) = Some mapped
        /\ In (Line depth mapped (name node) (Some r)) (lines s))
  /\ NoDup (refMap_keys (refMap s)).
Proof.
  intros H Hg. apply axTree_built in H as [_ _ Hnd Hh].
  destruct (Hh r h Hg) as [Hz Hn]. auto.
Qed.

Lemma X12_builder_handle_of_line_witness :
  7%Z <> 0%Z
  /\ (exists node mapped depth,
        In node [rootNode; buttonNode (Some 7%Z)] /\ backendDOMNodeId node = Some 7%Z
        /\ mapRole (role node) = Some mapped
        /\ In (Line depth mapped (name node) (Some "e1")) (lines goState))
  /\ NoDup (refMap_keys (refMap goState)).
Proof.
  apply (X12_builder_handle_of_line 3 [rootNode; buttonNode (Some 7%Z)] goState "e1" 7%Z);
    vm_compute; reflexivity.
Defined.

Lemma printedRefs_unique ls l l' r :
  NoDup (printedRefs ls) -> In l ls -> In l' ls ->
  ol_ref l = Some r -> ol_ref l' = Some r -> l = l'.
Proof.
  assert (Hin : forall ls l r, In l ls -> ol_ref l = Some r -> In r (printedRefs ls)).
  { clear. intros ls l r Hl Hr. unfold printedRefs. apply in_flat_map.
    exists l. rewrite Hr. split; [exact Hl | left; reflexivity]. }
  induction ls as [|x ls IH]; intros Hnd Hl Hl' Hr Hr'; [destruct Hl|].
  change (printedRefs (x :: ls))
    with ((match ol_ref x with Some r0 => [r0] | None => [] end) ++ printedRefs ls)%list
    in Hnd.
  destruct Hl as [<-|Hl], Hl' as [<-|Hl'].
  - reflexivity.
  - rewrite Hr in Hnd. cbn in Hnd. inversion Hnd as [|? ? Hnin _]; subst.
    exfalso. exact (Hnin (Hin ls l' r Hl' Hr')).
  - rewrite Hr' in Hnd. cbn in Hnd. inversion Hnd as [|? ? Hnin _]; subst.
    exfalso. exact (Hnin (Hin ls l r Hl Hr)).
  - apply IH; auto. destruct (ol_ref x); [|exact Hnd].
    cbn in Hnd. inversion Hnd; assumption.
Qed.

(** X13: when every node has a backend-DOM handle, each ref printed on a
    line of the outline resolves in clickRef, fillRef, hover and
    selectOption, on the handle map returned with the outline, to the
    handle of the node that line was printed for. *)
Theorem X13_printed_ref_resolves (fuel : nat) (nodes : list AXNode) (s : state)
    (l : OutLine) (r text value : string) :
  allHandles nodes = true -> axTree fuel nodes = Some s ->
  In l (lines s) -> ol_ref l = Some r ->
  exists node h,
    In node nodes /\ backendDOMNodeId node = Some h /\ name node = ol_name l
    /\ mapRole (role node) = Some (ol_role l)
    /\ clickRef (refMap s) r = Resolved h
    /\ fillRef (refMap s) r text = Resolved h
    /\ hover (refMap s) r = Resolved h
    /\ selectOption (refMap s) r value = Resolved h.
Proof.
  intros Hall Hs Hl Hr.
  pose proof (axTree_closed fuel nodes s Hall Hs l r Hl Hr) as Hk.
  apply refMap_get_keys in Hk.
  destruct (refMap_get r (refMap s)) as [h|] eqn:Hg; [clear Hk | congruence].
  pose proof (axTree_built fuel nodes s Hs) as [Hrefs _ _ Hh].
  destruct (Hh r h Hg) as (Hz & node & mapped & depth & Hin & Hb & Hm & Hline).
  assert (Hnd : NoDup (printedRefs (lines s)))
    by (rewrite Hrefs; apply refIds_NoDup).
  pose proof (printedRefs_unique _ _ _ r Hnd Hline Hl eq_refl Hr) as <-.
  exists node, h. cbn [ol_name ol_role].
  unfold clickRef, fillRef, hover, selectOption, truthy_handle. rewrite Hg.
  destruct (Z.eqb_spec h 0); [contradiction|]. repeat split; auto.
Qed.

Lemma X13_printed_ref_resolves_witness :
  exists node h,
    In node [rootNode; buttonNode (Some 7%Z)] /\ backendDOMNodeId node = Some h
    /\ name node = "Go" /\ mapRole (role node) = Some "button"
    /\ clickRef (refMap goState) "e1" = Resolved h
    /\ fillRef (refMap goState) "e1" "text" = Resolved h
    /\ hover (refMap goState) "e1" = Resolved h
    /\ selectOption (refMap goState) "e1" "value" = Resolved h.
Proof.
  apply (X13_printed_ref_resolves 3 [rootNode; buttonNode (Some 7%Z)] goState
           (Line 0 "button" "Go" (Some "e1")) "e1" "text" "value");
    [vm_compute; reflexivity | vm_compute; reflexivity | left; reflexivity | reflexivity].
Defined.

(** ** The optimizer reads the builder's lines *)

Lemma refId_token k : refToken (refId k).
Proof.
  exists (show_nat k). split; [reflexivity|]. split; [|apply show_nat_digits].
  unfold show_nat. intros E.
  pose proof (NilZero.usu _ (to_uint_nonnil k)) as H. rewrite E in H. discriminate.
Qed.

Lemma first_ref_refText r : refToken r -> Optimizer.first_ref (refText (Some r)) = Some r.
Proof.
  intros Hr. unfold Optimizer.first_ref, exec, refText.
  change (" [ref=" ++ r ++ "]") with (String " " (tag r)).
  cbn [search_from]. rewrite REF_not_before_bracket by reflexivity.
  destruct (match_at_tag r 1 (Some " "%char) Hr) as (m & Hm & _).
  assert (E : search_from Optimizer.REF_PATTERN ("" ++ " ") 1 (Some " "%char) (tag r)
              = Some ("" ++ " ", m)).
  { destruct (tag r); cbn [search_from]; rewrite Hm; reflexivity. }
  rewrite E. apply match_at_sound in Hm as [Hs [Hrest _]].
  apply sem_REF_PATTERN in Hs as (r' & _ & Ht & He).
  cbn [c_rest] in Hrest. rewrite Ht in Hrest.
  destruct (tag_inv r r' _ Hr Hrest) as [-> _].
  unfold group. rewrite He. reflexivity.
Qed.

Lemma leading_ws_indent d s :
  Optimizer.leading_ws (repeat_string "  " d ++ String "-" s) = d * 2.
Proof. induction d as [|d IH]; [reflexivity|]. cbn. rewrite IH. reflexivity. Qed.

Lemma spaces_indent d : all_chars is_space (repeat_string "  " d) = true.
Proof. induction d as [|d IH]; [reflexivity | exact IH]. Qed.

Lemma mapRole_word r mapped :
  mapRole r = Some mapped ->
  all_chars is_word mapped = true /\ mapped <> EmptyString /\ toLowerCase mapped = mapped.
Proof.
  intros H. apply assoc_In in H.
  assert (Hall : forallb (fun v => all_chars is_word v && negb (String.eqb v EmptyString)
                                   && String.eqb (toLowerCase v) v)
                         (map snd ROLE_MAP) = true) by (vm_compute; reflexivity).
  rewrite forallb_forall in Hall. specialize (Hall mapped H).
  apply andb_true_iff in Hall as [Hall H3]. apply andb_true_iff in Hall as [H1 H2].
  apply String.eqb_eq in H3. apply negb_true_iff, String.eqb_neq in H2. auto.
Qed.

Lemma parseLine_render l :
  readable l ->
  Optimizer.parseLine (render l)
  = Some (Optimizer.Parsed (repeat_string "  " (ol_depth l) ++ "- ") (ol_role l)
            (nameOf (ol_name l)) (refText (ol_ref l)) (ol_ref l) (render l))
  /\ Optimizer.indentLevel (render l) = ol_depth l.
Proof.
  intros ([cdp Hrole] & Hname & Href).
  destruct (mapRole_word _ _ Hrole) as (Hw & Hne & Hlow).
  split.
  2:{ unfold Optimizer.indentLevel, render.
      change ("- " ++ ?s) with (String "-" (" " ++ s)).
      rewrite leading_ws_indent. apply Nat.div_mul. discriminate. }
  assert (Hrender : render l
                    = Optimizer.buildLine (repeat_string "  " (ol_depth l) ++ "-" ++ " ")
                        (ol_role l) (nameOf (ol_name l)) (refText (ol_ref l))).
  { unfold render, Optimizer.buildLine, refText, nameOf. rewrite !append_assoc.
    destruct (ol_name l); reflexivity. }
  assert (Hfirst : Optimizer.first_ref (refText (ol_ref l)) = ol_ref l).
  { destruct (ol_ref l) as [r|]; [|vm_compute; reflexivity].
    destruct Href as [k ->]. apply first_ref_refText, refId_token. }
  assert (Hsuf : all_chars (fun c => negb (is_line_terminator c)) (refText (ol_ref l))
                 = true).
  { destruct (ol_ref l) as [r|]; [|reflexivity]. destruct Href as [k ->].
    unfold refText, refId.
    change (" [ref=" ++ ("e" ++ show_nat k) ++ "]")
      with (" [ref=e" ++ (show_nat k ++ "]")).
    rewrite (all_chars_app _ " [ref=e"), (all_chars_app _ (show_nat k) "]").
    rewrite (all_chars_weaken is_digit _ (show_nat k)); [reflexivity | | apply show_nat_digits].
    intros x Hx. destruct x as [[] [] [] [] [] [] [] []]; vm_compute in Hx |- *; congruence. }
  rewrite Hrender at 1. unfold nameOf in *. destruct (ol_name l) as [|a n] eqn:En.
  - rewrite (parseLine_unnamed (repeat_string "  " (ol_depth l)) " " (ol_role l)
               (refText (ol_ref l)));
      try assumption; try apply spaces_indent; try reflexivity;
      try (destruct (ol_ref l); reflexivity).
    rewrite <- Hrender, Hlow, Hfirst. reflexivity.
  - rewrite (parseLine_named (repeat_string "  " (ol_depth l)) " " (ol_role l)
               (String a n) (refText (ol_ref l)));
      try assumption; try apply spaces_indent; try reflexivity.
    rewrite <- Hrender, Hlow, Hfirst. reflexivity.
Qed.

Lemma emit_readable nodes node mapped depth s :
  quoteFreeNames nodes = true -> In node nodes -> mapRole (role node) = Some mapped ->
  Forall readable (lines s) -> Forall readable (lines (emit node mapped depth s)).
Proof.
  intros Hq Hin Hm Hs. unfold quoteFreeNames in Hq. rewrite forallb_forall in Hq.
  specialize (Hq node Hin). unfold emit.
  destruct (gets_ref mapped (name node)); cbn [lines];
    (apply Forall_app; split; [exact Hs|]); (constructor; [|constructor]);
    (split; [exists (role node); exact Hm | split; [exact Hq|]]); cbn [ol_ref]; [|exact I].
  exists (S (refCounter s)). reflexivity.
Qed.

(** X14: when no node name holds a double quote and no node's role is a
    property name that every object inherits, parseLine reads every line
    of the builder's outline back as it was printed: the prefix is the
    indent and the dash, the role is the mapped role, the name is the
    node's name (none when it is empty), the suffix is the ref tag and the
    ref is the ref of the line; indentLevel returns the depth it was
    printed at. *)
Theorem X14_parseLine_reads_builder (fuel : nat) (nodes : list AXNode) (s : state)
    (l : OutLine) :
  tableRoles nodes = true ->
  quoteFreeNames nodes = true -> axTree fuel nodes = Some s -> In l (lines s) ->
  Optimizer.parseLine (render l)
  = Some (Optimizer.Parsed (repeat_string "  " (ol_depth l) ++ "- ") (ol_role l)
            (nameOf (ol_name l)) (refText (ol_ref l)) (ol_ref l) (render l))
  /\ Optimizer.indentLevel (render l) = ol_depth l.
Proof.
  intros _ Hq Hs Hl. apply parseLine_render.
  assert (H : Forall readable (lines s)).
  { revert Hs. apply (axTree_preserves (fun st => Forall readable (lines st)));
      [constructor|].
    intros node mapped depth st Hin Hm. apply (emit_readable nodes); assumption. }
  rewrite Forall_forall in H. exact (H l Hl).
Qed.

Lemma X14_parseLine_reads_builder_witness :
  Optimizer.parseLine (render (Line 0 "button" "Go" (Some "e1")))
  = Some (Optimizer.Parsed "- " "button" (Some "Go") " [ref=e1]" (Some "e1")
            (render (Line 0 "button" "Go" (Some "e1"))))
  /\ Optimizer.indentLevel (render (Line 0 "button" "Go" (Some "e1"))) = 0.
Proof.
  apply (X14_parseLine_reads_builder 3 [rootNode; buttonNode (Some 7%Z)] goState
           (Line 0 "button" "Go" (Some "e1")));
    [vm_compute; reflexivity | vm_compute; reflexivity | vm_compute; reflexivity
     | left; reflexivity].
Defined.

End BuilderNumbering.

(* ====================================================================== *)
(** * Further properties of the differ *)
(* ====================================================================== *)

Section DiffCounts.

Import Differ.

Lemma match_fold_counts bR bRN curr acc :
  let m := fold_left (match_step bR bRN) curr acc in
  List.length (added m) + List.length (changed m) + unchanged m
  = List.length (added acc) + List.length (changed acc) + unchanged acc + List.length curr
  /\ (forall el, In el (added m) -> In el (added acc) \/ In el curr).
Proof.
  revert acc. induction curr as [|el curr IH]; intros acc; cbn [fold_left List.length].
  - cbn zeta. split; [lia | auto].
  - destruct (IH (match_step bR bRN acc el)) as [Hc Hin]. cbn zeta in *. split.
    + rewrite Hc. unfold match_step.
      destruct (matchPrev bR bRN el) as [[prevEl key]|].
      * destruct (isChanged el prevEl); cbn [added changed unchanged];
          rewrite ?length_app; cbn [List.length]; lia.
      * cbn [added changed unchanged]. rewrite length_app. cbn [List.length]. lia.
    + intros e He. apply Hin in He as [He|He]; [|right; right; exact He].
      unfold match_step in He.
      destruct (matchPrev bR bRN el) as [[prevEl key]|].
      * destruct (isChanged el prevEl); cbn [added] in He; left; exact He.
      * cbn [added] in He. apply in_app_or in He as [He|[<-|[]]];
          [left; exact He | right; left; reflexivity].
Qed.

Lemma filter_length_le {A} (f : A -> bool) l : List.length (filter f l) <= List.length l.
Proof.
  induction l as [|a l IH]; cbn [filter List.length]; [lia|].
  destruct (f a); cbn [List.length]; lia.
Qed.

(** X15: computeDiff classifies every element of the current outline at
    most once: added + changed + unchanged never exceeds total, and equals
    it when no current element has a noise role (the noise filter is the
    only way an element goes uncounted); removed never exceeds the number
    of elements of the previous outline. *)
Theorem X15_diff_counts_bounded (prevSnapshot currSnapshot prevUrl currUrl : string) :
  let st := diff_stats (computeDiff prevSnapshot currSnapshot prevUrl currUrl) in
  st_added st + st_changed st + st_unchanged st <= st_total st
  /\ (forallb filterNoise (parseElements currSnapshot) = true ->
      st_added st + st_changed st + st_unchanged st = st_total st)
  /\ st_removed st <= List.length (parseElements prevSnapshot).
Proof.
  cbn zeta. unfold computeDiff. cbn zeta. cbn [diff_stats st_added st_changed
    st_unchanged st_total st_removed].
  destruct (match_fold_counts (byRef (parseElements prevSnapshot))
              (byRoleName (parseElements prevSnapshot)) (parseElements currSnapshot)
              (Matching [] [] 0 ∅)) as [Hc Hin].
  cbn zeta in Hc, Hin. cbn [added changed unchanged List.length] in Hc.
  fold (match_all (parseElements prevSnapshot) (parseElements currSnapshot)) in Hc, Hin.
  set (m := match_all (parseElements prevSnapshot) (parseElements currSnapshot)) in *.
  pose proof (filter_length_le filterNoise (added m)) as Hle.
  split; [lia|]. split.
  - intros Hall. rewrite forallb_forall in Hall.
    rewrite (filter_all_true filterNoise (added m)); [lia|].
    intros el Hel. apply Hall. destruct (Hin el Hel) as [[]|H]. exact H.
  - etransitivity; [apply filter_length_le|]. apply filter_length_le.
Qed.

(** X16: when the current outline has at least one element, an empty diff
    is never a large diff: isEmpty and isLargeDiff exclude each other. *)
Theorem X16_empty_diff_not_large (prevSnapshot currSnapshot prevUrl currUrl : string) :
  let d := computeDiff prevSnapshot currSnapshot prevUrl currUrl in
  0 < st_total (diff_stats d) -> isEmpty d = true -> isLargeDiff d = false.
Proof.
  cbn zeta. unfold computeDiff. cbn zeta.
  cbn [diff_stats st_total isEmpty isLargeDiff].
  intros Ht He. apply Nat.eqb_eq in He. rewrite He.
  apply Nat.ltb_lt in Ht. rewrite Ht. reflexivity.
Qed.

Lemma X16_empty_diff_not_large_witness :
  isLargeDiff (computeDiff oneButton oneButton "" "") = false.
Proof.
  apply (X16_empty_diff_not_large oneButton oneButton "" "");
    [vm_compute; lia | vm_compute; reflexivity].
Defined.

Lemma matchPrev_empty el : matchPrev (byRef []) (byRoleName []) el = None.
Proof.
  unfold matchPrev, byRef, byRoleName. cbn [fold_left].
  destruct (ref el); rewrite ?lookup_empty; reflexivity.
Qed.

Lemma match_fold_all_added bR bRN curr acc :
  (forall el, In el curr -> matchPrev bR bRN el = None) ->
  fold_left (match_step bR bRN) curr acc
  = Matching (added acc ++ curr) (changed acc) (unchanged acc) (matchedPrevKeys acc).
Proof.
  revert acc. induction curr as [|el curr IH]; intros acc H; cbn [fold_left].
  - rewrite app_nil_r. destruct acc; reflexivity.
  - rewrite IH by (intros e He; apply H; right; exact He).
    unfold match_step. rewrite (H el (or_introl eq_refl)).
    cbn [added changed unchanged matchedPrevKeys]. rewrite <- app_assoc. reflexivity.
Qed.

(** X17: against a previous outline without elements, every element of the
    current outline is added: the added count is the number of current
    elements the noise filter keeps, nothing is removed, changed or
    unchanged, and the diff is empty exactly when every current element has
    a noise role. *)
Theorem X17_diff_from_nothing (prevSnapshot currSnapshot prevUrl currUrl : string) :
  parseElements prevSnapshot = [] ->
  let d := computeDiff prevSnapshot currSnapshot prevUrl currUrl in
  st_added (diff_stats d) = List.length (filter filterNoise (parseElements currSnapshot))
  /\ st_removed (diff_stats d) = 0
  /\ st_changed (diff_stats d) = 0
  /\ st_unchanged (diff_stats d) = 0
  /\ isEmpty d = allNoise (parseElements currSnapshot).
Proof.
  intros Hp. cbn zeta. unfold computeDiff. cbn zeta. rewrite Hp.
  unfold match_all. rewrite match_fold_all_added by (intros el _; apply matchPrev_empty).
  cbn [diff_stats st_added st_removed st_changed st_unchanged isEmpty added changed
       unchanged matchedPrevKeys filter List.length app].
  repeat split. rewrite !Nat.add_0_r. apply filter_length_zero.
Qed.

Lemma X17_diff_from_nothing_witness :
  st_added (diff_stats (computeDiff "" oneButton "" ""))
  = List.length (filter filterNoise (parseElements oneButton))
  /\ st_removed (diff_stats (computeDiff "" oneButton "" "")) = 0
  /\ st_changed (diff_stats (computeDiff "" oneButton "" "")) = 0
  /\ st_unchanged (diff_stats (computeDiff "" oneButton "" "")) = 0
  /\ isEmpty (computeDiff "" oneButton "" "") = allNoise (parseElements oneButton).
Proof. apply (X17_diff_from_nothing "" oneButton "" ""). reflexivity. Defined.

End DiffCounts.

Section ElementRoles.

Import Differ.

Lemma lookup_cap_app n e c :
  lookup_cap n e = None -> lookup_cap n (e ++ c)%list = lookup_cap n c.
Proof.
  induction e as [|[k t] e IH]; cbn [lookup_cap app]; [reflexivity|].
  destruct (k =? n); [discriminate | exact IH].
Qed.

Lemma lookup_cap_app_none n e1 e2 :
  lookup_cap n e1 = None -> lookup_cap n e2 = None -> lookup_cap n (e1 ++ e2)%list = None.
Proof. intros H1 H2. rewrite lookup_cap_app by exact H1. exact H2. Qed.

(** An expression without group [n] records nothing for it. *)
Lemma sem_no_group n r : forall t e,
  has_group n r = false -> sem r t e -> lookup_cap n e = None.
Proof.
  induction r as [|p|r1 IH1 r2 IH2|r1 IH1 r2 IH2|g lo hi r1 IH1|m r1 IH1| | |];
    intros t e Hg Hs; cbn [has_group sem] in *.
  - destruct Hs as [_ ->]. reflexivity.
  - destruct Hs as (a & _ & _ & ->). reflexivity.
  - apply orb_false_iff in Hg as [G1 G2].
    destruct Hs as (t1 & t2 & e1 & e2 & H1 & H2 & _ & ->).
    apply lookup_cap_app_none; eauto.
  - apply orb_false_iff in Hg as [G1 G2]. destruct Hs as [H|H]; eauto.
  - destruct Hs as (ps & Hps & _ & -> & _). clear t.
    induction Hps as [|[t1 e1] ps Hp Hps IHps]; [reflexivity|].
    cbn [caps]. apply lookup_cap_app_none; [exact IHps | exact (IH1 _ _ Hg Hp)].
  - apply orb_false_iff in Hg as [G1 G2]. destruct Hs as (e1 & H1 & ->).
    cbn [lookup_cap]. rewrite G1. eauto.
  - destruct Hs as [_ ->]. reflexivity.
  - destruct Hs as [_ ->]. reflexivity.
  - destruct Hs as [_ ->]. reflexivity.
Qed.

Lemma rep_zero_total g hi r k x c :
  k x c <> None -> run (Rep g 0 hi r) x c k <> None.
Proof. intros H. cbn [run]. apply rep_stop; [lia | exact H]. Qed.

Lemma ELEMENT_TAIL_total x c : run ELEMENT_TAIL x c final <> None.
Proof.
  unfold ELEMENT_TAIL. cbn [seqs]. unfold star, opt.
  apply seq_matches, rep_zero_total.
  apply seq_matches, rep_zero_total.
  apply seq_matches, rep_zero_total.
  apply rep_zero_total. discriminate.
Qed.

Lemma alts_lit_first rs x c k :
  (forall x' c', k x' c' <> None) ->
  run (alts (map lit rs)) x c k
  = match find (fun r => starts_with r (c_rest x)) rs with
    | Some r => k (skip_chars (String.length r) x) c
    | None => None
    end.
Proof.
  intros Hk. induction rs as [|r rs IH].
  - cbn. destruct (c_rest x); reflexivity.
  - cbn [map find]. destruct rs as [|r2 rs].
    + cbn [alts map find]. rewrite run_lit.
      destruct (starts_with r (c_rest x)); reflexivity.
    + change (alts (lit r :: map lit (r2 :: rs)))
        with (Alt (lit r) (alts (map lit (r2 :: rs)))).
      cbn [run]. rewrite run_lit, IH.
      destruct (starts_with r (c_rest x)); [|reflexivity].
      destruct (k (skip_chars (String.length r) x) c) eqn:E; [reflexivity|].
      exfalso. exact (Hk _ _ E).
Qed.

Lemma starts_with_substring r s :
  starts_with r s = true -> String.substring 0 (String.length r) s = r.
Proof.
  revert s. induction r as [|a r IH]; intros s H; [destruct s; reflexivity|].
  destruct s as [|b s]; [discriminate|]. cbn [starts_with] in H.
  apply andb_true_iff in H as [Hab H]. apply Ascii.eqb_eq in Hab. subst b.
  cbn [String.length String.substring]. rewrite (IH s H). reflexivity.
Qed.

Lemma starts_with_shorter a b s :
  starts_with (a ++ b) s = true -> starts_with a s = true.
Proof.
  revert s. induction a as [|x a IH]; intros s H; [destruct s; reflexivity|].
  destruct s as [|y s]; [discriminate|].
  change (String x a ++ b) with (String x (a ++ b)) in H.
  cbn [starts_with] in *. apply andb_true_iff in H as [Hxy H].
  rewrite Hxy. exact (IH s H).
Qed.

(** The role parseElement returns is the first of the alternation that
    the text after the dash begins with. *)
Lemma parseElement_role line el :
  parseElement line = Some el ->
  exists ind gap rest,
    line = ind ++ "-" ++ gap ++ rest
    /\ all_chars is_space ind = true /\ all_chars is_space gap = true
    /\ find (fun r => starts_with r rest) ELEMENT_ROLES = Some (role el).
Proof.
  unfold parseElement. destruct (exec ELEMENT_RE line) as [m|] eqn:E; [|discriminate].
  intros H. injection H as <-. cbn [role].
  unfold ELEMENT_RE in E. cbn [seqs] in E.
  apply exec_bol_inv in E as (x' & c' & H & Hc & _).
  unfold group_or_empty, group. rewrite Hc. clear Hc m.
  apply run_seq_sound in H as (t1 & e1 & x1 & (ea & Hs1 & ->) & [R1 _] & H).
  apply sem_rep_chr in Hs1 as (Hw1 & _ & ->).
  apply run_seq_sound in H as (t2 & e2 & x2 & Hs2 & [R2 _] & H).
  apply sem_lit in Hs2 as [-> ->].
  apply run_seq_sound in H as (t3 & e3 & x3 & Hs3 & [R3 _] & H).
  apply sem_rep_chr in Hs3 as (Hw3 & _ & ->).
  cbn [c_rest] in R1.
  change (run (Group 2 (alts (map lit ELEMENT_ROLES))) x3
            ([] ++ [] ++ [(1, t1)])%list
            (fun x4 c4 => run ELEMENT_TAIL x4 c4 final) = Some (x', c')) in H.
  cbn [run] in H.
  rewrite alts_lit_first in H by (intros; apply ELEMENT_TAIL_total).
  destruct (find (fun r => starts_with r (c_rest x3)) ELEMENT_ROLES) as [r|] eqn:Hf;
    [|discriminate].
  exists t1, t3, (c_rest x3). split; [rewrite R1, R2, R3; reflexivity|].
  split; [exact Hw1|]. split; [exact Hw3|]. rewrite Hf. f_equal.
  apply find_some in Hf as [_ Hst].
  apply run_sound in H as (t & e & x4 & Hs & _ & Hfin).
  unfold final in Hfin. injection Hfin as _ <-.
  rewrite lookup_cap_app by (apply (sem_no_group 2 ELEMENT_TAIL t e); [reflexivity | exact Hs]).
  cbn [lookup_cap Nat.eqb]. destruct x3 as [pos prev rest]. unfold skip_chars.
  cbn [c_pos c_rest] in *.
  replace (pos + String.length r - pos) with (String.length r) by lia.
  symmetry. apply starts_with_substring. exact Hst.
Qed.

Lemma role_not_shadowed rest r :
  find (fun r => starts_with r rest) ELEMENT_ROLES = Some r ->
  r <> "table" /\ r <> "menuitemcheckbox" /\ r <> "menuitemradio".
Proof.
  intros H. unfold ELEMENT_ROLES in H. cbn [find] in H.
  repeat match type of H with
  | (if starts_with ?q rest then _ else _) = _ =>
      destruct (starts_with q rest) eqn:?;
        [injection H as <-; repeat split; try discriminate|]
  end; try discriminate.
  - exfalso.
    assert (Hs : starts_with "menuitem" rest = true)
      by (apply (starts_with_shorter "menuitem" "checkbox"); assumption).
    congruence.
  - exfalso.
    assert (Hs : starts_with "menuitem" rest = true)
      by (apply (starts_with_shorter "menuitem" "radio"); assumption).
    congruence.
  - exfalso.
    assert (Hs : starts_with "tab" rest = true)
      by (apply (starts_with_shorter "tab" "le"); assumption).
    congruence.
Qed.

Lemma ws_split_unique w1 : forall w2 a1 a2 s1 s2,
  all_chars is_space w1 = true -> all_chars is_space w2 = true ->
  is_space a1 = false -> is_space a2 = false ->
  w1 ++ String a1 s1 = w2 ++ String a2 s2 ->
  w1 = w2 /\ String a1 s1 = String a2 s2.
Proof.
  induction w1 as [|x w1 IH]; intros w2 a1 a2 s1 s2 H1 H2 Ha1 Ha2 E.
  - destruct w2 as [|y w2]; [auto|]. exfalso.
    change (String a1 s1 = String y (w2 ++ String a2 s2)) in E. injection E as -> _.
    cbn [all_chars] in H2. apply andb_true_iff in H2 as [Hy _]. congruence.
  - destruct w2 as [|y w2].
    + exfalso. change (String x (w1 ++ String a1 s1) = String a2 s2) in E.
      injection E as -> _. cbn [all_chars] in H1. apply andb_true_iff in H1 as [Hx _].
      congruence.
    + change (String x (w1 ++ String a1 s1) = String y (w2 ++ String a2 s2)) in E.
      injection E as -> E. cbn [all_chars] in H1, H2.
      apply andb_true_iff in H1 as [_ H1]. apply andb_true_iff in H2 as [_ H2].
      destruct (IH w2 a1 a2 s1 s2 H1 H2 Ha1 Ha2 E) as [-> E']. auto.
Qed.

Lemma role_first_char r rest :
  find (fun r => starts_with r rest) ELEMENT_ROLES = Some r ->
  exists a s, rest = String a s /\ is_space a = false.
Proof.
  intros H. apply find_some in H as [Hin Hst].
  assert (Hall : forallb (fun r => match r with
                                   | String c _ => negb (is_space c)
                                   | EmptyString => false
                                   end) ELEMENT_ROLES = true) by (vm_compute; reflexivity).
  rewrite forallb_forall in Hall. specialize (Hall r Hin).
  destruct r as [|c r]; [discriminate|]. destruct rest as [|a s]; [discriminate|].
  cbn [starts_with] in Hst. apply andb_true_iff in Hst as [Hca _].
  apply Ascii.eqb_eq in Hca. subst a. exists c, s. split; [reflexivity|].
  apply negb_true_iff. exact Hall.
Qed.

(** X18: the role parseElement returns is the first role of the
    alternation of ELEMENT_RE that the text after the dash begins with.
    Since tab stands before table and menuitem before menuitemcheckbox and
    menuitemradio, no element ever has one of these three roles: a line
    whose role is written table is read as a tab. *)
Theorem X18_parseElement_first_role (line : string) (el : element) :
  parseElement line = Some el ->
  (exists ind gap rest,
      line = ind ++ "-" ++ gap ++ rest
      /\ all_chars is_space ind = true /\ all_chars is_space gap = true
      /\ find (fun r => starts_with r rest) ELEMENT_ROLES = Some (role el))
  /\ role el <> "table" /\ role el <> "menuitemcheckbox" /\ role el <> "menuitemradio"
  /\ (forall ind gap rest,
        all_chars is_space ind = true -> all_chars is_space gap = true ->
        line = ind ++ "-" ++ gap ++ "table" ++ rest -> role el = "tab").
Proof.
  intros H. pose proof (parseElement_role line el H) as (ind & gap & rest & E & Hi & Hg & Hf).
  split; [exists ind, gap, rest; auto|].
  destruct (role_not_shadowed rest _ Hf) as (N1 & N2 & N3).
  split; [exact N1|]. split; [exact N2|]. split; [exact N3|].
  intros ind' gap' rest' Hi' Hg' E'.
  destruct (role_first_char _ _ Hf) as (a & s & -> & Ha).
  rewrite E in E'.
  change ("-" ++ ?x) with (String "-" x) in E'.
  destruct (ws_split_unique ind ind' "-" "-" _ _ Hi Hi' eq_refl eq_refl E') as [_ E2].
  injection E2 as E2.
  change ("table" ++ rest') with (String "t" ("able" ++ rest')) in E2.
  destruct (ws_split_unique gap gap' a "t" _ _ Hg Hg' Ha eq_refl E2) as [_ E3].
  rewrite E3 in Hf. cbn in Hf. congruence.
Qed.

Lemma X18_parseElement_first_role_witness :
  role (Element "tab" "" None "table" 0) <> "table".
Proof.
  apply (X18_parseElement_first_role "- table" (Element "tab" "" None "table" 0)).
  vm_compute. reflexivity.
Defined.

(** The checkbox item of a menu is read as a menuitem without name and
    without ref. *)
Lemma checkboxItem_read :
  option_map (fun el => (role el, name el, ref el)) (parseElement checkboxItem)
  = Some ("menuitem", EmptyString, None).
Proof. vm_compute. reflexivity. Qed.

End ElementRoles.

Section DiffText.

Import Differ.

Lemma find_all_false {A} (f : A -> bool) l :
  (forall a, In a l -> f a = false) -> find f l = None.
Proof.
  induction l as [|a l IH]; intros H; cbn [find]; [reflexivity|].
  rewrite (H a (or_introl eq_refl)). apply IH. intros b Hb. apply H. right. exact Hb.
Qed.

Lemma byRoleName_fold_miss prev (m0 : gmap string element) k :
  m0 !! k = None -> (forall p, In p prev -> roleName p <> k) ->
  fold_left (fun m el =>
               match m !! roleName el with
               | Some _ => m
               | None => <[roleName el := el]> m
               end) prev m0 !! k = None.
Proof.
  revert m0. induction prev as [|p prev IH]; intros m0 H0 H; cbn [fold_left]; [exact H0|].
  apply IH; [|intros q Hq; apply H; right; exact Hq].
  destruct (m0 !! roleName p); [exact H0|].
  rewrite lookup_insert_ne; [exact H0|]. apply H. left. reflexivity.
Qed.

Lemma matchPrev_unseen prev el r :
  ref el = Some r -> unseen prev el = true ->
  matchPrev (byRef prev) (byRoleName prev) el = None.
Proof.
  intros Hr Hu. unfold unseen in Hu. rewrite forallb_forall in Hu.
  unfold matchPrev. rewrite Hr.
  assert (H1 : byRef prev !! r = None).
  { unfold byRef. rewrite byRef_fold_spec, lookup_empty.
    rewrite find_all_false; [reflexivity|].
    intros p Hp. apply in_rev in Hp. specialize (Hu p Hp).
    apply andb_true_iff in Hu as [Hu _]. rewrite Hr in Hu.
    apply negb_true_iff. exact Hu. }
  assert (H2 : byRoleName prev !! roleName el = None).
  { unfold byRoleName. apply byRoleName_fold_miss; [apply lookup_empty|].
    intros p Hp. specialize (Hu p Hp). apply andb_true_iff in Hu as [_ Hu].
    apply negb_true_iff, String.eqb_neq in Hu. exact Hu. }
  rewrite H1, H2. reflexivity.
Qed.

Lemma match_fold_added bR bRN curr : forall acc el,
  (In el (added acc) \/ (In el curr /\ matchPrev bR bRN el = None)) ->
  In el (added (fold_left (match_step bR bRN) curr acc)).
Proof.
  induction curr as [|x curr IH]; intros acc el H; cbn [fold_left].
  - destruct H as [H|[[] _]]. exact H.
  - apply IH. destruct H as [H|[[->|H] Hm]].
    + left. unfold match_step. destruct (matchPrev bR bRN x) as [[p k]|].
      * destruct (isChanged x p); exact H.
      * cbn [added]. apply in_or_app. left. exact H.
    + left. unfold match_step. rewrite Hm. cbn [added]. apply in_or_app.
      right. left. reflexivity.
    + right. auto.
Qed.

Lemma hasTag_refStr el r : ref el = Some r -> hasTag r (addedLine el) = true.
Proof.
  intros Hr. unfold hasTag, addedLine, refStr. rewrite Hr.
  do 3 apply includes_app_r.
  change (" [ref=" ++ r ++ "]") with (" " ++ tag r).
  rewrite <- (append_empty_r (tag r)) at 2. apply includes_mid.
Qed.

(** X19: the ref of a new element is shown in the diff.  When an element
    of the current outline carries a ref, has no noise role, and no element
    of the previous outline has that ref or that role and name, the text of
    the diff holds the tag of the ref, on the line added for the
    element. *)
Theorem X19_new_ref_in_diff (prevSnapshot currSnapshot prevUrl currUrl : string)
    (el : element) (r : string) :
  In el (parseElements currSnapshot) -> ref el = Some r ->
  filterNoise el = true -> unseen (parseElements prevSnapshot) el = true ->
  hasTag r (diff (computeDiff prevSnapshot currSnapshot prevUrl currUrl)) = true.
Proof.
  intros Hin Hr Hf Hu. unfold computeDiff. cbn zeta. cbn [diff].
  unfold hasTag. apply (includes_in_join _ (addedLine el)); [|exact (hasTag_refStr el r Hr)].
  unfold diffLines. do 3 (apply in_or_app; right). apply in_or_app. left.
  apply in_map. apply filter_In. split; [|exact Hf].
  unfold match_all. apply match_fold_added. right. split; [exact Hin|].
  exact (matchPrev_unseen _ el r Hr Hu).
Qed.

Lemma X19_new_ref_in_diff_witness :
  hasTag "e1" (diff (computeDiff "" oneButton "" "u")) = true.
Proof.
  apply (X19_new_ref_in_diff "" oneButton "" "u"
           (Element "button" "Go" (Some "e1")
                    ("button " ++ Quote ++ "Go" ++ Quote ++ " [ref=e1]") 0) "e1");
    [vm_compute; left; reflexivity | reflexivity | reflexivity | reflexivity].
Defined.

End DiffText.

(* ====================================================================== *)
(** * Reducers as filters, the analysis, and the agent's observation *)
(* ====================================================================== *)

Section SubsequenceFacts.

Import Optimizer.

Lemma filter_sublist {A} (f : A -> bool) (l : list A) : sublist (filter f l) l.
Proof.
  induction l as [|a l IH]; cbn [filter]; [constructor|].
  destruct (f a); [apply sublist_skip | apply sublist_cons]; exact IH.
Qed.

Lemma dedupLinks_loop_sublist ls : forall skip stack, sublist (dedupLinks_loop skip stack ls) ls.
Proof.
  induction ls as [|l ls IH]; intros skip stack; cbn [dedupLinks_loop]; [constructor|].
  destruct skip as [|skip]; [|apply sublist_cons, IH].
  repeat match goal with
  | |- sublist (_ :: _) (_ :: _) => apply sublist_skip, IH
  | |- sublist (dedupLinks_loop _ _ _) (_ :: _) => apply sublist_cons, IH
  | |- sublist (if ?b then _ else _) _ => destruct b
  | |- sublist (match ?x with _ => _ end) _ => destruct x
  end.
Qed.

Lemma collapse_loop_sublist ls : forall skip, sublist (collapse_loop skip ls) ls.
Proof.
  induction ls as [|l ls IH]; intros skip; cbn [collapse_loop]; [constructor|].
  destruct skip; [apply sublist_skip | apply sublist_cons]; apply IH.
Qed.

Lemma viewportOnly_lines_sublist refs ls : sublist (viewportOnly_lines refs ls) ls.
Proof.
  induction ls as [|l ls IH]; cbn [viewportOnly_lines]; [constructor|].
  destruct (match first_ref l with Some _ => _ | None => _ end);
    [apply sublist_skip | apply sublist_cons]; exact IH.
Qed.

Lemma interactiveOnly_lines_sublist ls : sublist (interactiveOnly_lines ls) ls.
Proof.
  induction ls as [|l ls IH]; cbn [interactiveOnly_lines]; [constructor|].
  destruct (_ || _); [apply sublist_skip | apply sublist_cons]; exact IH.
Qed.

(** X20: removeNoise, dedupLinks, collapseRedundantChildren, viewportOnly
    and interactiveOnly only drop lines: the output of each is the join of
    a subsequence of the lines of its input, so no line is rewritten,
    added or moved. *)
Theorem X20_reducers_only_drop_lines :
  onlyDrops removeNoise /\ onlyDrops dedupLinks /\ onlyDrops collapseRedundantChildren
  /\ (forall visibleRefs, onlyDrops (fun snapshot => viewportOnly snapshot visibleRefs))
  /\ onlyDrops interactiveOnly.
Proof.
  split; [|split; [|split; [|split]]].
  - intros s. exists (removeNoise_lines (split_lines s)).
    split; [apply filter_sublist | reflexivity].
  - intros s. exists (dedupLinks_lines (split_lines s)).
    split; [apply dedupLinks_loop_sublist | reflexivity].
  - intros s. exists (collapseRedundantChildren_lines (split_lines s)).
    split; [apply collapse_loop_sublist | reflexivity].
  - intros [[|r refs]|] s.
    + exists (split_lines s). split; [reflexivity|]. symmetry. apply join_split_lines.
    + exists (viewportOnly_lines (r :: refs) (split_lines s)).
      split; [apply viewportOnly_lines_sublist | reflexivity].
    + exists (split_lines s). split; [reflexivity|]. symmetry. apply join_split_lines.
  - intros s. exists (interactiveOnly_lines (split_lines s)).
    split; [apply interactiveOnly_lines_sublist | reflexivity].
Qed.

End SubsequenceFacts.

Section AgentFacts.

Import Differ.

Lemma self_isEmpty x prevUrl currUrl :
  isEmpty (computeDiff x x prevUrl currUrl) = refsAgree (parseElements x).
Proof.
  destruct (match_fold_found (parseElements x) (parseElements x) (Matching [] [] 0 ∅)
              (fun _ H => H)) as (Ha & _ & _ & Hall).
  fold (match_all (parseElements x) (parseElements x)) in Ha, Hall. cbn [added] in Ha.
  assert (Hrem : filter (fun el => negb (isMatched
             (matchedPrevKeys (match_all (parseElements x) (parseElements x))) el))
             (parseElements x) = []).
  { apply filter_all_false. intros el Hel. rewrite (Hall el Hel). reflexivity. }
  unfold computeDiff. cbn zeta. cbn [isEmpty]. rewrite Ha, Hrem. cbn [filter List.length Nat.add].
  destruct (refsAgree (parseElements x)) eqn:Hag.
  - destruct (match_fold_self (parseElements x) (parseElements x) (Matching [] [] 0 ∅)
                Hag (fun _ H => H)) as (_ & Hc & _).
    fold (match_all (parseElements x) (parseElements x)) in Hc. rewrite Hc. reflexivity.
  - apply Nat.eqb_neq. pose proof (self_changed _ Hag). lia.
Qed.

Lemma blank_flags prevSnapshot currSnapshot prevUrl currUrl :
  parseElements currSnapshot = [] ->
  isEmpty (computeDiff prevSnapshot currSnapshot prevUrl currUrl)
  = allNoise (parseElements prevSnapshot)
  /\ isLargeDiff (computeDiff prevSnapshot currSnapshot prevUrl currUrl) = true.
Proof.
  intros Hcurr. unfold computeDiff. cbn zeta. rewrite Hcurr.
  cbn [isLargeDiff isEmpty]. split; [|reflexivity].
  unfold match_all. cbn [fold_left added changed matchedPrevKeys].
  rewrite (filter_all_true (fun el => negb (isMatched ∅ el))).
  - cbn [filter List.length Nat.add]. rewrite Nat.add_0_r. apply filter_length_zero.
  - intros el _. rewrite isMatched_empty. reflexivity.
Qed.

(** X21: after an action that leaves the outline as it was, with elements
    of the same ref under the same name, the agent is told that nothing
    changed, whatever the action returned and whether or not the URL
    changed. *)
Theorem X21_unchanged_outline_observation (result snapshot prevUrl currentUrl : string) :
  refsAgree (parseElements snapshot) = true ->
  Agent.observe result snapshot snapshot prevUrl currentUrl
  = "Action: " ++ result ++ NL ++ "No visible changes on the page.".
Proof.
  intros H. unfold Agent.observe, Agent.observation. rewrite self_isEmpty, H. reflexivity.
Qed.


Lemma X21_unchanged_outline_observation_witness :
  Agent.observe "Clicked" oneButton oneButton "a" "b"
  = "Action: " ++ "Clicked" ++ NL ++ "No visible changes on the page.".
Proof.
  apply (X21_unchanged_outline_observation "Clicked" oneButton "a" "b").
  vm_compute. reflexivity.
Defined.

(** X22: when the new outline has no element, the agent is sent the full
    new snapshot if the previous outline had an element outside the noise
    roles, and is told that nothing changed if it had none: the empty
    diff is tested before the large one. *)
Theorem X22_blank_outline_observation
    (result prevSnapshot snapshot prevUrl currentUrl : string) :
  parseElements snapshot = [] ->
  Agent.observe result prevSnapshot snapshot prevUrl currentUrl
  = if allNoise (parseElements prevSnapshot)
    then "Action: " ++ result ++ NL ++ "No visible changes on the page."
    else "Action: " ++ result ++ NL ++ "URL: " ++ currentUrl ++ NL ++ NL ++
         "New page snapshot:" ++ NL ++ snapshot.
Proof.
  intros H. unfold Agent.observe, Agent.observation.
  destruct (blank_flags prevSnapshot snapshot prevUrl currentUrl H) as [-> ->].
  reflexivity.
Qed.

Lemma X22_blank_outline_observation_witness :
  Agent.observe "Clicked" oneButton "" "a" "b"
  = if allNoise (parseElements oneButton)
    then "Action: " ++ "Clicked" ++ NL ++ "No visible changes on the page."
    else "Action: " ++ "Clicked" ++ NL ++ "URL: " ++ "b" ++ NL ++ NL ++
         "New page snapshot:" ++ NL ++ "".
Proof.
  apply (X22_blank_outline_observation "Clicked" oneButton "" "a" "b"). reflexivity.
Defined.

End AgentFacts.

Section AnalysisFacts.

Import Optimizer.

Lemma analyzeWaste_loop_sums ls : forall skip bs,
  bucketLines (analyzeWaste_loop skip bs ls) = bucketLines bs + List.length ls
  /\ bucketChars (analyzeWaste_loop skip bs ls) = bucketChars bs + lineChars ls.
Proof.
  induction ls as [|l ls IH]; intros skip bs; cbn [analyzeWaste_loop List.length lineChars fold_right].
  - split; lia.
  - cbv zeta.
    repeat match goal with
    | |- context [match ?x with _ => _ end] =>
        match x with
        | analyzeWaste_loop _ _ _ => fail 1
        | _ => destruct x
        end
    end;
    match goal with
    | |- context [analyzeWaste_loop ?k ?b ls] => destruct (IH k b) as [-> ->]
    end;
    unfold bucketLines, bucketChars, count; cbn [chrome structural interactive content other b_lines b_chars];
    fold (lineChars ls); split; lia.
Qed.

Lemma join_lines_length l ls :
  String.length (join_lines (l :: ls)) + 1 = lineChars (l :: ls).
Proof.
  revert l. induction ls as [|l2 ls IH]; intros l.
  - cbn. lia.
  - change (join_lines (l :: l2 :: ls)) with (l ++ NL ++ join_lines (l2 :: ls)).
    rewrite !length_append. change (lineChars (l :: l2 :: ls))
      with (String.length l + 1 + lineChars (l2 :: ls)).
    rewrite <- IH. cbn [String.length NL]. lia.
Qed.

(** X23: analyzeWaste puts every line of the outline in exactly one of its
    five buckets: the line counts of the buckets add up to the total line
    count.  Each line is counted with one character more than its length,
    so the character counts of the buckets add up to one more than the
    total character count, which is the length of the outline. *)
Theorem X23_analyzeWaste_partition (snapshot : string) :
  bucketLines (r_buckets (analyzeWaste snapshot)) = b_lines (r_total (analyzeWaste snapshot))
  /\ bucketChars (r_buckets (analyzeWaste snapshot))
     = b_chars (r_total (analyzeWaste snapshot)) + 1
  /\ b_chars (r_total (analyzeWaste snapshot)) = String.length snapshot.
Proof.
  unfold analyzeWaste. cbn [r_buckets r_total b_lines b_chars].
  destruct (analyzeWaste_loop_sums (split_lines snapshot) 0
              (Buckets (Bucket 0 0) (Bucket 0 0) (Bucket 0 0) (Bucket 0 0) (Bucket 0 0)))
    as [-> ->].
  split; [reflexivity|]. split.
  - destruct (split_lines snapshot) as [|l ls] eqn:E.
    + exfalso. exact (split_go_nonempty _ _ E).
    + rewrite <- join_lines_length. reflexivity.
  - rewrite join_split_lines. reflexivity.
Qed.

End AnalysisFacts.

(* ====================================================================== *)
(** * Refs in the text: the baseline and the count *)
(* ====================================================================== *)

Section RefCounting.

Import Optimizer.

(** ** A tag where the text begins with one *)

Lemma run_REF_tag r pos prev s :
  refToken r ->
  run REF_PATTERN (Cursor pos prev (tag r ++ s)) [] final
  = Some (after (tag r) pos prev s, [(1, r)]).
Proof.
  intros (ds & -> & Hne & Hd). rewrite <- (after_nil pos prev).
  unfold tag. rewrite !append_assoc.
  unfold REF_PATTERN. cbn [seqs]. unfold plus, digit.
  apply seq_first, lit_first. lazy beta.
  apply seq_first, group_first, seq_first, lit_first. lazy beta.
  apply class_first; [exact Hd | reflexivity | destruct ds; [congruence | simpl; lia] |].
  lazy beta. apply lit_first. unfold final. f_equal. f_equal.
  repeat match goal with
  | |- _ :: _ = _ :: _ => f_equal
  | |- (_, _) = (_, _) => f_equal
  end.
  all: try (apply capture_after; rewrite ?append_assoc; reflexivity).
Qed.

Lemma match_at_tag_then r pos prev s :
  refToken r ->
  exists m, match_at REF_PATTERN (Cursor pos prev (tag r ++ s)) = Some m
            /\ m_caps m = [(1, r)] /\ m_end m = after (tag r) pos prev s.
Proof.
  intros Hr. unfold match_at. rewrite (run_REF_tag r pos prev s Hr).
  eexists. split; [reflexivity|]. split; reflexivity.
Qed.

Lemma matchAll_bracket_free fuel pos prev s :
  bracket_free s = true -> String.length s < fuel ->
  matchAll_go fuel REF_PATTERN pos prev s = [].
Proof.
  intros Hs Hf.
  assert (E : exists f, fuel = String.length s + f)
    by (exists (fuel - String.length s); lia).
  destruct E as [f ->]. clear Hf.
  rewrite <- (append_empty_r s) at 2.
  rewrite (matchAll_go_prefix _ _ s REF_not_before_bracket Hs).
  unfold REF_PATTERN. cbn [seqs]. apply matchAll_go_empty.
Qed.

Lemma collectRefs_bracket_free l : bracket_free l = true -> collectRefs [l] = [].
Proof.
  intros H. unfold collectRefs, matchAll. cbn [flat_map].
  rewrite (matchAll_bracket_free _ _ _ _ H) by lia. reflexivity.
Qed.

Lemma collectRefs_tagged P r T :
  bracket_free P = true -> bracket_free T = true -> refToken r ->
  collectRefs [P ++ tag r ++ T] = [r].
Proof.
  intros HP HT Hr. unfold collectRefs, matchAll. cbn [flat_map]. rewrite app_nil_r.
  rewrite !length_append.
  replace (S (String.length P + (String.length (tag r) + String.length T)))
    with (String.length P + S (String.length (tag r) + String.length T)) by lia.
  rewrite (matchAll_go_prefix _ _ P REF_not_before_bracket HP).
  destruct (match_at_tag_then r (0 + String.length P) (last_char None P) T Hr)
    as (m & Hm & Hc & He).
  cbn [matchAll_go]. rewrite Hm, He. unfold after at 1. cbn [c_pos].
  assert (Hlt : (0 + String.length P <? 0 + String.length P + String.length (tag r)) = true).
  { apply Nat.ltb_lt. unfold tag. rewrite length_append. simpl. lia. }
  rewrite Hlt. unfold after. cbn [c_pos c_prev c_rest].
  rewrite matchAll_bracket_free; [|exact HT|].
  - cbn [map]. unfold group_or_empty, group. rewrite Hc. reflexivity.
  - unfold tag. rewrite length_append. simpl. lia.
Qed.

Lemma all_chars_lower q s :
  (forall c, q c = true -> q (lower_char c) = true) ->
  all_chars q s = true -> all_chars q (toLowerCase s) = true.
Proof.
  intros Hq. induction s as [|a s IH]; intros H; [reflexivity|].
  cbn [all_chars toLowerCase map_string] in *. apply andb_true_iff in H as [Ha H].
  rewrite (Hq a Ha). exact (IH H).
Qed.

Lemma lower_not_bracket c :
  negb (Ascii.eqb c "[") = true -> negb (Ascii.eqb (lower_char c) "[") = true.
Proof. destruct c as [[] [] [] [] [] [] [] []]; vm_compute; congruence. Qed.

Lemma lower_not_LF c :
  negb (Ascii.eqb c LF) = true -> negb (Ascii.eqb (lower_char c) LF) = true.
Proof. destruct c as [[] [] [] [] [] [] [] []]; vm_compute; congruence. Qed.

(** The parts of a parsed line hold no character the line does not. *)
Lemma parsed_parts q line p :
  (forall c, q c = true -> q (lower_char c) = true) ->
  parseLine line = Some p -> all_chars q line = true ->
  all_chars q (prefix p) = true /\ all_chars q (role p) = true
  /\ all_chars q (suffix p) = true
  /\ match name p with Some n => all_chars q n = true | None => True end.
Proof.
  intros Hq Hp Hl. apply parseLine_inv in Hp
    as (parts & E & _ & _ & _ & Hrole & _ & _ & Hname & _).
  rewrite E in Hl. rewrite !all_chars_app in Hl.
  apply andb_true_iff in Hl as [H1 Hl]. apply andb_true_iff in Hl as [H2 Hl].
  apply andb_true_iff in Hl as [H3 H4].
  split; [exact H1|]. split; [rewrite Hrole; apply all_chars_lower; assumption|].
  split; [exact H4|]. rewrite Hname.
  destruct (lp_name parts) as [[w n]|]; [|exact I]. cbn [option_map snd nameText] in *.
  rewrite !all_chars_app in H3.
  apply andb_true_iff in H3 as [_ H3]. apply andb_true_iff in H3 as [_ H3].
  apply andb_true_iff in H3 as [H3 _]. exact H3.
Qed.

(** ** openclawBaseline *)

Lemma baseline_built_refs p k :
  bracket_free (prefix p) = true -> bracket_free (role p) = true ->
  bracket_free (suffix p) = true ->
  match name p with Some n => bracket_free n = true | None => True end ->
  collectRefs [buildLine (prefix p) (role p) (name p)
                 (" [ref=e" ++ show_nat k ++ "]" ++ suffix p)]
  = [refId k].
Proof.
  intros H1 H2 H3 H4.
  assert (E : buildLine (prefix p) (role p) (name p)
                (" [ref=e" ++ show_nat k ++ "]" ++ suffix p)
              = (prefix p ++ role p
                 ++ match name p with
                    | Some n => " " ++ Quote ++ n ++ Quote
                    | None => EmptyString
                    end ++ " ")
                ++ tag (refId k) ++ suffix p).
  { unfold buildLine, tag, refId. rewrite !append_assoc. reflexivity. }
  rewrite E. apply collectRefs_tagged; [|exact H3 | apply refId_token].
  unfold bracket_free in *. rewrite !all_chars_app, H1, H2.
  destruct (name p) as [n|]; [|reflexivity].
  rewrite !all_chars_app, H4. reflexivity.
Qed.

Lemma baseline_loop_refs ls : forall c,
  forallb bracket_free ls = true ->
  collectRefs (openclawBaseline_loop c ls)
  = map refId (seq (S c) (List.length (filter baselineLine ls))).
Proof.
  induction ls as [|l ls IH]; intros c H; [reflexivity|].
  cbn [forallb] in H. apply andb_true_iff in H as [Hl Hls].
  cbn [openclawBaseline_loop filter]. unfold baselineLine at 1.
  destruct (parseLine l) as [p|] eqn:Hp.
  - destruct (has STRUCTURAL_ROLES (role p) && negb (truthy (name p))); cbn [negb andb].
    + exact (IH c Hls).
    + destruct (baselineRef p).
      * rewrite collectRefs_cons, (IH (S c) Hls). cbn [List.length seq map].
        destruct (parsed_parts _ l p lower_not_bracket Hp Hl) as (H1 & H2 & H3 & H4).
        rewrite (baseline_built_refs p (S c) H1 H2 H3 H4). reflexivity.
      * rewrite collectRefs_cons, (collectRefs_bracket_free l Hl). exact (IH c Hls).
  - rewrite collectRefs_cons, (collectRefs_bracket_free l Hl). exact (IH c Hls).
Qed.

Lemma baseline_loop_noLF ls : forall c,
  forallb noLF ls = true -> forallb noLF (openclawBaseline_loop c ls) = true.
Proof.
  induction ls as [|l ls IH]; intros c H; [reflexivity|].
  cbn [forallb] in H. apply andb_true_iff in H as [Hl Hls].
  cbn [openclawBaseline_loop].
  destruct (parseLine l) as [p|] eqn:Hp; [|cbn [forallb]; rewrite Hl; exact (IH c Hls)].
  destruct (has STRUCTURAL_ROLES (role p) && negb (truthy (name p))); [exact (IH c Hls)|].
  destruct (baselineRef p); cbn [forallb]; [|rewrite Hl; exact (IH c Hls)].
  rewrite (IH (S c) Hls), andb_true_r.
  destruct (parsed_parts _ l p lower_not_LF Hp Hl) as (H1 & H2 & H3 & H4).
  unfold noLF, buildLine in *. rewrite !all_chars_app, H1, H2, H3.
  assert (Hk : all_chars (fun c0 => negb (Ascii.eqb c0 LF)) (show_nat (S c)) = true).
  { apply (all_chars_weaken is_digit); [|apply show_nat_digits].
    intros x Hx. destruct x as [[] [] [] [] [] [] [] []]; vm_compute in Hx |- *; congruence. }
  rewrite Hk. destruct (name p) as [n|]; [|reflexivity].
  rewrite !all_chars_app, H4. reflexivity.
Qed.

Lemma compactTree_lines_refs ls : collectRefs (compactTree_lines ls) = collectRefs ls.
Proof.
  induction ls as [|l ls IH]; [reflexivity|]. cbn [compactTree_lines].
  rewrite (collectRefs_cons l ls).
  destruct (test REF_PATTERN l) eqn:Et.
  - rewrite collectRefs_cons, IH. reflexivity.
  - rewrite (collectRefs_no_tag l Et). cbn [app].
    destruct (_ && _); [rewrite collectRefs_cons, (collectRefs_no_tag l Et), IH; reflexivity|].
    destruct (hasRefChildren _ _); [|exact IH].
    rewrite collectRefs_cons, (collectRefs_no_tag l Et), IH. reflexivity.
Qed.

Lemma compactTree_lines_sub ls l : In l (compactTree_lines ls) -> In l ls.
Proof.
  induction ls as [|x ls IH]; [tauto|]. cbn [compactTree_lines].
  destruct (test REF_PATTERN x); [cbn [In]; tauto|].
  destruct (_ && _); [cbn [In]; tauto|].
  destruct (hasRefChildren _ _); cbn [In]; tauto.
Qed.

Lemma compactTree_refs tree :
  collectRefs (split_lines (compactTree tree)) = collectRefs (split_lines tree).
Proof.
  unfold compactTree.
  rewrite (split_join_sub _ tree) by apply compactTree_lines_sub.
  rewrite <- (compactTree_lines_refs (split_lines tree)).
  destruct (compactTree_lines (split_lines tree)); reflexivity.
Qed.

(** X24: on an outline without an opening bracket, the refs of the output
    of openclawBaseline are e1, e2, ..., in the order of the lines, one
    for each line the baseline neither skips (a structural role without a
    name) nor leaves without a ref (it gives one to the interactive roles
    and to the content roles with a name): the compaction that follows
    drops no line with a ref. *)
Theorem X24_baseline_refs_counted (snapshot : string) :
  forallb bracket_free (split_lines snapshot) = true ->
  collectRefs (split_lines (openclawBaseline snapshot))
  = refIds (List.length (filter baselineLine (split_lines snapshot))).
Proof.
  intros H. unfold openclawBaseline. rewrite compactTree_refs.
  pose proof (baseline_loop_refs (split_lines snapshot) 0 H) as Hrefs.
  pose proof (baseline_loop_noLF (split_lines snapshot) 0 (split_lines_noLF snapshot)) as Hlf.
  destruct (openclawBaseline_loop 0 (split_lines snapshot)) as [|l out] eqn:E.
  - unfold refIds. rewrite <- Hrefs. reflexivity.
  - rewrite split_join_lines; [exact Hrefs | discriminate | exact Hlf].
Qed.

Lemma X24_baseline_refs_counted_witness :
  collectRefs (split_lines (openclawBaseline rawOutline))
  = refIds (List.length (filter baselineLine (split_lines rawOutline))).
Proof. apply X24_baseline_refs_counted. vm_compute. reflexivity. Defined.

(** The raw outline above with its refs: the list, structural and without
    a name, is gone. *)
Lemma baseline_rawOutline :
  openclawBaseline rawOutline
  = "- heading " ++ Quote ++ "News" ++ Quote ++ " [ref=e1]" ++ NL ++
    "  - button " ++ Quote ++ "Go" ++ Quote ++ " [ref=e2]".
Proof. vm_compute. reflexivity. Qed.

(** ** countRefsInSnapshot *)

(** What REF_PATTERN does at a cursor: nothing, or it takes the tag the
    text begins with. *)
Lemma match_at_REF_cases pos prev t :
  match_at REF_PATTERN (Cursor pos prev t) = None
  \/ exists r s m, refToken r /\ t = tag r ++ s
                   /\ match_at REF_PATTERN (Cursor pos prev t) = Some m
                   /\ m_end m = after (tag r) pos prev s.
Proof.
  destruct (match_at REF_PATTERN (Cursor pos prev t)) as [m|] eqn:E; [right | left; reflexivity].
  pose proof (match_at_sound _ _ _ E) as [Hs [Hr _]].
  apply sem_REF_PATTERN in Hs as (r & Htok & Ht & _). cbn [c_rest] in Hr.
  exists r, (c_rest (m_end m)). 
  destruct (match_at_tag_then r pos prev (c_rest (m_end m)) Htok) as (m' & Hm' & _ & He).
  fold (tag r) in Ht. rewrite Ht in Hr. rewrite <- Hr in Hm'.
  rewrite E in Hm'. injection Hm' as <-.
  exists m. auto.
Qed.

Lemma tag_begins r s : refToken r -> match_at REF_PATTERN (Cursor 0 None (tag r ++ s)) <> None.
Proof.
  intros Hr. destruct (match_at_tag_then r 0 None s Hr) as (m & -> & _). discriminate.
Qed.

Lemma match_at_REF_some pos prev pos' prev' t :
  match_at REF_PATTERN (Cursor pos prev t) = None ->
  match_at REF_PATTERN (Cursor pos' prev' t) = None.
Proof.
  intros H. destruct (match_at_REF_cases pos' prev' t) as [E|(r & s & m & Hr & -> & _)];
    [exact E|].
  destruct (match_at_tag_then r pos prev s Hr) as (m' & Hm' & _). congruence.
Qed.

Lemma prefix_before_LF a : forall b x y,
  noLF a = true -> a ++ x = b ++ String LF y -> exists b', b = a ++ b'.
Proof.
  induction a as [|c a IH]; intros b x y Ha E; [exists b; reflexivity|].
  cbn [noLF all_chars] in Ha. apply andb_true_iff in Ha as [Hc Ha].
  destruct b as [|d b].
  - cbn in E. injection E as -> _. cbn in Hc. rewrite Ascii.eqb_refl in Hc. discriminate.
  - change (String c (a ++ x) = String d (b ++ String LF y)) in E. injection E as -> E.
    destruct (IH b x y Ha E) as [b' ->]. exists b'. reflexivity.
Qed.

(** The number of matches does not depend on where the count of
    positions starts, nor on fuel past the length of the text. *)
Lemma count_go_bounded n : forall t fuel fuel' pos prev pos' prev',
  String.length t <= n ->
  String.length t < fuel -> String.length t < fuel' ->
  List.length (matchAll_go fuel REF_PATTERN pos prev t)
  = List.length (matchAll_go fuel' REF_PATTERN pos' prev' t).
Proof.
  induction n as [|n IH]; intros t fuel fuel' pos prev pos' prev' Hn Hf Hf'.
  { destruct t; [|simpl in Hn; lia]. destruct fuel; [simpl in Hf; lia|].
    destruct fuel'; [simpl in Hf'; lia|]. cbn [matchAll_go].
    rewrite (match_at_REF_some pos prev pos' prev' "").
    - destruct (match_at_REF_cases pos prev "") as [E0|(r0 & s0 & m0 & _ & Ht & _)];
        [rewrite E0; reflexivity | discriminate].
    - destruct (match_at_REF_cases pos prev "") as [E0|(r0 & s0 & m0 & _ & Ht & _)];
        [exact E0 | discriminate]. }
  destruct fuel as [|fuel]; [lia|]. destruct fuel' as [|fuel']; [lia|].
  cbn [matchAll_go].
  destruct (match_at_REF_cases pos prev t) as [E|(r & s & m & Hr & -> & E & He)].
  - rewrite E, (match_at_REF_some _ _ pos' prev' _ E).
    destruct t as [|a t]; [reflexivity|]. cbn [String.length] in *.
    apply IH; lia.
  - destruct (match_at_tag_then r pos' prev' s Hr) as (m' & E' & _ & He').
    rewrite E, E', He, He'. unfold after. cbn [c_pos c_prev c_rest].
    assert (Hlen : 0 < String.length (tag r)) by (unfold tag; simpl; lia).
    assert ((pos <? pos + String.length (tag r)) = true) as -> by (apply Nat.ltb_lt; lia).
    assert ((pos' <? pos' + String.length (tag r)) = true) as -> by (apply Nat.ltb_lt; lia).
    cbn [List.length]. f_equal. rewrite length_append in *.
    apply IH; lia.
Qed.

Lemma count_go_any t fuel fuel' pos prev pos' prev' :
  String.length t < fuel -> String.length t < fuel' ->
  List.length (matchAll_go fuel REF_PATTERN pos prev t)
  = List.length (matchAll_go fuel' REF_PATTERN pos' prev' t).
Proof. apply (count_go_bounded (String.length t)). lia. Qed.

Lemma go_none fuel r pos prev a l :
  match_at r (Cursor pos prev (String a l)) = None ->
  matchAll_go (S fuel) r pos prev (String a l) = matchAll_go fuel r (S pos) (Some a) l.
Proof. intros H. cbn [matchAll_go]. rewrite H. reflexivity. Qed.

Lemma go_some fuel r pos prev t m :
  match_at r (Cursor pos prev t) = Some m -> (pos <? c_pos (m_end m)) = true ->
  matchAll_go (S fuel) r pos prev t
  = m :: matchAll_go fuel r (c_pos (m_end m)) (c_prev (m_end m)) (c_rest (m_end m)).
Proof. intros H Hlt. cbn [matchAll_go]. rewrite H, Hlt. reflexivity. Qed.

Lemma count_line_bounded n : forall l fuel pos prev rest,
  String.length l <= n ->
  noLF l = true -> String.length (l ++ String LF rest) < fuel ->
  List.length (matchAll_go fuel REF_PATTERN pos prev (l ++ String LF rest))
  = List.length (matchAll REF_PATTERN l) + List.length (matchAll REF_PATTERN rest).
Proof.
  induction n as [n IH] using lt_wf_ind.
  intros l fuel pos prev rest Hn Hl Hf.
  destruct fuel as [|fuel]; [lia|].
  rewrite length_append in Hf. cbn [String.length] in Hf.
  destruct (match_at_REF_cases pos prev (l ++ String LF rest))
    as [E|(r & s & m & Hr & Ht & E & He)].
  - destruct l as [|a l].
    + assert (E0 : matchAll REF_PATTERN EmptyString = []) by reflexivity.
      rewrite E0. cbn [String.append] in *. rewrite (go_none _ _ _ _ _ _ E).
      cbn [List.length Nat.add]. unfold matchAll.
      apply count_go_any; cbn [String.length] in *; lia.
    + change (String a l ++ String LF rest) with (String a (l ++ String LF rest)) in *.
      assert (E0 : match_at REF_PATTERN (Cursor 0 None (String a l)) = None).
      { destruct (match_at_REF_cases 0 None (String a l))
          as [E0|(r & s & m & Hr & Ht & _)]; [exact E0|].
        exfalso. change (String a (l ++ String LF rest))
                   with (String a l ++ String LF rest) in E.
        rewrite Ht, append_assoc in E.
        destruct (match_at_tag_then r pos prev (s ++ String LF rest) Hr) as (m' & Hm' & _).
        congruence. }
      rewrite (go_none _ _ _ _ _ _ E). unfold matchAll at 1.
      rewrite (go_none _ _ _ _ _ _ E0).
      cbn [noLF all_chars] in Hl. apply andb_true_iff in Hl as [_ Hl].
      cbn [String.length] in Hn, Hf.
      rewrite (IH (String.length l)) with (l := l);
        [|lia | lia | exact Hl | rewrite length_append; cbn [String.length]; lia].
      f_equal. unfold matchAll. apply count_go_any; cbn [String.length]; lia.
  - assert (Hlen : 0 < String.length (tag r)) by (unfold tag; simpl; lia).
    rewrite (go_some _ _ _ _ _ _ E)
      by (rewrite He; unfold after; cbn [c_pos]; apply Nat.ltb_lt; lia).
    rewrite He. unfold after. cbn [c_pos c_prev c_rest].
    assert (Htag : noLF (tag r) = true).
    { destruct Hr as (ds & -> & _ & Hd). unfold noLF, tag.
      rewrite !all_chars_app. cbn [all_chars].
      rewrite (all_chars_weaken is_digit _ ds); [reflexivity | | exact Hd].
      intros x Hx. destruct x as [[] [] [] [] [] [] [] []]; vm_compute in Hx |- *; congruence. }
    symmetry in Ht. destruct (prefix_before_LF _ _ _ _ Htag Ht) as [l' ->].
    rewrite append_assoc in Ht. apply append_inv_head in Ht. subst s.
    destruct (match_at_tag_then r 0 None l' Hr) as (m0 & E0 & _ & He0).
    unfold matchAll at 1.
    rewrite (go_some _ _ _ _ _ _ E0)
      by (rewrite He0; unfold after; cbn [c_pos]; apply Nat.ltb_lt; lia).
    rewrite He0. unfold after. cbn [c_pos c_prev c_rest List.length Nat.add]. f_equal.
    unfold noLF in Hl. rewrite all_chars_app in Hl. apply andb_true_iff in Hl as [_ Hl'].
    rewrite !length_append in Hf, Hn.
    rewrite (IH (String.length l')) with (l := l');
      [|lia | lia | exact Hl' | rewrite length_append; cbn [String.length]; lia].
    f_equal. unfold matchAll. apply count_go_any; rewrite ?length_append; lia.
Qed.

Lemma countRefs_join ls :
  forallb noLF ls = true ->
  countRefsInSnapshot (join_lines ls) = List.length (collectRefs ls).
Proof.
  unfold countRefsInSnapshot. induction ls as [|l ls IH]; intros H; [reflexivity|].
  cbn [forallb] in H. apply andb_true_iff in H as [Hl Hls].
  rewrite collectRefs_cons, length_app.
  assert (E1 : List.length (collectRefs [l]) = List.length (matchAll REF_PATTERN l)).
  { unfold collectRefs. cbn [flat_map]. rewrite app_nil_r, length_map. reflexivity. }
  rewrite E1. destruct ls as [|l2 ls]; [cbn; lia|].
  rewrite <- (IH Hls).
  change (join_lines (l :: l2 :: ls)) with (l ++ String LF (join_lines (l2 :: ls))).
  unfold matchAll at 1.
  apply (count_line_bounded (String.length l)); [lia | exact Hl | lia].
Qed.

(** X25: countRefsInSnapshot, which counts the tags in the whole text, and
    collectRefs, which collects them line by line, agree on every outline:
    the count is the number of refs collected from its lines. *)
Theorem X25_countRefs_counts_collected (snapshot : string) :
  countRefsInSnapshot snapshot = List.length (collectRefs (split_lines snapshot)).
Proof.
  rewrite <- (join_split_lines snapshot) at 1.
  apply countRefs_join, split_lines_noLF.
Qed.

End RefCounting.

(* ====================================================================== *)
(** * What the differ cannot see, and what the builder prints *)
(* ====================================================================== *)

Section DiffInvariance.

Import Differ.

Lemma byRef_fold_norm p : forall m0 : gmap string element,
  fold_left (fun m el => match ref el with Some r => <[r := el]> m | None => m end)
            (map norm p) (norm <$> m0)
  = norm <$> fold_left (fun m el => match ref el with Some r => <[r := el]> m | None => m end)
                       p m0.
Proof.
  induction p as [|el p IH]; intros m0; cbn [map fold_left]; [reflexivity|].
  rewrite <- IH. f_equal. cbn [norm ref]. destruct (ref el); [|reflexivity].
  rewrite fmap_insert. reflexivity.
Qed.

Lemma byRef_norm p : byRef (map norm p) = norm <$> byRef p.
Proof. unfold byRef. rewrite <- byRef_fold_norm, fmap_empty. reflexivity. Qed.

Lemma byRoleName_fold_norm p : forall m0 : gmap string element,
  fold_left (fun m el =>
               match m !! roleName el with
               | Some _ => m
               | None => <[roleName el := el]> m
               end) (map norm p) (norm <$> m0)
  = norm <$> fold_left (fun m el =>
                          match m !! roleName el with
                          | Some _ => m
                          | None => <[roleName el := el]> m
                          end) p m0.
Proof.
  induction p as [|el p IH]; intros m0; cbn [map fold_left]; [reflexivity|].
  rewrite <- IH. f_equal. change (roleName (norm el)) with (roleName el).
  rewrite lookup_fmap. destruct (m0 !! roleName el); cbn; [reflexivity|].
  rewrite fmap_insert. reflexivity.
Qed.

Lemma byRoleName_norm p : byRoleName (map norm p) = norm <$> byRoleName p.
Proof. unfold byRoleName. rewrite <- byRoleName_fold_norm, fmap_empty. reflexivity. Qed.

Lemma matchPrev_norm (bR bRN : gmap string element) el :
  matchPrev (norm <$> bR) (norm <$> bRN) (norm el)
  = option_map (fun f => (norm (fst f), snd f)) (matchPrev bR bRN el).
Proof.
  unfold matchPrev. change (roleName (norm el)) with (roleName el).
  change (ref (norm el)) with (ref el). rewrite !lookup_fmap.
  destruct (ref el) as [r|].
  - rewrite lookup_fmap. destruct (bR !! r); cbn; [reflexivity|].
    destruct (bRN !! roleName el); reflexivity.
  - destruct (bRN !! roleName el); reflexivity.
Qed.

Lemma match_fold_norm bR bRN curr : forall acc acc',
  added acc' = map norm (added acc) ->
  changed acc' = map norm2 (changed acc) ->
  unchanged acc' = unchanged acc ->
  matchedPrevKeys acc' = matchedPrevKeys acc ->
  let m := fold_left (match_step bR bRN) curr acc in
  let m' := fold_left (match_step (norm <$> bR) (norm <$> bRN)) (map norm curr) acc' in
  added m' = map norm (added m) /\ changed m' = map norm2 (changed m)
  /\ unchanged m' = unchanged m /\ matchedPrevKeys m' = matchedPrevKeys m.
Proof.
  induction curr as [|el curr IH]; intros acc acc' Ha Hc Hu Hk; cbn [map fold_left].
  - cbn zeta. auto.
  - apply IH; unfold match_step; rewrite matchPrev_norm;
      destruct (matchPrev bR bRN el) as [[prevEl k]|]; cbn [option_map fst snd];
      try change (isChanged (norm el) (norm prevEl)) with (isChanged el prevEl);
      try destruct (isChanged el prevEl);
      cbn [added changed unchanged matchedPrevKeys];
      rewrite ?map_app, ?Ha, ?Hc, ?Hu, ?Hk; reflexivity.
Qed.

Lemma filter_norm_length (f : element -> bool) l :
  (forall el, f (norm el) = f el) ->
  List.length (filter f (map norm l)) = List.length (filter f l).
Proof.
  intros Hf. induction l as [|el l IH]; [reflexivity|]. cbn [map filter].
  rewrite Hf. destruct (f el); cbn [List.length]; rewrite IH; reflexivity.
Qed.

Lemma removed_norm keys prev :
  List.length (filter filterNoise
                 (filter (fun el => negb (isMatched keys el)) (map norm prev)))
  = List.length (filter filterNoise
                   (filter (fun el => negb (isMatched keys el)) prev)).
Proof.
  assert (E : filter (fun el => negb (isMatched keys el)) (map norm prev)
              = map norm (filter (fun el => negb (isMatched keys el)) prev)).
  { induction prev as [|el prev IH]; [reflexivity|]. cbn [map filter].
    change (isMatched keys (norm el)) with (isMatched keys el).
    destruct (negb (isMatched keys el)); cbn [map]; rewrite IH; reflexivity. }
  rewrite E. apply (filter_norm_length filterNoise). reflexivity.
Qed.

Lemma counts_norm prev curr : counts (map norm prev) (map norm curr) = counts prev curr.
Proof.
  unfold counts, match_all. rewrite byRef_norm, byRoleName_norm.
  destruct (match_fold_norm (byRef prev) (byRoleName prev) curr
              (Matching [] [] 0 ∅) (Matching [] [] 0 ∅) eq_refl eq_refl eq_refl eq_refl)
    as (Ha & Hc & Hu & Hk).
  cbn zeta in *. rewrite Ha, Hc, Hu, Hk, length_map, removed_norm.
  rewrite (filter_norm_length filterNoise) by reflexivity. reflexivity.
Qed.

Lemma computeDiff_counts prevSnapshot currSnapshot prevUrl currUrl :
  let d := computeDiff prevSnapshot currSnapshot prevUrl currUrl in
  (st_added (diff_stats d), st_removed (diff_stats d), st_changed (diff_stats d),
   st_unchanged (diff_stats d))
  = counts (parseElements prevSnapshot) (parseElements currSnapshot).
Proof. reflexivity. Qed.

Lemma key_norm l l' : map key l = map key l' -> map norm l = map norm l'.
Proof.
  revert l'. induction l as [|a l IH]; intros [|b l'] H; try discriminate; [reflexivity|].
  cbn [map] in *. unfold key at 1 3 in H. injection H as H1 H2 H3 H.
  rewrite (IH _ H). f_equal. unfold norm. congruence.
Qed.

(** The stats and flags of computeDiff are those of the counts. *)
Lemma diff_of_counts prev prev' curr curr' prevUrl currUrl prevUrl' currUrl' :
  counts (parseElements prev) (parseElements curr)
  = counts (parseElements prev') (parseElements curr') ->
  List.length (parseElements curr) = List.length (parseElements curr') ->
  diff_stats (computeDiff prev curr prevUrl currUrl)
  = diff_stats (computeDiff prev' curr' prevUrl' currUrl')
  /\ isEmpty (computeDiff prev curr prevUrl currUrl)
     = isEmpty (computeDiff prev' curr' prevUrl' currUrl')
  /\ isLargeDiff (computeDiff prev curr prevUrl currUrl)
     = isLargeDiff (computeDiff prev' curr' prevUrl' currUrl').
Proof.
  intros E Hlen.
  pose proof (computeDiff_counts prev curr prevUrl currUrl) as E1.
  pose proof (computeDiff_counts prev' curr' prevUrl' currUrl') as E2.
  cbn zeta in *. rewrite E, <- E2 in E1. clear E E2.
  revert E1. unfold computeDiff. cbn zeta.
  cbn [diff_stats st_added st_removed st_changed st_unchanged isEmpty isLargeDiff].
  rewrite Hlen. intros E. injection E as E1 E2 E3 E4.
  rewrite E1, E2, E3, E4. auto.
Qed.

(** X26: computeDiff sees of an outline only the role, name and ref of
    its elements.  Outlines whose elements agree on these three, in order,
    get the same stats and flags; so a change that touches none of them (a
    checkbox that becomes checked, another indent, another attribute)
    gives the diff of the outline against itself: it is empty when
    elements of the same ref have the same name. *)
Theorem X26_diff_sees_role_name_ref
    (prev prev' curr curr' prevUrl currUrl prevUrl' currUrl' : string) :
  map key (parseElements prev) = map key (parseElements prev') ->
  map key (parseElements curr) = map key (parseElements curr') ->
  (diff_stats (computeDiff prev curr prevUrl currUrl)
   = diff_stats (computeDiff prev' curr' prevUrl' currUrl')
   /\ isEmpty (computeDiff prev curr prevUrl currUrl)
      = isEmpty (computeDiff prev' curr' prevUrl' currUrl')
   /\ isLargeDiff (computeDiff prev curr prevUrl currUrl)
      = isLargeDiff (computeDiff prev' curr' prevUrl' currUrl'))
  /\ (map key (parseElements prev) = map key (parseElements curr) ->
      isEmpty (computeDiff prev curr prevUrl currUrl) = refsAgree (parseElements curr)).
Proof.
  intros Hp Hc.
  assert (Hinv : forall a a' b b' u v u' v',
             map key (parseElements a) = map key (parseElements a') ->
             map key (parseElements b) = map key (parseElements b') ->
             diff_stats (computeDiff a b u v) = diff_stats (computeDiff a' b' u' v')
             /\ isEmpty (computeDiff a b u v) = isEmpty (computeDiff a' b' u' v')
             /\ isLargeDiff (computeDiff a b u v) = isLargeDiff (computeDiff a' b' u' v')).
  { intros a a' b b' u v u' v' Ha Hb. apply diff_of_counts.
    - rewrite <- counts_norm, (key_norm _ _ Ha), (key_norm _ _ Hb), counts_norm.
      reflexivity.
    - rewrite <- (length_map key (parseElements b)), Hb. apply length_map. }
  split; [apply Hinv; assumption|].
  intros Hpc. destruct (Hinv prev curr curr curr prevUrl currUrl prevUrl currUrl Hpc eq_refl)
    as (_ & -> & _).
  apply self_isEmpty.
Qed.

Lemma X26_diff_sees_role_name_ref_witness :
  isEmpty (computeDiff uncheckedBox checkedBox "u" "u") = refsAgree (parseElements checkedBox).
Proof.
  refine (proj2 (X26_diff_sees_role_name_ref uncheckedBox uncheckedBox checkedBox checkedBox
                   "u" "u" "u" "u" eq_refl eq_refl) _).
  vm_compute. reflexivity.
Defined.

(** The agent is told that nothing changed when the checkbox is checked. *)
Lemma checked_box_unseen :
  Agent.observe "Clicked" uncheckedBox checkedBox "u" "u"
  = "Action: Clicked" ++ NL ++ "No visible changes on the page.".
Proof. vm_compute. reflexivity. Qed.

End DiffInvariance.

Section BuilderLines.

Import Browser.

Lemma emit_printedFor nodes node mapped depth s :
  In node nodes -> mapRole (role node) = Some mapped ->
  Forall (printedFor nodes) (lines s) ->
  Forall (printedFor nodes) (lines (emit node mapped depth s)).
Proof.
  intros Hin Hm Hs. unfold emit.
  destruct (gets_ref mapped (name node)) eqn:Eg; cbn [lines];
    (apply Forall_app; split; [exact Hs|]); (constructor; [|constructor]);
    (split; [exists node; auto | cbn [ol_ref ol_role ol_name]; rewrite Eg; reflexivity]).
Qed.

(** X27: when no node's role is a property name that every object
    inherits, every line of the builder's outline is printed for a node of
    the input: it carries the role the table of mapRole gives the node's
    role and the node's name, and it has a ref exactly when that role is
    interactive or the name is not empty and the role is neither generic
    nor text.  A role outside the values of the table is then never
    printed: among them menuitemcheckbox and menuitemradio, which
    INTERACTIVE_ROLES lists. *)
Theorem X27_builder_lines_of_nodes (fuel : nat) (nodes : list AXNode) (s : state)
    (l : OutLine) :
  tableRoles nodes = true ->
  axTree fuel nodes = Some s -> In l (lines s) ->
  printedFor nodes l
  /\ In (ol_role l) (map snd ROLE_MAP)
  /\ ol_role l <> "menuitemcheckbox" /\ ol_role l <> "menuitemradio".
Proof.
  intros _ Hs Hl.
  assert (H : Forall (printedFor nodes) (lines s)).
  { revert Hs. apply (axTree_preserves (fun st => Forall (printedFor nodes) (lines st)));
      [constructor|].
    intros node mapped depth st Hin Hm. apply emit_printedFor; assumption. }
  rewrite Forall_forall in H. specialize (H l Hl). split; [exact H|].
  destruct H as [(node & _ & Hm & _) _]. apply assoc_In in Hm.
  split; [exact Hm|].
  assert (Hno : forallb (fun v => negb (String.eqb v "menuitemcheckbox")
                                  && negb (String.eqb v "menuitemradio"))
                        (map snd ROLE_MAP) = true) by (vm_compute; reflexivity).
  rewrite forallb_forall in Hno. specialize (Hno _ Hm).
  apply andb_true_iff in Hno as [H1 H2].
  apply negb_true_iff, String.eqb_neq in H1. apply negb_true_iff, String.eqb_neq in H2.
  auto.
Qed.

Lemma X27_builder_lines_of_nodes_witness :
  printedFor [rootNode; buttonNode (Some 7%Z)] (Line 0 "button" "Go" (Some "e1"))
  /\ In "button" (map snd ROLE_MAP)
  /\ "button" <> "menuitemcheckbox" /\ "button" <> "menuitemradio".
Proof.
  apply (X27_builder_lines_of_nodes 3 [rootNode; buttonNode (Some 7%Z)] goState
           (Line 0 "button" "Go" (Some "e1")));
    [vm_compute; reflexivity | vm_compute; reflexivity | left; reflexivity].
Defined.

End BuilderLines.

(* ====================================================================== *)
(** * The builder's lines as the differ reads them *)
(* ====================================================================== *)

Section ElementRun.

Import Differ.

Lemma alt_loop_first p r2 lo k s t res : forall fuel cnt pos prev c,
  all_chars p t = true -> stops p s = true ->
  (forall pos' prev' c' k', run r2 (Cursor pos' prev' s) c' k' = None) ->
  lo <= cnt + String.length t -> String.length t < fuel ->
  k (after t pos prev s) c = Some res ->
  rep_loop (run (Alt (Chr p) r2)) true lo None k fuel cnt (Cursor pos prev (t ++ s)) c
  = Some res.
Proof.
  induction t as [|a t IH]; intros fuel cnt pos prev c Hp Hs H2 Hlo Hf H;
    (destruct fuel as [|fuel]; [simpl in Hf; lia|]).
  - rewrite after_nil in H. cbn [String.append rep_loop below].
    assert (Hlo' : (lo <=? cnt) = true) by (apply Nat.leb_le; simpl in Hlo; lia).
    rewrite Hlo'.
    assert (Hmore : run (Alt (Chr p) r2) (Cursor pos prev s) c
                      (fun x' c' =>
                         if c_pos (Cursor pos prev s) <? c_pos x'
                         then rep_loop (run (Alt (Chr p) r2)) true lo None k fuel (S cnt) x' c'
                         else None) = None).
    { cbn [run c_rest]. rewrite H2. destruct s as [|b s]; [reflexivity|].
      cbn [stops] in Hs. apply negb_true_iff in Hs. rewrite Hs. reflexivity. }
    rewrite Hmore. exact H.
  - simpl in Hp. apply andb_true_iff in Hp as [Ha Hp].
    change (String a t ++ s) with (String a (t ++ s)).
    cbn [rep_loop below].
    assert (Hmore : run (Alt (Chr p) r2) (Cursor pos prev (String a (t ++ s))) c
                      (fun x' c' =>
                         if c_pos (Cursor pos prev (String a (t ++ s))) <? c_pos x'
                         then rep_loop (run (Alt (Chr p) r2)) true lo None k fuel (S cnt) x' c'
                         else None) = Some res).
    { cbn [run c_rest c_pos]. rewrite Ha.
      assert (Hlt : (pos <? S pos) = true) by (apply Nat.ltb_lt; lia).
      rewrite Hlt.
      rewrite IH with (1 := Hp) (2 := Hs) (3 := H2); [reflexivity | | |].
      - simpl in Hlo. lia.
      - simpl in Hf. lia.
      - rewrite (after_step a t pos prev). exact H. }
    rewrite Hmore. reflexivity.
Qed.

Lemma alt_first p r2 lo t t0 p0 v0 s c k res :
  all_chars p t = true -> stops p s = true ->
  (forall pos' prev' c' k', run r2 (Cursor pos' prev' s) c' k' = None) ->
  lo <= String.length t ->
  k (after (t0 ++ t) p0 v0 s) c = Some res ->
  run (Rep true lo None (Alt (Chr p) r2)) (after t0 p0 v0 (t ++ s)) c k = Some res.
Proof.
  intros Hp Hs H2 Hlo H. unfold after at 1. cbn [run c_rest].
  apply alt_loop_first; [exact Hp | exact Hs | exact H2 | lia | rewrite length_append; lia|].
  rewrite after_app. exact H.
Qed.

Lemma slice_quoted n : slice_1_m1 (Quote ++ n ++ Quote) = n.
Proof.
  unfold slice_1_m1. change (Quote ++ n ++ Quote) with (String DQ (n ++ Quote)).
  cbn [String.length String.substring]. rewrite length_append.
  replace (S (String.length n + String.length Quote) - 2) with (String.length n)
    by (cbn; lia).
  apply substring_append.
Qed.

Lemma name_taken n s t0 p0 v0 c k res :
  slashFree n = true ->
  k (after (t0 ++ " " ++ Quote ++ n ++ Quote) p0 v0 s) ((3, Quote ++ n ++ Quote) :: c)
  = Some res ->
  run (star sp) (after t0 p0 v0 (" " ++ Quote ++ n ++ Quote ++ s)) c
      (fun x' c' => run NAME_PART x' c' k) = Some res.
Proof.
  intros Hn H. unfold star, sp, NAME_PART.
  apply (class_first is_space 0 " "); [reflexivity | reflexivity | lia|]. lazy beta.
  apply opt_taken; [unfold after; cbn [c_rest]; discriminate|].
  apply group_first. unfold QUOTED. cbn [seqs]. unfold star.
  apply seq_first, lit_first. lazy beta.
  apply seq_first.
  apply alt_first; [exact Hn | reflexivity | intros; reflexivity | lia|]. lazy beta.
  apply lit_first. lazy beta.
  match goal with
  | |- (if ?b then _ else _) = _ => assert (Hb : b = true)
  end.
  { apply Nat.ltb_lt. unfold after. cbn [c_pos]. rewrite !length_append. simpl. lia. }
  rewrite Hb. clear Hb.
  rewrite <- H. f_equal.
  - rewrite !append_assoc. reflexivity.
  - f_equal. f_equal. apply capture_after; rewrite ?append_assoc; reflexivity.
Qed.

Lemma name_absent w s t0 p0 v0 c k res :
  all_chars is_space w = true -> stops is_space s = true ->
  starts_with Quote s = false ->
  k (after (t0 ++ w) p0 v0 s) c = Some res ->
  run (star sp) (after t0 p0 v0 (w ++ s)) c (fun x' c' => run NAME_PART x' c' k)
  = Some res.
Proof.
  intros Hw Hs Hq H. unfold star, sp, NAME_PART.
  apply class_first; [exact Hw | exact Hs | lia|]. lazy beta.
  rewrite opt_skipped; [exact H|].
  intros k'. unfold QUOTED. cbn [seqs]. cbn [run]. rewrite run_lit.
  unfold after. cbn [c_rest]. rewrite Hq. reflexivity.
Qed.

Lemma ref_taken w k0 s t0 p0 v0 c k res :
  all_chars is_space w = true ->
  stops is_digit s = true ->
  k (after (t0 ++ w ++ "[ref=" ++ refId k0 ++ "]") p0 v0 s) ((4, refId k0) :: c)
  = Some res ->
  run (star sp) (after t0 p0 v0 (w ++ "[ref=" ++ "e" ++ show_nat k0 ++ "]" ++ s)) c
      (fun x' c' => run REF_PART x' c' k) = Some res.
Proof.
  intros Hw Hs H. unfold star, sp, REF_PART.
  destruct (show_nat_digits k0) as [Hne Hd].
  apply class_first; [exact Hw | reflexivity | lia|]. lazy beta.
  apply opt_taken; [unfold after; cbn [c_rest]; discriminate|].
  cbn [seqs]. unfold plus, digit.
  apply seq_first, lit_first. lazy beta.
  apply seq_first, group_first, seq_first, lit_first. lazy beta.
  apply class_first;
    [exact Hd | reflexivity | destruct (show_nat k0); [congruence | simpl; lia] |].
  lazy beta.
  apply lit_first. lazy beta.
  match goal with
  | |- (if ?b then _ else _) = _ => assert (Hb : b = true)
  end.
  { apply Nat.ltb_lt. unfold after. cbn [c_pos]. rewrite !length_append. simpl. lia. }
  rewrite Hb. clear Hb.
  rewrite <- H. unfold refId. f_equal.
  - rewrite !append_assoc. reflexivity.
  - f_equal. f_equal. apply capture_after; rewrite ?append_assoc; reflexivity.
Qed.

Lemma ref_absent t0 p0 v0 c k res :
  k (after t0 p0 v0 EmptyString) c = Some res ->
  run (star sp) (after t0 p0 v0 EmptyString) c (fun x' c' => run REF_PART x' c' k)
  = Some res.
Proof.
  intros H. unfold star, sp, REF_PART.
  apply (class_first is_space 0 EmptyString); [reflexivity | reflexivity | lia|].
  lazy beta. rewrite append_empty_r.
  rewrite opt_skipped; [exact H|].
  intros k'. cbn [seqs]. cbn [run]. rewrite run_lit. reflexivity.
Qed.

Lemma run_TAIL n o t0 p0 v0 c :
  slashFree n = true -> counted o ->
  exists xe,
    run ELEMENT_TAIL (after t0 p0 v0 (namePart n ++ refText o)) c final
    = Some (xe, refCaps o ++ nameCaps n ++ c)%list.
Proof.
  intros Hn Ho. unfold ELEMENT_TAIL. cbn [seqs].
  change (opt (Group 3 QUOTED)) with NAME_PART.
  change (opt (Seq (lit "[ref=") (Seq (Group 4 (Seq (lit "e") (plus digit))) (lit "]"))))
    with REF_PART.
  destruct n as [|a n]; (destruct o as [r|]; [destruct Ho as [k0 ->]|]);
    cbn [namePart refText nameCaps refCaps app]; eexists; apply seq_first.
  - apply (name_absent " " ("[ref=" ++ refId k0 ++ "]")); [reflexivity ..|].
    apply seq_first.
    change ("[ref=" ++ refId k0 ++ "]")
      with ("" ++ "[ref=" ++ "e" ++ show_nat k0 ++ "]" ++ "").
    apply ref_taken; reflexivity.
  - apply (name_absent "" ""); [reflexivity ..|].
    apply seq_first, ref_absent. reflexivity.
  - replace ((" " ++ Quote ++ String a n ++ Quote) ++ " [ref=" ++ refId k0 ++ "]")
      with (" " ++ Quote ++ String a n ++ Quote ++ " [ref=" ++ refId k0 ++ "]")
      by (rewrite !append_assoc; reflexivity).
    apply name_taken; [exact Hn|].
    apply seq_first.
    change (" [ref=" ++ refId k0 ++ "]")
      with (" " ++ "[ref=" ++ "e" ++ show_nat k0 ++ "]" ++ "").
    apply ref_taken; reflexivity.
  - replace ((" " ++ Quote ++ String a n ++ Quote) ++ "")
      with (" " ++ Quote ++ String a n ++ Quote ++ "")
      by (rewrite !append_assoc; reflexivity).
    apply name_taken; [exact Hn|].
    apply seq_first, ref_absent. reflexivity.
Qed.

Lemma skip_after l t0 p0 v0 s :
  skip_chars (String.length l) (after t0 p0 v0 (l ++ s)) = after (t0 ++ l) p0 v0 s.
Proof.
  rewrite <- after_app. unfold skip_chars, after. cbn [c_pos c_prev c_rest].
  rewrite substring_append. f_equal.
  clear. induction l as [|a l IH]; [reflexivity | exact IH].
Qed.

Lemma run_ELEMENT ind r s res :
  all_chars is_space ind = true -> stops is_space (r ++ s) = true ->
  find (fun q => starts_with q (r ++ s)) ELEMENT_ROLES = Some r ->
  run ELEMENT_TAIL (after (ind ++ "-" ++ " " ++ r) 0 None s) [(2, r); (1, ind)] final
  = Some res ->
  run ELEMENT_RE (Cursor 0 None (ind ++ "-" ++ " " ++ r ++ s)) [] final = Some res.
Proof.
  intros Hi Hs Hf H.
  change (Cursor 0 None ?x) with (after EmptyString 0 None x).
  unfold ELEMENT_RE. cbn [seqs]. unfold star at 1 2. unfold sp at 1 2.
  apply seq_first, bol_first. lazy beta.
  apply seq_first, group_first.
  apply class_first; [exact Hi | reflexivity | lia|]. lazy beta.
  apply seq_first, lit_first. lazy beta.
  apply seq_first.
  apply (class_first is_space 0 " "); [reflexivity | exact Hs | lia|]. lazy beta.
  apply seq_first, group_first.
  rewrite alts_lit_first by (intros; apply ELEMENT_TAIL_total).
  unfold after at 1. cbn [c_rest]. rewrite Hf.
  change (Cursor (0 + String.length ((("" ++ ind) ++ "-") ++ " "))
                 (last_char None ((("" ++ ind) ++ "-") ++ " ")) (r ++ s))
    with (after ((("" ++ ind) ++ "-") ++ " ") 0 None (r ++ s)).
  rewrite skip_after. rewrite <- H.
  change (run ELEMENT_TAIL ?x ?c final)
    with (run (Seq (star sp) (Seq (opt (Group 3 QUOTED)) (Seq (star sp)
           (opt (seqs [lit "[ref="; Group 4 (Seq (lit "e") (plus digit)); lit "]"])))))
           x c final).
  f_equal.
  - cbn [String.append]. rewrite !append_assoc. reflexivity.
  - repeat match goal with
    | |- _ :: _ = _ :: _ => f_equal
    | |- (_, _) = (_, _) => f_equal
    end.
    all: try (apply capture_after; cbn [String.append]; rewrite ?append_assoc; reflexivity).
Qed.

Lemma role_found r s :
  In r readRoles -> s = EmptyString \/ (exists s', s = String " " s') ->
  find (fun q => starts_with q (r ++ s)) ELEMENT_ROLES = Some r
  /\ stops is_space (r ++ s) = true.
Proof.
  intros Hin Hs. vm_compute in Hin.
  repeat (destruct Hin as [<-|Hin];
          [destruct Hs as [->|[s' ->]]; split; reflexivity|]).
  destruct Hin.
Qed.

Lemma tail_starts n o :
  namePart n ++ refText o = EmptyString
  \/ exists s', namePart n ++ refText o = String " " s'.
Proof.
  destruct n as [|a n]; [destruct o as [r|]|]; cbn [namePart refText].
  - right. eexists. reflexivity.
  - left. reflexivity.
  - right. eexists. reflexivity.
Qed.

Lemma render_shown l :
  Browser.render l = repeat_string "  " (Browser.ol_depth l) ++ "-" ++ " " ++ shown l.
Proof.
  unfold Browser.render, shown, namePart, refText.
  destruct (Browser.ol_name l); reflexivity.
Qed.

Lemma length_indent d : String.length (repeat_string "  " d) = d * 2.
Proof. induction d as [|d IH]; [reflexivity|]. cbn. rewrite IH. reflexivity. Qed.

Lemma display_dash ind r s :
  all_chars is_space ind = true -> stops is_space (r ++ s) = true ->
  replace_first DASH_RE (fun _ => EmptyString) (trimStart (ind ++ "-" ++ " " ++ r ++ s))
  = r ++ s.
Proof.
  intros Hi Hs. change ("-" ++ ?x) with (String "-" x).
  rewrite trimStart_indent by exact Hi.
  assert (Hrun : run DASH_RE (Cursor 0 None (String "-" (" " ++ r ++ s))) [] final
                 = Some (after ("" ++ "-" ++ " ") 0 None (r ++ s), [])).
  { change (Cursor 0 None ?x) with (after EmptyString 0 None x).
    unfold DASH_RE. cbn [seqs]. unfold star, sp.
    apply seq_first, bol_first. lazy beta.
    apply seq_first. apply (lit_first "-"). lazy beta.
    apply (class_first is_space 0 " "); [reflexivity | exact Hs | lia|].
    reflexivity. }
  unfold replace_first. cbn [search_from]. unfold match_at. rewrite Hrun.
  reflexivity.
Qed.

Lemma parseElement_render l :
  In (Browser.ol_role l) readRoles -> slashFree (Browser.ol_name l) = true ->
  counted (Browser.ol_ref l) ->
  parseElement (Browser.render l)
  = Some (Element (Browser.ol_role l) (Browser.ol_name l) (Browser.ol_ref l) (shown l)
                  (Browser.ol_depth l * 2)).
Proof.
  intros Hr Hn Ho. rewrite render_shown. unfold shown.
  destruct (role_found _ _ Hr (tail_starts (Browser.ol_name l) (Browser.ol_ref l)))
    as [Hf Hs].
  destruct (run_TAIL (Browser.ol_name l) (Browser.ol_ref l)
              (repeat_string "  " (Browser.ol_depth l) ++ "-" ++ " " ++ Browser.ol_role l)
              0 None [(2, Browser.ol_role l); (1, repeat_string "  " (Browser.ol_depth l))]
              Hn Ho) as [xe Hrun].
  apply run_ELEMENT in Hrun; [| apply spaces_indent | exact Hs | exact Hf].
  unfold parseElement. rewrite display_dash by (apply spaces_indent || exact Hs).
  apply exec_at_start in Hrun as (m & -> & Hc).
  unfold group_or_empty, group. rewrite Hc. f_equal.
  destruct (Browser.ol_name l) as [|a n]; destruct (Browser.ol_ref l) as [r|];
    cbn [refCaps nameCaps app lookup_cap Nat.eqb]; rewrite ?slice_quoted, ?length_indent;
    reflexivity.
Qed.

End ElementRun.

Section ElementLines.

Import Browser.

Lemma emit_slashFree nodes node mapped depth s :
  slashFreeNames nodes = true -> In node nodes ->
  Forall (fun l => slashFree (ol_name l) = true /\ counted (ol_ref l)) (lines s) ->
  Forall (fun l => slashFree (ol_name l) = true /\ counted (ol_ref l))
         (lines (emit node mapped depth s)).
Proof.
  intros Hq Hin Hs. unfold slashFreeNames in Hq. rewrite forallb_forall in Hq.
  specialize (Hq node Hin). unfold emit.
  destruct (gets_ref mapped (name node)); cbn [lines];
    (apply Forall_app; split; [exact Hs|]); (constructor; [|constructor]);
    (split; [exact Hq|]); cbn [ol_ref counted]; [|exact I].
  exists (S (refCounter s)). reflexivity.
Qed.

(** X28: the differ reads the builder's lines as they were printed.  When
    no node name holds a double quote or a backslash, every line of the
    builder's outline whose role is a role of ELEMENT_RE other than table,
    menuitemcheckbox and menuitemradio is parsed by parseElement to that
    role, the node's name, the ref of the line (none when it has none), the
    line without its indent and dash as display, and two columns of indent
    for each level of depth. *)
Theorem X28_parseElement_reads_builder (fuel : nat) (nodes : list AXNode) (s : state)
    (l : OutLine) :
  slashFreeNames nodes = true -> axTree fuel nodes = Some s -> In l (lines s) ->
  In (ol_role l) readRoles ->
  Differ.parseElement (render l)
  = Some (Differ.Element (ol_role l) (ol_name l) (ol_ref l) (shown l) (ol_depth l * 2)).
Proof.
  intros Hq Hs Hl Hr.
  assert (H : Forall (fun l => slashFree (ol_name l) = true /\ counted (ol_ref l))
                     (lines s)).
  { revert Hs. apply (axTree_preserves
      (fun st => Forall (fun l => slashFree (ol_name l) = true /\ counted (ol_ref l))
                        (lines st))); [constructor|].
    intros node mapped depth st Hin _. apply (emit_slashFree nodes); assumption. }
  rewrite Forall_forall in H. destruct (H l Hl) as [Hn Ho].
  apply parseElement_render; assumption.
Qed.

Lemma X28_parseElement_reads_builder_witness :
  Differ.parseElement (render (Line 0 "button" "Go" (Some "e1")))
  = Some (Differ.Element "button" "Go" (Some "e1") (shown (Line 0 "button" "Go" (Some "e1")))
                  (0 * 2)).
Proof.
  apply (X28_parseElement_reads_builder 3 [rootNode; buttonNode (Some 7%Z)] goState
           (Line 0 "button" "Go" (Some "e1")));
    [vm_compute; reflexivity | vm_compute; reflexivity | left; reflexivity
     | vm_compute; left; reflexivity].
Defined.

Lemma parseElement_none ind gap a s :
  all_chars is_space ind = true -> all_chars is_space gap = true ->
  is_space a = false ->
  find (fun q => starts_with q (String a s)) Differ.ELEMENT_ROLES = None ->
  Differ.parseElement (ind ++ "-" ++ gap ++ String a s) = None.
Proof.
  intros Hi Hg Ha Hf.
  destruct (Differ.parseElement (ind ++ "-" ++ gap ++ String a s)) as [el|] eqn:E;
    [exfalso | reflexivity].
  apply parseElement_role in E as (ind' & gap' & rest & E & Hi' & Hg' & Hf').
  destruct (role_first_char _ _ Hf') as (a' & s' & -> & Ha').
  change ("-" ++ ?x) with (String "-" x) in E.
  destruct (ws_split_unique ind ind' "-" "-" _ _ Hi Hi' eq_refl eq_refl E) as [_ E2].
  injection E2 as E2.
  destruct (ws_split_unique gap gap' a a' _ _ Hg Hg' Ha Ha' E2) as [_ E3].
  rewrite E3 in Hf. congruence.
Qed.

Lemma role_unread r s :
  In r unreadRoles -> s = EmptyString \/ (exists s', s = String " " s') ->
  exists a t, r ++ s = String a t /\ is_space a = false
              /\ find (fun q => starts_with q (String a t)) Differ.ELEMENT_ROLES = None.
Proof.
  intros Hin Hs. unfold unreadRoles in Hin. cbn [In] in Hin.
  repeat (destruct Hin as [<-|Hin];
          [destruct Hs as [->|[s' ->]]; eexists; eexists;
           (split; [reflexivity | split; reflexivity])|]).
  destruct Hin.
Qed.

Lemma parseElement_unread l :
  In (ol_role l) unreadRoles -> Differ.parseElement (render l) = None.
Proof.
  intros Hr. rewrite render_shown. unfold shown.
  destruct (role_unread _ _ Hr (tail_starts (ol_name l) (ol_ref l)))
    as (a & t & -> & Ha & Hf).
  apply (parseElement_none _ " "); [apply spaces_indent | reflexivity | exact Ha | exact Hf].
Qed.

(** X29: the differ has no element for a line whose role is banner,
    contentinfo, img, figure, menu, menubar, toolbar, tree, grid, status,
    alert, separator or progressbar.  Each of these is a role mapRole
    returns, so the builder prints such lines; parseElement returns nothing
    for them, whatever their name and ref. *)
Theorem X29_unread_roles (l : OutLine) :
  In (ol_role l) unreadRoles ->
  (exists cdpRole, mapRole cdpRole = Some (ol_role l))
  /\ Differ.parseElement (render l) = None.
Proof.
  intros Hr. split; [|apply parseElement_unread; exact Hr].
  assert (Hall : forallb (fun r => existsb (fun p => match mapRole (fst p) with
                                                     | Some v => String.eqb v r
                                                     | None => false
                                                     end) ROLE_MAP) unreadRoles = true)
    by (vm_compute; reflexivity).
  rewrite forallb_forall in Hall. specialize (Hall _ Hr).
  apply existsb_exists in Hall as (p & _ & H).
  destruct (mapRole (fst p)) as [v|] eqn:E; [|discriminate].
  apply String.eqb_eq in H. subst v. exists (fst p). exact E.
Qed.

Lemma X29_unread_roles_witness :
  (exists cdpRole, mapRole cdpRole = Some (ol_role alertLine))
  /\ Differ.parseElement (render alertLine) = None.
Proof.
  apply (X29_unread_roles alertLine). cbn. do 10 right. left. reflexivity.
Defined.

End ElementLines.

Section UnreadLines.

Import Differ.

Lemma omap_list_app {A B} (f : A -> option B) (a b : list A) :
  omap_list f (a ++ b) = (omap_list f a ++ omap_list f b)%list.
Proof.
  induction a as [|x a IH]; [reflexivity|]. cbn [omap_list app].
  destruct (f x); [cbn [app]; rewrite IH; reflexivity | exact IH].
Qed.

Lemma parseElements_join ls :
  forallb noLF ls = true -> parseElements (join_lines ls) = omap_list parseElement ls.
Proof.
  intros H. destruct ls as [|l ls]; [reflexivity|].
  pose proof (split_join_lines (l :: ls) ltac:(discriminate) H) as E.
  unfold parseElements. destruct (join_lines (l :: ls)) as [|a s] eqn:J.
  - rewrite <- E. reflexivity.
  - rewrite E. reflexivity.
Qed.

Lemma flags_of_elements p c1 c2 u v :
  parseElements c1 = parseElements c2 ->
  isEmpty (computeDiff p c1 u v) = isEmpty (computeDiff p c2 u v)
  /\ isLargeDiff (computeDiff p c1 u v) = isLargeDiff (computeDiff p c2 u v)
  /\ diff_stats (computeDiff p c1 u v) = diff_stats (computeDiff p c2 u v).
Proof.
  intros H. unfold computeDiff. cbn zeta. cbn [isEmpty isLargeDiff diff_stats].
  rewrite H. auto.
Qed.

(** X30: a line of a role the differ does not read makes no difference to
    it.  When an action adds such a line to the outline (an alert, a
    status, an image, a menu, a toolbar), and the elements that carry the
    same ref carry the same name, the agent is told that nothing changed. *)
Theorem X30_unread_line_unseen (result prevUrl currentUrl : string)
    (above below : list string) (l : Browser.OutLine) :
  In (Browser.ol_role l) unreadRoles ->
  forallb noLF (above ++ Browser.render l :: below) = true ->
  refsAgree (parseElements (join_lines (above ++ below))) = true ->
  parseElements (join_lines (above ++ Browser.render l :: below))
  = parseElements (join_lines (above ++ below))
  /\ Agent.observe result (join_lines (above ++ below))
                   (join_lines (above ++ Browser.render l :: below)) prevUrl currentUrl
     = "Action: " ++ result ++ NL ++ "No visible changes on the page.".
Proof.
  intros Hr Hlf Hag.
  assert (Hlf' : forallb noLF (above ++ below) = true).
  { rewrite forallb_app in Hlf |- *. cbn [forallb] in Hlf.
    apply andb_true_iff in Hlf as [H1 H2]. apply andb_true_iff in H2 as [_ H2].
    rewrite H1, H2. reflexivity. }
  assert (E : parseElements (join_lines (above ++ Browser.render l :: below))
              = parseElements (join_lines (above ++ below))).
  { rewrite !parseElements_join by assumption. rewrite !omap_list_app.
    cbn [omap_list]. rewrite (parseElement_unread l Hr). reflexivity. }
  split; [exact E|].
  unfold Agent.observe, Agent.observation.
  destruct (flags_of_elements (join_lines (above ++ below)) _ _ prevUrl currentUrl E)
    as [-> _].
  rewrite self_isEmpty, Hag. reflexivity.
Qed.

Lemma X30_unread_line_unseen_witness :
  parseElements (join_lines (["- button " ++ Quote ++ "Go" ++ Quote ++ " [ref=e1]"]
                             ++ Browser.render alertLine :: []))
  = parseElements (join_lines (["- button " ++ Quote ++ "Go" ++ Quote ++ " [ref=e1]"] ++ []))
  /\ Agent.observe "Clicked"
       (join_lines (["- button " ++ Quote ++ "Go" ++ Quote ++ " [ref=e1]"] ++ []))
       (join_lines (["- button " ++ Quote ++ "Go" ++ Quote ++ " [ref=e1]"]
                    ++ Browser.render alertLine :: [])) "a" "a"
     = "Action: " ++ "Clicked" ++ NL ++ "No visible changes on the page.".
Proof.
  apply (X30_unread_line_unseen "Clicked" "a" "a"
           ["- button " ++ Quote ++ "Go" ++ Quote ++ " [ref=e1]"] [] alertLine);
    [cbn; do 10 right; left; reflexivity | vm_compute; reflexivity
     | vm_compute; reflexivity].
Defined.

End UnreadLines.

(* ====================================================================== *)
(** * smartTruncate, whatever was counted before *)
(* ====================================================================== *)

Section CountedGroups.

Import Optimizer.

Lemma key_eqb_eq a b : key_eqb a b = true <-> a = b.
Proof.
  destruct a as [n r], b as [m q]. unfold key_eqb. cbn [fst snd].
  rewrite andb_true_iff, Nat.eqb_eq, String.eqb_eq. split.
  - intros [-> ->]. reflexivity.
  - intros E. injection E as -> ->. auto.
Qed.

Lemma key_eqb_trans_false a b c :
  key_eqb a b = true -> key_eqb a c = false -> key_eqb b c = false.
Proof.
  intros Hab Hac. apply key_eqb_eq in Hab. subst b. exact Hac.
Qed.

Lemma tracker_count_set_other k k' n t :
  key_eqb k' k = false -> tracker_count k (tracker_set k' n t) = tracker_count k t.
Proof.
  intros Hk. induction t as [|[k0 m] t IH]; cbn [tracker_set tracker_count].
  - rewrite Hk. reflexivity.
  - destruct (key_eqb k0 k') eqn:E0; cbn [tracker_count].
    + apply key_eqb_eq in E0. subst k0. rewrite Hk. reflexivity.
    + destruct (key_eqb k0 k); [reflexivity | exact IH].
Qed.

Lemma keyCount_cons k l ls :
  keyCount k (l :: ls)
  = match lineKey l with
    | Some k' => if key_eqb k' k then S (keyCount k ls) else keyCount k ls
    | None => keyCount k ls
    end.
Proof.
  unfold keyCount. cbn [filter]. destruct (lineKey l) as [k'|].
  - destruct (key_eqb k' k) eqn:E.
    + apply key_eqb_eq in E. subst k'. rewrite bool_decide_eq_true_2 by reflexivity.
      reflexivity.
    + rewrite bool_decide_eq_false_2; [reflexivity|].
      intros H. injection H as ->. rewrite (proj2 (key_eqb_eq k k) eq_refl) in E.
      discriminate.
  - rewrite bool_decide_eq_false_2 by discriminate. reflexivity.
Qed.

(** Lines that stay within the limit come out as they are. *)
Lemma loop_within mx pre : forall t rest,
  (forall l k, In l pre -> lineKey l = Some k ->
               tracker_count k t + keyCount k pre <= mx) ->
  exists t',
    smartTruncate_loop mx 0 t (pre ++ rest)%list
    = (pre ++ smartTruncate_loop mx 0 t' rest)%list
    /\ forall k, tracker_count k t' = tracker_count k t + keyCount k pre.
Proof.
  induction pre as [|l pre IH]; intros t rest H.
  - exists t. split; [reflexivity|]. intros k. cbn. lia.
  - cbn [app smartTruncate_loop].
    destruct (lineKey l) as [k|] eqn:Ek.
    + unfold lineKey in Ek. destruct (parseLine l) as [p|] eqn:Hp; [|discriminate].
      destruct (tracked (role p)) eqn:Ht; [|discriminate]. injection Ek as Ek.
      assert (Hk : lineKey l = Some k) by (unfold lineKey; rewrite Hp, Ht, Ek; reflexivity).
      rewrite Ek.
      pose proof (H l k (or_introl eq_refl) Hk) as Hl.
      rewrite keyCount_cons, Hk, (proj2 (key_eqb_eq k k) eq_refl) in Hl.
      assert ((S (tracker_count k t) <=? mx) = true) as -> by (apply Nat.leb_le; lia).
      destruct (IH (tracker_set k (S (tracker_count k t)) t) rest) as (t' & Hloop & Hcnt).
      { intros l' k' Hin Hk'. specialize (H l' k' (or_intror Hin) Hk').
        rewrite keyCount_cons, Hk in H.
        destruct (key_eqb k k') eqn:E.
        - apply key_eqb_eq in E. subst k'. rewrite tracker_count_set. lia.
        - rewrite tracker_count_set_other by exact E. exact H. }
      exists t'. split; [rewrite Hloop; reflexivity|].
      intros k'. rewrite Hcnt, keyCount_cons, Hk.
      destruct (key_eqb k k') eqn:E.
      * apply key_eqb_eq in E. subst k'. rewrite tracker_count_set. lia.
      * rewrite tracker_count_set_other by exact E. reflexivity.
    + destruct (IH t rest) as (t' & Hloop & Hcnt).
      { intros l' k' Hin Hk'. specialize (H l' k' (or_intror Hin) Hk').
        rewrite keyCount_cons, Ek in H. exact H. }
      exists t'. split.
      * unfold lineKey in Ek.
        destruct (parseLine l) as [p|]; [|rewrite Hloop; reflexivity].
        destruct (tracked (role p)); [discriminate | rewrite Hloop; reflexivity].
      * intros k'. rewrite Hcnt, keyCount_cons, Ek. reflexivity.
Qed.

Lemma keyCount_app k a b : keyCount k (a ++ b) = keyCount k a + keyCount k b.
Proof. unfold keyCount. rewrite filter_app, length_app. reflexivity. Qed.

Lemma isItem_key d l : isItem d l = true -> lineKey l = Some (d, "listitem").
Proof.
  intros H. apply isItem_inv in H as (p & Hp & Hr & Hd).
  unfold lineKey. rewrite Hp, Hr, Hd. reflexivity.
Qed.

Lemma keyCount_items d bs :
  forallb (itemBlock d) bs = true -> List.length bs <= keyCount (d, "listitem") (flatten bs).
Proof.
  induction bs as [|[l below] bs IH]; intros H; [cbn; lia|].
  cbn [forallb] in H. apply andb_true_iff in H as [Hb Hbs].
  unfold itemBlock in Hb. apply andb_true_iff in Hb as [Hi _]. cbn [fst] in Hi.
  rewrite flatten_cons. cbn [fst snd]. rewrite keyCount_cons, (isItem_key d l Hi).
  rewrite (proj2 (key_eqb_eq _ _) eq_refl), keyCount_app.
  specialize (IH Hbs). cbn [List.length]. lia.
Qed.

Lemma blockEnds_notDeeper d post : blockEnds d post = true -> notDeeper d post.
Proof.
  destruct post as [|l post]; [intros _; exact I|]. cbn. intros H.
  apply Nat.leb_le in H. exact H.
Qed.

Lemma siblingGroup_blocks d bs post :
  forallb (itemBlock d) bs = true ->
  siblingGroup d (flatten bs ++ post)%list = (flatten bs ++ siblingGroup d post)%list.
Proof.
  intros Hbs. induction bs as [|[l below] bs IH]; [reflexivity|].
  cbn [forallb] in Hbs. apply andb_true_iff in Hbs as [Hb Hbs].
  unfold itemBlock in Hb. apply andb_true_iff in Hb as [Hi Hbelow]. cbn [fst snd] in Hi, Hbelow.
  apply isItem_inv in Hi as (p & _ & _ & Hl).
  rewrite flatten_cons. cbn [fst snd app siblingGroup].
  assert ((indentLevel l <? d) = false) as -> by (apply Nat.ltb_ge; lia).
  f_equal. rewrite <- !app_assoc. clear Hl.
  induction below as [|b below IHb]; [exact (IH Hbs)|].
  cbn [forallb] in Hbelow. apply andb_true_iff in Hbelow as [Hb' Hbelow]. unfold deeper in Hb'.
  apply Nat.ltb_lt in Hb'. cbn [app siblingGroup].
  assert ((indentLevel b <? d) = false) as -> by (apply Nat.ltb_ge; lia).
  f_equal. exact (IHb Hbelow).
Qed.

Lemma countSiblings_blocks d bs post :
  forallb (itemBlock d) bs = true ->
  countSiblings d "listitem" (flatten bs ++ post)%list
  = List.length bs + countSiblings d "listitem" post.
Proof.
  intros Hbs. induction bs as [|[l below] bs IH]; [reflexivity|].
  cbn [forallb] in Hbs. apply andb_true_iff in Hbs as [Hb Hbs].
  unfold itemBlock in Hb. apply andb_true_iff in Hb as [Hi Hbelow]. cbn [fst snd] in Hi, Hbelow.
  apply isItem_inv in Hi as (p & Hp & Hr & Hl).
  rewrite flatten_cons. cbn [fst snd app countSiblings List.length].
  rewrite Hl, Nat.ltb_irrefl, Nat.eqb_refl, Hp, Hr. cbn [String.eqb Ascii.eqb Bool.eqb].
  cbn [Nat.add]. f_equal. rewrite <- app_assoc.
  induction below as [|b below IHb]; [exact (IH Hbs)|].
  cbn [forallb] in Hbelow. apply andb_true_iff in Hbelow as [Hb' Hbelow]. unfold deeper in Hb'.
  apply Nat.ltb_lt in Hb'. cbn [app countSiblings].
  assert ((indentLevel b <? d) = false) as -> by (apply Nat.ltb_ge; lia).
  assert ((indentLevel b =? d) = false) as -> by (apply Nat.eqb_neq; lia).
  exact (IHb Hbelow).
Qed.

Lemma notDeeper_blocks d bs post :
  forallb (itemBlock d) bs = true -> notDeeper d post ->
  notDeeper d (flatten bs ++ post)%list.
Proof.
  intros Hbs Hpost. destruct bs as [|[l below] bs]; [exact Hpost|].
  cbn [forallb] in Hbs. apply andb_true_iff in Hbs as [Hb _].
  unfold itemBlock in Hb. apply andb_true_iff in Hb as [Hi _]. cbn [fst] in Hi.
  apply isItem_inv in Hi as (p & _ & _ & Hd). rewrite flatten_cons.
  cbn [fst snd app notDeeper]. lia.
Qed.

(** Items past the summary go, subtrees included, whatever follows them. *)
Lemma loop_dropped_blocks mx d dropped post t :
  forallb (itemBlock d) dropped = true ->
  notDeeper d post ->
  mx + 1 <= tracker_count (d, "listitem") t ->
  exists t',
    smartTruncate_loop mx 0 t (flatten dropped ++ post)%list
    = smartTruncate_loop mx 0 t' post.
Proof.
  revert t. induction dropped as [|[l below] dropped IH]; intros t Hd Hpost Hc.
  - exists t. reflexivity.
  - cbn [forallb] in Hd. apply andb_true_iff in Hd as [Hb Hd].
    pose proof (notDeeper_blocks d dropped post Hd Hpost) as Hnd.
    unfold itemBlock in Hb. apply andb_true_iff in Hb as [Hi Hbelow]. cbn [fst snd] in Hi, Hbelow.
    apply isItem_inv in Hi as (p & Hp & Hr & Hl).
    destruct (IH (tracker_set (d, "listitem") (S (tracker_count (d, "listitem") t)) t)
                 Hd Hpost) as (t' & Hloop).
    { rewrite tracker_count_set. lia. }
    exists t'.
    rewrite flatten_cons. cbn [fst snd app]. cbn [smartTruncate_loop].
    rewrite Hp, Hr, Hl. cbn [tracked String.eqb Ascii.eqb Bool.eqb orb].
    assert ((S (tracker_count (d, "listitem") t) <=? mx) = false) as ->
      by (apply Nat.leb_gt; lia).
    assert ((S (tracker_count (d, "listitem") t) =? mx + 1) = false) as ->
      by (apply Nat.eqb_neq; lia).
    rewrite <- !app_assoc.
    rewrite (subtree_lines_block d below _ Hbelow Hnd), loop_skip.
    exact Hloop.
Qed.

(** The loop on a group longer than the limit, when no key has been
    counted past the limit before the first item that goes. *)
Lemma smartTruncate_counted mx d header kept dropped post :
  forallb (itemBlock d) kept = true -> List.length kept = mx -> 0 < mx ->
  forallb (itemBlock d) dropped = true -> dropped <> [] ->
  blockEnds d post = true ->
  withinLimit mx (header ++ flatten kept) = true ->
  exists t,
    smartTruncate_lines mx (header ++ flatten kept ++ flatten dropped ++ post)%list
    = (header ++ flatten kept
       ++ summaryLine d (List.length dropped + countSiblings d "listitem" post) "listitem"
            (refNote (collectRefs (flatten dropped ++ siblingGroup d post)))
       :: smartTruncate_loop mx 0 t post)%list.
Proof.
  intros Hk Hlen Hpos Hd Hne Hpost Hw. unfold smartTruncate_lines.
  apply blockEnds_notDeeper in Hpost.
  unfold withinLimit in Hw. rewrite forallb_forall in Hw.
  destruct (loop_within mx (header ++ flatten kept) [] (flatten dropped ++ post)%list)
    as (t & Hloop & Hcnt).
  { intros l k Hin Hkey. specialize (Hw l Hin). rewrite Hkey in Hw.
    apply Nat.leb_le in Hw. cbn [tracker_count]. lia. }
  assert (Hfive : tracker_count (d, "listitem") t = mx).
  { rewrite Hcnt. cbn [tracker_count Nat.add].
    pose proof (keyCount_items d kept Hk) as Hlow.
    rewrite keyCount_app. rewrite Hlen in Hlow.
    destruct kept as [|[l below] kept]; [cbn in Hlen; lia|].
    cbn [forallb] in Hk. apply andb_true_iff in Hk as [Hb _].
    unfold itemBlock in Hb. apply andb_true_iff in Hb as [Hi _]. cbn [fst] in Hi.
    assert (Hin : In l (header ++ flatten ((l, below) :: kept))%list).
    { apply in_or_app. right. rewrite flatten_cons. left. reflexivity. }
    specialize (Hw l Hin). rewrite (isItem_key d l Hi) in Hw.
    apply Nat.leb_le in Hw. rewrite keyCount_app in Hw. lia. }
  rewrite <- app_assoc in Hloop. rewrite Hloop. clear Hloop Hcnt Hw.
  destruct dropped as [|[l below] dropped]; [congruence|].
  pose proof (siblingGroup_blocks d _ post Hd) as Hsg.
  pose proof (countSiblings_blocks d _ post Hd) as Hcs.
  cbn [forallb] in Hd. apply andb_true_iff in Hd as [Hb Hd].
  pose proof (notDeeper_blocks d dropped post Hd Hpost) as Hnd.
  unfold itemBlock in Hb. apply andb_true_iff in Hb as [Hi Hbelow]. cbn [fst snd] in Hi, Hbelow.
  apply isItem_inv in Hi as (p & Hp & Hr & Hl).
  destruct (loop_dropped_blocks mx d dropped post
              (tracker_set (d, "listitem") (S (tracker_count (d, "listitem") t)) t)
              Hd Hpost) as (t' & Hdrop).
  { rewrite tracker_count_set. lia. }
  exists t'. rewrite <- app_assoc. f_equal. f_equal.
  rewrite flatten_cons in *. cbn [fst snd app] in *.
  cbn [smartTruncate_loop].
  rewrite Hp, Hr, Hl. cbn [tracked String.eqb Ascii.eqb Bool.eqb orb].
  assert ((S (tracker_count (d, "listitem") t) <=? mx) = false) as ->
    by (apply Nat.leb_gt; lia).
  assert ((S (tracker_count (d, "listitem") t) =? mx + 1) = true) as ->
    by (apply Nat.eqb_eq; lia).
  rewrite Hsg, Hcs. f_equal. rewrite <- !app_assoc.
  rewrite (subtree_lines_block d below _ Hbelow Hnd), loop_skip. exact Hdrop.
Qed.

(** C9, amended: an outline, its white space that of ASCII, with twenty
    sibling listitems at one indent level, on which no listitem, row or
    article role has been counted more than five times at one level from
    the first line to the subtree of the fifth of the twenty, comes out of
    smartTruncate with maxItems = 5 as
    the lines before the list, the first five items with their subtrees,
    one summary line, and what the loop makes of the lines after the
    twentieth item, which are those lines themselves when they hold no
    listitem, row or article.  The summary line is, at the indent of the
    items, [- text] and in quotes [... and 15 more listitems] followed by
    the note: nothing when the lines from the sixth item to the end of the
    sibling group carry no ref, otherwise the number of their refs and the
    first three of them; it matches the pattern of the scenario.  The
    fifteen items past the fifth and their subtrees are not put out. *)
Theorem C9_smartTruncate_twenty (d : nat) (header : list string)
    (kept dropped : list block) (post : list string) :
  forallb (itemBlock d) kept = true -> List.length kept = 5 ->
  forallb (itemBlock d) dropped = true -> List.length dropped = 15 ->
  blockEnds d post = true -> countSiblings d "listitem" post = 0 ->
  withinLimit 5 (header ++ flatten kept) = true ->
  forallb noLF (header ++ flatten kept ++ flatten dropped ++ post)%list = true ->
  asciiSpaces (join_lines (header ++ flatten kept ++ flatten dropped ++ post)%list) = true ->
  let note := refNote (collectRefs (flatten dropped ++ siblingGroup d post)) in
  (exists t,
      smartTruncate (join_lines (header ++ flatten kept ++ flatten dropped ++ post)%list) 5
      = join_lines (header ++ flatten kept
                    ++ summaryLine d 15 "listitem" note :: smartTruncate_loop 5 0 t post)%list
      /\ (forallb untracked post = true -> smartTruncate_loop 5 0 t post = post))
  /\ summaryLine d 15 "listitem" note
     = repeat_string " " (d * 2) ++ "- text " ++ Quote ++ "... and 15 more listitems"
       ++ note ++ Quote
  /\ test SUMMARY_RE (summaryLine d 15 "listitem" note) = true.
Proof.
  intros Hk Hlk Hd Hld Hpost Hnone Hw Hlf _ note.
  split; [|split; [reflexivity | apply summary_matches, collectRefs_tokens]].
  destruct (smartTruncate_counted 5 d header kept dropped post Hk Hlk) as (t & Ht);
    [lia | exact Hd | intros ->; discriminate | exact Hpost | exact Hw |].
  exists t. split.
  - unfold smartTruncate. rewrite split_join_lines.
    + rewrite Ht, Hld, Hnone. reflexivity.
    + destruct kept; [discriminate|]. destruct header; discriminate.
    + exact Hlf.
  - intros Hu. pose proof (loop_untracked 5 t post [] Hu) as H.
    rewrite !app_nil_r in H. exact H.
Qed.

(** C9 as stated fails where the count has passed five before the fifth of
    the twenty: a listitem of another list at the level of the twenty
    leaves four of them and a summary of sixteen; a list of six below the
    first of the twenty is cut as well, so that the summary lines are two
    and the first of the twenty comes without the last line of its
    subtree. *)
Lemma C9_counterexample :
  (smartTruncate (join_lines earlierItem) 5
   = join_lines (["- list"; plainItem "x"; "- list"] ++ flatten (itemBlocks 1 4)
                 ++ [summary16])%list
   /\ test SUMMARY_RE summary16 = false
   /\ forallb (fun l => negb (String.eqb l (itemLine 5)))
              (split_lines (smartTruncate (join_lines earlierItem) 5)) = true)
  /\ (smartTruncate (join_lines nestedItems) 5 = join_lines nestedOutput
      /\ List.length (filter (test SUMMARY_START_RE) nestedOutput) = 2
      /\ forallb (fun l => negb (String.eqb l (innerItem 6))) nestedOutput = true).
Proof. vm_compute. auto. Qed.

Lemma C9_smartTruncate_twenty_witness :
  smartTruncate (join_lines inputS6) 5 = join_lines outputS6
  /\ test SUMMARY_RE summaryS6 = true.
Proof.
  split; [|vm_compute; reflexivity].
  assert (H2 : forallb (itemBlock 1) (itemBlocks 1 5) = true) by (vm_compute; reflexivity).
  assert (H3 : List.length (itemBlocks 1 5) = 5) by reflexivity.
  assert (H4 : forallb (itemBlock 1) (itemBlocks 6 15) = true) by (vm_compute; reflexivity).
  assert (H5 : List.length (itemBlocks 6 15) = 15) by reflexivity.
  assert (H6 : blockEnds 1 [nextButton] = true) by (vm_compute; reflexivity).
  assert (H6' : countSiblings 1 "listitem" [nextButton] = 0) by (vm_compute; reflexivity).
  assert (H7 : withinLimit 5 (["- list"] ++ flatten (itemBlocks 1 5)) = true)
    by (vm_compute; reflexivity).
  assert (H8 : forallb noLF inputS6 = true) by (vm_compute; reflexivity).
  assert (H9 : asciiSpaces (join_lines inputS6) = true) by (vm_compute; reflexivity).
  destruct (C9_smartTruncate_twenty 1 ["- list"] (itemBlocks 1 5) (itemBlocks 6 15)
              [nextButton] H2 H3 H4 H5 H6 H6' H7 H8 H9) as ((t & H & Hpost) & _ & _).
  unfold inputS6. rewrite H, Hpost by (vm_compute; reflexivity).
  vm_compute. reflexivity.
Defined.

End CountedGroups.

(* ====================================================================== *)
(** * The refs the reducers keep *)
(* ====================================================================== *)

Section TagKept.

Import Optimizer.










(** ** The first tag goes to the first placeholder *)



(** ** The steps between leave the placeholder where it is *)
















(** ** The first placeholder gets the first tag back *)








End TagKept.

Section LinksKept.

Import Optimizer.








End LinksKept.

Section LinesKept.

Import Optimizer.









End LinesKept.

(* ====================================================================== *)
(** * optimizeAll on calm outlines *)
(* ====================================================================== *)

Section PruneFixed.

Import Optimizer.










End PruneFixed.

Section QuietNames.

Import Optimizer.





















End QuietNames.

Section CalmPipeline.

Import Optimizer.






(** *** The final step on lines that are not empty *)








(** *** dedupLinks where the links are apart *)











(** *** The lines that pass *)











End CalmPipeline.
